(** * epstl: ordered map, point quadtree, region quadtree and pipeline

    A shallow embedding of the containers of the epstl library and of its
    staged pipeline, followed by the properties of the specification that
    were checked against it.

    Conventions.
    - A node pointer of the map is an address into an explicit store; the null
      pointer is [None].  Dereferencing the null pointer or a freed address
      is undefined behaviour in C++ and is the outcome [Fault] here.
    - Recursive C++ functions take a [fuel] argument; running out of it is
      the separate outcome [Timeout], never confused with [Fault].
    - [size_t] is a 64-bit unsigned integer, [short] a 16-bit signed one;
      both are integers of [Z] with the wrap-around written out.  The
      counter of the pipeline is a [std::atomic_size_t], of 64 bits; the
      [epstl::size_t] of the containers is [uint32_t] when the library is
      built with its own containers, so the general theorems on the map and
      on the quadtrees bound every count by 2^32 (the map: 2^15 where the
      [short] difference of heights matters) and hold for both widths.
    - The coordinate type [key_t] of the quadtrees is instantiated with
      [int]; coordinates are integers of [Z], and the conversion of a
      [double] to [int] truncates toward zero ([Z.quot]).  Sums and
      differences of coordinates are those of [Z]: the general theorems on
      the quadtrees assume [coordinates_fit], under which every sum the
      code forms is an [int]. *)

From Stdlib Require Import ZArith List Bool Lia.
From stdpp Require Import gmap.
Import ListNotations.

Local Open Scope Z_scope.

(** ** Machine integers *)

(** A [size_t] of 64 bits.  The theorems that hold for the 32-bit
    [epstl::size_t] as well keep the values below 2^32, where the two
    agree. *)
Definition size_t_wrap (z : Z) : Z := z mod 2 ^ 64.

Definition short_of_size_t (z : Z) : Z :=
  let m := z mod 2 ^ 16 in
  if m <? 2 ^ 15 then m else m - 2 ^ 16.

(** epstl::max, math.hpp *)
Definition max (a b : Z) : Z := if a >? b then a else b.

(** ** Outcomes of a run of stateful code *)

Inductive outcome (S A : Type) : Type :=
| Ok (a : A) (s : S)
| Fault
| Timeout.
Arguments Ok {S A} a s.
Arguments Fault {S A}.
Arguments Timeout {S A}.

Definition ST (S A : Type) : Type := S -> outcome S A.

Definition ret {S A} (a : A) : ST S A := fun s => Ok a s.

Definition bind {S A B} (m : ST S A) (k : A -> ST S B) : ST S B :=
  fun s => match m s with
           | Ok a s' => k a s'
           | Fault => Fault
           | Timeout => Timeout
           end.

Definition fault {S A} : ST S A := fun _ => Fault.
Definition timeout {S A} : ST S A := fun _ => Timeout.
Definition gets {S A} (f : S -> A) : ST S A := fun s => Ok (f s) s.
Definition modify {S} (f : S -> S) : ST S unit := fun s => Ok tt (f s).

Declare Scope st_scope.
Delimit Scope st_scope with st.
Notation "'do' x <- m ; k" := (bind m (fun x => k))
  (at level 10, x name, m at level 100, k at level 200,
   format "'[v' 'do'  x  <-  m ; '/' k ']'") : st_scope.
Notation "m ;; k" := (bind m (fun _ => k))
  (at level 100, k at level 200, right associativity) : st_scope.

(** [when b m]: [if (b) m;] *)
Definition when {S} (b : bool) (m : ST S unit) : ST S unit :=
  if b then m else ret tt.

(** ** The ordered map (map.hpp) *)

Module map.

Local Open Scope st_scope.

(** A node pointer: an address, or [None] for [nullptr]. *)
Definition ptr : Type := option nat.

Definition ptr_eqb (p q : ptr) : bool :=
  match p, q with
  | Some a, Some b => Nat.eqb a b
  | None, None => true
  | _, _ => false
  end.

Definition is_null (p : ptr) : bool :=
  match p with None => true | Some _ => false end.

(** [key_t] and [item_t] are instantiated with [int]; [operator==] on keys
    is [Z.eqb]. *)
Record node_t : Type := mk_node {
  left_node : ptr;
  right_node : ptr;
  parent : ptr;
  content : Z * Z
}.

Record map_t : Type := mk_map {
  store : gmap nat node_t;      (* the nodes allocated with [new] *)
  next_addr : nat;              (* the next address [new] hands out *)
  m_less_operator : Z -> Z -> bool;
  m_size : Z;
  m_root : ptr
}.

(** [map() = default]: [m_less_operator = &less], [m_size = 0],
    [m_root = nullptr]. *)
Definition empty : map_t :=
  {| store := ∅; next_addr := 0%nat; m_less_operator := Z.ltb;
     m_size := 0; m_root := None |}.

Definition M (A : Type) : Type := ST map_t A.

(** [*p] *)
Definition load (p : ptr) : M node_t :=
  fun s => match p with
           | None => Fault
           | Some a => match store s !! a with
                       | Some n => Ok n s
                       | None => Fault
                       end
           end.

(** [*p = n] for an allocated [p] *)
Definition write (p : ptr) (n : node_t) : M unit :=
  fun s => match p with
           | None => Fault
           | Some a =>
               match store s !! a with
               | Some _ =>
                   Ok tt {| store := <[a := n]> (store s);
                            next_addr := next_addr s;
                            m_less_operator := m_less_operator s;
                            m_size := m_size s; m_root := m_root s |}
               | None => Fault
               end
           end.

Definition get_left (p : ptr) : M ptr := do n <- load p; ret (left_node n).
Definition get_right (p : ptr) : M ptr := do n <- load p; ret (right_node n).
Definition get_parent (p : ptr) : M ptr := do n <- load p; ret (parent n).
Definition get_key (p : ptr) : M Z := do n <- load p; ret (fst (content n)).

Definition set_left (p q : ptr) : M unit :=
  do n <- load p;
  write p {| left_node := q; right_node := right_node n;
             parent := parent n; content := content n |}.
Definition set_right (p q : ptr) : M unit :=
  do n <- load p;
  write p {| left_node := left_node n; right_node := q;
             parent := parent n; content := content n |}.
Definition set_parent (p q : ptr) : M unit :=
  do n <- load p;
  write p {| left_node := left_node n; right_node := right_node n;
             parent := q; content := content n |}.

Definition set_root (p : ptr) : M unit :=
  modify (fun s => {| store := store s; next_addr := next_addr s;
                      m_less_operator := m_less_operator s;
                      m_size := m_size s; m_root := p |}).

Definition set_size (z : Z) : M unit :=
  modify (fun s => {| store := store s; next_addr := next_addr s;
                      m_less_operator := m_less_operator s;
                      m_size := z; m_root := m_root s |}).

(** [m_size++] and [m_size--] *)
Definition incr_size : M unit :=
  do z <- gets m_size; set_size (size_t_wrap (z + 1)).
Definition decr_size : M unit :=
  do z <- gets m_size; set_size (size_t_wrap (z - 1)).

(** [new node_t] followed by the assignments of key, item and parent *)
Definition new_node (key item : Z) (par : ptr) : M ptr :=
  fun s =>
    let a := next_addr s in
    Ok (Some a)
       {| store := <[a := {| left_node := None; right_node := None;
                             parent := par; content := (key, item) |}]>
                     (store s);
          next_addr := S a;
          m_less_operator := m_less_operator s;
          m_size := m_size s; m_root := m_root s |}.

(** [delete p] for a non-null [p] *)
Definition delete_node (p : ptr) : M unit :=
  fun s => match p with
           | None => Ok tt s
           | Some a =>
               match store s !! a with
               | Some _ =>
                   Ok tt {| store := delete a (store s);
                            next_addr := next_addr s;
                            m_less_operator := m_less_operator s;
                            m_size := m_size s; m_root := m_root s |}
               | None => Fault
               end
           end.

(** [map::height] on a node pointer *)
Fixpoint height (fuel : nat) (root : ptr) : M Z :=
  match fuel with
  | O => timeout
  | S fuel =>
      if is_null root then ret 0
      else
        do l <- get_left root;
        do hl <- height fuel l;
        do r <- get_right root;
        do hr <- height fuel r;
        ret (size_t_wrap (max hl hr + 1))
  end.

(** [map::min_node], [map::max_node] *)
Fixpoint min_node (fuel : nat) (node : ptr) : M ptr :=
  match fuel with
  | O => timeout
  | S fuel =>
      do l <- get_left node;
      if negb (is_null l) then min_node fuel l else ret node
  end.

Fixpoint max_node (fuel : nat) (node : ptr) : M ptr :=
  match fuel with
  | O => timeout
  | S fuel =>
      do r <- get_right node;
      if negb (is_null r) then max_node fuel r else ret node
  end.

(** [map::left_rotate] *)
Definition left_rotate (node : ptr) : M unit :=
  if is_null node then ret tt
  else
    do pivot <- get_right node;
    if is_null pivot then ret tt
    else
      do pl <- get_left pivot;
      set_right node pl;;
      do nr <- get_right node;
      when (negb (is_null nr)) (set_parent nr node);;
      set_left pivot node;;
      do node_parent <- get_parent node;
      (if negb (is_null node_parent) then
         do ppl <- get_left node_parent;
         if ptr_eqb ppl node then set_left node_parent pivot
         else set_right node_parent pivot
       else set_root pivot);;
      set_parent node pivot;;
      set_parent pivot node_parent.

(** [map::right_rotate] *)
Definition right_rotate (node : ptr) : M unit :=
  if is_null node then ret tt
  else
    do pivot <- get_left node;
    if is_null pivot then ret tt
    else
      do pr <- get_right pivot;
      set_left node pr;;
      do nl <- get_left node;
      when (negb (is_null nl)) (set_parent nl node);;
      set_right pivot node;;
      do node_parent <- get_parent node;
      (if negb (is_null node_parent) then
         do ppl <- get_left node_parent;
         if ptr_eqb ppl node then set_left node_parent pivot
         else set_right node_parent pivot
       else set_root pivot);;
      set_parent node pivot;;
      set_parent pivot node_parent.

(** [short diff = height(node->left_node) - height(node->right_node);] *)
Definition height_diff (fuel : nat) (node : ptr) : M Z :=
  do l <- get_left node;
  do hl <- height fuel l;
  do r <- get_right node;
  do hr <- height fuel r;
  ret (short_of_size_t (size_t_wrap (hl - hr))).

(** [map::balance_node] *)
Definition balance_node (fuel : nat) (node : ptr) : M unit :=
  if is_null node then ret tt
  else
    do diff <- height_diff fuel node;
    if diff <? -1 then left_rotate node
    else if diff >? 1 then right_rotate node
    else ret tt.

(** [map::insert_recursive] *)
Fixpoint insert_recursive (fuel : nat) (current_node : ptr) (key item : Z)
  : M bool :=
  match fuel with
  | O => timeout
  | S fuel' =>
      do k <- get_key current_node;
      if k =? key then ret false
      else
        do less <- gets m_less_operator;
        do child <- (if less key k then get_left current_node
                     else get_right current_node);
        if negb (is_null child) then
          (* current_node = child; recursive call; balance_node(current_node) *)
          do inserted <- insert_recursive fuel' child key item;
          if negb inserted then ret false
          else balance_node fuel child;; ret true
        else
          do new <- new_node key item current_node;
          (if less key k then set_left current_node new
           else set_right current_node new);;
          incr_size;;
          ret true
  end.

(** [map::insert] *)
Definition insert (fuel : nat) (key item : Z) : M bool :=
  do root <- gets m_root;
  if is_null root then
    do new <- new_node key item None;
    set_root new;;
    incr_size;;
    ret true
  else
    do inserted <- insert_recursive fuel root key item;
    if negb inserted then ret false
    else
      do root <- gets m_root;
      do diff <- height_diff fuel root;
      (if diff <? -1 then do r <- gets m_root; left_rotate r
       else if diff >? 1 then do r <- gets m_root; right_rotate r
       else ret tt);;
      ret true.

(** [map::search] *)
Fixpoint search_from (fuel : nat) (current_node : ptr) (key : Z) : M ptr :=
  match fuel with
  | O => timeout
  | S fuel =>
      if is_null current_node then ret None
      else
        do k <- get_key current_node;
        if k =? key then ret current_node
        else
          do less <- gets m_less_operator;
          if less key k then
            do l <- get_left current_node; search_from fuel l key
          else
            do r <- get_right current_node; search_from fuel r key
  end.

Definition search (fuel : nat) (key : Z) : M ptr :=
  do root <- gets m_root; search_from fuel root key.

(** [map::at] (mutable overload): the item found, or [None] for [nullptr] *)
Definition at_ (fuel : nat) (key : Z) : M (option Z) :=
  do node <- search fuel key;
  if negb (is_null node) then do n <- load node; ret (Some (snd (content n)))
  else ret None.

(** The tail shared by the branches of [erase_recursive] that rewire the
    parent of [current_node] to [repl]:
    [if (current_node->parent->left_node == current_node) ... else if ...] *)
Definition replace_in_parent (current_node repl : ptr) : M unit :=
  do par <- get_parent current_node;
  do pl <- get_left par;
  if ptr_eqb pl current_node then set_left par repl
  else
    do pr <- get_right par;
    if ptr_eqb pr current_node then set_right par repl
    else ret tt.

(** [map::erase_recursive] *)
Fixpoint erase_recursive (fuel : nat) (current_node : ptr) (key : Z) : M bool :=
  match fuel with
  | O => timeout
  | S fuel' =>
      if is_null current_node then ret false
      else
        do k <- get_key current_node;
        if k =? key then
          do l <- get_left current_node;
          do r <- get_right current_node;
          (if negb (is_null l) || negb (is_null r) then
             if is_null l then
               (* only the right node *)
               replace_in_parent current_node r;;
               do r' <- get_right current_node;
               if negb (is_null r') then
                 do par <- get_parent current_node; set_parent r' par
               else ret tt
             else if is_null r then
               (* only the left node *)
               replace_in_parent current_node l;;
               do l' <- get_left current_node;
               if negb (is_null l') then
                 do par <- get_parent current_node; set_parent l' par
               else ret tt
             else
               (* left and right node *)
               do min <- min_node fuel' r;
               do mp <- get_parent min;
               when (negb (is_null mp)) (set_left mp None);;
               do par <- get_parent current_node;
               set_parent min par;;
               do cl <- get_left current_node;
               set_left min cl;;
               do mr <- get_right min;
               (if negb (is_null mr) then
                  do mx <- max_node fuel' mr;
                  do cr <- get_right current_node;
                  set_right mx cr
                else
                  do cr <- get_right current_node;
                  set_right min cr);;
               replace_in_parent current_node min
           else
             do par <- get_parent current_node;
             if negb (is_null par) then
               do pl <- get_left par;
               if ptr_eqb pl current_node then set_left par None
               else
                 do pr <- get_right par;
                 if ptr_eqb pr current_node then set_right par None
                 else ret tt
             else ret tt);;
          delete_node current_node;;
          decr_size;;
          ret true
        else
          do l <- get_left current_node;
          do in_left <- erase_recursive fuel' l key;
          do erased <- (if in_left then ret true
                        else do r <- get_right current_node;
                             erase_recursive fuel' r key);
          if erased then balance_node fuel current_node;; ret true
          else ret false
  end.

(** [map::erase] *)
Definition erase (fuel : nat) (key : Z) : M Z :=
  do root <- gets m_root;
  do erased <- erase_recursive fuel root key;
  (if erased then do root <- gets m_root; balance_node fuel root
   else ret tt);;
  gets m_size.

(** [iterator_t::operator++], [KEY_ORDER] *)
Definition next_key_order (fuel : nat) (cur : ptr) : M ptr :=
  do r <- get_right cur;
  do par <- get_parent cur;
  do climb <- (if is_null r && negb (is_null par) then
                 do pl <- get_left par; ret (ptr_eqb cur pl)
               else ret false);
  if climb then ret par
  else if negb (is_null r) then min_node fuel r
  else ret None.

(** [iterator_t::operator++], [KEY_REVERSE_ORDER] *)
Definition next_key_reverse_order (fuel : nat) (cur : ptr) : M ptr :=
  do l <- get_left cur;
  do par <- get_parent cur;
  do climb <- (if is_null l && negb (is_null par) then
                 do pr <- get_right par; ret (ptr_eqb cur pr)
               else ret false);
  if climb then ret par
  else if negb (is_null l) then max_node fuel l
  else ret None.

(** [begin()], [rbegin()]; [end()] and [rend()] are the null iterator *)
Definition begin (fuel : nat) : M ptr :=
  do root <- gets m_root; min_node fuel root.
Definition rbegin (fuel : nat) : M ptr :=
  do root <- gets m_root; max_node fuel root.

(** The keys visited by [for (it = first; it != end(); ++it)] *)
Fixpoint keys_from (fuel : nat) (next : ptr -> M ptr) (it : ptr) : M (list Z) :=
  match fuel with
  | O => timeout
  | S fuel =>
      if is_null it then ret []
      else
        do k <- get_key it;
        do it' <- next it;
        do ks <- keys_from fuel next it';
        ret (k :: ks)
  end.

Definition forward_keys (fuel : nat) : M (list Z) :=
  do it <- begin fuel; keys_from fuel (next_key_order fuel) it.
Definition reverse_keys (fuel : nat) : M (list Z) :=
  do it <- rbegin fuel; keys_from fuel (next_key_reverse_order fuel) it.

(** A client inserting the keys of a list in order, each with value
    [10 * key] *)
Fixpoint insert_all (fuel : nat) (keys : list Z) : M unit :=
  match keys with
  | [] => ret tt
  | k :: ks => insert fuel k (10 * k);; insert_all fuel ks
  end.

(** Every node below [node] satisfies the height-balance rule
    [|height(left) - height(right)| <= 1]. *)
Fixpoint all_balanced (fuel : nat) (node : ptr) : M bool :=
  match fuel with
  | O => timeout
  | S fuel' =>
      if is_null node then ret true
      else
        do diff <- height_diff fuel node;
        do l <- get_left node;
        do bl <- all_balanced fuel' l;
        do r <- get_right node;
        do br <- all_balanced fuel' r;
        ret ((-1 <=? diff) && (diff <=? 1) && bl && br)
  end.

(** The result of a run from the empty map. *)
Definition result {A} (m : M A) : option A :=
  match m empty with
  | Ok a _ => Some a
  | _ => None
  end.

End map.

(** ** The point quadtree (quadtree.hpp) *)

Module quadtree.

Local Open Scope st_scope.

(** [behaviour_t] *)
Definition quadtree_no_replace : Z := 1.
Definition quadtree_multithread : Z := 2.

Record position_t : Type := mk_position { x : Z; y : Z; z : Z }.

(** The member initialisers of [position_t]: [x = 0, y = 0, z = 0]. *)
Definition position_zero : position_t := {| x := 0; y := 0; z := 0 |}.

Record rect_bound_t : Type := mk_bound {
  left : Z;
  right : Z;
  top : Z;
  bottom : Z;
  center : position_t
}.

(** [rect_bound_t::isInside] *)
Definition isInside (b : rect_bound_t) (px py : Z) : bool :=
  (px >=? left b) && (px <? right b) && (py >=? bottom b) && (py <? top b).

(** The result of [(a + b) / 2.] stored into an [int], for [a] and [b]
    whose sum is an [int]: the sum is that of [Z]. *)
Definition half_sum (a b : Z) : Z := Z.quot (a + b) 2.

(** The four children of a quadrant. *)
Inductive direction : Type := NE | NW | SW | SE.

#[export] Instance direction_eq_dec : EqDecision direction.
Proof. solve_decision. Defined.

Section WithItem.

Context {item_t : Type}.
Variable item_eqb : item_t -> item_t -> bool.

(** A quadrant pointer and the quadrants it owns.  The owner of a quadrant
    is its parent (or the tree, for the root), so the pointer structure is a
    tree; [nullptr] is the null pointer.  The [parent] back-reference is
    written by [create_quadrants] and [clone_quadrant] and read by no
    function; it is the position of a quadrant in this tree. *)
Inductive quadrant_t : Type :=
| nullptr
| quad (data : item_t) (data_position : position_t) (bound : rect_bound_t)
       (ne nw sw se : quadrant_t).

Definition is_null (q : quadrant_t) : bool :=
  match q with nullptr => true | quad _ _ _ _ _ _ _ => false end.

Record quadtree_t : Type := mk_quadtree {
  m_root : quadrant_t;
  m_size : Z;
  m_depth : Z;
  m_default_value : item_t;
  m_exposed_default_value : item_t;
  m_height : Z;
  m_width : Z;
  m_center : position_t;
  m_behaviour_flag : Z
}.

(** [quadtree(center_x, center_y, width, height, default_value)]; the member
    [m_exposed_default_value] is left uninitialised by the constructor and
    is written by the mutable [at] before it is read. *)
Definition make (center_x center_y width height : Z) (default_value : item_t)
  : quadtree_t :=
  {| m_root := nullptr; m_size := 0; m_depth := 0;
     m_default_value := default_value;
     m_exposed_default_value := default_value;
     m_height := height; m_width := width;
     m_center := {| x := center_x; y := center_y; z := 0 |};
     m_behaviour_flag := 0 |}.

(** [set_behaviour_flag] *)
Definition set_behaviour_flag (flag : Z) (t : quadtree_t) : quadtree_t :=
  {| m_root := m_root t; m_size := m_size t; m_depth := m_depth t;
     m_default_value := m_default_value t;
     m_exposed_default_value := m_exposed_default_value t;
     m_height := m_height t; m_width := m_width t; m_center := m_center t;
     m_behaviour_flag := flag |}.

(** A quadrant fresh from [new quadrant_t] with [data] and [bound]
    assigned. *)
Definition leaf (d : item_t) (b : rect_bound_t) : quadrant_t :=
  quad d position_zero b nullptr nullptr nullptr nullptr.

Definition child_bound (l r t b : Z) : rect_bound_t :=
  {| left := l; right := r; top := t; bottom := b;
     center := {| x := half_sum l r; y := half_sum t b; z := 0 |} |}.

(** [quadtree::create_quadrants]: the four children, in the order
    [ne], [nw], [sw], [se]. *)
Definition create_quadrants (default_value : item_t) (pb : rect_bound_t)
  : quadrant_t * quadrant_t * quadrant_t * quadrant_t :=
  let c := center pb in
  (leaf default_value (child_bound (x c) (right pb) (top pb) (y c)),
   leaf default_value (child_bound (left pb) (x c) (top pb) (y c)),
   leaf default_value (child_bound (left pb) (x c) (y c) (bottom pb)),
   leaf default_value (child_bound (x c) (right pb) (y c) (bottom pb))).

(** The bounds of the root quadrant, as [insert] computes them:
    [left = m_center.x - m_width / 2.] is a [double] converted to [int],
    [right = left + m_width] a sum of two [int]s; both are computed in
    [Z], which is what the code computes when the results are [int]s. *)
Definition root_bound (t : quadtree_t) : rect_bound_t :=
  let l := Z.quot (2 * x (m_center t) - m_width t) 2 in
  let b := Z.quot (2 * y (m_center t) - m_height t) 2 in
  {| left := l; right := l + m_width t;
     top := b + m_height t; bottom := b;
     center := m_center t |}.

(** [quadtree::compute_depth] *)
Fixpoint compute_depth (quadrant : quadrant_t) : Z :=
  match quadrant with
  | nullptr => 0
  | quad _ _ _ qne qnw qsw qse =>
      if negb (is_null qne) then
        size_t_wrap
          (max (compute_depth qne)
               (max (compute_depth qnw)
                    (max (compute_depth qsw) (compute_depth qse))) + 1)
      else 0
  end.

(** [quadtree::select_quadrant]: which child pointer is selected, [None]
    for a null result. *)
Definition select_quadrant (b : rect_bound_t) (px py : Z) : option direction :=
  if negb (isInside b px py) then None
  else if (px >=? x (center b)) && (py >=? y (center b)) then Some NE
  else if (px <? x (center b)) && (py >=? y (center b)) then Some NW
  else if (px >=? x (center b)) && (py <? y (center b)) then Some SE
  else if (px <? x (center b)) && (py <? y (center b)) then Some SW
  else None.

Definition child (d : direction) (qne qnw qsw qse : quadrant_t) : quadrant_t :=
  match d with NE => qne | NW => qnw | SW => qsw | SE => qse end.

(** [quadtree::get_value], const overload.  [None]: a null quadrant is
    dereferenced. *)
Fixpoint get_value (default_value : item_t) (quadrant : quadrant_t)
  (px py : Z) : option item_t :=
  match quadrant with
  | nullptr => None
  | quad d pos b qne qnw qsw qse =>
      if negb (isInside b px py) then Some default_value
      else if negb (is_null qne) then
        match select_quadrant b px py with
        | None => Some default_value
        | Some NE => get_value default_value qne px py
        | Some NW => get_value default_value qnw px py
        | Some SW => get_value default_value qsw px py
        | Some SE => get_value default_value qse px py
        end
      else if (x pos =? px) && (y pos =? py) then Some d
      else Some default_value
  end.

(** [quadtree::at], const overload *)
Definition at_ (t : quadtree_t) (px py : Z) : option item_t :=
  get_value (m_default_value t) (m_root t) px py.

(** What a returned [item_t&] designates: the member
    [m_exposed_default_value], or the [data] of the quadrant reached from
    the root through the given children. *)
Inductive item_ref : Type :=
| ref_exposed_default
| ref_data (path : list direction).

Definition ref_cons (d : direction) (r : item_ref) : item_ref :=
  match r with
  | ref_exposed_default => ref_exposed_default
  | ref_data p => ref_data (d :: p)
  end.

(** [quadtree::get_value], mutable overload *)
Fixpoint get_value_mut (quadrant : quadrant_t) (px py : Z) : option item_ref :=
  match quadrant with
  | nullptr => None
  | quad d pos b qne qnw qsw qse =>
      if negb (isInside b px py) then Some ref_exposed_default
      else if negb (is_null qne) then
        match select_quadrant b px py with
        | None => Some ref_exposed_default
        | Some NE => option_map (ref_cons NE) (get_value_mut qne px py)
        | Some NW => option_map (ref_cons NW) (get_value_mut qnw px py)
        | Some SW => option_map (ref_cons SW) (get_value_mut qsw px py)
        | Some SE => option_map (ref_cons SE) (get_value_mut qse px py)
        end
      else if (x pos =? px) && (y pos =? py) then Some (ref_data [])
      else Some ref_exposed_default
  end.

(** [quadtree::at], mutable overload:
    [m_exposed_default_value = m_default_value; return get_value(...)]. *)
Definition at_mut (t : quadtree_t) (px py : Z) : option (item_ref * quadtree_t) :=
  let t' := {| m_root := m_root t; m_size := m_size t; m_depth := m_depth t;
               m_default_value := m_default_value t;
               m_exposed_default_value := m_default_value t;
               m_height := m_height t; m_width := m_width t;
               m_center := m_center t;
               m_behaviour_flag := m_behaviour_flag t |} in
  match get_value_mut (m_root t') px py with
  | Some r => Some (r, t')
  | None => None
  end.

(** Assignment of [v] to the [data] of the quadrant at the end of a path. *)
Fixpoint assign_data (quadrant : quadrant_t) (path : list direction) (v : item_t)
  : quadrant_t :=
  match quadrant with
  | nullptr => nullptr
  | quad d pos b qne qnw qsw qse =>
      match path with
      | [] => quad v pos b qne qnw qsw qse
      | NE :: p => quad d pos b (assign_data qne p v) qnw qsw qse
      | NW :: p => quad d pos b qne (assign_data qnw p v) qsw qse
      | SW :: p => quad d pos b qne qnw (assign_data qsw p v) qse
      | SE :: p => quad d pos b qne qnw qsw (assign_data qse p v)
      end
  end.

(** [r = v] for a reference [r] obtained from the mutable [at]. *)
Definition assign (t : quadtree_t) (r : item_ref) (v : item_t) : quadtree_t :=
  match r with
  | ref_exposed_default =>
      {| m_root := m_root t; m_size := m_size t; m_depth := m_depth t;
         m_default_value := m_default_value t;
         m_exposed_default_value := v;
         m_height := m_height t; m_width := m_width t;
         m_center := m_center t;
         m_behaviour_flag := m_behaviour_flag t |}
  | ref_data p =>
      {| m_root := assign_data (m_root t) p v;
         m_size := m_size t; m_depth := m_depth t;
         m_default_value := m_default_value t;
         m_exposed_default_value := m_exposed_default_value t;
         m_height := m_height t; m_width := m_width t;
         m_center := m_center t;
         m_behaviour_flag := m_behaviour_flag t |}
  end.

(** [m_size++], [m_size--]: the state threaded through [insert_quadrant]
    is the member [m_size]. *)
Definition incr_size : ST Z unit := modify (fun n => size_t_wrap (n + 1)).
Definition decr_size : ST Z unit := modify (fun n => size_t_wrap (n - 1)).

(** [insert_quadrant(ne, x, y, item) || insert_quadrant(nw, x, y, item) ||
    insert_quadrant(sw, x, y, item) || insert_quadrant(se, x, y, item)] on
    the children of a quadrant whose other fields are [d], [pos] and [b];
    [rec] is the recursive call at (x, y, item).  The result carries the
    quadrant after the calls. *)
Definition insert_children (rec : quadrant_t -> ST Z (bool * quadrant_t))
  (d : item_t) (pos : position_t) (b : rect_bound_t)
  (qne qnw qsw qse : quadrant_t) : ST Z (bool * quadrant_t) :=
  do r1 <- rec qne;
  if fst r1 then ret (true, quad d pos b (snd r1) qnw qsw qse)
  else
    do r2 <- rec qnw;
    if fst r2 then ret (true, quad d pos b (snd r1) (snd r2) qsw qse)
    else
      do r3 <- rec qsw;
      if fst r3 then ret (true, quad d pos b (snd r1) (snd r2) (snd r3) qse)
      else
        do r4 <- rec qse;
        ret (fst r4, quad d pos b (snd r1) (snd r2) (snd r3) (snd r4)).

(** [quadtree::insert_quadrant].  The result is the returned boolean and
    the quadrant after the call; [Fault] is the [implementation_exception]
    thrown on a null quadrant. *)
Fixpoint insert_quadrant (fuel : nat) (default_value : item_t) (flag : Z)
  (quadrant : quadrant_t) (px py : Z) (item : item_t)
  : ST Z (bool * quadrant_t) :=
  match fuel with
  | O => timeout
  | S fuel =>
      let rec q a b v := insert_quadrant fuel default_value flag q a b v in
      match quadrant with
      | nullptr => fault
      | quad d pos b qne qnw qsw qse =>
          if negb (isInside b px py) then ret (false, quadrant)
          else if negb (is_null qne) then
            insert_children (fun q => rec q px py item) d pos b qne qnw qsw qse
          else if item_eqb d default_value then
            incr_size;;
            ret (true,
                 quad item {| x := px; y := py; z := z pos |} b
                      qne qnw qsw qse)
          else if negb (x pos =? px) || negb (y pos =? py) then
            (* division *)
            let '(cne, cnw, csw, cse) := create_quadrants default_value b in
            do r1 <- rec cne (x pos) (y pos) d;
            do r2 <- rec cnw (x pos) (y pos) d;
            do r3 <- rec csw (x pos) (y pos) d;
            do r4 <- rec cse (x pos) (y pos) d;
            decr_size;;
            insert_children (fun q => rec q px py item) d pos b
                            (snd r1) (snd r2) (snd r3) (snd r4)
          else if Z.land flag quadtree_no_replace =? 0 then
            ret (true, quad item pos b qne qnw qsw qse)
          else ret (false, quadrant)
      end
  end.

Definition with_root_size (t : quadtree_t) (root : quadrant_t) (size depth : Z)
  : quadtree_t :=
  {| m_root := root; m_size := size; m_depth := depth;
     m_default_value := m_default_value t;
     m_exposed_default_value := m_exposed_default_value t;
     m_height := m_height t; m_width := m_width t; m_center := m_center t;
     m_behaviour_flag := m_behaviour_flag t |}.

(** [quadtree::insert]: the returned size and the tree after the call. *)
Definition insert (fuel : nat) (t : quadtree_t) (px py : Z) (item : item_t)
  : outcome quadtree_t Z :=
  match m_root t with
  | nullptr =>
      let root :=
        quad item {| x := px; y := py; z := 0 |} (root_bound t)
             nullptr nullptr nullptr nullptr in
      let size := size_t_wrap (m_size t + 1) in
      Ok size (with_root_size t root size (m_depth t))
  | _ =>
      match insert_quadrant fuel (m_default_value t) (m_behaviour_flag t)
              (m_root t) px py item (m_size t) with
      | Ok r size =>
          Ok size (with_root_size t (snd r) size (compute_depth (snd r)))
      | Fault => Fault
      | Timeout => Timeout
      end
  end.

(** [quadtree::clone_quadrant]: [bound] and [data] are copied; the
    [data_position] of the clone keeps the value [new quadrant_t] gave it. *)
Fixpoint clone_quadrant (quadrant : quadrant_t) : quadrant_t :=
  match quadrant with
  | nullptr => nullptr
  | quad d pos b qne qnw qsw qse =>
      quad d position_zero b
           (clone_quadrant qne) (clone_quadrant qnw)
           (clone_quadrant qsw) (clone_quadrant qse)
  end.

(** The copy constructor.  The members it does not initialise have their
    default member initialisers, [m_behaviour_flag = 0], or none:
    [m_exposed_default_value] is written by the mutable [at] before it is
    read. *)
Definition copy (t : quadtree_t) : quadtree_t :=
  {| m_root := clone_quadrant (m_root t);
     m_size := m_size t; m_depth := m_depth t;
     m_default_value := m_default_value t;
     m_exposed_default_value := m_default_value t;
     m_height := m_height t; m_width := m_width t; m_center := m_center t;
     m_behaviour_flag := 0 |}.

(** [quadtree::operator=(const quadtree&)] on a tree [this_]. *)
Definition copy_assign (this_ t : quadtree_t) : quadtree_t :=
  {| m_root := clone_quadrant (m_root t);
     m_size := m_size t; m_depth := m_depth t;
     m_default_value := m_default_value t;
     m_exposed_default_value := m_exposed_default_value this_;
     m_height := m_height t; m_width := m_width t; m_center := m_center t;
     m_behaviour_flag := m_behaviour_flag this_ |}.

(** A client calling [insert] on the points of a list, in order. *)
Fixpoint insert_all (fuel : nat) (t : quadtree_t) (points : list (Z * Z * item_t))
  : outcome quadtree_t unit :=
  match points with
  | [] => Ok tt t
  | (px, py, item) :: points =>
      match insert fuel t px py item with
      | Ok _ t' => insert_all fuel t' points
      | Fault => Fault
      | Timeout => Timeout
      end
  end.

(** [quadtree::find_quadrant]: the returned boolean and [keys] after the
    call.  The two branches on [quadtree_multithread] are the same
    expression. *)
Fixpoint find_quadrant (quadrant : quadrant_t) (item : item_t) (keys : Z * Z)
  (criterion : item_t -> item_t -> bool) : bool * (Z * Z) :=
  match quadrant with
  | nullptr => (false, keys)
  | quad d pos _ qne qnw qsw qse =>
      if negb (is_null qne) then
        let r1 := find_quadrant qne item keys criterion in
        if fst r1 then r1
        else
          let r2 := find_quadrant qnw item (snd r1) criterion in
          if fst r2 then r2
          else
            let r3 := find_quadrant qsw item (snd r2) criterion in
            if fst r3 then r3
            else find_quadrant qse item (snd r3) criterion
      else if criterion d item then (true, (x pos, y pos))
      else (false, keys)
  end.

(** [quadtree::find(item, keys, criterion)] *)
Definition find (t : quadtree_t) (item : item_t) (keys : Z * Z)
  (criterion : item_t -> item_t -> bool) : bool * (Z * Z) :=
  find_quadrant (m_root t) item keys criterion.

(** The tail shared by [remove_quadrant] and [remove_all_quadrant] once the
    four children were visited: [e1] to [e4] are [ne_empty], [nw_empty],
    [sw_empty] and [se_empty], [q1] to [q4] the children after the calls.
    The children are detached without being freed. *)
Definition collapse_children (default_value : item_t) (d : item_t)
  (pos : position_t) (b : rect_bound_t)
  (e1 e2 e3 e4 : bool) (q1 q2 q3 q4 : quadrant_t) : ST Z (bool * quadrant_t) :=
  if e1 || e2 || e3 || e4 then
    if e1 && e2 && e3 && e4 then
      ret (true, quad default_value position_zero b
                      nullptr nullptr nullptr nullptr)
    else if Z.b2z e1 + Z.b2z e2 + Z.b2z e3 + Z.b2z e4 =? 3 then
      let not_empty_one :=
        if negb e1 then q1 else if negb e2 then q2
        else if negb e3 then q3 else q4 in
      match not_empty_one with
      | nullptr => fault
      | quad d1 pos1 _ _ _ _ _ =>
          ret (false, quad d1 pos1 b nullptr nullptr nullptr nullptr)
      end
    else ret (false, quad d pos b q1 q2 q3 q4)
  else ret (false, quad d pos b q1 q2 q3 q4).

(** [quadtree::remove_quadrant]: the returned boolean and the quadrant
    after the call; the state is [m_size]. *)
Fixpoint remove_quadrant (default_value : item_t) (quadrant : quadrant_t)
  (px py : Z) : ST Z (bool * quadrant_t) :=
  match quadrant with
  | nullptr => ret (true, nullptr)
  | quad d pos b qne qnw qsw qse =>
      if negb (is_null qne) then
        do r1 <- remove_quadrant default_value qne px py;
        do r2 <- remove_quadrant default_value qnw px py;
        do r3 <- remove_quadrant default_value qsw px py;
        do r4 <- remove_quadrant default_value qse px py;
        collapse_children default_value d pos b
          (fst r1) (fst r2) (fst r3) (fst r4)
          (snd r1) (snd r2) (snd r3) (snd r4)
      else if (x pos =? px) && (y pos =? py) then
        decr_size;;
        ret (true, quad default_value position_zero b qne qnw qsw qse)
      else if item_eqb d default_value then ret (true, quadrant)
      else ret (false, quadrant)
  end.

(** [quadtree::remove] *)
Definition remove (t : quadtree_t) (px py : Z) : outcome quadtree_t unit :=
  match remove_quadrant (m_default_value t) (m_root t) px py (m_size t) with
  | Ok r size => Ok tt (with_root_size t (snd r) size (compute_depth (snd r)))
  | Fault => Fault
  | Timeout => Timeout
  end.

(** [quadtree::remove_all_quadrant] *)
Fixpoint remove_all_quadrant (default_value : item_t) (quadrant : quadrant_t)
  (item : item_t) (criterion : item_t -> item_t -> bool)
  : ST Z (bool * quadrant_t) :=
  match quadrant with
  | nullptr => ret (true, nullptr)
  | quad d pos b qne qnw qsw qse =>
      if negb (is_null qne) then
        do r1 <- remove_all_quadrant default_value qne item criterion;
        do r2 <- remove_all_quadrant default_value qnw item criterion;
        do r3 <- remove_all_quadrant default_value qsw item criterion;
        do r4 <- remove_all_quadrant default_value qse item criterion;
        collapse_children default_value d pos b
          (fst r1) (fst r2) (fst r3) (fst r4)
          (snd r1) (snd r2) (snd r3) (snd r4)
      else if criterion d item then
        decr_size;;
        ret (true, quad default_value position_zero b qne qnw qsw qse)
      else if item_eqb d default_value then ret (true, quadrant)
      else ret (false, quadrant)
  end.

(** [quadtree::remove_all] *)
Definition remove_all (t : quadtree_t) (item : item_t)
  (criterion : item_t -> item_t -> bool) : outcome quadtree_t unit :=
  match remove_all_quadrant (m_default_value t) (m_root t) item criterion
          (m_size t) with
  | Ok r size => Ok tt (with_root_size t (snd r) size (compute_depth (snd r)))
  | Fault => Fault
  | Timeout => Timeout
  end.

End WithItem.

Arguments quadrant_t : clear implicits.
Arguments quadtree_t : clear implicits.

End quadtree.

(** ** The region quadtree (quadtree_region.hpp) *)

Module quadtree_region.

Import quadtree.
Local Open Scope st_scope.

Definition quadrant : Type := quadrant_t bool.
Definition region_t : Type := quadtree_t bool.

(** [quadtree_region(width, height)] delegates to
    [quadtree(0, 0, width, height)], whose default value is [bool{}];
    [quadtree_region(center_x, center_y, width, height, default_value)]
    passes the default on. *)
Definition make_region (center_x center_y width height : Z) (default_value : bool)
  : region_t :=
  make center_x center_y width height default_value.

Definition bool_to_Z (b : bool) : Z := if b then 1 else 0.

(** The test [this->compute_depth(quadrant) == 1 && ne->data == nw->data &&
    ne->data == sw->data && ne->data == se->data]; the [data] of a null
    child cannot be read. *)
Definition uniform_children (qne qnw qsw qse : quadrant) (depth : Z)
  : option (option bool) :=
  if depth =? 1 then
    match qne, qnw, qsw, qse with
    | quad d1 _ _ _ _ _ _, quad d2 _ _ _ _ _ _,
      quad d3 _ _ _ _ _ _, quad d4 _ _ _ _ _ _ =>
        if Bool.eqb d1 d2 && Bool.eqb d1 d3 && Bool.eqb d1 d4
        then Some (Some d1) else Some None
    | _, _, _, _ => None
    end
  else Some None.

Definition center_of (q : quadrant) : position_t :=
  match q with
  | nullptr => position_zero
  | quad _ _ b _ _ _ _ => center b
  end.

(** [quadtree_region::insert_quadrant].  The four recursive calls of a sum
    are made in the order [ne], [nw], [sw], [se]. *)
Fixpoint insert_quadrant (fuel : nat) (default_value : bool)
  (q : quadrant) (px py : Z) (item : bool) : ST Z (bool * quadrant) :=
  match fuel with
  | O => timeout
  | S fuel =>
      let rec c a b v := insert_quadrant fuel default_value c a b v in
      match q with
      | nullptr => fault
      | quad d pos b qne qnw qsw qse =>
          if negb (isInside b px py) then ret (false, q)
          else if negb (is_null qne) then
            do r1 <- rec qne px py item;
            do r2 <- rec qnw px py item;
            do r3 <- rec qsw px py item;
            do r4 <- rec qse px py item;
            let modified_quadrants :=
              (bool_to_Z (fst r1) + bool_to_Z (fst r2)
               + bool_to_Z (fst r3) + bool_to_Z (fst r4)) mod 2 ^ 8 in
            let q' := quad d pos b (snd r1) (snd r2) (snd r3) (snd r4) in
            if modified_quadrants >? 0 then
              match uniform_children (snd r1) (snd r2) (snd r3) (snd r4)
                      (compute_depth q') with
              | None => fault
              | Some (Some v) =>
                  (* the four children are freed and detached *)
                  ret (true, quad v pos b nullptr nullptr nullptr nullptr)
              | Some None => ret (false, q')
              end
            else ret (false, q')
          else if negb (Bool.eqb d item) then
            if (negb (left b =? x (center b)) && negb (right b =? x (center b)))
               || (negb (bottom b =? y (center b)) && negb (top b =? y (center b)))
            then
              (* division *)
              let '(cne, cnw, csw, cse) := create_quadrants default_value b in
              do r1 <- rec cne (x (center_of cne)) (y (center_of cne)) d;
              do r2 <- rec cnw (x (center_of cnw)) (y (center_of cnw)) d;
              do r3 <- rec csw (x (center_of csw)) (y (center_of csw)) d;
              do r4 <- rec cse (x (center_of cse)) (y (center_of cse)) d;
              do s1 <- rec (snd r1) px py item;
              do s2 <- rec (snd r2) px py item;
              do s3 <- rec (snd r3) px py item;
              do s4 <- rec (snd r4) px py item;
              ret (false, quad d pos b (snd s1) (snd s2) (snd s3) (snd s4))
            else
              (if item then quadtree.incr_size else quadtree.decr_size);;
              ret (true, quad item pos b qne qnw qsw qse)
          else ret (false, q)
      end
  end.

(** [quadtree_region::insert] *)
Definition insert (fuel : nat) (t : region_t) (px py : Z) (item : bool)
  : outcome region_t Z :=
  let root :=
    match m_root t with
    | nullptr => leaf (m_default_value t) (root_bound t)
    | r => r
    end in
  match insert_quadrant fuel (m_default_value t) root px py item (m_size t) with
  | Ok r size =>
      Ok size (with_root_size t (snd r) size (compute_depth (snd r)))
  | Fault => Fault
  | Timeout => Timeout
  end.

(** [set], [unset] *)
Definition set (fuel : nat) (t : region_t) (px py : Z) : outcome region_t unit :=
  match insert fuel t px py true with
  | Ok _ t' => Ok tt t'
  | Fault => Fault
  | Timeout => Timeout
  end.

Definition unset (fuel : nat) (t : region_t) (px py : Z) : outcome region_t unit :=
  match insert fuel t px py false with
  | Ok _ t' => Ok tt t'
  | Fault => Fault
  | Timeout => Timeout
  end.

(** [quadtree_region::get_value], const overload *)
Fixpoint get_value (default_value : bool) (q : quadrant) (px py : Z)
  : option bool :=
  match q with
  | nullptr => None
  | quad d pos b qne qnw qsw qse =>
      if negb (isInside b px py) then Some default_value
      else if negb (is_null qne) then
        match select_quadrant b px py with
        | None => Some default_value
        | Some NE => get_value default_value qne px py
        | Some NW => get_value default_value qnw px py
        | Some SW => get_value default_value qsw px py
        | Some SE => get_value default_value qse px py
        end
      else Some d
  end.

(** [at] is inherited from [quadtree] and dispatches to the overriding
    [get_value]. *)
Definition at_ (t : region_t) (px py : Z) : option bool :=
  get_value (m_default_value t) (m_root t) px py.

(** A client calling [set] on the cells of a list, in order. *)
Fixpoint set_all (fuel : nat) (t : region_t) (cells : list (Z * Z))
  : outcome region_t unit :=
  match cells with
  | [] => Ok tt t
  | (cx, cy) :: cells =>
      match set fuel t cx cy with
      | Ok _ t' => set_all fuel t' cells
      | Fault => Fault
      | Timeout => Timeout
      end
  end.

(** An internal node all of whose children are leaves with one value. *)
Definition four_equal_leaves (q : quadrant) : bool :=
  match q with
  | quad _ _ _ (quad d1 _ _ nullptr _ _ _) (quad d2 _ _ nullptr _ _ _)
         (quad d3 _ _ nullptr _ _ _) (quad d4 _ _ nullptr _ _ _) =>
      Bool.eqb d1 d2 && Bool.eqb d1 d3 && Bool.eqb d1 d4
  | _ => false
  end.

(** No internal node of the tree has four equal-valued leaf children. *)
Fixpoint merged (q : quadrant) : bool :=
  match q with
  | nullptr => true
  | quad _ _ _ qne qnw qsw qse =>
      negb (four_equal_leaves q)
      && merged qne && merged qnw && merged qsw && merged qse
  end.

End quadtree_region.

(** ** The pipeline (pipeline.hpp, second version) *)

(** The threads of a pipeline are interleaved at the granularity of the
    statements of [execute_process], [feed], [wait_end] and [stop].  The
    shared data is accessed under the mutexes of the source or is atomic, so
    the executions of the C++ program are interleavings of these steps.

    - A mutex is held by a thread from its [lock] to its [unlock]: which
      mutexes are held is read off the program points of the threads.
    - [condition_variable::wait(lock, pred)] releases the mutex while the
      thread is blocked and re-evaluates [pred] with the mutex held; a
      blocked thread may wake up at any time (spurious wake-ups are
      allowed), so [notify_all] changes no state.
    - The pipeline has [m_process_count] stages, all added before the first
      step; the process of a stage that is not the last returns a non-null
      pointer. *)

Module pipeline.

Section WithValues.

(** The values a [void*] box points to, and the process of each stage. *)
Context {val : Type}.
Variable process : nat -> val -> val.

(** Program points of the thread of a stage in [execute_process]. *)
Inductive wpc : Type :=
| Top                    (* at [while (m_continue)] *)
| Locking                (* constructing [lock] on the mutex of the stage *)
| Pred                   (* in [wait]: evaluating the predicate, mutex held *)
| PredContinue           (* stage 0: the list was empty, reading [m_continue] *)
| Blocked                (* in [wait]: blocked, mutex released *)
| Woken (wl : bool)      (* [wait] returned; [wl]: [m_waiting_list_access]
                            is still locked by the predicate of stage 0 *)
| Run (arg : val)        (* [arg] read, calling [( *p)(arg)] *)
| Have (ret : val)       (* the process returned [ret] *)
| LockedNext (ret : val) (* [lockNext] constructed *)
| Wrote                  (* the slot of the next stage is written *)
| Cleared                (* the slot of the stage is cleared *)
| Unlocked               (* [lock.unlock()] done, [lockNext] still held *)
| Decremented            (* last stage: [m_jobs_in_pipeline--] done *)
| ClearedLast            (* last stage: the slot of the stage is cleared *)
| NotifyEnd              (* last stage: [lock.unlock()] done *)
| Exited (wl : bool)     (* returned; [wl]: [m_waiting_list_access] was
                            never unlocked *)
| Terminated.            (* an exception left the thread function *)

(** Program points of a call of [feed]. *)
Inductive feed_pc : Type :=
| Incremented (v : val)  (* [m_jobs_in_pipeline++] done *)
| FeedLocked (v : val)   (* [lock_waiting_list] constructed *)
| Pushed.                (* [push_back] done *)

(** Program points of the thread calling [wait_end]. *)
Inductive wait_pc : Type :=
| NotCalled
| InLoop                 (* at [while (m_jobs_in_pipeline != 0)] *)
| LeftLoop               (* the loop is left, calling [stop()] *)
| Joining                (* [m_continue = false] done, joining the threads *)
| Returned.

Record state : Type := mk_state {
  m_waiting_list : list val;
  m_passing_arguments : list (option val);
  m_continue : bool;
  m_jobs_in_pipeline : Z;
  m_process_count : nat;
  workers : list wpc;
  feeds : list feed_pc;
  waiter : wait_pc
}.

(** The pipeline after [m_process_count] calls of [add_process]. *)
Definition init (n : nat) : state :=
  {| m_waiting_list := [];
     m_passing_arguments := replicate n None;
     m_continue := true;
     m_jobs_in_pipeline := 0;
     m_process_count := n;
     workers := replicate n Top;
     feeds := [];
     waiter := NotCalled |}.

(** The thread holds [lock], the mutex of its own stage. *)
Definition holds_own (pc : wpc) : bool :=
  match pc with
  | Pred | PredContinue | Woken _ | Run _ | Have _ | LockedNext _
  | Wrote | Cleared | Decremented | ClearedLast => true
  | _ => false
  end.

(** The thread holds [lockNext], the mutex of the next stage. *)
Definition holds_next (pc : wpc) : bool :=
  match pc with
  | LockedNext _ | Wrote | Cleared | Unlocked => true
  | _ => false
  end.

(** The thread of stage 0 holds [m_waiting_list_access]. *)
Definition holds_wl (pc : wpc) : bool :=
  match pc with
  | Woken true | Exited true => true
  | _ => false
  end.

Definition feed_holds_wl (f : feed_pc) : bool :=
  match f with
  | FeedLocked _ | Pushed => true
  | Incremented _ => false
  end.

Definition pc_of (s : state) (i : nat) : wpc :=
  match workers s !! i with Some pc => pc | None => Terminated end.

Definition slot_of (s : state) (i : nat) : option val :=
  match m_passing_arguments s !! i with Some a => a | None => None end.

(** [*m_mutexes.at(i)] is not locked. *)
Definition mutex_free (s : state) (i : nat) : bool :=
  negb (holds_own (pc_of s i))
  && match i with
     | O => true
     | S j => negb (holds_next (pc_of s j))
     end.

(** [m_waiting_list_access] is not locked. *)
Definition wl_free (s : state) : bool :=
  negb (holds_wl (pc_of s 0)) && forallb (fun f => negb (feed_holds_wl f)) (feeds s).

Definition set_pc (s : state) (i : nat) (pc : wpc) : state :=
  {| m_waiting_list := m_waiting_list s;
     m_passing_arguments := m_passing_arguments s;
     m_continue := m_continue s;
     m_jobs_in_pipeline := m_jobs_in_pipeline s;
     m_process_count := m_process_count s;
     workers := <[i := pc]> (workers s);
     feeds := feeds s;
     waiter := waiter s |}.

Definition set_slot (s : state) (i : nat) (a : option val) : state :=
  {| m_waiting_list := m_waiting_list s;
     m_passing_arguments := <[i := a]> (m_passing_arguments s);
     m_continue := m_continue s;
     m_jobs_in_pipeline := m_jobs_in_pipeline s;
     m_process_count := m_process_count s;
     workers := workers s;
     feeds := feeds s;
     waiter := waiter s |}.

Definition set_waiting_list (s : state) (l : list val) : state :=
  {| m_waiting_list := l;
     m_passing_arguments := m_passing_arguments s;
     m_continue := m_continue s;
     m_jobs_in_pipeline := m_jobs_in_pipeline s;
     m_process_count := m_process_count s;
     workers := workers s;
     feeds := feeds s;
     waiter := waiter s |}.

Definition set_jobs (s : state) (j : Z) : state :=
  {| m_waiting_list := m_waiting_list s;
     m_passing_arguments := m_passing_arguments s;
     m_continue := m_continue s;
     m_jobs_in_pipeline := j;
     m_process_count := m_process_count s;
     workers := workers s;
     feeds := feeds s;
     waiter := waiter s |}.

Definition set_feeds (s : state) (fs : list feed_pc) : state :=
  {| m_waiting_list := m_waiting_list s;
     m_passing_arguments := m_passing_arguments s;
     m_continue := m_continue s;
     m_jobs_in_pipeline := m_jobs_in_pipeline s;
     m_process_count := m_process_count s;
     workers := workers s;
     feeds := fs;
     waiter := waiter s |}.

Definition set_continue (s : state) (c : bool) : state :=
  {| m_waiting_list := m_waiting_list s;
     m_passing_arguments := m_passing_arguments s;
     m_continue := c;
     m_jobs_in_pipeline := m_jobs_in_pipeline s;
     m_process_count := m_process_count s;
     workers := workers s;
     feeds := feeds s;
     waiter := waiter s |}.

Definition set_waiter (s : state) (w : wait_pc) : state :=
  {| m_waiting_list := m_waiting_list s;
     m_passing_arguments := m_passing_arguments s;
     m_continue := m_continue s;
     m_jobs_in_pipeline := m_jobs_in_pipeline s;
     m_process_count := m_process_count s;
     workers := workers s;
     feeds := feeds s;
     waiter := w |}.

Definition is_some {A} (o : option A) : bool :=
  match o with Some _ => true | None => false end.

(** One step of the thread of stage [i] in [pipeline::execute_process];
    [None] when the thread is blocked or has ended. *)
Definition worker_step (s : state) (i : nat) : option state :=
  match workers s !! i with
  | None => None
  | Some pc =>
      match pc with
      | Top =>
          if m_continue s then Some (set_pc s i Locking)
          else Some (set_pc s i (Exited false))
      | Locking =>
          if mutex_free s i then Some (set_pc s i Pred) else None
      | Pred =>
          match i with
          | S _ =>
              if is_some (slot_of s i) || negb (m_continue s)
              then Some (set_pc s i (Woken false))
              else Some (set_pc s i Blocked)
          | O =>
              if wl_free s then
                match m_waiting_list s with
                | _ :: _ => Some (set_pc s i (Woken true))
                | [] => Some (set_pc s i PredContinue)
                end
              else None
          end
      | PredContinue =>
          if negb (m_continue s) then Some (set_pc s i (Woken false))
          else Some (set_pc s i Blocked)
      | Blocked =>
          if mutex_free s i then Some (set_pc s i Pred) else None
      | Woken wl =>
          if negb (m_continue s) then Some (set_pc s i (Exited wl))
          else
            match i with
            | S _ =>
                match slot_of s i with
                | Some a => Some (set_pc s i (Run a))
                | None => Some (set_pc s i Terminated)
                end
            | O =>
                match wl, m_waiting_list s with
                | true, v :: rest =>
                    Some (set_pc (set_waiting_list s rest) i (Run v))
                | _, _ => Some (set_pc s i Terminated)
                end
            end
      | Run a => Some (set_pc s i (Have (process i a)))
      | Have r =>
          if (i + 1 <? m_process_count s)%nat then
            if mutex_free s (i + 1) then Some (set_pc s i (LockedNext r))
            else None
          else
            Some (set_pc (set_jobs s (size_t_wrap (m_jobs_in_pipeline s - 1)))
                         i Decremented)
      | LockedNext r => Some (set_pc (set_slot s (i + 1) (Some r)) i Wrote)
      | Wrote => Some (set_pc (set_slot s i None) i Cleared)
      | Cleared => Some (set_pc s i Unlocked)
      | Unlocked => Some (set_pc s i Top)
      | Decremented => Some (set_pc (set_slot s i None) i ClearedLast)
      | ClearedLast => Some (set_pc s i NotifyEnd)
      | NotifyEnd => Some (set_pc s i Top)
      | Exited _ => None
      | Terminated => None
      end
  end.

(** One step of the [k]-th call of [pipeline::feed] in progress. *)
Definition feed_step (s : state) (k : nat) : option state :=
  match feeds s !! k with
  | None => None
  | Some (Incremented v) =>
      if wl_free s then Some (set_feeds s (<[k := FeedLocked v]> (feeds s)))
      else None
  | Some (FeedLocked v) =>
      Some (set_feeds (set_waiting_list s (m_waiting_list s ++ [v]))
                      (<[k := Pushed]> (feeds s)))
  | Some Pushed => Some (set_feeds s (delete k (feeds s)))
  end.

Definition ended (pc : wpc) : bool :=
  match pc with Exited _ | Terminated => true | _ => false end.

(** One step of the thread calling [pipeline::wait_end]. *)
Definition wait_end_step (s : state) : option state :=
  match waiter s with
  | NotCalled => Some (set_waiter s InLoop)
  | InLoop =>
      if m_jobs_in_pipeline s =? 0 then Some (set_waiter s LeftLoop)
      else Some s
  | LeftLoop => Some (set_waiter (set_continue s false) Joining)
  | Joining =>
      if forallb ended (workers s) then Some (set_waiter s Returned)
      else None
  | Returned => None
  end.

(** The choices of the scheduler and of the clients of the pipeline. *)
Inductive action : Type :=
| call_feed (v : val)    (* a thread enters [feed(v)] *)
| step_feed (k : nat)
| step_worker (i : nat)
| step_wait_end
| call_stop.             (* [stop()]: [m_continue = false] *)

Definition step (s : state) (a : action) : option state :=
  match a with
  | call_feed v =>
      Some (set_feeds (set_jobs s (size_t_wrap (m_jobs_in_pipeline s + 1)))
                      (feeds s ++ [Incremented v]))
  | step_feed k => feed_step s k
  | step_worker i => worker_step s i
  | step_wait_end => wait_end_step s
  | call_stop => Some (set_continue s false)
  end.

Fixpoint run (s : state) (acts : list action) : option state :=
  match acts with
  | [] => Some s
  | a :: acts =>
      match step s a with
      | Some s' => run s' acts
      | None => None
      end
  end.

(** The number of calls of [feed] among the actions. *)
Fixpoint feed_calls (acts : list action) : nat :=
  match acts with
  | [] => 0
  | call_feed _ :: acts => S (feed_calls acts)
  | _ :: acts => feed_calls acts
  end.

End WithValues.

Arguments wpc : clear implicits.
Arguments feed_pc : clear implicits.
Arguments state : clear implicits.
Arguments action : clear implicits.

End pipeline.

(** * Properties *)

(** ** Ordered map *)

Section MapFacts.

Import map.
Local Open Scope st_scope.

(** The map of scenario 1: keys 10, 5, 15, 3, 7, 12, 20, each with the
    value ten times the key. *)
Definition seven_keys : list Z := [10; 5; 15; 3; 7; 12; 20].

Example seven_keys_inserted :
  result (insert_all 8 seven_keys;;
          do n <- gets m_size;
          do root <- gets m_root;
          do h <- height 8 root;
          do b <- all_balanced 8 root;
          do k <- get_key root;
          ret (n, h, b, k))
  = Some (7, 3, true, 10).
Proof. vm_compute. reflexivity. Qed.

Example seven_keys_lookup :
  result (insert_all 8 seven_keys;;
          do a <- at_ 8 7; do b <- at_ 8 10; do c <- at_ 8 11; ret (a, b, c))
  = Some (Some 70, Some 100, None).
Proof. vm_compute. reflexivity. Qed.

(** C1, not met by the code.  The claim: after every public mutation every node has
    [|height(left) - height(right)| <= 1].  The code: [insert] of the keys
    3, 1, 2 into the empty map returns with the root holding key 1, an
    empty left subtree and a right subtree of height 2: the single right
    rotation of [insert] moved the imbalance to the other side and the
    difference at the root is [-2]. *)
Theorem insert_3_1_2_leaves_root_unbalanced :
  result (insert_all 8 [3; 1; 2];;
          do root <- gets m_root;
          do k <- get_key root;
          do l <- get_left root;
          do hl <- height 8 l;
          do r <- get_right root;
          do hr <- height 8 r;
          do diff <- height_diff 8 root;
          do b <- all_balanced 8 root;
          ret (k, hl, hr, diff, b))
  = Some (1, 0, 2, -2, false).
Proof. vm_compute. reflexivity. Qed.

(** Erasing a leaf that is not the root works as documented. *)
Example erase_leaf_of_seven_keys :
  result (insert_all 8 seven_keys;;
          do n <- erase 8 7; do a <- at_ 8 7; do b <- at_ 8 5; ret (n, a, b))
  = Some (6, None, Some 50).
Proof. vm_compute. reflexivity. Qed.

(** C2, not met by the code.  The claim: [erase(k)] of a present key removes it and
    returns the old size minus one, also when [k] is at the root; after
    scenario 1, [erase(10)] gives size 6.  The code: key 10 is at the root,
    whose [parent] is null, and the branch for a node with two children
    evaluates [current_node->parent->left_node]: the run ends in a null
    dereference and returns nothing. *)
Theorem erase_root_of_seven_keys_faults :
  (insert_all 8 seven_keys;; erase 8 10) empty = Fault.
Proof. vm_compute. reflexivity. Qed.

(** The same happens for a root with one child, *)
Example erase_root_with_one_child_faults :
  (insert_all 8 [10; 5];; erase 8 10) empty = Fault.
Proof. vm_compute. reflexivity. Qed.

(** and a root without children is freed while [m_root] keeps pointing to
    it, so that [erase] then balances a freed node. *)
Example erase_only_key_faults :
  (insert_all 8 [10];; erase 8 10) empty = Fault.
Proof. vm_compute. reflexivity. Qed.

(** C6, not met by the code.  The claim: iterating from [begin()] to [end()] visits
    every key once in ascending order, and from [rbegin()] to [rend()] in
    descending order; scenario 1 yields 3, 5, 7, 10, 12, 15, 20.  The code:
    [operator++] climbs to the parent only from a left child; at key 7, a
    right child without right subtree, the iterator becomes the end
    iterator.  Forward iteration visits 3, 5, 7 and reverse iteration
    visits 20, 15, 12. *)
Theorem iteration_of_seven_keys_stops_early :
  result (insert_all 8 seven_keys;;
          do f <- forward_keys 8; do r <- reverse_keys 8; ret (f, r))
  = Some ([3; 5; 7], [20; 15; 12]).
Proof. vm_compute. reflexivity. Qed.

(** Iteration is complete on a tree whose only nodes without right child
    are left children or the last node, such as a right spine. *)
Example iteration_of_right_spine :
  result (insert_all 8 [1; 2];; forward_keys 8) = Some [1; 2].
Proof. vm_compute. reflexivity. Qed.

End MapFacts.

(** ** Point quadtree: scenarios *)

Section QuadtreeScenarios.

Import quadtree.

(** [quadtree<int, int> tree(20, 20)] *)
Definition tree20 : quadtree_t Z := make 0 0 20 20 0.

Definition at_after (t : quadtree_t Z) (points : list (Z * Z * Z)) (px py : Z)
  : option (option Z * Z) :=
  match insert_all Z.eqb 16 t points with
  | Ok _ t' => Some (at_ t' px py, m_size t')
  | _ => None
  end.

(** Scenario 4, the no-replace flag. *)
Example replace_flag_off :
  at_after tree20 [(5, 5, 100); (5, 5, 200)] 5 5 = Some (Some 200, 1).
Proof. vm_compute. reflexivity. Qed.

Example replace_flag_on :
  at_after (set_behaviour_flag quadtree_no_replace tree20)
           [(5, 5, 100); (5, 5, 200)] 5 5 = Some (Some 100, 1).
Proof. vm_compute. reflexivity. Qed.

(** C8, not met by the code.  The claim: a copy answers [at(x,y)] as the original
    does.  The code: [clone_quadrant] copies [bound] and [data] and leaves
    [data_position] at its initial value (0, 0); after [insert(5, 5, 100)]
    the original has [at(5,5) == 100] and [at(0,0) == 0], the copy has
    [at(5,5) == 0] and [at(0,0) == 100].  Copy assignment clones the root
    with the same function. *)
Theorem copy_loses_data_position :
  match insert Z.eqb 8 tree20 5 5 100 with
  | Ok n t =>
      Some (n, at_ t 5 5, at_ t 0 0,
            at_ (copy t) 5 5, at_ (copy t) 0 0,
            at_ (copy_assign tree20 t) 5 5)
  | _ => None
  end
  = Some (1, Some 100, Some 0, Some 0, Some 100, Some 0).
Proof. vm_compute. reflexivity. Qed.

(** C9, not met by the code.  The claim: an insert outside the bounds of the root is
    a no-op, also on a tree without root.  The code: the first [insert]
    creates the root and stores the item in it without testing the bounds;
    on the empty 20 x 20 tree, [insert(100, 100, 7)] returns size 1 and
    leaves a root holding 7 at (100, 100), outside its bounds
    [-10, 10) x [-10, 10). *)
Theorem insert_outside_bounds_into_empty_tree :
  isInside (root_bound tree20) 100 100 = false /\
  insert Z.eqb 8 tree20 100 100 7
  = Ok 1 (with_root_size tree20
            (quad 7 {| x := 100; y := 100; z := 0 |} (root_bound tree20)
                  nullptr nullptr nullptr nullptr) 1 0).
Proof. split; vm_compute; reflexivity. Qed.

(** The point stored outside the bounds is lost by the next insert, which
    still counts it: two inserts, size 1. *)
Example insert_after_outside_insert :
  at_after tree20 [(100, 100, 7); (5, 5, 8)] 5 5 = Some (Some 8, 1).
Proof. vm_compute. reflexivity. Qed.

(** C10, not met by the code.  The claim: when no point is stored at (x, y), the
    reference returned by the mutable [at] designates the scratch copy of
    the default value, and assigning through it changes no later [at].
    The code: an empty leaf has [data_position] (0, 0), so the mutable
    [at(0, 0)] on a tree whose leaf around the origin is empty returns the
    [data] of that leaf.  After [insert(-5,-5,1)] and [insert(-5,5,2)],
    [at(0,0)] is the default 0; assigning 42 through the mutable
    [at(0,0)] makes [at(0,0) == 42] while the size stays 2. *)
Theorem mutable_at_origin_designates_leaf_data :
  match insert_all Z.eqb 8 tree20 [(-5, -5, 1); (-5, 5, 2)] with
  | Ok _ t =>
      match at_mut t 0 0 with
      | Some (r, t') =>
          let t'' := assign t' r 42 in
          Some (m_size t, at_ t 0 0, r, at_ t'' 0 0, m_size t'')
      | None => None
      end
  | _ => None
  end
  = Some (2, Some 0, ref_data [NE], Some 42, 2).
Proof. vm_compute. reflexivity. Qed.

(** The next insert into that leaf then treats 42 as a stored point:
    three visible points, size 3 after one more insert at a new place. *)
Example insert_after_assignment_through_at :
  match insert_all Z.eqb 8 tree20 [(-5, -5, 1); (-5, 5, 2)] with
  | Ok _ t =>
      match at_mut t 0 0 with
      | Some (r, t') =>
          match insert Z.eqb 8 (assign t' r 42) 3 3 9 with
          | Ok n t'' =>
              Some (n, at_ t'' 0 0, at_ t'' 3 3,
                    at_ t'' (-5) (-5), at_ t'' (-5) 5)
          | _ => None
          end
      | None => None
      end
  | _ => None
  end
  = Some (3, Some 42, Some 9, Some 1, Some 2).
Proof. vm_compute. reflexivity. Qed.

End QuadtreeScenarios.

(** ** Region quadtree: scenarios *)

Section RegionScenarios.

Import quadtree quadtree_region.

Definition cells_2x2 : list (Z * Z) := [(0, 0); (-1, 0); (-1, -1); (0, -1)].

Definition cells_4x4 : list (Z * Z) :=
  [(-2, -2); (-1, -2); (0, -2); (1, -2);
   (-2, -1); (-1, -1); (0, -1); (1, -1);
   (-2, 0); (-1, 0); (0, 0); (1, 0);
   (-2, 1); (-1, 1); (0, 1); (1, 1)].

Definition single_leaf (v : bool) (t : region_t) : bool :=
  match m_root t with
  | quad d _ _ nullptr nullptr nullptr nullptr => Bool.eqb d v
  | _ => false
  end.

(** Scenario 5: on the 4 x 4 region, all false, setting the 16 cells one
    at a time leaves a single leaf with value true, depth 0 (here row by
    row, and in the reverse order). *)
Example set_all_cells_of_4x4 :
  match set_all 8 (make_region 0 0 4 4 false) cells_4x4 with
  | Ok _ t => Some (single_leaf true t, m_depth t, m_size t)
  | _ => None
  end
  = Some (true, 0, 16).
Proof. vm_compute. reflexivity. Qed.

Example set_all_cells_of_4x4_reversed :
  match set_all 8 (make_region 0 0 4 4 false) (rev cells_4x4) with
  | Ok _ t => Some (single_leaf true t, m_depth t, m_size t)
  | _ => None
  end
  = Some (true, 0, 16).
Proof. vm_compute. reflexivity. Qed.

(** C3, not met by the code.  The claim: after every [set], [unset] or [insert] no
    internal node has four equal-valued leaf children.  The code: on the
    2 x 2 region [-1, 1) x [-1, 1), setting the four cells merges them into
    one leaf with value true; [unset(0, 0)] then divides that leaf, pushes
    the value true to the centre of each child, which lies inside the child
    for the north-east one only, and clears the cell (0, 0): the root is
    left with four leaf children, all false, and is not merged. *)
Theorem unset_in_merged_leaf_leaves_four_equal_leaves :
  match set_all 8 (make_region 0 0 2 2 false) cells_2x2 with
  | Ok _ t =>
      match unset 8 t 0 0 with
      | Ok _ t' =>
          Some (single_leaf true t, merged (m_root t),
                four_equal_leaves (m_root t'), merged (m_root t'),
                map (fun c => at_ t' (fst c) (snd c)) cells_2x2)
      | _ => None
      end
  | _ => None
  end
  = Some (true, true, true, false,
          [Some false; Some false; Some false; Some false]).
Proof. vm_compute. reflexivity. Qed.

(** The region [0, 4) x [0, 4) with all 16 cells set. *)
Definition filled_4x4 : outcome region_t unit :=
  set_all 8 (make_region 2 2 4 4 false)
    [(0, 0); (1, 0); (2, 0); (3, 0); (0, 1); (1, 1); (2, 1); (3, 1);
     (0, 2); (1, 2); (2, 2); (3, 2); (0, 3); (1, 3); (2, 3); (3, 3)].

(** C5, not met by the code.  The claim: when a leaf is divided, its prior value
    covers the whole former area, so that every cell other than (x, y)
    keeps its value.  The code: the prior value is inserted at the centre
    of each child only.  On the region [0, 4) x [0, 4) with all cells set
    (a single leaf, value true), [unset(0, 0)] leaves true in the four
    centre cells (1,1), (3,1), (1,3), (3,3) and false elsewhere: the cell
    (2, 2) was true before and is false after; the size counter goes from
    16 to 20. *)
Theorem unset_in_merged_leaf_clears_other_cells :
  match filled_4x4 with
  | Ok _ t =>
      match unset 8 t 0 0 with
      | Ok _ t' =>
          Some (single_leaf true t, m_size t, at_ t 2 2, at_ t 1 0,
                m_size t', at_ t' 2 2, at_ t' 1 0, at_ t' 1 1, at_ t' 3 3)
      | _ => None
      end
  | _ => None
  end
  = Some (true, 16, Some true, Some true,
          20, Some false, Some false, Some true, Some true).
Proof. vm_compute. reflexivity. Qed.

(** With negative coordinates the centre of a unit cell lies outside the
    cell and the prior value is not pushed at all: in the 2 x 2 region of
    C3 the cell (-1, 0) is true before [unset(0, 0)] and false after. *)
Example unset_in_merged_leaf_clears_neighbour :
  match set_all 8 (make_region 0 0 2 2 false) cells_2x2 with
  | Ok _ t =>
      match unset 8 t 0 0 with
      | Ok _ t' => Some (at_ t (-1) 0, at_ t' (-1) 0, m_size t, m_size t')
      | _ => None
      end
  | _ => None
  end
  = Some (Some true, Some false, 4, 4).
Proof. vm_compute. reflexivity. Qed.

End RegionScenarios.

(** ** Coordinates for which no [int] overflows *)

(** A coordinate in [-2^30, 2^30): the sum of two of them is an [int]. *)
Definition side_fits (z : Z) : Prop := - 2 ^ 30 <= z < 2 ^ 30.

(** The centre and the sides of a tree for which the sides of the root,
    [m_center.x - m_width / 2.] and [left + m_width] (and the same
    vertically), lie in [-2^30, 2^30). *)
Definition coordinates_fit (cx cy w h : Z) : Prop :=
  Z.abs cx + Z.abs w < 2 ^ 30 /\ Z.abs cy + Z.abs h < 2 ^ 30.

Definition bound_fits (b : quadtree.rect_bound_t) : Prop :=
  side_fits (quadtree.left b) /\ side_fits (quadtree.right b) /\
  side_fits (quadtree.top b) /\ side_fits (quadtree.bottom b) /\
  side_fits (quadtree.x (quadtree.center b)) /\
  side_fits (quadtree.y (quadtree.center b)).

(** Every rectangle of a quadrant and of the quadrants below it has its
    sides and its centre in [-2^30, 2^30). *)
Fixpoint quadrants_fit {item_t : Type} (q : quadtree.quadrant_t item_t) : Prop :=
  match q with
  | quadtree.nullptr => True
  | quadtree.quad _ _ b qne qnw qsw qse =>
      bound_fits b /\ quadrants_fit qne /\ quadrants_fit qnw /\
      quadrants_fit qsw /\ quadrants_fit qse
  end.

(** The sum [a + b] of [(a + b) / 2.] is an [int] and the half lies in the
    same range as [a] and [b]. *)
Lemma half_sum_fits (a b : Z) :
  side_fits a -> side_fits b ->
  - 2 ^ 31 <= a + b < 2 ^ 31 /\ side_fits (quadtree.half_sum a b).
Proof.
  unfold side_fits, quadtree.half_sum. intros Ha Hb.
  pose proof (Z.quot_rem' (a + b) 2) as E.
  pose proof (Z.rem_bound_abs (a + b) 2 ltac:(lia)) as B.
  change (2 ^ 30) with 1073741824 in *. change (2 ^ 31) with 2147483648.
  simpl in B. lia.
Qed.

(** The rectangle [insert] gives to the root. *)
Lemma root_bound_fits {item_t : Type} (cx cy w h : Z) (d0 : item_t) :
  coordinates_fit cx cy w h ->
  bound_fits (quadtree.root_bound (quadtree.make cx cy w h d0)).
Proof.
  unfold coordinates_fit, bound_fits, side_fits, quadtree.root_bound.
  cbn [quadtree.make quadtree.m_center quadtree.m_width quadtree.m_height
       quadtree.x quadtree.y quadtree.left quadtree.right quadtree.top
       quadtree.bottom quadtree.center].
  intros [Hx Hy].
  pose proof (Z.quot_rem' (2 * cx - w) 2) as Ex.
  pose proof (Z.rem_bound_abs (2 * cx - w) 2 ltac:(lia)) as Bx.
  pose proof (Z.quot_rem' (2 * cy - h) 2) as Ey.
  pose proof (Z.rem_bound_abs (2 * cy - h) 2 ltac:(lia)) as By.
  change (2 ^ 30) with 1073741824 in *.
  simpl in Bx, By. lia.
Qed.

(** ** Point quadtree: inserts inside the bounds *)

Section QuadtreeInsert.

Import quadtree.

Context {item_t : Type}.
Variable item_eqb : item_t -> item_t -> bool.
Hypothesis item_eqb_spec : forall a b, item_eqb a b = true <-> a = b.

(** The default value and the behaviour flags of the tree. *)
Variable d0 : item_t.
Variable flag : Z.

Local Abbreviation quadrant := (quadrant_t item_t).

Lemma item_eqb_refl a : item_eqb a a = true.
Proof. apply item_eqb_spec. reflexivity. Qed.

Lemma item_eqb_false a b : item_eqb a b = false <-> a <> b.
Proof.
  split.
  - intros H E. apply item_eqb_spec in E. congruence.
  - intros H. destruct (item_eqb a b) eqn:E; [|reflexivity].
    apply item_eqb_spec in E. contradiction.
Qed.

Definition bound_of (q : quadrant) : rect_bound_t :=
  match q with
  | nullptr => {| left := 0; right := 0; top := 0; bottom := 0;
                  center := position_zero |}
  | quad _ _ b _ _ _ _ => b
  end.

(** The bounds [create_quadrants] gives to the child in a direction. *)
Definition quadrant_bound (b : rect_bound_t) (dir : direction) : rect_bound_t :=
  match dir with
  | NE => child_bound (x (center b)) (right b) (top b) (y (center b))
  | NW => child_bound (left b) (x (center b)) (top b) (y (center b))
  | SW => child_bound (left b) (x (center b)) (y (center b)) (bottom b)
  | SE => child_bound (x (center b)) (right b) (y (center b)) (bottom b)
  end.

(** The centre of a rectangle lies between its sides, strictly when the
    side is at least two units long. *)
Definition wf_bound (b : rect_bound_t) : Prop :=
  (left b <= x (center b) <= right b) /\
  (bottom b <= y (center b) <= top b) /\
  (left b + 2 <= right b -> left b < x (center b) < right b) /\
  (bottom b + 2 <= top b -> bottom b < y (center b) < top b).

(** The number of recursive calls a rectangle can take: width + height. *)
Definition extent (b : rect_bound_t) : nat :=
  Z.to_nat (right b - left b) + Z.to_nat (top b - bottom b).

Lemma isInside_iff b u v :
  isInside b u v = true <->
  left b <= u < right b /\ bottom b <= v < top b.
Proof. unfold isInside. rewrite !andb_true_iff. lia. Qed.

Lemma isInside_false_iff b u v :
  isInside b u v = false <->
  ~ (left b <= u < right b /\ bottom b <= v < top b).
Proof.
  rewrite <- isInside_iff. destruct (isInside b u v); split; congruence.
Qed.

Lemma half_sum_between l r :
  l <= r ->
  l <= half_sum l r <= r /\ (l + 2 <= r -> l < half_sum l r < r).
Proof.
  intros H. unfold half_sum.
  pose proof (Z.quot_rem' (l + r) 2) as E.
  pose proof (Z.rem_bound_abs (l + r) 2 ltac:(lia)) as B.
  assert (Z.abs (Z.rem (l + r) 2) < 2) by (simpl in B; lia).
  lia.
Qed.

Lemma child_bound_wf l r t b : l <= r -> b <= t -> wf_bound (child_bound l r t b).
Proof.
  intros Hx Hy. unfold wf_bound, child_bound; simpl.
  pose proof (half_sum_between l r Hx).
  pose proof (half_sum_between b t Hy).
  assert (half_sum t b = half_sum b t) as -> by (unfold half_sum; f_equal; lia).
  lia.
Qed.

Lemma quadrant_bound_wf b dir : wf_bound b -> wf_bound (quadrant_bound b dir).
Proof.
  intros (Hx & Hy & _). destruct dir; apply child_bound_wf; lia.
Qed.

(** A child is smaller than a parent with a side of two units or more. *)
Lemma quadrant_bound_extent b dir :
  wf_bound b ->
  left b + 2 <= right b \/ bottom b + 2 <= top b ->
  (extent (quadrant_bound b dir) < extent b)%nat.
Proof.
  intros (Hx & Hy & Hx2 & Hy2) H. unfold extent.
  destruct dir; simpl; lia.
Qed.

(** A point of the parent lies in the child [select_quadrant] names and in
    no other child. *)
Lemma select_quadrant_inside b u v :
  isInside b u v = true ->
  exists dir,
    select_quadrant b u v = Some dir /\
    isInside (quadrant_bound b dir) u v = true /\
    forall dir', dir' <> dir -> isInside (quadrant_bound b dir') u v = false.
Proof.
  intros Hin. unfold select_quadrant. rewrite Hin. simpl.
  apply isInside_iff in Hin.
  assert ((u <? x (center b)) = negb (u >=? x (center b))) as -> by lia.
  assert ((v <? y (center b)) = negb (v >=? y (center b))) as -> by lia.
  destruct (u >=? x (center b)) eqn:Eu; destruct (v >=? y (center b)) eqn:Ev;
    simpl;
    [exists NE | exists SE | exists NW | exists SW];
    (split; [reflexivity|]); (split; [apply isInside_iff; simpl; lia|]);
    intros [] Hd; try congruence; apply isInside_false_iff; simpl; lia.
Qed.

(** A point outside the parent lies in no child. *)
Lemma quadrant_bound_outside b u v dir :
  wf_bound b -> isInside b u v = false ->
  isInside (quadrant_bound b dir) u v = false.
Proof.
  intros (Hx & Hy & _) Hout. apply isInside_false_iff in Hout.
  apply isInside_false_iff. destruct dir; simpl; lia.
Qed.

(** Well-formed quadrants: a leaf is empty (it holds the default value) or
    holds a point of its rectangle; an internal node has a side of two
    units or more and four well-formed children with the rectangles
    [create_quadrants] builds. *)
Inductive wfq : quadrant -> Prop :=
| wfq_leaf d pos b :
    wf_bound b ->
    d = d0 \/ isInside b (x pos) (y pos) = true ->
    wfq (quad d pos b nullptr nullptr nullptr nullptr)
| wfq_node d pos b qne qnw qsw qse :
    wf_bound b ->
    left b + 2 <= right b \/ bottom b + 2 <= top b ->
    wfq qne -> wfq qnw -> wfq qsw -> wfq qse ->
    bound_of qne = quadrant_bound b NE ->
    bound_of qnw = quadrant_bound b NW ->
    bound_of qsw = quadrant_bound b SW ->
    bound_of qse = quadrant_bound b SE ->
    wfq (quad d pos b qne qnw qsw qse).

Lemma wfq_not_null q : wfq q -> is_null q = false.
Proof. destruct 1; reflexivity. Qed.

Lemma wfq_bound q : wfq q -> wf_bound (bound_of q).
Proof. destruct 1; assumption. Qed.

(** The node with the child in one direction replaced. *)
Definition with_child (dir : direction) (q1 : quadrant) (d : item_t)
  (pos : position_t) (b : rect_bound_t) (qne qnw qsw qse : quadrant) : quadrant :=
  match dir with
  | NE => quad d pos b q1 qnw qsw qse
  | NW => quad d pos b qne q1 qsw qse
  | SW => quad d pos b qne qnw q1 qse
  | SE => quad d pos b qne qnw qsw q1
  end.

Lemma get_value_outside d pos b qne qnw qsw qse u v :
  isInside b u v = false ->
  get_value d0 (quad d pos b qne qnw qsw qse) u v = Some d0.
Proof. intros H. simpl. rewrite H. reflexivity. Qed.

Lemma get_value_node d pos b qne qnw qsw qse u v dir :
  is_null qne = false ->
  isInside b u v = true ->
  select_quadrant b u v = Some dir ->
  get_value d0 (quad d pos b qne qnw qsw qse) u v
  = get_value d0 (child dir qne qnw qsw qse) u v.
Proof.
  intros Hn Hin Hsel. simpl. rewrite Hin, Hn, Hsel. simpl.
  destruct dir; reflexivity.
Qed.

Lemma get_value_leaf d pos b u v :
  get_value d0 (quad d pos b nullptr nullptr nullptr nullptr) u v
  = Some (if isInside b u v && (x pos =? u) && (y pos =? v) then d else d0).
Proof.
  simpl. destruct (isInside b u v); simpl; [|reflexivity].
  destruct ((x pos =? u) && (y pos =? v)); reflexivity.
Qed.

(** [get_value] never dereferences a null pointer in a well-formed
    quadrant. *)
Lemma get_value_defined q u v : wfq q -> exists c, get_value d0 q u v = Some c.
Proof.
  induction 1 as [d pos b Hb Hd|d pos b qne qnw qsw qse Hb Hs
                  Hne IHne Hnw IHnw Hsw IHsw Hse IHse].
  - rewrite get_value_leaf. eauto.
  - destruct (isInside b u v) eqn:Hin.
    + destruct (select_quadrant_inside b u v Hin) as (dir & Hsel & _).
      rewrite (get_value_node _ _ _ _ _ _ _ _ _ dir)
        by auto using wfq_not_null.
      destruct dir; assumption.
    + rewrite get_value_outside by assumption. eauto.
Qed.

(** The value [at] returns for (x, y) after an insert of [item] there,
    when it returned [c] before. *)
Definition new_value (c item : item_t) : item_t :=
  if negb (item_eqb c d0) && negb (Z.land flag quadtree_no_replace =? 0)
  then c else item.

(** The size after an insert at a place where [at] returned [c]. *)
Definition new_size (c : item_t) (size : Z) : Z :=
  if item_eqb c d0 then size_t_wrap (size + 1) else size.

(** What [insert_quadrant] does for a point inside the quadrant. *)
Definition insert_spec (fuel : nat) (q : quadrant) (px py : Z) (item : item_t)
  (size : Z) : Prop :=
  exists r q' c,
    get_value d0 q px py = Some c /\
    insert_quadrant item_eqb fuel d0 flag q px py item size
    = Ok (r, q') (new_size c size) /\
    wfq q' /\ bound_of q' = bound_of q /\
    get_value d0 q' px py = Some (new_value c item) /\
    forall u v, (u, v) <> (px, py) -> get_value d0 q' u v = get_value d0 q u v.

Lemma insert_quadrant_outside fuel q px py item size :
  is_null q = false ->
  isInside (bound_of q) px py = false ->
  insert_quadrant item_eqb (S fuel) d0 flag q px py item size
  = Ok (false, q) size.
Proof.
  intros Hn Hout. destruct q; [discriminate|]. simpl in *.
  rewrite Hout. reflexivity.
Qed.

(** The chain of calls on the four children, when the point lies in the
    child in direction [dir] only. *)
Lemma insert_children_at (rec : quadrant -> ST Z (bool * quadrant))
  dir d pos b qne qnw qsw qse size r q1 size' :
  (forall dir' sz, dir' <> dir ->
     rec (child dir' qne qnw qsw qse) sz
     = Ok (false, child dir' qne qnw qsw qse) sz) ->
  rec (child dir qne qnw qsw qse) size = Ok (r, q1) size' ->
  insert_children rec d pos b qne qnw qsw qse size
  = Ok (r, with_child dir q1 d pos b qne qnw qsw qse) size'.
Proof.
  intros Hother Hat. unfold insert_children, bind, ret.
  destruct dir; simpl in Hat;
    repeat first
      [ rewrite Hat; simpl
      | rewrite (Hother NE) by discriminate; simpl
      | rewrite (Hother NW) by discriminate; simpl
      | rewrite (Hother SW) by discriminate; simpl
      | rewrite (Hother SE) by discriminate; simpl
      | progress (destruct r; simpl) ];
    reflexivity.
Qed.

Lemma wfq_node_child d pos b qne qnw qsw qse dir :
  wfq (quad d pos b qne qnw qsw qse) -> is_null qne = false ->
  wfq (child dir qne qnw qsw qse) /\
  bound_of (child dir qne qnw qsw qse) = quadrant_bound b dir /\
  wf_bound b /\ (left b + 2 <= right b \/ bottom b + 2 <= top b).
Proof.
  intros H Hn. inversion H; subst; [discriminate|].
  destruct dir; simpl; auto.
Qed.

Lemma wfq_with_child d pos b qne qnw qsw qse dir q1 :
  wfq (quad d pos b qne qnw qsw qse) -> is_null qne = false ->
  wfq q1 -> bound_of q1 = quadrant_bound b dir ->
  wfq (with_child dir q1 d pos b qne qnw qsw qse).
Proof.
  intros H Hn H1 Hb1. inversion H; subst; [discriminate|].
  destruct dir; simpl; apply wfq_node; auto.
Qed.

Lemma get_value_with_child d pos b qne qnw qsw qse dir q1 u v dir' :
  is_null qne = false -> is_null q1 = false ->
  isInside b u v = true ->
  select_quadrant b u v = Some dir' ->
  get_value d0 (with_child dir q1 d pos b qne qnw qsw qse) u v
  = if decide (dir' = dir) then get_value d0 q1 u v
    else get_value d0 (child dir' qne qnw qsw qse) u v.
Proof.
  intros Hn Hn1 Hin Hsel.
  destruct dir; simpl; rewrite Hin; simpl;
    rewrite ?Hn, ?Hn1, Hsel; simpl; destruct dir'; reflexivity.
Qed.

(** An insert into an internal node, given the behaviour of
    [insert_quadrant] with one unit of fuel less. *)
Lemma insert_children_ok f :
  (forall q px py item size,
     wfq q -> (extent (bound_of q) < f)%nat ->
     0 <= size < 2 ^ 64 ->
     isInside (bound_of q) px py = true ->
     insert_spec f q px py item size) ->
  forall d pos b qne qnw qsw qse px py item size,
    wfq (quad d pos b qne qnw qsw qse) -> is_null qne = false ->
    (extent b < S f)%nat ->
    0 <= size < 2 ^ 64 ->
    isInside b px py = true ->
    exists r q' c,
      get_value d0 (quad d pos b qne qnw qsw qse) px py = Some c /\
      insert_children
        (fun q => insert_quadrant item_eqb f d0 flag q px py item)
        d pos b qne qnw qsw qse size
      = Ok (r, q') (new_size c size) /\
      wfq q' /\ bound_of q' = b /\
      get_value d0 q' px py = Some (new_value c item) /\
      forall u v, (u, v) <> (px, py) ->
        get_value d0 q' u v = get_value d0 (quad d pos b qne qnw qsw qse) u v.
Proof.
  intros IH d pos b qne qnw qsw qse px py item size Hwf Hn Hext Hsz Hin.
  destruct (select_quadrant_inside b px py Hin) as (dir & Hsel & Hdir & Hothers).
  destruct (wfq_node_child _ _ _ _ _ _ _ dir Hwf Hn) as (Hc & Hcb & Hb & Hbig).
  pose proof (quadrant_bound_extent b dir Hb Hbig) as Hlt.
  destruct (IH (child dir qne qnw qsw qse) px py item size)
    as (r & q1 & c & Hget & Hins & Hwf1 & Hb1 & Hnew & Hframe).
  { assumption. }
  { rewrite Hcb. lia. }
  { assumption. }
  { rewrite Hcb. assumption. }
  assert (is_null q1 = false) as Hn1 by (apply wfq_not_null; assumption).
  exists r, (with_child dir q1 d pos b qne qnw qsw qse), c.
  split; [|split; [|split; [|split; [|split]]]].
  - rewrite (get_value_node _ _ _ _ _ _ _ _ _ dir) by assumption.
    assumption.
  - apply insert_children_at; [|assumption].
    intros dir' sz Hne.
    destruct (wfq_node_child _ _ _ _ _ _ _ dir' Hwf Hn) as (Hc' & Hcb' & _).
    destruct f as [|f']; [lia|].
    apply insert_quadrant_outside.
    + apply wfq_not_null. assumption.
    + rewrite Hcb'. apply Hothers. assumption.
  - apply wfq_with_child; try assumption. congruence.
  - destruct dir; reflexivity.
  - rewrite (get_value_with_child _ _ _ _ _ _ _ _ _ _ _ dir) by assumption.
    rewrite decide_True by reflexivity. assumption.
  - intros u v Huv.
    destruct (isInside b u v) eqn:Hin'.
    + destruct (select_quadrant_inside b u v Hin') as (dir' & Hsel' & _).
      rewrite (get_value_with_child _ _ _ _ _ _ _ _ _ _ _ dir') by assumption.
      rewrite (get_value_node _ _ _ _ _ _ _ _ _ dir') by assumption.
      case_decide; [subst dir'; apply Hframe; assumption | reflexivity].
    + rewrite get_value_outside by assumption.
      destruct dir; simpl; rewrite Hin'; reflexivity.
Qed.

Lemma size_t_wrap_range n : 0 <= size_t_wrap n < 2 ^ 64.
Proof. unfold size_t_wrap. apply Z.mod_pos_bound. reflexivity. Qed.

Lemma size_t_wrap_small n : 0 <= n < 2 ^ 64 -> size_t_wrap n = n.
Proof. unfold size_t_wrap. apply Z.mod_small. Qed.

Lemma size_t_incr_decr n :
  0 <= n < 2 ^ 64 -> size_t_wrap (size_t_wrap (n + 1) - 1) = n.
Proof.
  intros H. unfold size_t_wrap.
  rewrite Zminus_mod_idemp_l.
  replace (n + 1 - 1) with n by lia. apply Z.mod_small. assumption.
Qed.

Lemma new_size_range c n : 0 <= n < 2 ^ 64 -> 0 <= new_size c n < 2 ^ 64.
Proof.
  intros H. unfold new_size.
  destruct (item_eqb c d0); [apply size_t_wrap_range | assumption].
Qed.

Lemma create_quadrants_eq b :
  create_quadrants d0 b
  = (leaf d0 (quadrant_bound b NE), leaf d0 (quadrant_bound b NW),
     leaf d0 (quadrant_bound b SW), leaf d0 (quadrant_bound b SE)).
Proof. reflexivity. Qed.

(** The child in direction [dir'] after the point of a divided leaf was
    inserted into the four fresh children: the child in direction [dir]
    holds it, the others are empty. *)
Definition divided_child (dir : direction) (d : item_t) (ox oy : Z)
  (b : rect_bound_t) (dir' : direction) : quadrant :=
  if decide (dir' = dir) then
    quad d {| x := ox; y := oy; z := 0 |} (quadrant_bound b dir')
         nullptr nullptr nullptr nullptr
  else leaf d0 (quadrant_bound b dir').

(** Inserting a point into a fresh child. *)
Lemma insert_quadrant_fresh f bnd ox oy d size :
  insert_quadrant item_eqb (S f) d0 flag (leaf d0 bnd) ox oy d size
  = if isInside bnd ox oy then
      Ok (true, quad d {| x := ox; y := oy; z := 0 |} bnd
                     nullptr nullptr nullptr nullptr)
         (size_t_wrap (size + 1))
    else Ok (false, leaf d0 bnd) size.
Proof.
  simpl. destruct (isInside bnd ox oy); simpl; [|reflexivity].
  rewrite item_eqb_refl. reflexivity.
Qed.

(** The four inserts of the old point and [m_size--] of a division. *)
Lemma divide_old_point f b ox oy d size
  (k : bool * quadrant -> bool * quadrant -> bool * quadrant ->
       bool * quadrant -> ST Z (bool * quadrant)) dir :
  0 <= size < 2 ^ 64 ->
  isInside (quadrant_bound b dir) ox oy = true ->
  (forall dir', dir' <> dir -> isInside (quadrant_bound b dir') ox oy = false) ->
  (do r1 <- insert_quadrant item_eqb (S f) d0 flag
              (leaf d0 (quadrant_bound b NE)) ox oy d;
   do r2 <- insert_quadrant item_eqb (S f) d0 flag
              (leaf d0 (quadrant_bound b NW)) ox oy d;
   do r3 <- insert_quadrant item_eqb (S f) d0 flag
              (leaf d0 (quadrant_bound b SW)) ox oy d;
   do r4 <- insert_quadrant item_eqb (S f) d0 flag
              (leaf d0 (quadrant_bound b SE)) ox oy d;
   decr_size;; k r1 r2 r3 r4)%st size
  = k (bool_decide (NE = dir), divided_child dir d ox oy b NE)
      (bool_decide (NW = dir), divided_child dir d ox oy b NW)
      (bool_decide (SW = dir), divided_child dir d ox oy b SW)
      (bool_decide (SE = dir), divided_child dir d ox oy b SE)
      size.
Proof.
  intros Hsz Hin Hout. unfold bind.
  destruct dir;
    repeat (rewrite insert_quadrant_fresh;
            first [ rewrite Hin
                  | rewrite (Hout NE) by discriminate
                  | rewrite (Hout NW) by discriminate
                  | rewrite (Hout SW) by discriminate
                  | rewrite (Hout SE) by discriminate ];
            cbv iota beta);
    unfold decr_size, modify; rewrite size_t_incr_decr by assumption;
    reflexivity.
Qed.

Lemma divided_child_bound dir d ox oy b dir' :
  bound_of (divided_child dir d ox oy b dir') = quadrant_bound b dir'.
Proof. unfold divided_child. case_decide; reflexivity. Qed.

Lemma divided_child_wf dir d ox oy b dir' :
  wf_bound b ->
  isInside (quadrant_bound b dir) ox oy = true ->
  wfq (divided_child dir d ox oy b dir').
Proof.
  intros Hb Hin. unfold divided_child. case_decide.
  - subst dir'. apply wfq_leaf; [apply quadrant_bound_wf; assumption|].
    right. assumption.
  - apply wfq_leaf; [apply quadrant_bound_wf; assumption|]. left. reflexivity.
Qed.

Lemma get_value_divided_child dir d ox oy b dir' u v :
  get_value d0 (divided_child dir d ox oy b dir') u v
  = Some (if bool_decide (dir' = dir)
             && isInside (quadrant_bound b dir') u v
             && (ox =? u) && (oy =? v)
          then d else d0).
Proof.
  unfold divided_child. case_decide.
  - rewrite bool_decide_eq_true_2 by assumption. rewrite get_value_leaf.
    reflexivity.
  - rewrite bool_decide_eq_false_2 by assumption. unfold leaf.
    rewrite get_value_leaf. simpl.
    destruct (_ && _); reflexivity.
Qed.

(** The node a division builds answers [at] as the divided leaf did. *)
Lemma divided_node d pos b dir :
  wf_bound b ->
  left b + 2 <= right b \/ bottom b + 2 <= top b ->
  isInside (quadrant_bound b dir) (x pos) (y pos) = true ->
  let dc := divided_child dir d (x pos) (y pos) b in
  wfq (quad d pos b (dc NE) (dc NW) (dc SW) (dc SE)) /\
  forall u v,
    get_value d0 (quad d pos b (dc NE) (dc NW) (dc SW) (dc SE)) u v
    = get_value d0 (quad d pos b nullptr nullptr nullptr nullptr) u v.
Proof.
  intros Hb Hbig Hin dc. subst dc. split.
  - apply wfq_node;
      solve [ assumption | apply divided_child_wf; assumption
            | apply divided_child_bound ].
  - intros u v. rewrite get_value_leaf.
    destruct (isInside b u v) eqn:Hin'.
    + destruct (select_quadrant_inside b u v Hin') as (dir' & Hsel & Hd & Ho).
      rewrite (get_value_node _ _ _ _ _ _ _ _ _ dir'); try assumption.
      2:{ unfold divided_child. case_decide; reflexivity. }
      replace (child dir' (divided_child dir d (x pos) (y pos) b NE)
                 (divided_child dir d (x pos) (y pos) b NW)
                 (divided_child dir d (x pos) (y pos) b SW)
                 (divided_child dir d (x pos) (y pos) b SE))
        with (divided_child dir d (x pos) (y pos) b dir')
        by (destruct dir'; reflexivity).
      rewrite get_value_divided_child. rewrite Hd. simpl.
      f_equal. destruct (bool_decide (dir' = dir)) eqn:Hdec; simpl.
      * reflexivity.
      * apply bool_decide_eq_false_1 in Hdec.
        destruct ((x pos =? u) && (y pos =? v)) eqn:E; [|reflexivity].
        apply andb_true_iff in E. destruct E as [E1 E2].
        apply Z.eqb_eq in E1, E2. subst u v.
        rewrite Ho in Hin by congruence. discriminate.
    + rewrite get_value_outside by assumption. reflexivity.
Qed.

(** Two different points of a rectangle: a side has two units or more. *)
Lemma two_points_inside b x1 y1 x2 y2 :
  isInside b x1 y1 = true -> isInside b x2 y2 = true ->
  negb (x1 =? x2) || negb (y1 =? y2) = true ->
  left b + 2 <= right b \/ bottom b + 2 <= top b.
Proof.
  rewrite !isInside_iff, orb_true_iff, !negb_true_iff, !Z.eqb_neq. lia.
Qed.

(** The body of [insert_quadrant] on a leaf, for a point inside it. *)
Lemma insert_quadrant_leaf f d pos b px py item :
  isInside b px py = true ->
  insert_quadrant item_eqb (S f) d0 flag
    (quad d pos b nullptr nullptr nullptr nullptr) px py item
  = (if item_eqb d d0 then
       incr_size;;
       ret (true, quad item {| x := px; y := py; z := z pos |} b
                       nullptr nullptr nullptr nullptr)
     else if negb (x pos =? px) || negb (y pos =? py) then
       do r1 <- insert_quadrant item_eqb f d0 flag
                  (leaf d0 (quadrant_bound b NE)) (x pos) (y pos) d;
       do r2 <- insert_quadrant item_eqb f d0 flag
                  (leaf d0 (quadrant_bound b NW)) (x pos) (y pos) d;
       do r3 <- insert_quadrant item_eqb f d0 flag
                  (leaf d0 (quadrant_bound b SW)) (x pos) (y pos) d;
       do r4 <- insert_quadrant item_eqb f d0 flag
                  (leaf d0 (quadrant_bound b SE)) (x pos) (y pos) d;
       decr_size;;
       insert_children
         (fun q => insert_quadrant item_eqb f d0 flag q px py item)
         d pos b (snd r1) (snd r2) (snd r3) (snd r4)
     else if Z.land flag quadtree_no_replace =? 0 then
       ret (true, quad item pos b nullptr nullptr nullptr nullptr)
     else ret (false, quad d pos b nullptr nullptr nullptr nullptr))%st.
Proof. intros H. simpl. rewrite H. reflexivity. Qed.

Lemma eqb_pair_false (a b u v : Z) :
  (u, v) <> (a, b) -> (a =? u) && (b =? v) = false.
Proof.
  intros H. apply andb_false_iff. rewrite !Z.eqb_neq.
  destruct (Z.eq_dec a u); [right|left]; congruence.
Qed.

(** [insert_quadrant] on a well-formed quadrant, for a point inside it and
    fuel above the extent of its rectangle. *)
Lemma insert_quadrant_ok fuel :
  forall q px py item size,
    wfq q -> (extent (bound_of q) < fuel)%nat ->
    0 <= size < 2 ^ 64 ->
    isInside (bound_of q) px py = true ->
    insert_spec fuel q px py item size.
Proof.
  induction fuel as [|f IH]; intros q px py item size Hwf Hext Hsz Hin; [lia|].
  destruct Hwf as [d pos b Hb Hd|d pos b qne qnw qsw qse Hb Hbig
                   Hne Hnw Hsw Hse Bne Bnw Bsw Bse]; simpl in Hin, Hext.
  - (* a leaf *)
    unfold insert_spec.
    destruct (item_eqb d d0) eqn:Ed.
    + (* an empty leaf *)
      apply item_eqb_spec in Ed. subst d.
      exists true,
        (quad item {| x := px; y := py; z := z pos |} b
              nullptr nullptr nullptr nullptr), d0.
      split.
      { rewrite get_value_leaf. destruct (_ && _); reflexivity. }
      unfold new_size, new_value. rewrite item_eqb_refl. simpl negb.
      split.
      { rewrite insert_quadrant_leaf by assumption.
        rewrite item_eqb_refl. reflexivity. }
      split; [apply wfq_leaf; auto|].
      split; [reflexivity|]. split.
      * rewrite get_value_leaf, Hin. simpl. rewrite !Z.eqb_refl. reflexivity.
      * intros u v Huv. rewrite !get_value_leaf. simpl.
        rewrite <- !andb_assoc, (eqb_pair_false _ _ _ _ Huv), andb_false_r.
        destruct (isInside b u v && _); reflexivity.
    + destruct (negb (x pos =? px) || negb (y pos =? py)) eqn:Epos.
      * (* a leaf holding another point: division *)
        assert (isInside b (x pos) (y pos) = true) as Hold.
        { destruct Hd as [->|]; [|assumption].
          rewrite item_eqb_refl in Ed. discriminate. }
        pose proof (two_points_inside b _ _ _ _ Hold Hin Epos) as Hbig.
        destruct (select_quadrant_inside b _ _ Hold) as (dir & _ & Hdin & Hdout).
        destruct (divided_node d pos b dir Hb Hbig Hdin) as [Hnode Hsame].
        destruct f as [|f']; [unfold extent in Hext; lia|].
        destruct (insert_children_ok (S f') IH d pos b _ _ _ _ px py item size
                    Hnode) as (r & q' & c & Hget & Hins & Hwf' & Hb' & Hnew & Hfr);
          try assumption.
        { unfold divided_child. case_decide; reflexivity. }
        rewrite Hsame in Hget.
        exists r, q', c. split; [assumption|]. split.
        { rewrite insert_quadrant_leaf by assumption. rewrite Ed, Epos.
          rewrite (divide_old_point f' b (x pos) (y pos) d size _ dir
                     Hsz Hdin Hdout).
          cbn [snd]. assumption. }
        split; [assumption|]. split; [assumption|]. split; [assumption|].
        intros u v Huv. rewrite (Hfr u v Huv), Hsame. reflexivity.
      * (* the leaf holds the point (px, py) *)
        apply orb_false_iff in Epos. destruct Epos as [E1 E2].
        apply negb_false_iff in E1, E2.
        assert (get_value d0 (quad d pos b nullptr nullptr nullptr nullptr)
                          px py = Some d) as Hget.
        { rewrite get_value_leaf, Hin, E1, E2. reflexivity. }
        assert (isInside b (x pos) (y pos) = true) as Hold.
        { apply Z.eqb_eq in E1, E2. rewrite E1, E2. assumption. }
        assert (new_size d size = size) as Hns
          by (unfold new_size; rewrite Ed; reflexivity).
        assert (new_value d item
                = if Z.land flag quadtree_no_replace =? 0 then item else d)
          as Hnv.
        { unfold new_value. rewrite Ed.
          destruct (Z.land flag quadtree_no_replace =? 0); reflexivity. }
        destruct (Z.land flag quadtree_no_replace =? 0) eqn:Ef.
        -- exists true, (quad item pos b nullptr nullptr nullptr nullptr), d.
           rewrite Hns, Hnv.
           split; [assumption|]. split.
           { rewrite insert_quadrant_leaf by assumption.
             rewrite Ed, E1, E2, Ef. reflexivity. }
           split; [apply wfq_leaf; auto|].
           split; [reflexivity|]. split.
           { rewrite get_value_leaf, Hin, E1, E2. reflexivity. }
           intros u v Huv. rewrite !get_value_leaf.
           apply Z.eqb_eq in E1, E2. subst px py.
           rewrite <- !andb_assoc, (eqb_pair_false _ _ _ _ Huv), andb_false_r.
           reflexivity.
        -- exists false, (quad d pos b nullptr nullptr nullptr nullptr), d.
           rewrite Hns, Hnv.
           split; [assumption|]. split.
           { rewrite insert_quadrant_leaf by assumption.
             rewrite Ed, E1, E2, Ef. reflexivity. }
           split; [apply wfq_leaf; assumption|].
           split; [reflexivity|]. split; [assumption|reflexivity].
  - (* an internal node *)
    assert (is_null qne = false) as Hn by (apply wfq_not_null; assumption).
    assert (wfq (quad d pos b qne qnw qsw qse)) as Hwf
      by (apply wfq_node; assumption).
    destruct (insert_children_ok f IH d pos b qne qnw qsw qse px py item size
                Hwf Hn Hext Hsz Hin)
      as (r & q' & c & Hget & Hins & Hwf' & Hb' & Hnew & Hfr).
    exists r, q', c. split; [assumption|]. split.
    + simpl. rewrite Hin, Hn. simpl. assumption.
    + auto.
Qed.

(** *** Sequences of inserts, against the map of the specification *)

(** The specification of the point quadtree: the tree is a map from
    coordinates to values, the default value standing for "no point";
    [insert] replaces the value of a point, or keeps it when the point is
    stored and the no-replace flag is set; the size grows when the point
    was not stored. *)
Definition spec_map : Type := Z -> Z -> item_t.

Definition spec_empty : spec_map := fun _ _ => d0.

Definition spec_insert (m : spec_map) (px py : Z) (item : item_t) : spec_map :=
  fun u v =>
    if (u =? px) && (v =? py) then
      if item_eqb (m px py) d0 then item
      else if Z.land flag quadtree_no_replace =? 0 then item
      else m px py
    else m u v.

Definition spec_size (m : spec_map) (px py : Z) (size : Z) : Z :=
  if item_eqb (m px py) d0 then size_t_wrap (size + 1) else size.

Fixpoint spec_insert_all (m : spec_map) (size : Z) (ops : list (Z * Z * item_t))
  : spec_map * Z :=
  match ops with
  | [] => (m, size)
  | (px, py, item) :: ops =>
      spec_insert_all (spec_insert m px py item) (spec_size m px py size) ops
  end.

Lemma new_value_spec c item :
  new_value c item
  = if item_eqb c d0 then item
    else if Z.land flag quadtree_no_replace =? 0 then item else c.
Proof.
  unfold new_value. destruct (item_eqb c d0); simpl; [reflexivity|].
  destruct (Z.land flag quadtree_no_replace =? 0); reflexivity.
Qed.

(** What [at] answers, with the default value for a tree without root. *)
Definition view (t : quadtree_t item_t) (u v : Z) : item_t :=
  match at_ t u v with
  | Some c => c
  | None => d0
  end.

(** The invariant of a tree built by inserts inside the bounds. *)
Definition wft (t : quadtree_t item_t) : Prop :=
  m_default_value t = d0 /\ m_behaviour_flag t = flag /\
  0 <= m_size t < 2 ^ 64 /\
  (m_root t = nullptr \/
   (wfq (m_root t) /\ bound_of (m_root t) = root_bound t)).

Lemma root_bound_wf (t : quadtree_t item_t) px py :
  isInside (root_bound t) px py = true -> wf_bound (root_bound t).
Proof.
  intros H. apply isInside_iff in H. revert H.
  unfold wf_bound, root_bound; simpl.
  pose proof (Z.quot_rem' (2 * x (m_center t) - m_width t) 2) as Ex.
  pose proof (Z.rem_bound_abs (2 * x (m_center t) - m_width t) 2
                ltac:(lia)) as Bx.
  pose proof (Z.quot_rem' (2 * y (m_center t) - m_height t) 2) as Ey.
  pose proof (Z.rem_bound_abs (2 * y (m_center t) - m_height t) 2
                ltac:(lia)) as By.
  simpl in Bx, By. lia.
Qed.

Lemma root_bound_with_root_size (t : quadtree_t item_t) root size depth :
  root_bound (with_root_size t root size depth) = root_bound t.
Proof. reflexivity. Qed.

(** One [insert] inside the bounds refines [spec_insert]. *)
Lemma insert_refines fuel t m px py item :
  wft t -> (forall u v, view t u v = m u v) ->
  isInside (root_bound t) px py = true ->
  (extent (root_bound t) < fuel)%nat ->
  exists t',
    insert item_eqb fuel t px py item = Ok (m_size t') t' /\
    wft t' /\ root_bound t' = root_bound t /\
    m_root t' <> nullptr /\
    (forall u v, view t' u v = spec_insert m px py item u v) /\
    m_size t' = spec_size m px py (m_size t).
Proof.
  intros (Hd & Hf & Hsz & Hroot) Hview Hin Hfuel.
  unfold insert. destruct Hroot as [Hnull|[Hwf Hb]].
  - (* the first insert creates the root *)
    rewrite Hnull.
    assert (forall u v, m u v = d0) as Hm.
    { intros u v. rewrite <- Hview. unfold view, at_. rewrite Hnull.
      reflexivity. }
    exists (with_root_size t
              (quad item {| x := px; y := py; z := 0 |} (root_bound t)
                    nullptr nullptr nullptr nullptr)
              (size_t_wrap (m_size t + 1)) (m_depth t)).
    split; [reflexivity|]. simpl.
    split; [|split; [reflexivity|split; [discriminate|split]]].
    + unfold wft; simpl. split; [assumption|]. split; [assumption|].
      split; [apply size_t_wrap_range|]. right. split; [|reflexivity].
      apply wfq_leaf; [eapply root_bound_wf; eassumption|].
      right. assumption.
    + intros u v. unfold view, at_; simpl m_root; simpl m_default_value.
      rewrite Hd. change (root_bound _) with (root_bound t).
      rewrite get_value_leaf. unfold spec_insert. simpl.
      rewrite !Hm, item_eqb_refl.
      destruct ((u =? px) && (v =? py)) eqn:E.
      * apply andb_true_iff in E. destruct E as [E1 E2].
        apply Z.eqb_eq in E1, E2. subst u v.
        rewrite Hin, !Z.eqb_refl. reflexivity.
      * rewrite <- andb_assoc.
        assert ((px =? u) && (py =? v) = false) as ->.
        { rewrite (Z.eqb_sym px u), (Z.eqb_sym py v). assumption. }
        rewrite andb_false_r. reflexivity.
    + unfold spec_size. rewrite Hm, item_eqb_refl. reflexivity.
  - (* the root exists *)
    pose proof (wfq_not_null _ Hwf) as Hn.
    destruct (insert_quadrant_ok fuel (m_root t) px py item (m_size t))
      as (r & q' & c & Hget & Hins & Hwf' & Hb' & Hnew & Hfr);
      try (rewrite ?Hb; assumption).
    destruct (m_root t) as [|rd rpos rb r1 r2 r3 r4] eqn:Er; [discriminate|].
    rewrite Hd, Hf, Hins.
    assert (c = m px py) as Hc.
    { rewrite <- Hview. unfold view, at_. rewrite Er, Hd, Hget.
      reflexivity. }
    exists (with_root_size t q' (new_size c (m_size t)) (compute_depth q')).
    split; [reflexivity|]. simpl.
    split; [|split; [reflexivity|split; [|split]]].
    + unfold wft; simpl. split; [assumption|]. split; [assumption|].
      split; [apply new_size_range; assumption|].
      right. split; [assumption|].
      change (root_bound _) with (root_bound t). congruence.
    + apply wfq_not_null in Hwf'. destruct q'; [discriminate|discriminate].
    + intros u v. unfold view, at_; simpl m_root; simpl m_default_value.
      rewrite Hd. unfold spec_insert.
      destruct ((u =? px) && (v =? py)) eqn:E.
      * apply andb_true_iff in E. destruct E as [E1 E2].
        apply Z.eqb_eq in E1, E2. subst u v.
        rewrite Hnew, new_value_spec, Hc. reflexivity.
      * rewrite Hfr.
        -- rewrite <- Hview. unfold view, at_. rewrite Er, Hd. reflexivity.
        -- intros [= -> ->]. rewrite !Z.eqb_refl in E. discriminate.
    + unfold spec_size, new_size. rewrite Hc. reflexivity.
Qed.

Definition inside_root (t : quadtree_t item_t) (op : Z * Z * item_t) : Prop :=
  isInside (root_bound t) (fst (fst op)) (snd (fst op)) = true.

Lemma insert_all_refines fuel :
  forall ops t m,
    wft t -> (forall u v, view t u v = m u v) ->
    Forall (inside_root t) ops ->
    (extent (root_bound t) < fuel)%nat ->
    exists t',
      insert_all item_eqb fuel t ops = Ok tt t' /\
      wft t' /\
      (forall u v, view t' u v = fst (spec_insert_all m (m_size t) ops) u v) /\
      m_size t' = snd (spec_insert_all m (m_size t) ops) /\
      (ops <> [] -> m_root t' <> nullptr).
Proof.
  induction ops as [|[[px py] item] ops IH]; intros t m Hwf Hview Hall Hfuel.
  - exists t. simpl. split; [reflexivity|]. split; [assumption|].
    split; [assumption|]. split; [reflexivity|]. congruence.
  - inversion Hall as [|? ? Hin Hrest]; subst.
    destruct (insert_refines fuel t m px py item Hwf Hview Hin Hfuel)
      as (t1 & Hins & Hwf1 & Hb1 & Hroot1 & Hview1 & Hsz1).
    destruct (IH t1 (spec_insert m px py item) Hwf1 Hview1)
      as (t' & Hall' & Hwf' & Hview' & Hsz' & Hroot').
    { eapply Forall_impl; [exact Hrest|]. unfold inside_root.
      intros op. rewrite Hb1. auto. }
    { rewrite Hb1. assumption. }
    exists t'. simpl. rewrite Hins, Hall', <- Hsz1.
    split; [reflexivity|]. split; [assumption|]. split; [assumption|].
    split; [assumption|]. intros _.
    destruct ops; [|apply Hroot'; discriminate].
    simpl in Hall'. injection Hall' as <-. assumption.
Qed.

(** The value of the last, and of the first, insert at a point. *)
Definition same_point (op : Z * Z * item_t) (u v : Z) : bool :=
  (fst (fst op) =? u) && (snd (fst op) =? v).

Fixpoint last_value (ops : list (Z * Z * item_t)) (u v : Z) : option item_t :=
  match ops with
  | [] => None
  | op :: ops =>
      match last_value ops u v with
      | Some w => Some w
      | None => if same_point op u v then Some (snd op) else None
      end
  end.

Fixpoint first_value (ops : list (Z * Z * item_t)) (u v : Z) : option item_t :=
  match ops with
  | [] => None
  | op :: ops =>
      if same_point op u v then Some (snd op) else first_value ops u v
  end.

Lemma same_point_sym px py item u v :
  same_point (px, py, item) u v = (u =? px) && (v =? py).
Proof.
  unfold same_point; simpl. rewrite (Z.eqb_sym px u), (Z.eqb_sym py v).
  reflexivity.
Qed.

Lemma spec_last_value :
  Z.land flag quadtree_no_replace = 0 ->
  forall ops m size u v,
    fst (spec_insert_all m size ops) u v
    = match last_value ops u v with Some w => w | None => m u v end.
Proof.
  intros Hflag. induction ops as [|[[px py] item] ops IH]; intros m size u v.
  - reflexivity.
  - simpl. rewrite IH. destruct (last_value ops u v); [reflexivity|].
    rewrite same_point_sym. unfold spec_insert. rewrite Hflag. simpl.
    destruct ((u =? px) && (v =? py)); [|reflexivity].
    destruct (item_eqb (m px py) d0); reflexivity.
Qed.

Lemma spec_kept :
  Z.land flag quadtree_no_replace <> 0 ->
  forall ops m size u v,
    m u v <> d0 -> fst (spec_insert_all m size ops) u v = m u v.
Proof.
  intros Hflag. apply Z.eqb_neq in Hflag.
  induction ops as [|[[px py] item] ops IH]; intros m size u v Hm.
  - reflexivity.
  - simpl.
    assert (spec_insert m px py item u v = m u v) as E.
    { unfold spec_insert. destruct ((u =? px) && (v =? py)) eqn:E;
        [|reflexivity].
      apply andb_true_iff in E. destruct E as [E1 E2].
      apply Z.eqb_eq in E1, E2. subst u v.
      apply item_eqb_false in Hm. rewrite Hm, Hflag. reflexivity. }
    rewrite IH; [assumption|]. rewrite E. assumption.
Qed.

Lemma spec_first_value :
  Z.land flag quadtree_no_replace <> 0 ->
  forall ops m size u v w,
    m u v = d0 -> first_value ops u v = Some w -> w <> d0 ->
    fst (spec_insert_all m size ops) u v = w.
Proof.
  intros Hflag.
  induction ops as [|[[px py] item] ops IH]; intros m size u v w Hm Hf Hw.
  - discriminate.
  - simpl in *. rewrite same_point_sym in Hf.
    destruct ((u =? px) && (v =? py)) eqn:E.
    + injection Hf as ->.
      assert (spec_insert m px py w u v = w) as Ei.
      { unfold spec_insert. rewrite E.
        apply andb_true_iff in E. destruct E as [E1 E2].
        apply Z.eqb_eq in E1, E2. subst u v.
        rewrite Hm, item_eqb_refl. reflexivity. }
      rewrite spec_kept; [assumption|assumption|]. rewrite Ei. assumption.
    + apply IH; try assumption. unfold spec_insert. rewrite E. assumption.
Qed.

Lemma spec_count :
  forall ops m size,
    List.NoDup (map fst ops) ->
    (forall op, In op ops -> m (fst (fst op)) (snd (fst op)) = d0) ->
    0 <= size -> size + Z.of_nat (length ops) < 2 ^ 64 ->
    snd (spec_insert_all m size ops) = size + Z.of_nat (length ops).
Proof.
  induction ops as [|[[px py] item] ops IH]; intros m size Hnd Hm H0 Hlt.
  - simpl. lia.
  - simpl map in Hnd. apply NoDup_cons_iff in Hnd as [Hnotin Hnd].
    assert (spec_size m px py size = size + 1) as Es.
    { unfold spec_size.
      pose proof (Hm (px, py, item) ltac:(left; reflexivity)) as E.
      simpl in E. rewrite E.
      rewrite item_eqb_refl. apply size_t_wrap_small.
      simpl length in Hlt. lia. }
    simpl spec_insert_all. rewrite Es. rewrite IH.
    + simpl length. lia.
    + assumption.
    + intros [[qx qy] qitem] Hq. simpl.
      unfold spec_insert.
      destruct ((qx =? px) && (qy =? py)) eqn:E.
      * apply andb_true_iff in E. destruct E as [E1 E2].
        apply Z.eqb_eq in E1, E2. subst qx qy.
        exfalso. apply Hnotin. apply in_map_iff.
        exists (px, py, qitem). split; [reflexivity|assumption].
      * apply (Hm (qx, qy, qitem)). right. assumption.
    + lia.
    + simpl length in Hlt. lia.
Qed.

Lemma at_view t u v :
  wft t -> m_root t <> nullptr -> at_ t u v = Some (view t u v).
Proof.
  intros (Hd & _ & _ & [Hnull|[Hwf _]]) Hroot; [contradiction|].
  unfold view, at_. rewrite Hd.
  destruct (get_value_defined (m_root t) u v Hwf) as [c ->]. reflexivity.
Qed.

Lemma last_value_nonempty ops u v w :
  last_value ops u v = Some w -> ops <> [].
Proof. destruct ops; [discriminate|congruence]. Qed.

Lemma first_value_nonempty ops u v w :
  first_value ops u v = Some w -> ops <> [].
Proof. destruct ops; [discriminate|congruence]. Qed.

(** [insert] changes neither the centre nor the sides of the tree. *)
Lemma insert_root_bound fuel (t t' : quadtree_t item_t) px py item n :
  insert item_eqb fuel t px py item = Ok n t' -> root_bound t' = root_bound t.
Proof.
  unfold insert. destruct (m_root t).
  - intros [= _ <-]. reflexivity.
  - destruct (insert_quadrant _ _ _ _ _ _ _ _ _); intros H; try discriminate.
    injection H as _ <-. reflexivity.
Qed.

Lemma insert_all_root_bound fuel :
  forall ops (t t' : quadtree_t item_t),
    insert_all item_eqb fuel t ops = Ok tt t' -> root_bound t' = root_bound t.
Proof.
  induction ops as [|[[px py] item] ops IH]; intros t t' H; simpl in H.
  - injection H as <-. reflexivity.
  - destruct (insert item_eqb fuel t px py item) as [n t1| |] eqn:E;
      try discriminate.
    rewrite (IH _ _ H). eapply insert_root_bound. eassumption.
Qed.

(** The rectangles of the children lie in the range of the sides of the
    parent. *)
Lemma quadrant_bound_fits b dir :
  wf_bound b -> bound_fits b -> bound_fits (quadrant_bound b dir).
Proof.
  intros _ (Hl & Hr & Ht & Hb & Hcx & Hcy).
  unfold bound_fits.
  destruct dir; simpl; repeat split;
    try apply Hl; try apply Hr; try apply Ht; try apply Hb;
    try apply Hcx; try apply Hcy;
    try (apply half_sum_fits; assumption).
Qed.

(** In a well-formed quadrant whose rectangle fits, every rectangle
    fits: the sums [left + right] and [top + bottom] that
    [create_quadrants] formed are [int]s. *)
Lemma wfq_fits q : wfq q -> bound_fits (bound_of q) -> quadrants_fit q.
Proof.
  induction 1 as [d pos b Hb Hd|d pos b qne qnw qsw qse Hb Hs
                  Hne IHne Hnw IHnw Hsw IHsw Hse IHse Bne Bnw Bsw Bse];
    intros Hfit; simpl in Hfit.
  - simpl. tauto.
  - simpl. split; [assumption|].
    split; [apply IHne; rewrite Bne; apply quadrant_bound_fits; assumption|].
    split; [apply IHnw; rewrite Bnw; apply quadrant_bound_fits; assumption|].
    split; [apply IHsw; rewrite Bsw; apply quadrant_bound_fits; assumption|].
    apply IHse; rewrite Bse; apply quadrant_bound_fits; assumption.
Qed.

(** C7, amended.  For a point quadtree over [int] coordinates whose centre
    and sides satisfy [coordinates_fit], and a sequence of inserts at
    points inside the bounds of the root, run with fuel above
    width + height: every insert returns; every rectangle of the tree has
    its sides and its centre in [-2^30, 2^30), so that no sum of two
    coordinates overflowed; with the no-replace flag clear, [at(x, y)] is
    the value of the last insert at (x, y); with the flag set, [at(x, y)]
    is the value of the first insert at (x, y) when that value is not the
    default value; and when the coordinates of the inserts are pairwise
    distinct and the inserts fewer than 2^32, [size] is the number of
    inserts. *)
Theorem inserts_inside_bounds (cx cy w h : Z) (ops : list (Z * Z * item_t))
  (fuel : nat) :
  let t0 := set_behaviour_flag flag (make cx cy w h d0) in
  coordinates_fit cx cy w h ->
  Forall (inside_root t0) ops ->
  (Z.to_nat w + Z.to_nat h < fuel)%nat ->
  exists t,
    insert_all item_eqb fuel t0 ops = Ok tt t /\
    quadrants_fit (m_root t) /\
    (Z.land flag quadtree_no_replace = 0 ->
     forall u v a, last_value ops u v = Some a -> at_ t u v = Some a) /\
    (Z.land flag quadtree_no_replace <> 0 ->
     forall u v a, first_value ops u v = Some a -> a <> d0 ->
                   at_ t u v = Some a) /\
    (List.NoDup (map fst ops) -> Z.of_nat (length ops) < 2 ^ 32 ->
     m_size t = Z.of_nat (length ops)).
Proof.
  intros t0 Hfit Hall Hfuel.
  assert (wft t0) as Hwf0.
  { unfold wft, t0; simpl. split; [reflexivity|]. split; [reflexivity|].
    split; [change (2 ^ 64) with 18446744073709551616; lia|].
    left. reflexivity. }
  assert (forall u v, view t0 u v = spec_empty u v) as Hview0
    by reflexivity.
  destruct (insert_all_refines fuel ops t0 spec_empty Hwf0 Hview0 Hall)
    as (t & Hrun & Hwf & Hview & Hsize & Hroot).
  { unfold extent, t0, root_bound; simpl.
    match goal with
    | |- (Z.to_nat ?a + Z.to_nat ?b < _)%nat =>
        replace a with w by lia; replace b with h by lia
    end.
    assumption. }
  exists t. split; [assumption|]. split; [|split; [|split]].
  - destruct Hwf as (_ & _ & _ & [Hnull|[Hq Hb]]); [rewrite Hnull; exact I|].
    apply wfq_fits; [assumption|].
    rewrite Hb, (insert_all_root_bound fuel ops t0 t Hrun).
    exact (root_bound_fits cx cy w h d0 Hfit).
  - intros Hflag u v a Hlast.
    rewrite at_view by eauto using last_value_nonempty.
    rewrite Hview, (spec_last_value Hflag), Hlast. reflexivity.
  - intros Hflag u v a Hfirst Ha.
    rewrite at_view by eauto using first_value_nonempty.
    rewrite Hview. f_equal.
    apply (spec_first_value Hflag); auto.
  - intros Hnd Hlen. rewrite Hsize.
    change (m_size t0) with 0. rewrite spec_count; auto; lia.
Qed.

(** *** [find] on a tree built by inserts *)

(** A point of a child lies in the parent, and [select_quadrant] names
    that child for it. *)
Lemma select_quadrant_child b u v dir :
  wf_bound b -> isInside (quadrant_bound b dir) u v = true ->
  isInside b u v = true /\ select_quadrant b u v = Some dir.
Proof.
  intros Hb Hin.
  assert (isInside b u v = true) as Hin'.
  { destruct (isInside b u v) eqn:E; [reflexivity|].
    rewrite (quadrant_bound_outside b u v dir Hb E) in Hin. discriminate. }
  split; [assumption|].
  destruct (select_quadrant_inside b u v Hin') as (dir' & Hsel & _ & Hothers).
  destruct (decide (dir = dir')) as [->|Hne]; [assumption|].
  rewrite (Hothers dir Hne) in Hin. discriminate.
Qed.

(** A search that fails leaves [keys] as they were. *)
Lemma find_quadrant_false (q : quadrant) item keys criterion :
  fst (find_quadrant q item keys criterion) = false ->
  find_quadrant q item keys criterion = (false, keys).
Proof.
  revert keys.
  induction q as [|d pos b qne IHne qnw IHnw qsw IHsw qse IHse]; intros keys H;
    [reflexivity|].
  simpl in *. destruct (negb (is_null qne)).
  - destruct (fst (find_quadrant qne item keys criterion)) eqn:E1;
      [congruence|].
    rewrite (IHne _ E1) in *. simpl in *.
    destruct (fst (find_quadrant qnw item keys criterion)) eqn:E2;
      [congruence|].
    rewrite (IHnw _ E2) in *. simpl in *.
    destruct (fst (find_quadrant qsw item keys criterion)) eqn:E3;
      [congruence|].
    rewrite (IHsw _ E3) in *. simpl in *.
    apply IHse. assumption.
  - destruct (criterion d item); [discriminate|reflexivity].
Qed.

(** The search of an internal node succeeds in one of its children. *)
Lemma find_quadrant_node d pos b (qne qnw qsw qse : quadrant) item keys
  criterion k :
  is_null qne = false ->
  find_quadrant (quad d pos b qne qnw qsw qse) item keys criterion = (true, k) ->
  exists dir,
    find_quadrant (child dir qne qnw qsw qse) item keys criterion = (true, k).
Proof.
  intros Hn H. simpl in H. rewrite Hn in H. simpl in H.
  destruct (fst (find_quadrant qne item keys criterion)) eqn:E1;
    [exists NE; assumption|].
  rewrite (find_quadrant_false _ _ _ _ E1) in H. simpl in H.
  destruct (fst (find_quadrant qnw item keys criterion)) eqn:E2;
    [exists NW; assumption|].
  rewrite (find_quadrant_false _ _ _ _ E2) in H. simpl in H.
  destruct (fst (find_quadrant qsw item keys criterion)) eqn:E3;
    [exists SW; assumption|].
  rewrite (find_quadrant_false _ _ _ _ E3) in H. simpl in H.
  exists SE. assumption.
Qed.

Lemma find_quadrant_node_false d pos b (qne qnw qsw qse : quadrant) item keys
  criterion :
  is_null qne = false ->
  fst (find_quadrant (quad d pos b qne qnw qsw qse) item keys criterion)
  = false ->
  forall dir,
    fst (find_quadrant (child dir qne qnw qsw qse) item keys criterion) = false.
Proof.
  intros Hn H. simpl in H. rewrite Hn in H. simpl in H.
  destruct (fst (find_quadrant qne item keys criterion)) eqn:E1;
    [congruence|].
  rewrite (find_quadrant_false _ _ _ _ E1) in H. simpl in H.
  destruct (fst (find_quadrant qnw item keys criterion)) eqn:E2;
    [congruence|].
  rewrite (find_quadrant_false _ _ _ _ E2) in H. simpl in H.
  destruct (fst (find_quadrant qsw item keys criterion)) eqn:E3;
    [congruence|].
  rewrite (find_quadrant_false _ _ _ _ E3) in H. simpl in H.
  intros []; simpl; assumption.
Qed.

(** The keys a successful search writes are those of a stored point with
    the item searched for. *)
Lemma find_quadrant_sound q item keys kx ky :
  wfq q -> item <> d0 ->
  find_quadrant q item keys item_eqb = (true, (kx, ky)) ->
  isInside (bound_of q) kx ky = true /\ get_value d0 q kx ky = Some item.
Proof.
  intros Hwf Hitem. revert keys.
  induction Hwf as [d pos b Hb Hd|d pos b qne qnw qsw qse Hb Hs
                    Hne IHne Hnw IHnw Hsw IHsw Hse IHse Bne Bnw Bsw Bse];
    intros keys H.
  - simpl in H. destruct (item_eqb d item) eqn:E; [|discriminate].
    apply item_eqb_spec in E. subst d. injection H as <- <-.
    destruct Hd as [Hd|Hd]; [contradiction|].
    simpl bound_of. split; [assumption|].
    rewrite get_value_leaf, Hd, !Z.eqb_refl. reflexivity.
  - pose proof (wfq_not_null _ Hne) as Hn.
    destruct (find_quadrant_node _ _ _ _ _ _ _ _ _ _ _ Hn H) as [dir Hdir].
    assert (isInside (quadrant_bound b dir) kx ky = true /\
            get_value d0 (child dir qne qnw qsw qse) kx ky = Some item)
      as [Hin Hget].
    { destruct dir; simpl in Hdir;
        [rewrite <- Bne; exact (IHne _ Hdir) | rewrite <- Bnw; exact (IHnw _ Hdir)
        |rewrite <- Bsw; exact (IHsw _ Hdir) | rewrite <- Bse; exact (IHse _ Hdir)]. }
    destruct (select_quadrant_child b kx ky dir Hb Hin) as [Hinb Hsel].
    simpl bound_of. split; [assumption|].
    rewrite (get_value_node _ _ _ _ _ _ _ _ _ dir) by assumption.
    assumption.
Qed.

(** A stored point with the item searched for makes the search succeed. *)
Lemma find_quadrant_complete q item keys u v :
  wfq q -> item <> d0 ->
  get_value d0 q u v = Some item ->
  fst (find_quadrant q item keys item_eqb) = true.
Proof.
  intros Hwf Hitem. revert keys.
  induction Hwf as [d pos b Hb Hd|d pos b qne qnw qsw qse Hb Hs
                    Hne IHne Hnw IHnw Hsw IHsw Hse IHse Bne Bnw Bsw Bse];
    intros keys H.
  - rewrite get_value_leaf in H. simpl.
    destruct (isInside b u v && (x pos =? u) && (y pos =? v));
      [|congruence].
    injection H as ->. rewrite item_eqb_refl. reflexivity.
  - pose proof (wfq_not_null _ Hne) as Hn.
    destruct (isInside b u v) eqn:Hin;
      [|rewrite get_value_outside in H by assumption; congruence].
    destruct (select_quadrant_inside b u v Hin) as (dir & Hsel & _).
    rewrite (get_value_node _ _ _ _ _ _ _ _ _ dir) in H by assumption.
    destruct (fst (find_quadrant (quad d pos b qne qnw qsw qse) item keys
                     item_eqb)) eqn:E; [reflexivity|].
    pose proof (find_quadrant_node_false _ _ _ _ _ _ _ _ _ _ Hn E dir) as Hf.
    destruct dir; simpl in H, Hf;
      [rewrite (IHne _ H) in Hf | rewrite (IHnw _ H) in Hf
      |rewrite (IHsw _ H) in Hf | rewrite (IHse _ H) in Hf]; discriminate.
Qed.

(** X2.  On a point quadtree over [int] coordinates whose centre and sides
    satisfy [coordinates_fit], built by inserts at points inside the bounds
    of the root, a search with the default criterion (equality) for an item
    other than the default value agrees with [at]: when [find] returns true
    the keys it wrote are coordinates at which [at] returns the item; it
    returns true whenever [at] returns the item somewhere; and when it
    returns false it leaves [keys] unchanged.  Every rectangle of the tree
    has its sides and its centre in [-2^30, 2^30). *)
Theorem find_agrees_with_at (cx cy w h : Z) (ops : list (Z * Z * item_t))
  (fuel : nat) (item : item_t) (keys : Z * Z) :
  let t0 := set_behaviour_flag flag (make cx cy w h d0) in
  coordinates_fit cx cy w h ->
  Forall (inside_root t0) ops ->
  (Z.to_nat w + Z.to_nat h < fuel)%nat ->
  item <> d0 ->
  exists t,
    insert_all item_eqb fuel t0 ops = Ok tt t /\
    quadrants_fit (m_root t) /\
    (forall kx ky, find t item keys item_eqb = (true, (kx, ky)) ->
                   at_ t kx ky = Some item) /\
    (forall u v, at_ t u v = Some item ->
                 fst (find t item keys item_eqb) = true) /\
    (fst (find t item keys item_eqb) = false ->
     find t item keys item_eqb = (false, keys)).
Proof.
  intros t0 Hfit Hall Hfuel Hitem.
  assert (wft t0) as Hwf0.
  { unfold wft, t0; simpl. split; [reflexivity|]. split; [reflexivity|].
    split; [change (2 ^ 64) with 18446744073709551616; lia|].
    left. reflexivity. }
  destruct (insert_all_refines fuel ops t0 spec_empty Hwf0
              ltac:(reflexivity) Hall)
    as (t & Hrun & (Hd & _ & _ & Hroot) & _).
  { unfold extent, t0, root_bound; simpl.
    match goal with
    | |- (Z.to_nat ?a + Z.to_nat ?b < _)%nat =>
        replace a with w by lia; replace b with h by lia
    end.
    assumption. }
  exists t. split; [assumption|].
  split.
  { destruct Hroot as [Hnull|[Hq Hb]]; [rewrite Hnull; exact I|].
    apply wfq_fits; [assumption|].
    rewrite Hb, (insert_all_root_bound fuel ops t0 t Hrun).
    exact (root_bound_fits cx cy w h d0 Hfit). }
  unfold find, at_. rewrite Hd.
  split; [|split].
  - intros kx ky H. destruct Hroot as [Hnull|[Hwf _]].
    + rewrite Hnull in H. discriminate.
    + apply (find_quadrant_sound _ _ _ _ _ Hwf Hitem H).
  - intros u v H. destruct Hroot as [Hnull|[Hwf _]].
    + rewrite Hnull in H. discriminate.
    + apply (find_quadrant_complete _ _ _ u v Hwf Hitem H).
  - apply find_quadrant_false.
Qed.

End QuadtreeInsert.

(** The theorem at scenario 4: the same two inserts at (5, 5) with the
    flag clear and with the flag set, and two inserts at distinct points. *)
Lemma inserts_inside_bounds_witness :
  (exists t,
     quadtree.insert_all Z.eqb 41
       (quadtree.set_behaviour_flag 0 (quadtree.make 0 0 20 20 0))
       [(5, 5, 100); (5, 5, 200)] = Ok tt t /\
     quadrants_fit (quadtree.m_root t) /\
     quadtree.at_ t 5 5 = Some 200) /\
  (exists t,
     quadtree.insert_all Z.eqb 41
       (quadtree.set_behaviour_flag quadtree.quadtree_no_replace
          (quadtree.make 0 0 20 20 0))
       [(5, 5, 100); (5, 5, 200)] = Ok tt t /\
     quadtree.at_ t 5 5 = Some 100) /\
  (exists t,
     quadtree.insert_all Z.eqb 41
       (quadtree.set_behaviour_flag 0 (quadtree.make 0 0 20 20 0))
       [(5, 5, 100); (2, 3, 300)] = Ok tt t /\
     quadtree.at_ t 5 5 = Some 100 /\ quadtree.at_ t 2 3 = Some 300 /\
     quadtree.m_size t = 2).
Proof.
  assert (coordinates_fit 0 0 20 20) as Hfit by (split; reflexivity).
  assert (Z.to_nat 20 + Z.to_nat 20 < 41)%nat as Hfuel by (vm_compute; lia).
  split; [|split].
  - destruct (inserts_inside_bounds Z.eqb Z.eqb_eq 0 0 0 0 20 20
                [(5, 5, 100); (5, 5, 200)] 41%nat Hfit
                ltac:(repeat constructor) Hfuel)
      as (t & Hrun & Hq & Hlast & _ & _).
    exists t. split; [exact Hrun|]. split; [exact Hq|].
    apply Hlast; reflexivity.
  - destruct (inserts_inside_bounds Z.eqb Z.eqb_eq 0
                quadtree.quadtree_no_replace 0 0 20 20
                [(5, 5, 100); (5, 5, 200)] 41%nat Hfit
                ltac:(repeat constructor) Hfuel)
      as (t & Hrun & _ & _ & Hfirst & _).
    exists t. split; [exact Hrun|].
    apply Hfirst; [discriminate|reflexivity|discriminate].
  - destruct (inserts_inside_bounds Z.eqb Z.eqb_eq 0 0 0 0 20 20
                [(5, 5, 100); (2, 3, 300)] 41%nat Hfit
                ltac:(repeat constructor) Hfuel)
      as (t & Hrun & _ & Hlast & _ & Hsize).
    exists t. split; [exact Hrun|].
    split; [apply Hlast; reflexivity|].
    split; [apply Hlast; reflexivity|].
    apply Hsize; [|vm_compute; reflexivity].
    repeat constructor; simpl; intuition congruence.
Defined.

(** C7, the claim as stated fails.  An insert outside the bounds of an
    existing root stores nothing: after [insert(5,5,100)] and
    [insert(100,100,7)], two inserts at distinct coordinates, the size is 1
    and [at(100,100)] is the default value 0, not 7.  With the no-replace
    flag set, a first insert of the default value at (5, 5) is replaced by
    the second insert there: [at(5,5)] is 200, not the first value 0. *)
Lemma inserts_anywhere_counterexample :
  List.NoDup (map fst [(5, 5, 100); (100, 100, 7)]) /\
  last_value [(5, 5, 100); (100, 100, 7)] 100 100 = Some 7 /\
  match quadtree.insert_all Z.eqb 41 tree20 [(5, 5, 100); (100, 100, 7)] with
  | Ok _ t => Some (quadtree.m_size t, quadtree.at_ t 100 100)
  | _ => None
  end = Some (1, Some 0) /\
  first_value [(5, 5, 0); (5, 5, 200)] 5 5 = Some 0 /\
  match quadtree.insert_all Z.eqb 41
          (quadtree.set_behaviour_flag quadtree.quadtree_no_replace tree20)
          [(5, 5, 0); (5, 5, 200)] with
  | Ok _ t => Some (quadtree.at_ t 5 5)
  | _ => None
  end = Some (Some 200).
Proof.
  split; [|split; [|split; [|split]]]; try (vm_compute; reflexivity).
  repeat constructor; simpl; intuition congruence.
Qed.

(** ** Point quadtree: what an insert outside the bounds and an assignment
    through the scratch default leave unchanged *)

Section QuadtreeFrames.

Import quadtree.

Context {item_t : Type}.
Variable item_eqb : item_t -> item_t -> bool.

(** X1.  On a tree with a root, an insert outside the bounds of the root
    returns false at the lowest level and changes neither the root nor the
    size. *)
Lemma insert_outside_root_bounds fuel (t : quadtree_t item_t) px py item :
  m_root t <> nullptr ->
  isInside (bound_of (m_root t)) px py = false ->
  insert_quadrant item_eqb (S fuel) (m_default_value t) (m_behaviour_flag t)
    (m_root t) px py item (m_size t)
  = Ok (false, m_root t) (m_size t) /\
  insert item_eqb (S fuel) t px py item
  = Ok (m_size t)
       (with_root_size t (m_root t) (m_size t) (compute_depth (m_root t))).
Proof.
  intros Hroot Hout. unfold insert.
  destruct (m_root t) as [|d pos b q1 q2 q3 q4]; [contradiction|].
  simpl in Hout. simpl. rewrite Hout. simpl. split; reflexivity.
Qed.

(** When the mutable [at] returns the scratch copy, that copy was reset to
    the default value, and an assignment through the reference changes
    neither the root, nor the size, nor any later [at]. *)
Lemma assign_through_scratch (t t' : quadtree_t item_t) px py v :
  at_mut t px py = Some (ref_exposed_default, t') ->
  m_exposed_default_value t' = m_default_value t /\
  m_root (assign t' ref_exposed_default v) = m_root t /\
  m_size (assign t' ref_exposed_default v) = m_size t /\
  forall u w, at_ (assign t' ref_exposed_default v) u w = at_ t u w.
Proof.
  unfold at_mut. simpl.
  destruct (get_value_mut (m_root t) px py); [|discriminate].
  intros [= _ <-]. simpl. auto.
Qed.

(** Away from the origin, a cloned quadrant answers the default value
    wherever the original answers at all. *)
Lemma get_value_clone_quadrant d0 (q : quadrant_t item_t) u v :
  (u, v) <> (0, 0) ->
  get_value d0 (clone_quadrant q) u v
  = match get_value d0 q u v with Some _ => Some d0 | None => None end.
Proof.
  intros Huv.
  induction q as [|d pos b qne IHne qnw IHnw qsw IHsw qse IHse];
    [reflexivity|].
  simpl. destruct (isInside b u v); simpl; [|reflexivity].
  assert (is_null (clone_quadrant qne) = is_null qne) as ->
    by (destruct qne; reflexivity).
  destruct (is_null qne); simpl.
  - destruct u, v; try (exfalso; apply Huv; reflexivity); simpl;
      match goal with |- context [if ?c then Some d else _] => destruct c end;
      reflexivity.
  - destruct (select_quadrant b u v) as [[]|]; auto.
Qed.

(** X3.  The copy constructor and the copy assignment give a tree with the
    size and the depth of the original in which no point away from the
    origin is visible: for (x, y) other than (0, 0), [at(x, y)] on the copy
    is the default value wherever [at(x, y)] on the original returns
    ([clone_quadrant] does not copy [data_position]). *)
Theorem copy_shows_no_point_off_origin (this_ t : quadtree_t item_t) (u v : Z) :
  (u, v) <> (0, 0) ->
  at_ (copy t) u v
  = match at_ t u v with
    | Some _ => Some (m_default_value t)
    | None => None
    end /\
  at_ (copy_assign this_ t) u v = at_ (copy t) u v /\
  m_size (copy t) = m_size t /\ m_depth (copy t) = m_depth t /\
  m_size (copy_assign this_ t) = m_size t /\
  m_depth (copy_assign this_ t) = m_depth t.
Proof.
  intros Huv. unfold at_. simpl.
  rewrite get_value_clone_quadrant by assumption. auto 6.
Qed.

(** X4.  On a tree over [int] coordinates whose centre and sides satisfy
    [coordinates_fit], inserting one point into the tree without root and
    removing it again, whatever the point and the item: [insert] returns
    size 1 (it creates the root without testing the bounds), [remove]
    returns, and afterwards the size and the depth are 0, the root is kept
    as an empty leaf over the rectangle of the tree, whose sides are in
    [-2^30, 2^30), and [at] is the default value everywhere. *)
Theorem insert_then_remove_on_empty_tree (cx cy w h : Z) (d0 item : item_t)
  (fuel : nat) (px py : Z) :
  coordinates_fit cx cy w h ->
  exists t1 t2,
    insert item_eqb fuel (make cx cy w h d0) px py item = Ok 1 t1 /\
    remove item_eqb t1 px py = Ok tt t2 /\
    m_size t2 = 0 /\ m_depth t2 = 0 /\
    m_root t2 = leaf d0 (root_bound (make cx cy w h d0)) /\
    bound_fits (root_bound (make cx cy w h d0)) /\
    forall u v, at_ t2 u v = Some d0.
Proof.
  intros Hfit.
  eexists. eexists. split; [reflexivity|].
  unfold remove. simpl. rewrite !Z.eqb_refl. simpl.
  split; [reflexivity|]. simpl.
  split; [reflexivity|]. split; [reflexivity|]. split; [reflexivity|].
  split; [exact (root_bound_fits cx cy w h d0 Hfit)|].
  intros u v. unfold at_. simpl.
  destruct (negb _); [reflexivity|].
  match goal with |- (if ?c then _ else _) = _ => destruct c end; reflexivity.
Qed.

End QuadtreeFrames.

(** The 20 x 20 tree after [insert(5, 5, 100)]. *)
Definition tree20_one_point : quadtree.quadtree_t Z :=
  quadtree.with_root_size tree20
    (quadtree.quad 100 {| quadtree.x := 5; quadtree.y := 5; quadtree.z := 0 |}
       (quadtree.root_bound tree20)
       quadtree.nullptr quadtree.nullptr quadtree.nullptr quadtree.nullptr)
    1 0.

Example tree20_one_point_inserted :
  quadtree.insert Z.eqb 8 tree20 5 5 100 = Ok 1 tree20_one_point.
Proof. reflexivity. Qed.

(** X1 at the tree holding (5, 5) and the point (100, 100). *)
Lemma insert_outside_root_bounds_witness :
  quadtree.m_root tree20_one_point <> quadtree.nullptr /\
  quadtree.isInside (bound_of (quadtree.m_root tree20_one_point)) 100 100
  = false /\
  quadtree.insert_quadrant Z.eqb 8
    (quadtree.m_default_value tree20_one_point)
    (quadtree.m_behaviour_flag tree20_one_point)
    (quadtree.m_root tree20_one_point) 100 100 7
    (quadtree.m_size tree20_one_point)
  = Ok (false, quadtree.m_root tree20_one_point)
       (quadtree.m_size tree20_one_point) /\
  quadtree.insert Z.eqb 8 tree20_one_point 100 100 7
  = Ok (quadtree.m_size tree20_one_point)
       (quadtree.with_root_size tree20_one_point
          (quadtree.m_root tree20_one_point)
          (quadtree.m_size tree20_one_point)
          (quadtree.compute_depth (quadtree.m_root tree20_one_point))).
Proof.
  assert (quadtree.m_root tree20_one_point <> quadtree.nullptr) as Hroot
    by discriminate.
  assert (quadtree.isInside (bound_of (quadtree.m_root tree20_one_point))
            100 100 = false) as Hout by reflexivity.
  split; [exact Hroot|]. split; [exact Hout|].
  exact (insert_outside_root_bounds Z.eqb 7 tree20_one_point 100 100 7
           Hroot Hout).
Defined.

(** X2 at the tree holding 100 at (5, 5) and 300 at (2, 3), searching
    for 300. *)
Lemma find_agrees_with_at_witness :
  exists t,
    quadtree.insert_all Z.eqb 41
      (quadtree.set_behaviour_flag 0 (quadtree.make 0 0 20 20 0))
      [(5, 5, 100); (2, 3, 300)] = Ok tt t /\
    quadrants_fit (quadtree.m_root t) /\
    (forall kx ky,
       quadtree.find t 300 (0, 0) Z.eqb = (true, (kx, ky)) ->
       quadtree.at_ t kx ky = Some 300) /\
    (forall u v,
       quadtree.at_ t u v = Some 300 ->
       fst (quadtree.find t 300 (0, 0) Z.eqb) = true) /\
    (fst (quadtree.find t 300 (0, 0) Z.eqb) = false ->
     quadtree.find t 300 (0, 0) Z.eqb = (false, (0, 0))).
Proof.
  apply (find_agrees_with_at Z.eqb Z.eqb_eq 0 0 0 0 20 20
           [(5, 5, 100); (2, 3, 300)] 41%nat 300 (0, 0)).
  - split; reflexivity.
  - repeat constructor.
  - vm_compute. lia.
  - discriminate.
Defined.

(** X3 at the copy of the tree holding (5, 5), read at (5, 5). *)
Lemma copy_shows_no_point_off_origin_witness :
  (5, 5) <> (0, 0) /\
  quadtree.at_ (quadtree.copy tree20_one_point) 5 5
  = match quadtree.at_ tree20_one_point 5 5 with
    | Some _ => Some (quadtree.m_default_value tree20_one_point)
    | None => None
    end /\
  quadtree.at_ (quadtree.copy_assign tree20 tree20_one_point) 5 5
  = quadtree.at_ (quadtree.copy tree20_one_point) 5 5 /\
  quadtree.m_size (quadtree.copy tree20_one_point)
  = quadtree.m_size tree20_one_point /\
  quadtree.m_depth (quadtree.copy tree20_one_point)
  = quadtree.m_depth tree20_one_point /\
  quadtree.m_size (quadtree.copy_assign tree20 tree20_one_point)
  = quadtree.m_size tree20_one_point /\
  quadtree.m_depth (quadtree.copy_assign tree20 tree20_one_point)
  = quadtree.m_depth tree20_one_point.
Proof.
  assert ((5, 5) <> (0, 0)) as H by discriminate.
  split; [exact H|].
  exact (copy_shows_no_point_off_origin tree20 tree20_one_point 5 5 H).
Defined.

(** X4 at the 20 x 20 tree around the origin: (5, 5) is inserted and
    removed. *)
Lemma insert_then_remove_on_empty_tree_witness :
  coordinates_fit 0 0 20 20 /\
  exists t1 t2,
    quadtree.insert Z.eqb 8 (quadtree.make 0 0 20 20 0) 5 5 100 = Ok 1 t1 /\
    quadtree.remove Z.eqb t1 5 5 = Ok tt t2 /\
    quadtree.m_size t2 = 0 /\ quadtree.m_depth t2 = 0 /\
    quadtree.m_root t2
    = quadtree.leaf 0 (quadtree.root_bound (quadtree.make 0 0 20 20 0)) /\
    bound_fits (quadtree.root_bound (quadtree.make 0 0 20 20 0)) /\
    forall u v, quadtree.at_ t2 u v = Some 0.
Proof.
  assert (coordinates_fit 0 0 20 20) as Hfit by (split; reflexivity).
  split; [exact Hfit|].
  exact (insert_then_remove_on_empty_tree Z.eqb 0 0 20 20 0 100 8%nat 5 5 Hfit).
Defined.

(** ** Region quadtree: sequences of [set], and [unset] *)

Section RegionSet.

Import quadtree quadtree_region.

(** Well-formed quadrants of a region quadtree: an internal node has a side
    of two units or more and four well-formed children with the rectangles
    [create_quadrants] builds. *)
Inductive wfr : quadrant -> Prop :=
| wfr_leaf d pos b :
    wf_bound b -> wfr (quad d pos b nullptr nullptr nullptr nullptr)
| wfr_node d pos b qne qnw qsw qse :
    wf_bound b ->
    left b + 2 <= right b \/ bottom b + 2 <= top b ->
    wfr qne -> wfr qnw -> wfr qsw -> wfr qse ->
    bound_of qne = quadrant_bound b NE ->
    bound_of qnw = quadrant_bound b NW ->
    bound_of qsw = quadrant_bound b SW ->
    bound_of qse = quadrant_bound b SE ->
    wfr (quad d pos b qne qnw qsw qse).

Lemma wfr_not_null q : wfr q -> is_null q = false.
Proof. destruct 1; reflexivity. Qed.

(** In a well-formed quadrant whose rectangle fits, every rectangle
    fits. *)
Lemma wfr_fits q : wfr q -> bound_fits (bound_of q) -> quadrants_fit q.
Proof.
  induction 1 as [d pos b Hb|d pos b qne qnw qsw qse Hb Hs
                  Hne IHne Hnw IHnw Hsw IHsw Hse IHse Bne Bnw Bsw Bse];
    intros Hfit; simpl in Hfit.
  - simpl. tauto.
  - simpl. split; [assumption|].
    split; [apply IHne; rewrite Bne; apply quadrant_bound_fits; assumption|].
    split; [apply IHnw; rewrite Bnw; apply quadrant_bound_fits; assumption|].
    split; [apply IHsw; rewrite Bsw; apply quadrant_bound_fits; assumption|].
    apply IHse; rewrite Bse; apply quadrant_bound_fits; assumption.
Qed.

Lemma wfr_bound q : wfr q -> wf_bound (bound_of q).
Proof. destruct 1; assumption. Qed.

(** The state of a cell: what [at] answers, false where it does not
    return. *)
Definition cell (q : quadrant) (u v : Z) : bool :=
  match get_value false q u v with
  | Some c => c
  | None => false
  end.

Lemma region_get_value_leaf d pos b u v :
  get_value false (quad d pos b nullptr nullptr nullptr nullptr) u v
  = Some (isInside b u v && d).
Proof. simpl. destruct (isInside b u v); reflexivity. Qed.

Lemma region_get_value_node d pos b qne qnw qsw qse u v dir :
  is_null qne = false ->
  isInside b u v = true ->
  select_quadrant b u v = Some dir ->
  get_value false (quad d pos b qne qnw qsw qse) u v
  = get_value false (child dir qne qnw qsw qse) u v.
Proof.
  intros Hn Hin Hsel. simpl. rewrite Hin, Hn, Hsel. simpl.
  destruct dir; reflexivity.
Qed.

Lemma region_get_value_outside d pos b qne qnw qsw qse u v :
  isInside b u v = false ->
  get_value false (quad d pos b qne qnw qsw qse) u v = Some false.
Proof. intros H. simpl. rewrite H. reflexivity. Qed.

Lemma region_get_value_defined q u v :
  wfr q -> get_value false q u v = Some (cell q u v).
Proof.
  unfold cell.
  induction 1 as [d pos b Hb|d pos b qne qnw qsw qse Hb Hs
                  Hne IHne Hnw IHnw Hsw IHsw Hse IHse].
  - rewrite region_get_value_leaf. reflexivity.
  - destruct (isInside b u v) eqn:Hin.
    + destruct (select_quadrant_inside b u v Hin) as (dir & Hsel & _).
      rewrite (region_get_value_node _ _ _ _ _ _ _ _ _ dir)
        by auto using wfr_not_null.
      destruct dir; simpl;
        [rewrite IHne | rewrite IHnw | rewrite IHsw | rewrite IHse];
        reflexivity.
    + rewrite region_get_value_outside by assumption. reflexivity.
Qed.

Lemma cell_outside q u v :
  wfr q -> isInside (bound_of q) u v = false -> cell q u v = false.
Proof.
  intros Hwf Hout. unfold cell. destruct Hwf; simpl in *; rewrite Hout;
    reflexivity.
Qed.

(** [insert_quadrant] at a point outside the quadrant. *)
Lemma region_insert_outside fuel dv q px py item size :
  is_null q = false ->
  isInside (bound_of q) px py = false ->
  insert_quadrant (S fuel) dv q px py item size = Ok (false, q) size.
Proof.
  intros Hn Hout. destruct q; [discriminate|]. simpl in *.
  rewrite Hout. reflexivity.
Qed.

(** The outcome of the merge test on the node [q']. *)
Definition after_calls (r : bool) (q' : quadrant) (size : Z)
  : outcome Z (bool * quadrant) :=
  match q' with
  | nullptr => Fault
  | quad d pos b q1 q2 q3 q4 =>
      if r then
        match uniform_children q1 q2 q3 q4 (compute_depth q') with
        | None => Fault
        | Some (Some v) =>
            Ok (true, quad v pos b nullptr nullptr nullptr nullptr) size
        | Some None => Ok (false, q') size
        end
      else Ok (false, q') size
  end.

Lemma modified_quadrants_pos (a b c d : bool) :
  ((bool_to_Z a + bool_to_Z b + bool_to_Z c + bool_to_Z d) mod 2 ^ 8 >? 0)
  = a || b || c || d.
Proof. destruct a, b, c, d; reflexivity. Qed.

(** [insert_quadrant] on an internal node, when the point lies in the
    child in direction [dir] only. *)
Lemma region_insert_node f dv d pos b qne qnw qsw qse px py item size dir
  r q1 size' :
  is_null qne = false ->
  isInside b px py = true ->
  (forall dir' sz, dir' <> dir ->
     insert_quadrant f dv (child dir' qne qnw qsw qse) px py item sz
     = Ok (false, child dir' qne qnw qsw qse) sz) ->
  insert_quadrant f dv (child dir qne qnw qsw qse) px py item size
  = Ok (r, q1) size' ->
  insert_quadrant (S f) dv (quad d pos b qne qnw qsw qse) px py item size
  = after_calls r (with_child dir q1 d pos b qne qnw qsw qse) size'.
Proof.
  intros Hn Hin Hother Hat.
  cbn [insert_quadrant]. rewrite Hin, Hn. cbn [negb].
  unfold bind, ret.
  destruct dir; cbn [child] in Hat;
    repeat first
      [ rewrite Hat; cbn [fst snd]
      | rewrite (Hother NE) by discriminate; cbn [fst snd]
      | rewrite (Hother NW) by discriminate; cbn [fst snd]
      | rewrite (Hother SW) by discriminate; cbn [fst snd]
      | rewrite (Hother SE) by discriminate; cbn [fst snd] ];
    rewrite modified_quadrants_pos; cbn [with_child after_calls child];
    destruct r; cbn [orb]; try reflexivity;
    match goal with
    | |- match ?u with _ => _ end _ = _ => destruct u as [[v|]|]
    end; reflexivity.
Qed.


Lemma region_get_value_select d pos b qne qnw qsw qse u v :
  is_null qne = false ->
  get_value false (quad d pos b qne qnw qsw qse) u v
  = match select_quadrant b u v with
    | Some dir => get_value false (child dir qne qnw qsw qse) u v
    | None => Some false
    end.
Proof.
  intros Hn. simpl. rewrite Hn. unfold select_quadrant.
  destruct (isInside b u v); simpl; [|reflexivity].
  repeat match goal with
         | |- context [if ?c then _ else _] => destruct c; simpl
         end; reflexivity.
Qed.

Lemma cell_select d pos b qne qnw qsw qse u v :
  is_null qne = false ->
  cell (quad d pos b qne qnw qsw qse) u v
  = match select_quadrant b u v with
    | Some dir => cell (child dir qne qnw qsw qse) u v
    | None => false
    end.
Proof.
  intros Hn. unfold cell. rewrite region_get_value_select by assumption.
  destruct (select_quadrant b u v); reflexivity.
Qed.

Lemma child_with_child dir dir' (q1 : quadrant) d pos b qne qnw qsw qse :
  match with_child dir q1 d pos b qne qnw qsw qse with
  | quad _ _ _ c1 c2 c3 c4 => child dir' c1 c2 c3 c4
  | nullptr => nullptr
  end
  = if decide (dir' = dir) then q1 else child dir' qne qnw qsw qse.
Proof. destruct dir, dir'; reflexivity. Qed.

(** The test of [insert_quadrant] for a leaf that can be divided. *)
Definition divisible (b : rect_bound_t) : bool :=
  (negb (left b =? x (center b)) && negb (right b =? x (center b)))
  || (negb (bottom b =? y (center b)) && negb (top b =? y (center b))).

Lemma divisible_true b px py :
  wf_bound b -> isInside b px py = true -> divisible b = true ->
  left b + 2 <= right b \/ bottom b + 2 <= top b.
Proof.
  intros (Hx & Hy & _) Hin H. apply isInside_iff in Hin. unfold divisible in H.
  apply orb_true_iff in H.
  destruct H as [H|H]; apply andb_true_iff in H; destruct H as [H1 H2];
    apply negb_true_iff, Z.eqb_neq in H1; apply negb_true_iff, Z.eqb_neq in H2;
    lia.
Qed.

Lemma divisible_false b px py :
  wf_bound b -> isInside b px py = true -> divisible b = false ->
  forall u v, isInside b u v = (u =? px) && (v =? py).
Proof.
  intros (Hx & Hy & Hx2 & Hy2) Hin H u v. apply isInside_iff in Hin.
  unfold divisible in H. apply orb_false_iff in H. destruct H as [H1 H2].
  assert (right b = left b + 1) as Ew.
  { destruct (Z.eqb_spec (left b) (x (center b)));
      destruct (Z.eqb_spec (right b) (x (center b)));
      simpl in H1; try discriminate; lia. }
  assert (top b = bottom b + 1) as Eh.
  { destruct (Z.eqb_spec (bottom b) (y (center b)));
      destruct (Z.eqb_spec (top b) (y (center b)));
      simpl in H2; try discriminate; lia. }
  destruct (isInside b u v) eqn:E.
  - apply isInside_iff in E. symmetry. apply andb_true_iff.
    split; apply Z.eqb_eq; lia.
  - apply isInside_false_iff in E. symmetry. apply andb_false_iff.
    destruct (Z.eqb_spec u px); [|left; reflexivity].
    destruct (Z.eqb_spec v py); [|right; reflexivity].
    subst. exfalso. apply E. lia.
Qed.

(** Pushing the value false into a fresh child changes nothing. *)
Lemma push_false f b u v size :
  insert_quadrant (S f) false (leaf false b) u v false size
  = Ok (false, leaf false b) size.
Proof. unfold leaf. simpl. destruct (isInside b u v); reflexivity. Qed.

Lemma max_Zmax a b : max a b = Z.max a b.
Proof. unfold max. destruct (Z.gtb_spec a b); lia. Qed.

(** The depth of a well-formed quadrant does not wrap around. *)
Lemma compute_depth_bound q :
  wfr q -> Z.of_nat (extent (bound_of q)) < 2 ^ 64 ->
  0 <= compute_depth q <= Z.of_nat (extent (bound_of q)) /\
  (compute_depth q = 0 ->
   exists d pos b, q = quad d pos b nullptr nullptr nullptr nullptr).
Proof.
  induction 1 as [d pos b Hb|d pos b qne qnw qsw qse Hb Hs
                  Hne IHne Hnw IHnw Hsw IHsw Hse IHse Bne Bnw Bsw Bse];
    intros Hext.
  - simpl. split; [lia|]. eauto.
  - simpl bound_of in *.
    pose proof (quadrant_bound_extent b NE Hb Hs) as Ene.
    pose proof (quadrant_bound_extent b NW Hb Hs) as Enw.
    pose proof (quadrant_bound_extent b SW Hb Hs) as Esw.
    pose proof (quadrant_bound_extent b SE Hb Hs) as Ese.
    rewrite <- Bne in Ene. rewrite <- Bnw in Enw.
    rewrite <- Bsw in Esw. rewrite <- Bse in Ese.
    destruct (IHne ltac:(lia)) as [Rne _].
    destruct (IHnw ltac:(lia)) as [Rnw _].
    destruct (IHsw ltac:(lia)) as [Rsw _].
    destruct (IHse ltac:(lia)) as [Rse _].
    cbn [compute_depth]. rewrite (wfr_not_null _ Hne). cbn [negb].
    set (m := max _ _).
    assert (0 <= m < Z.of_nat (extent b)) as Hm.
    { subst m. rewrite !max_Zmax. lia. }
    rewrite size_t_wrap_small by lia. split; [lia|]. lia.
Qed.

Definition is_leaf_with (v : bool) (q : quadrant) : Prop :=
  exists pos b, q = quad v pos b nullptr nullptr nullptr nullptr.

(** The merge test on a well-formed node: it dereferences no null pointer,
    and it succeeds only on four leaves with one value. *)
Lemma merge_test d pos b q1 q2 q3 q4 :
  wfr (quad d pos b q1 q2 q3 q4) -> is_null q1 = false ->
  Z.of_nat (extent b) < 2 ^ 64 ->
  match uniform_children q1 q2 q3 q4
          (compute_depth (quad d pos b q1 q2 q3 q4)) with
  | None => False
  | Some (Some v) =>
      is_leaf_with v q1 /\ is_leaf_with v q2 /\
      is_leaf_with v q3 /\ is_leaf_with v q4
  | Some None => True
  end.
Proof.
  intros Hwf Hn Hext. inversion Hwf as [|? ? ? ? ? ? ? Hb Hs H1 H2 H3 H4 B1 B2 B3 B4];
    subst; [discriminate|].
  pose proof (quadrant_bound_extent b NE Hb Hs) as E1.
  pose proof (quadrant_bound_extent b NW Hb Hs) as E2.
  pose proof (quadrant_bound_extent b SW Hb Hs) as E3.
  pose proof (quadrant_bound_extent b SE Hb Hs) as E4.
  rewrite <- B1 in E1. rewrite <- B2 in E2.
  rewrite <- B3 in E3. rewrite <- B4 in E4.
  destruct (compute_depth_bound q1 H1) as [R1 L1]; [lia|].
  destruct (compute_depth_bound q2 H2) as [R2 L2]; [lia|].
  destruct (compute_depth_bound q3 H3) as [R3 L3]; [lia|].
  destruct (compute_depth_bound q4 H4) as [R4 L4]; [lia|].
  unfold uniform_children.
  destruct (compute_depth (quad d pos b q1 q2 q3 q4) =? 1) eqn:Ed;
    [|exact I].
  apply Z.eqb_eq in Ed. cbn [compute_depth] in Ed. rewrite Hn in Ed.
  cbn [negb] in Ed.
  assert (compute_depth q1 = 0 /\ compute_depth q2 = 0 /\
          compute_depth q3 = 0 /\ compute_depth q4 = 0) as (Z1 & Z2 & Z3 & Z4).
  { revert Ed. set (m := max _ _).
    assert (0 <= m < Z.of_nat (extent b) /\
            compute_depth q1 <= m /\ compute_depth q2 <= m /\
            compute_depth q3 <= m /\ compute_depth q4 <= m) as Hm.
    { subst m. rewrite !max_Zmax. lia. }
    rewrite size_t_wrap_small by lia. lia. }
  destruct (L1 Z1) as (d1 & p1 & b1 & ->).
  destruct (L2 Z2) as (d2 & p2 & b2 & ->).
  destruct (L3 Z3) as (d3 & p3 & b3 & ->).
  destruct (L4 Z4) as (d4 & p4 & b4 & ->).
  destruct (Bool.eqb d1 d2 && Bool.eqb d1 d3 && Bool.eqb d1 d4) eqn:E;
    [|exact I].
  apply andb_true_iff in E. destruct E as [E E4'].
  apply andb_true_iff in E. destruct E as [E2' E3'].
  apply eqb_prop in E2', E3', E4'. subst d2 d3 d4.
  unfold is_leaf_with. repeat split; eexists; eexists; reflexivity.
Qed.

(** [insert_quadrant] on a leaf inside which the point lies. *)
Lemma region_insert_leaf f dv d pos b px py item :
  isInside b px py = true ->
  insert_quadrant (S f) dv (quad d pos b nullptr nullptr nullptr nullptr)
    px py item
  = if negb (Bool.eqb d item) then
      if divisible b then
        let '(cne, cnw, csw, cse) := create_quadrants dv b in
        (do r1 <- insert_quadrant f dv cne
                    (x (center_of cne)) (y (center_of cne)) d;
         do r2 <- insert_quadrant f dv cnw
                    (x (center_of cnw)) (y (center_of cnw)) d;
         do r3 <- insert_quadrant f dv csw
                    (x (center_of csw)) (y (center_of csw)) d;
         do r4 <- insert_quadrant f dv cse
                    (x (center_of cse)) (y (center_of cse)) d;
         do s1 <- insert_quadrant f dv (snd r1) px py item;
         do s2 <- insert_quadrant f dv (snd r2) px py item;
         do s3 <- insert_quadrant f dv (snd r3) px py item;
         do s4 <- insert_quadrant f dv (snd r4) px py item;
         ret (false, quad d pos b (snd s1) (snd s2) (snd s3) (snd s4)))%st
      else
        ((if item then quadtree.incr_size else quadtree.decr_size);;
         ret (true, quad item pos b nullptr nullptr nullptr nullptr))%st
    else ret (false, quad d pos b nullptr nullptr nullptr nullptr).
Proof. intros Hin. cbn [insert_quadrant]. rewrite Hin. reflexivity. Qed.

(** The division of a leaf with value false for a point to set, when the
    point lies in the child in direction [dir] only. *)
Lemma region_insert_divide f pos b px py size dir r q1 size' :
  isInside b px py = true -> divisible b = true ->
  (forall dir', dir' <> dir ->
     isInside (quadrant_bound b dir') px py = false) ->
  insert_quadrant (S f) false (leaf false (quadrant_bound b dir)) px py true
    size = Ok (r, q1) size' ->
  insert_quadrant (S (S f)) false
    (quad false pos b nullptr nullptr nullptr nullptr) px py true size
  = Ok (false,
        with_child dir q1 false pos b
          (leaf false (quadrant_bound b NE)) (leaf false (quadrant_bound b NW))
          (leaf false (quadrant_bound b SW)) (leaf false (quadrant_bound b SE)))
       size'.
Proof.
  intros Hin Hdiv Hothers Hat.
  rewrite region_insert_leaf by assumption. rewrite Hdiv.
  rewrite create_quadrants_eq. cbn [negb Bool.eqb].
  unfold bind, ret. rewrite !push_false. cbn [snd].
  assert (forall dir' sz, dir' <> dir ->
            insert_quadrant (S f) false (leaf false (quadrant_bound b dir'))
              px py true sz
            = Ok (false, leaf false (quadrant_bound b dir')) sz) as Hout.
  { intros dir' sz Hne. apply region_insert_outside; [reflexivity|].
    apply Hothers. assumption. }
  destruct dir;
    repeat first
      [ rewrite Hat; cbn [fst snd]
      | rewrite (Hout NE) by discriminate; cbn [fst snd]
      | rewrite (Hout NW) by discriminate; cbn [fst snd]
      | rewrite (Hout SW) by discriminate; cbn [fst snd]
      | rewrite (Hout SE) by discriminate; cbn [fst snd] ];
    reflexivity.
Qed.

Lemma wfr_child d pos b qne qnw qsw qse dir :
  wfr (quad d pos b qne qnw qsw qse) -> is_null qne = false ->
  wfr (child dir qne qnw qsw qse) /\
  bound_of (child dir qne qnw qsw qse) = quadrant_bound b dir.
Proof.
  intros H Hn. inversion H; subst; [discriminate|].
  destruct dir; simpl; auto.
Qed.

Lemma wfr_with_child d pos b qne qnw qsw qse dir q1 :
  wfr (quad d pos b qne qnw qsw qse) -> is_null qne = false ->
  wfr q1 -> bound_of q1 = quadrant_bound b dir ->
  wfr (with_child dir q1 d pos b qne qnw qsw qse).
Proof.
  intros H Hn H1 Hb1. inversion H; subst; [discriminate|].
  destruct dir; simpl; apply wfr_node; auto.
Qed.

Lemma cell_with_child dir (q1 : quadrant) d pos b qne qnw qsw qse u v :
  is_null qne = false -> is_null q1 = false ->
  cell (with_child dir q1 d pos b qne qnw qsw qse) u v
  = match select_quadrant b u v with
    | Some dir' =>
        if decide (dir' = dir) then cell q1 u v
        else cell (child dir' qne qnw qsw qse) u v
    | None => false
    end.
Proof.
  intros Hn Hn1.
  destruct dir; simpl with_child; rewrite cell_select by assumption;
    destruct (select_quadrant b u v) as [[]|]; reflexivity.
Qed.

(** The cells of a node one of whose children took the point. *)
Lemma node_cells_update d pos b qne qnw qsw qse dir q1 px py item :
  is_null qne = false -> is_null q1 = false ->
  select_quadrant b px py = Some dir ->
  (forall u v,
     cell q1 u v
     = if (u =? px) && (v =? py) then item
       else cell (child dir qne qnw qsw qse) u v) ->
  forall u v,
    cell (with_child dir q1 d pos b qne qnw qsw qse) u v
    = if (u =? px) && (v =? py) then item
      else cell (quad d pos b qne qnw qsw qse) u v.
Proof.
  intros Hn Hn1 Hsel H1 u v.
  rewrite cell_with_child, cell_select by assumption.
  destruct ((u =? px) && (v =? py)) eqn:E.
  - apply andb_true_iff in E. destruct E as [Eu Ev].
    apply Z.eqb_eq in Eu, Ev. subst u v. rewrite Hsel.
    rewrite decide_True by reflexivity. rewrite H1, !Z.eqb_refl. reflexivity.
  - destruct (select_quadrant b u v) as [dir'|]; [|reflexivity].
    case_decide; [|reflexivity]. subst dir'. rewrite H1, E. reflexivity.
Qed.

(** Four leaves with one value, merged into one. *)
Lemma merged_cells d pos b qne qnw qsw qse pos' w :
  is_null qne = false ->
  (forall dir, is_leaf_with w (child dir qne qnw qsw qse) /\
               bound_of (child dir qne qnw qsw qse) = quadrant_bound b dir) ->
  forall u v,
    cell (quad w pos' b nullptr nullptr nullptr nullptr) u v
    = cell (quad d pos b qne qnw qsw qse) u v.
Proof.
  intros Hn Hall u v.
  rewrite (cell_select d pos b qne qnw qsw qse) by assumption.
  unfold cell at 1. rewrite region_get_value_leaf.
  destruct (isInside b u v) eqn:Hin.
  - destruct (select_quadrant_inside b u v Hin) as (dir & -> & Hdir & _).
    destruct (Hall dir) as [(p1 & b1 & E) Hb1]. rewrite E in Hb1 |- *.
    simpl in Hb1. subst b1. unfold cell. rewrite region_get_value_leaf, Hdir.
    reflexivity.
  - unfold select_quadrant. rewrite Hin. reflexivity.
Qed.

(** The leaf a point of the quadrant lies in: its value and rectangle. *)
Fixpoint leaf_at (q : quadrant) (px py : Z) : option (bool * rect_bound_t) :=
  match q with
  | nullptr => None
  | quad d _ b qne qnw qsw qse =>
      if negb (is_null qne) then
        match select_quadrant b px py with
        | Some NE => leaf_at qne px py
        | Some NW => leaf_at qnw px py
        | Some SW => leaf_at qsw px py
        | Some SE => leaf_at qse px py
        | None => None
        end
      else Some (d, b)
  end.

(** The leaf with the point holds the value false or is a single cell. *)
Definition leaf_false_or_cell (q : quadrant) (px py : Z) : Prop :=
  match leaf_at q px py with
  | Some (d, b) => d = false \/ divisible b = false
  | None => True
  end.

(** The size after the state [was] of a cell is replaced by [item]. *)
Definition region_size (item was : bool) (size : Z) : Z :=
  if Bool.eqb was item then size
  else if item then size_t_wrap (size + 1) else size_t_wrap (size - 1).

(** What [insert_quadrant] does for a point inside the quadrant: the cell
    takes the value [item], the other cells keep their state, the size
    follows the change of the cell. *)
Definition insert_cell_spec (fuel : nat) (q : quadrant) (px py : Z)
  (item : bool) (size : Z) : Prop :=
  exists r q',
    insert_quadrant fuel false q px py item size
    = Ok (r, q') (region_size item (cell q px py) size) /\
    wfr q' /\ bound_of q' = bound_of q /\
    (forall u v,
       cell q' u v = if (u =? px) && (v =? py) then item else cell q u v) /\
    (r = true -> is_leaf_with item q').

Lemma insert_cell_ok fuel :
  forall q px py item size,
    wfr q -> (extent (bound_of q) < fuel)%nat ->
    Z.of_nat (extent (bound_of q)) < 2 ^ 64 ->
    isInside (bound_of q) px py = true ->
    item = true \/ leaf_false_or_cell q px py ->
    insert_cell_spec fuel q px py item size.
Proof.
  induction fuel as [|f IH]; intros q px py item size Hwf Hfuel Hext Hin Hpre;
    [lia|].
  inversion Hwf as [d pos b Hb|d pos b qne qnw qsw qse Hb Hs
                    Hne Hnw Hsw Hse Bne Bnw Bsw Bse]; subst q;
    simpl bound_of in *.
  - (* a leaf *)
    assert (cell (quad d pos b nullptr nullptr nullptr nullptr) px py = d)
      as Hcell by (unfold cell; rewrite region_get_value_leaf, Hin; reflexivity).
    unfold insert_cell_spec. rewrite Hcell, region_insert_leaf by assumption.
    unfold region_size.
    destruct (Bool.eqb d item) eqn:Ed; cbn [negb].
    + (* the cell has the value already *)
      apply eqb_prop in Ed. subst item.
      exists false, (quad d pos b nullptr nullptr nullptr nullptr).
      split; [reflexivity|]. split; [assumption|]. split; [reflexivity|].
      split; [|discriminate].
      intros u v. destruct ((u =? px) && (v =? py)) eqn:E; [|reflexivity].
      apply andb_true_iff in E. destruct E as [Eu Ev].
      apply Z.eqb_eq in Eu, Ev. subst u v. assumption.
    + destruct (divisible b) eqn:Hdiv.
      * (* division: the leaf holds false and the item is true *)
        assert (d = false /\ item = true) as [-> ->].
        { unfold leaf_false_or_cell in Hpre. simpl in Hpre.
          destruct d, item; try discriminate; intuition congruence. }
        pose proof (divisible_true b px py Hb Hin Hdiv) as Hs.
        destruct (select_quadrant_inside b px py Hin)
          as (dir & Hsel & Hdir & Hothers).
        pose proof (quadrant_bound_extent b dir Hb Hs) as Hlt.
        destruct f as [|f']; [lia|].
        destruct (IH (leaf false (quadrant_bound b dir)) px py true size)
          as (r & q1 & Hins & Hwf1 & Hb1 & Hcells1 & _).
        { apply wfr_leaf. apply quadrant_bound_wf. assumption. }
        { simpl. lia. }
        { simpl. lia. }
        { assumption. }
        { left. reflexivity. }
        assert (cell (leaf false (quadrant_bound b dir)) px py = false) as Hc
          by (unfold cell, leaf; rewrite region_get_value_leaf;
              apply andb_false_r).
        rewrite Hc in Hins. unfold region_size in Hins. simpl in Hins.
        pose proof (region_insert_divide f' pos b px py size dir r q1 _
                      Hin Hdiv Hothers Hins) as Hdivide.
        rewrite region_insert_leaf in Hdivide by assumption.
        cbn [negb Bool.eqb] in Hdivide. rewrite Hdiv in Hdivide.
        set (q0 := quad false pos b
                     (leaf false (quadrant_bound b NE))
                     (leaf false (quadrant_bound b NW))
                     (leaf false (quadrant_bound b SW))
                     (leaf false (quadrant_bound b SE))).
        assert (wfr q0) as Hwf0.
        { apply wfr_node; try assumption; try reflexivity;
            apply wfr_leaf; apply quadrant_bound_wf; assumption. }
        exists false,
          (with_child dir q1 false pos b
             (leaf false (quadrant_bound b NE)) (leaf false (quadrant_bound b NW))
             (leaf false (quadrant_bound b SW)) (leaf false (quadrant_bound b SE))).
        split; [exact Hdivide|].
        split; [apply (wfr_with_child _ _ _ _ _ _ _ dir q1 Hwf0);
                [reflexivity|assumption|assumption]|].
        split; [destruct dir; reflexivity|].
        split; [|discriminate].
        intros u v.
        rewrite (node_cells_update false pos b _ _ _ _ dir q1 px py true);
          [|reflexivity|apply wfr_not_null; assumption|assumption|].
        -- destruct ((u =? px) && (v =? py)); [reflexivity|].
           rewrite cell_select by reflexivity.
           unfold cell. rewrite region_get_value_leaf, andb_false_r.
           destruct (select_quadrant b u v) as [[]|]; simpl;
             rewrite ?andb_false_r; try reflexivity;
             match goal with
             | |- context [isInside ?c u v] => destruct (isInside c u v)
             end; reflexivity.
        -- intros u' v'. rewrite Hcells1.
           destruct ((u' =? px) && (v' =? py)); [reflexivity|].
           destruct dir; reflexivity.
      * (* the cell changes *)
        exists true, (quad item pos b nullptr nullptr nullptr nullptr).
        split; [destruct item; reflexivity|].
        split; [apply wfr_leaf; assumption|].
        split; [reflexivity|]. split.
        -- intros u v. unfold cell. rewrite !region_get_value_leaf.
           rewrite (divisible_false b px py Hb Hin Hdiv).
           destruct ((u =? px) && (v =? py)) eqn:E; [reflexivity|].
           reflexivity.
        -- intros _. exists pos, b. reflexivity.
  - (* an internal node *)
    pose proof (wfr_not_null _ Hne) as Hn.
    destruct (select_quadrant_inside b px py Hin)
      as (dir & Hsel & Hdir & Hothers).
    destruct (wfr_child _ _ _ _ _ _ _ dir Hwf Hn) as [Hc Hcb].
    pose proof (quadrant_bound_extent b dir Hb Hs) as Hlt.
    destruct (IH (child dir qne qnw qsw qse) px py item size)
      as (r & q1 & Hins & Hwf1 & Hb1 & Hcells1 & Hleaf1).
    { assumption. }
    { rewrite Hcb. lia. }
    { rewrite Hcb. lia. }
    { rewrite Hcb. assumption. }
    { destruct Hpre as [Hpre|Hpre]; [left; assumption|right].
      unfold leaf_false_or_cell in *. simpl in Hpre.
      rewrite Hn, Hsel in Hpre. destruct dir; exact Hpre. }
    assert (is_null q1 = false) as Hn1 by (apply wfr_not_null; assumption).
    assert (cell (quad d pos b qne qnw qsw qse) px py
            = cell (child dir qne qnw qsw qse) px py) as Hcell
      by (rewrite cell_select, Hsel by assumption; reflexivity).
    set (q' := with_child dir q1 d pos b qne qnw qsw qse).
    assert (wfr q') as Hwf'
      by (apply wfr_with_child; try assumption; congruence).
    assert (bound_of q' = b) as Hb' by (destruct dir; reflexivity).
    assert (forall u v,
              cell q' u v
              = if (u =? px) && (v =? py) then item
                else cell (quad d pos b qne qnw qsw qse) u v)
      as Hcells' by (apply node_cells_update; assumption).
    assert (insert_quadrant (S f) false (quad d pos b qne qnw qsw qse)
              px py item size
            = after_calls r q'
                (region_size item (cell (quad d pos b qne qnw qsw qse) px py)
                   size)) as Hrun.
    { rewrite Hcell. apply region_insert_node; try assumption.
      intros dir' sz Hne'.
      destruct (wfr_child _ _ _ _ _ _ _ dir' Hwf Hn) as [Hc' Hcb'].
      destruct f as [|f']; [lia|].
      apply region_insert_outside; [apply wfr_not_null; assumption|].
      rewrite Hcb'. apply Hothers. assumption. }
    unfold insert_cell_spec. rewrite Hrun. clear Hrun.
    assert (exists c1 c2 c3 c4, q' = quad d pos b c1 c2 c3 c4 /\
                                is_null c1 = false)
      as (c1 & c2 & c3 & c4 & Eq' & Hn').
    { subst q'. destruct dir; simpl; eauto 10. }
    rewrite Eq' in *. cbn [after_calls].
    destruct r.
    + pose proof (merge_test d pos b c1 c2 c3 c4 Hwf' Hn' Hext) as Hmerge.
      destruct (uniform_children c1 c2 c3 c4 _) as [[v|]|]; [| |contradiction].
      * (* the four children are merged *)
        assert (v = item) as ->.
        { destruct (Hleaf1 eq_refl) as (p1 & b1 & E1).
          destruct Hmerge as (M1 & M2 & M3 & M4).
          assert (is_leaf_with v q1) as (p1' & b1' & E1').
          { clear - Eq' M1 M2 M3 M4. destruct dir; simpl in Eq';
              injection Eq' as -> -> -> ->; assumption. }
          congruence. }
        exists true, (quad item pos b nullptr nullptr nullptr nullptr).
        split; [reflexivity|]. split; [apply wfr_leaf; assumption|].
        split; [reflexivity|]. split.
        -- intros u v. rewrite <- Hcells'.
           apply merged_cells; [assumption|].
           intros dir'. split.
           ++ destruct Hmerge as (M1 & M2 & M3 & M4). destruct dir'; assumption.
           ++ apply (wfr_child _ _ _ _ _ _ _ dir' Hwf' Hn').
        -- intros _. exists pos, b. reflexivity.
      * exists false, (quad d pos b c1 c2 c3 c4).
        split; [reflexivity|]. split; [assumption|]. split; [reflexivity|].
        split; [assumption|discriminate].
    + exists false, (quad d pos b c1 c2 c3 c4).
      split; [reflexivity|]. split; [assumption|]. split; [reflexivity|].
      split; [assumption|discriminate].
Qed.

(** *** [set] and [unset] on a region *)

(** The invariant of a region built by [set] and [unset] inside the
    bounds. *)
Definition wfrt (t : region_t) : Prop :=
  m_default_value t = false /\
  (m_root t = nullptr \/
   (wfr (m_root t) /\ bound_of (m_root t) = root_bound t)).

(** The state of a cell of the region, false for a region without root. *)
Definition cell_of (t : region_t) (u v : Z) : bool :=
  match at_ t u v with
  | Some c => c
  | None => false
  end.

(** One [insert] inside the bounds. *)
Lemma region_insert_refines fuel t px py item :
  wfrt t ->
  isInside (root_bound t) px py = true ->
  (extent (root_bound t) < fuel)%nat ->
  Z.of_nat (extent (root_bound t)) < 2 ^ 64 ->
  item = true \/ leaf_false_or_cell (m_root t) px py ->
  exists t',
    insert fuel t px py item = Ok (m_size t') t' /\
    wfrt t' /\ root_bound t' = root_bound t /\
    m_root t' <> nullptr /\
    (forall u v, at_ t' u v = Some (cell_of t' u v)) /\
    (forall u v,
       cell_of t' u v = if (u =? px) && (v =? py) then item else cell_of t u v) /\
    m_size t' = region_size item (cell_of t px py) (m_size t).
Proof.
  intros (Hd & Hroot) Hin Hfuel Hext Hpre.
  set (root := match m_root t with
               | nullptr => leaf (m_default_value t) (root_bound t)
               | r => r
               end).
  assert (wfr root /\ bound_of root = root_bound t /\
          (forall u v, cell root u v = cell_of t u v) /\
          (item = true \/ leaf_false_or_cell root px py))
    as (Hwf & Hb & Hcells & Hpre').
  { subst root. destruct Hroot as [Hnull|[Hwf Hb]].
    - rewrite Hnull, Hd. split; [|split; [reflexivity|split]].
      + apply wfr_leaf. eapply root_bound_wf. eassumption.
      + intros u v. unfold cell_of, at_, cell, leaf. rewrite Hnull.
        rewrite region_get_value_leaf. apply andb_false_r.
      + right. left. reflexivity.
    - destruct (m_root t) eqn:E; [apply wfr_not_null in Hwf; discriminate|].
      split; [assumption|]. split; [assumption|]. split; [|assumption].
      intros u v. unfold cell_of, at_, cell. rewrite E, Hd. reflexivity. }
  destruct (insert_cell_ok fuel root px py item (m_size t))
    as (r & q' & Hins & Hwf' & Hb' & Hcells' & _);
    try (rewrite ?Hb; assumption).
  unfold insert. fold root. rewrite Hd, Hins.
  exists (with_root_size t q' (region_size item (cell root px py) (m_size t))
            (compute_depth q')).
  split; [reflexivity|].
  assert (forall u v,
            at_ (with_root_size t q'
                   (region_size item (cell root px py) (m_size t))
                   (compute_depth q')) u v
            = Some (cell q' u v)) as Hat.
  { intros u v. unfold at_. simpl. rewrite Hd.
    apply region_get_value_defined. assumption. }
  split; [|split; [reflexivity|split; [|split; [|split]]]].
  - split; [assumption|]. right. simpl. split; [assumption|].
    change (root_bound _) with (root_bound t). congruence.
  - simpl. apply wfr_not_null in Hwf'. destruct q'; discriminate.
  - intros u v. unfold cell_of. rewrite Hat. reflexivity.
  - intros u v. unfold cell_of at 1. rewrite Hat, Hcells', Hcells.
    reflexivity.
  - simpl. rewrite Hcells. reflexivity.
Qed.

Definition same_cell (c : Z * Z) (u v : Z) : bool :=
  (u =? fst c) && (v =? snd c).

(** The cells a sequence of [set] makes true. *)
Definition set_cells (cells : list (Z * Z)) (u v : Z) : bool :=
  existsb (fun c => same_cell c u v) cells.

Lemma set_all_refines fuel :
  forall cells t,
    wfrt t ->
    Forall (fun c => isInside (root_bound t) (fst c) (snd c) = true) cells ->
    (extent (root_bound t) < fuel)%nat ->
    Z.of_nat (extent (root_bound t)) < 2 ^ 64 ->
    exists t',
      set_all fuel t cells = Ok tt t' /\
      wfrt t' /\ root_bound t' = root_bound t /\
      (cells <> [] -> forall u v, at_ t' u v = Some (cell_of t' u v)) /\
      (forall u v, cell_of t' u v = set_cells cells u v || cell_of t u v) /\
      (List.NoDup cells ->
       (forall c, In c cells -> cell_of t (fst c) (snd c) = false) ->
       0 <= m_size t -> m_size t + Z.of_nat (length cells) < 2 ^ 64 ->
       m_size t' = m_size t + Z.of_nat (length cells)).
Proof.
  induction cells as [|[px py] cells IH]; intros t Hwf Hall Hfuel Hext.
  - exists t. simpl. split; [reflexivity|]. split; [assumption|].
    split; [reflexivity|].
    split; [congruence|]. split; [reflexivity|]. intros. lia.
  - inversion Hall as [|? ? Hin Hrest]; subst. simpl in Hin.
    destruct (region_insert_refines fuel t px py true Hwf Hin Hfuel Hext)
      as (t1 & Hset & Hwf1 & Hb1 & Hroot1 & Hat1 & Hcells1 & Hsize1);
      [left; reflexivity|].
    destruct (IH t1 Hwf1)
      as (t' & Hall' & Hwf' & Hb' & Hat' & Hcells' & Hsize');
      try (rewrite Hb1; assumption).
    exists t'. simpl. unfold set. rewrite Hset, Hall'.
    split; [reflexivity|]. split; [assumption|].
    split; [congruence|]. split; [|split].
    + intros _. destruct cells as [|c cells'];
        [|apply Hat'; discriminate].
      simpl in Hall'. injection Hall' as <-. assumption.
    + intros u v. rewrite Hcells', Hcells1.
      unfold set_cells. simpl. unfold same_cell at 2. simpl.
      destruct ((u =? px) && (v =? py)); simpl;
        [apply orb_true_r|reflexivity].
    + intros Hnd Hfresh H0 Hlt.
      apply NoDup_cons_iff in Hnd as [Hnotin Hnd].
      simpl length in Hlt.
      pose proof (Hfresh (px, py) ltac:(left; reflexivity)) as Hp.
      simpl in Hp. rewrite Hp in Hsize1. unfold region_size in Hsize1.
      simpl in Hsize1.
      rewrite size_t_wrap_small in Hsize1 by lia.
      rewrite Hsize'; simpl length; try lia; try assumption.
      intros [cx' cy'] Hc. simpl. rewrite Hcells1.
      pose proof (Hfresh (cx', cy') ltac:(right; assumption)) as Hq.
      simpl in Hq. rewrite Hq.
      destruct ((cx' =? px) && (cy' =? py)) eqn:E; [|reflexivity].
      apply andb_true_iff in E. destruct E as [E1 E2].
      apply Z.eqb_eq in E1, E2. subst. contradiction.
Qed.

(** The size after a sequence of [set]: it has grown by at most the
    number of calls, and it is positive when a cell is set. *)
Lemma set_all_size fuel :
  forall cells t t',
    wfrt t ->
    Forall (fun c => isInside (root_bound t) (fst c) (snd c) = true) cells ->
    (extent (root_bound t) < fuel)%nat ->
    Z.of_nat (extent (root_bound t)) < 2 ^ 64 ->
    set_all fuel t cells = Ok tt t' ->
    0 <= m_size t -> m_size t + Z.of_nat (length cells) < 2 ^ 64 ->
    (forall u v, cell_of t u v = true -> 1 <= m_size t) ->
    m_size t <= m_size t' <= m_size t + Z.of_nat (length cells) /\
    (forall u v, cell_of t' u v = true -> 1 <= m_size t').
Proof.
  induction cells as [|[px py] cells IH];
    intros t t' Hwf Hall Hfuel Hext Hrun H0 Hlt Hpos.
  - simpl in Hrun. injection Hrun as <-. simpl. split; [lia|assumption].
  - inversion Hall as [|? ? Hin Hrest]; subst. simpl in Hin.
    destruct (region_insert_refines fuel t px py true Hwf Hin Hfuel Hext)
      as (t1 & Hset & Hwf1 & Hb1 & _ & _ & Hcells1 & Hsize1);
      [left; reflexivity|].
    simpl in Hrun. unfold set in Hrun. rewrite Hset in Hrun.
    simpl length in Hlt.
    assert (m_size t <= m_size t1 <= m_size t + 1 /\
            (forall u v, cell_of t1 u v = true -> 1 <= m_size t1))
      as [Hstep Hpos1].
    { unfold region_size in Hsize1.
      destruct (cell_of t px py) eqn:Hwas; simpl in Hsize1.
      - rewrite Hsize1. split; [lia|]. intros u v Huv. rewrite Hcells1 in Huv.
        destruct ((u =? px) && (v =? py)); [|exact (Hpos u v Huv)].
        exact (Hpos px py Hwas).
      - rewrite size_t_wrap_small in Hsize1 by lia. rewrite Hsize1.
        split; lia. }
    destruct (IH t1 t' Hwf1) as [Hle Hpos']; try assumption;
      try (rewrite Hb1; assumption); try lia.
    simpl length. split; [lia|assumption].
Qed.

Lemma set_cells_In cells u v : set_cells cells u v = true <-> In (u, v) cells.
Proof.
  unfold set_cells. rewrite existsb_exists. split.
  - intros ([a b] & Hin & H). unfold same_cell in H. simpl in H.
    apply andb_true_iff in H. destruct H as [Hu Hv].
    apply Z.eqb_eq in Hu, Hv. subst. assumption.
  - intros H. exists (u, v). split; [assumption|].
    unfold same_cell. simpl. rewrite !Z.eqb_refl. reflexivity.
Qed.

Lemma region_extent cx cy w h :
  extent (root_bound (make_region cx cy w h false))
  = (Z.to_nat w + Z.to_nat h)%nat.
Proof.
  unfold extent, root_bound; simpl.
  match goal with
  | |- (Z.to_nat ?a + Z.to_nat ?b = _)%nat =>
      replace a with w by lia; replace b with h by lia
  end.
  reflexivity.
Qed.

(** X5.  For a region quadtree over [int] coordinates whose default value
    is false and whose centre and sides satisfy [coordinates_fit], and a
    non-empty sequence of [set] at cells inside the bounds of the root, run
    with fuel above width + height: every [set] returns; afterwards
    [at(x, y)] is true exactly for the cells that were set; every
    rectangle of the tree has its sides and its centre in [-2^30, 2^30);
    and when the cells are pairwise distinct and fewer than 2^32, [size]
    is their number. *)
Theorem sets_inside_bounds (cx cy w h : Z) (cells : list (Z * Z))
  (fuel : nat) :
  coordinates_fit cx cy w h ->
  cells <> [] ->
  Forall (fun c => isInside (root_bound (make_region cx cy w h false))
                     (fst c) (snd c) = true) cells ->
  (Z.to_nat w + Z.to_nat h < fuel)%nat ->
  exists t,
    set_all fuel (make_region cx cy w h false) cells = Ok tt t /\
    (forall u v, In (u, v) cells -> at_ t u v = Some true) /\
    (forall u v, ~ In (u, v) cells -> at_ t u v = Some false) /\
    quadrants_fit (m_root t) /\
    (List.NoDup cells -> Z.of_nat (length cells) < 2 ^ 32 ->
     m_size t = Z.of_nat (length cells)).
Proof.
  intros Hfit Hne Hall Hfuel. pose proof Hfit as [Hw Hh].
  set (t0 := make_region cx cy w h false) in *.
  pose proof (region_extent cx cy w h) as Hextent. fold t0 in Hextent.
  assert (wfrt t0) as Hwf0 by (split; [reflexivity|left; reflexivity]).
  destruct (set_all_refines fuel cells t0 Hwf0 Hall)
    as (t & Hrun & Hwf & Hb & Hat & Hcells & Hsize).
  { rewrite Hextent. assumption. }
  { rewrite Hextent. change (2 ^ 64) with 18446744073709551616.
    change (2 ^ 30) with 1073741824 in *. lia. }
  exists t. split; [assumption|]. split; [|split; [|split]].
  3: { destruct Hwf as (_ & [Hnull|[Hq Hbq]]); [rewrite Hnull; exact I|].
       apply wfr_fits; [assumption|]. rewrite Hbq, Hb.
       exact (root_bound_fits cx cy w h false Hfit). }
  - intros u v Hin. rewrite (Hat Hne), Hcells.
    apply set_cells_In in Hin. rewrite Hin. reflexivity.
  - intros u v Hin. rewrite (Hat Hne), Hcells.
    destruct (set_cells cells u v) eqn:E;
      [apply set_cells_In in E; contradiction|].
    reflexivity.
  - intros Hnd Hlen. rewrite Hsize; try assumption.
    + reflexivity.
    + intros c _. reflexivity.
    + simpl. lia.
    + simpl. change (2 ^ 64) with 18446744073709551616.
      change (2 ^ 32) with 4294967296 in *. lia.
Qed.

(** X6.  On a region built as in X5 by fewer than 2^32 calls of [set],
    [unset(x, y)] at a cell inside the bounds whose leaf holds the value
    false or is a single cell (a leaf that cannot be divided): the call
    returns, [at(x, y)] is false afterwards, every other cell keeps its
    state, every rectangle of the tree has its sides and its centre in
    [-2^30, 2^30), and [size] is one less when the cell was true (it was
    positive) and unchanged otherwise. *)
Theorem unset_clears_one_cell (cx cy w h : Z) (cells : list (Z * Z))
  (fuel : nat) (t : region_t) (px py : Z) :
  coordinates_fit cx cy w h ->
  Z.of_nat (length cells) < 2 ^ 32 ->
  Forall (fun c => isInside (root_bound (make_region cx cy w h false))
                     (fst c) (snd c) = true) cells ->
  (Z.to_nat w + Z.to_nat h < fuel)%nat ->
  set_all fuel (make_region cx cy w h false) cells = Ok tt t ->
  isInside (root_bound (make_region cx cy w h false)) px py = true ->
  leaf_false_or_cell (m_root t) px py ->
  exists t',
    unset fuel t px py = Ok tt t' /\
    (forall u v,
       at_ t' u v
       = Some (if (u =? px) && (v =? py) then false else cell_of t u v)) /\
    quadrants_fit (m_root t') /\
    m_size t' = (if cell_of t px py then m_size t - 1 else m_size t) /\
    0 <= m_size t' < 2 ^ 32.
Proof.
  intros Hfit Hlen Hall Hfuel Hrun Hin Hleaf. pose proof Hfit as [Hw Hh].
  set (t0 := make_region cx cy w h false) in *.
  pose proof (region_extent cx cy w h) as Hextent. fold t0 in Hextent.
  assert (wfrt t0) as Hwf0 by (split; [reflexivity|left; reflexivity]).
  assert (Z.of_nat (extent (root_bound t0)) < 2 ^ 64) as Hext.
  { rewrite Hextent. change (2 ^ 64) with 18446744073709551616.
    change (2 ^ 30) with 1073741824 in *. lia. }
  assert ((extent (root_bound t0) < fuel)%nat) as Hfuel0
    by (rewrite Hextent; assumption).
  destruct (set_all_size fuel cells t0 t Hwf0 Hall Hfuel0 Hext Hrun)
    as [Hsz Hpos].
  { simpl. lia. }
  { simpl. change (2 ^ 64) with 18446744073709551616.
    change (2 ^ 32) with 4294967296 in Hlen. lia. }
  { intros u v Huv. discriminate Huv. }
  change (m_size t0) with 0 in Hsz.
  destruct (set_all_refines fuel cells t0 Hwf0 Hall)
    as (t1 & Hrun1 & Hwf & Hb & _); [rewrite Hextent; assumption|assumption|].
  rewrite Hrun in Hrun1. injection Hrun1 as <-.
  destruct (region_insert_refines fuel t px py false Hwf)
    as (t' & Hins & Hwf' & Hb' & _ & Hat & Hcells & Hsize).
  { rewrite Hb. assumption. }
  { rewrite Hb, Hextent. assumption. }
  { rewrite Hb. assumption. }
  { right. assumption. }
  exists t'. unfold unset. rewrite Hins. split; [reflexivity|].
  split; [|split].
  - intros u v. rewrite Hat, Hcells. reflexivity.
  - destruct Hwf' as (_ & [Hnull|[Hq Hbq]]); [rewrite Hnull; exact I|].
    apply wfr_fits; [assumption|]. rewrite Hbq, Hb', Hb.
    exact (root_bound_fits cx cy w h false Hfit).
  - assert (m_size t' = if cell_of t px py then m_size t - 1 else m_size t)
      as Hsize'.
    { rewrite Hsize. unfold region_size.
      destruct (cell_of t px py) eqn:Hwas; simpl; [|reflexivity].
      pose proof (Hpos px py Hwas) as H1.
      apply size_t_wrap_small. change (2 ^ 64) with 18446744073709551616.
      change (2 ^ 32) with 4294967296 in Hlen. lia. }
    split; [exact Hsize'|]. rewrite Hsize'.
    change (2 ^ 32) with 4294967296 in *.
    destruct (cell_of t px py) eqn:Hwas; [|lia].
    pose proof (Hpos px py Hwas). lia.
Qed.

End RegionSet.

(** X5 at the 4 x 4 region around the origin and its 16 cells. *)
Lemma sets_inside_bounds_witness :
  exists t,
    quadtree_region.set_all 9 (quadtree_region.make_region 0 0 4 4 false)
      cells_4x4 = Ok tt t /\
    (forall u v, In (u, v) cells_4x4 -> quadtree_region.at_ t u v = Some true) /\
    (forall u v, ~ In (u, v) cells_4x4 ->
                 quadtree_region.at_ t u v = Some false) /\
    quadrants_fit (quadtree.m_root t) /\
    (List.NoDup cells_4x4 -> Z.of_nat (length cells_4x4) < 2 ^ 32 ->
     quadtree.m_size t = Z.of_nat (length cells_4x4)).
Proof.
  apply (sets_inside_bounds 0 0 4 4 cells_4x4 9%nat).
  - split; reflexivity.
  - discriminate.
  - repeat constructor.
  - vm_compute. lia.
Defined.

(** The 4 x 4 region around the origin after [set(0, 0)] and
    [set(1, 1)]. *)
Definition region_two_cells : quadtree_region.region_t :=
  Eval vm_compute in
    match quadtree_region.set_all 9
            (quadtree_region.make_region 0 0 4 4 false) [(0, 0); (1, 1)] with
    | Ok _ t => t
    | _ => quadtree_region.make_region 0 0 4 4 false
    end.

(** X6 at that region and the cell (0, 0), a leaf of one cell. *)
Lemma unset_clears_one_cell_witness :
  exists t',
    quadtree_region.unset 9 region_two_cells 0 0 = Ok tt t' /\
    (forall u v,
       quadtree_region.at_ t' u v
       = Some (if (u =? 0) && (v =? 0) then false
               else cell_of region_two_cells u v)) /\
    quadrants_fit (quadtree.m_root t') /\
    quadtree.m_size t'
    = (if cell_of region_two_cells 0 0
       then quadtree.m_size region_two_cells - 1
       else quadtree.m_size region_two_cells) /\
    0 <= quadtree.m_size t' < 2 ^ 32.
Proof.
  apply (unset_clears_one_cell 0 0 4 4 [(0, 0); (1, 1)] 9%nat
           region_two_cells 0 0).
  - split; reflexivity.
  - vm_compute. reflexivity.
  - repeat constructor.
  - vm_compute. lia.
  - vm_compute. reflexivity.
  - reflexivity.
  - right. reflexivity.
Defined.

(** ** Pipeline: the in-flight counter *)

Section PipelineFacts.

Import pipeline.

Context {val : Type}.
Variable process : nat -> val -> val.

Local Abbreviation state := (pipeline.state val).

(** Sums over the stages. *)
Fixpoint sum_upto (f : nat -> nat) (n : nat) : nat :=
  match n with
  | O => 0
  | S n => sum_upto f n + f n
  end.

Lemma sum_upto_ext f g n :
  (forall j, (j < n)%nat -> f j = g j) -> sum_upto f n = sum_upto g n.
Proof.
  induction n as [|n IH]; intros H; simpl; [reflexivity|].
  rewrite IH by (intros; apply H; lia). rewrite (H n) by lia. reflexivity.
Qed.

Lemma sum_upto_change1 f g n i :
  (forall j, j <> i -> f j = g j) -> (i < n)%nat ->
  (sum_upto f n + g i = sum_upto g n + f i)%nat.
Proof.
  intros H. induction n as [|n IH]; intros Hi; [lia|]. simpl.
  destruct (decide (i = n)) as [->|Hne].
  - rewrite (sum_upto_ext f g n) by (intros; apply H; lia). lia.
  - rewrite (H n) by congruence. specialize (IH ltac:(lia)). lia.
Qed.

Lemma sum_upto_change2 f g n i :
  (forall j, j <> i -> j <> S i -> f j = g j) -> (S i < n)%nat ->
  (sum_upto f n + g i + g (S i) = sum_upto g n + f i + f (S i))%nat.
Proof.
  intros H. induction n as [|n IH]; intros Hi; [lia|]. simpl.
  destruct (decide (S i = n)) as [<-|Hne].
  - simpl. rewrite (sum_upto_ext f g i) by (intros; apply H; lia). lia.
  - rewrite (H n) by lia. specialize (IH ltac:(lia)). lia.
Qed.

Lemma sum_upto_zero f n j :
  sum_upto f n = 0%nat -> (j < n)%nat -> f j = 0%nat.
Proof.
  induction n as [|n IH]; intros H Hj; [lia|]. simpl in H.
  destruct (decide (j = n)) as [->|]; [lia|]. apply IH; lia.
Qed.

(** The calls of [feed] that have incremented the counter and not yet
    pushed their element. *)
Definition feed_weight (f : feed_pc val) : nat :=
  match f with
  | Incremented _ | FeedLocked _ => 1
  | Pushed => 0
  end.

Fixpoint pending (fs : list (feed_pc val)) : nat :=
  match fs with
  | [] => 0
  | f :: fs => feed_weight f + pending fs
  end.

Lemma pending_app fs gs : pending (fs ++ gs) = (pending fs + pending gs)%nat.
Proof. induction fs as [|f fs IH]; simpl; [reflexivity|]. rewrite IH. lia. Qed.

Lemma pending_insert fs k f g :
  fs !! k = Some f ->
  (pending (<[k := g]> fs) + feed_weight f = pending fs + feed_weight g)%nat.
Proof.
  revert k. induction fs as [|h fs IH]; intros [|k] H; try discriminate.
  - injection H as ->. simpl. lia.
  - simpl in *. specialize (IH k H). lia.
Qed.

Lemma pending_delete fs k f :
  fs !! k = Some f ->
  (pending (delete k fs) + feed_weight f = pending fs)%nat.
Proof.
  revert k. induction fs as [|h fs IH]; intros [|k] H; try discriminate.
  - injection H as ->. simpl. lia.
  - simpl in *. specialize (IH k H). lia.
Qed.

Lemma pending_zero fs f : pending fs = 0%nat -> In f fs -> f = Pushed.
Proof.
  induction fs as [|h fs IH]; intros H Hin; [destruct Hin|].
  simpl in H. destruct Hin as [->|Hin].
  - destruct f; simpl in H; try lia. reflexivity.
  - apply IH; [lia|assumption].
Qed.

(** The element of stage [j] that the counter still counts: stage 0 holds
    it between the pop and the hand-over; a later stage has it in its slot,
    until the stage has handed it over or counted it off. *)
Definition live_at (j : nat) (pc : wpc val) (slot : option val) : nat :=
  match j with
  | O =>
      match pc with
      | Run _ | Have _ | LockedNext _ => 1
      | _ => 0
      end
  | S _ =>
      match slot with
      | None => 0
      | Some _ =>
          match pc with
          | Wrote | Decremented => 0
          | _ => 1
          end
      end
  end.

Definition live (s : state) (j : nat) : nat :=
  live_at j (pc_of s j) (slot_of s j).

(** The elements fed and not yet counted off that the state shows. *)
Definition visible (s : state) : nat :=
  pending (feeds s) + length (m_waiting_list s)
  + sum_upto (live s) (m_process_count s).

(** The thread has read its argument and not yet passed it on. *)
Definition has_arg (pc : wpc val) : bool :=
  match pc with
  | Run _ | Have _ | LockedNext _ => true
  | _ => false
  end.

Definition after_decrement (pc : wpc val) : bool :=
  match pc with
  | Decremented | ClearedLast | NotifyEnd => true
  | _ => false
  end.

(** The invariant of the reachable states: [fed] calls of [feed] were
    made, [k] of the elements fed are not yet counted off. *)
Record inv (n : nat) (s : state) (k fed : nat) : Prop := {
  inv_count : m_process_count s = n;
  inv_workers : length (workers s) = n;
  inv_slots : length (m_passing_arguments s) = n;
  inv_excl : forall j,
    holds_next (pc_of s j) = true -> holds_own (pc_of s (S j)) = false;
  inv_arg : forall j,
    has_arg (pc_of s (S j)) = true -> is_some (slot_of s (S j)) = true;
  inv_wrote : forall j,
    pc_of s j = Wrote -> is_some (slot_of s (S j)) = true;
  inv_first : slot_of s 0 = None;
  inv_mid : forall j, holds_next (pc_of s j) = true -> (S j < n)%nat;
  inv_last : forall j, after_decrement (pc_of s j) = true -> S j = n;
  inv_visible : (visible s <= k <= fed)%nat;
  inv_jobs : m_jobs_in_pipeline s = size_t_wrap (Z.of_nat k)
}.

Lemma pc_of_lookup (s : state) i pc : workers s !! i = Some pc -> pc_of s i = pc.
Proof. unfold pc_of. intros ->. reflexivity. Qed.

Lemma pc_of_insert (s s' : state) i pc j :
  workers s' = <[i := pc]> (workers s) ->
  (i < length (workers s))%nat ->
  pc_of s' j = if decide (j = i) then pc else pc_of s j.
Proof.
  intros E Hi. unfold pc_of. rewrite E. case_decide.
  - subst j. rewrite list_lookup_insert_eq by assumption. reflexivity.
  - rewrite list_lookup_insert_ne by congruence. reflexivity.
Qed.

Lemma slot_of_insert (s s' : state) i a j :
  m_passing_arguments s' = <[i := a]> (m_passing_arguments s) ->
  (i < length (m_passing_arguments s))%nat ->
  slot_of s' j = if decide (j = i) then a else slot_of s j.
Proof.
  intros E Hi. unfold slot_of. rewrite E. case_decide.
  - subst j. rewrite list_lookup_insert_eq by assumption. reflexivity.
  - rewrite list_lookup_insert_ne by congruence. reflexivity.
Qed.

Lemma slot_of_same (s s' : state) j :
  m_passing_arguments s' = m_passing_arguments s -> slot_of s' j = slot_of s j.
Proof. unfold slot_of. intros ->. reflexivity. Qed.

Lemma pc_of_same (s s' : state) j :
  workers s' = workers s -> pc_of s' j = pc_of s j.
Proof. unfold pc_of. intros ->. reflexivity. Qed.

Lemma live_same (s s' : state) j :
  pc_of s' j = pc_of s j -> slot_of s' j = slot_of s j -> live s' j = live s j.
Proof. unfold live. intros -> ->. reflexivity. Qed.

Lemma lookup_worker_lt (s : state) i pc n :
  length (workers s) = n -> workers s !! i = Some pc -> (i < n)%nat.
Proof. intros <- H. apply lookup_lt_Some in H. assumption. Qed.

(** A step of the thread of stage [i] from [pc] to [pc'] that writes no
    slot preserves the invariant. *)
Lemma step_pc_inv n (s s' : state) i pc pc' k k' fed :
  inv n s k fed ->
  workers s !! i = Some pc ->
  workers s' = <[i := pc']> (workers s) ->
  m_passing_arguments s' = m_passing_arguments s ->
  m_process_count s' = m_process_count s ->
  (holds_next pc' = true ->
   holds_next pc = true \/ (mutex_free s (S i) = true /\ (S i < n)%nat)) ->
  (holds_own pc' = true -> holds_own pc = true \/ mutex_free s i = true) ->
  (has_arg pc' = true ->
   has_arg pc = true \/ i = 0%nat \/ is_some (slot_of s i) = true) ->
  pc' <> Wrote ->
  (after_decrement pc' = true -> after_decrement pc = true \/ S i = n) ->
  (pending (feeds s') + length (m_waiting_list s')
   + live_at i pc' (slot_of s i) + k
   <= pending (feeds s) + length (m_waiting_list s)
      + live_at i pc (slot_of s i) + k')%nat ->
  (k' <= fed)%nat ->
  m_jobs_in_pipeline s' = size_t_wrap (Z.of_nat k') ->
  inv n s' k' fed.
Proof.
  intros [Hc Hw Hs Hexcl Harg Hwrote Hfirst Hmid Hlast Hvis Hjobs]
         Hpc Ew Es Ec Hnext Hown Hhas Hnw Hdec Hle Hfed Hj.
  pose proof (lookup_worker_lt s i pc n Hw Hpc) as Hi.
  pose proof (pc_of_lookup s i pc Hpc) as Epc.
  assert (forall j, pc_of s' j = if decide (j = i) then pc' else pc_of s j)
    as Epc'.
  { intros j. apply pc_of_insert; [assumption|lia]. }
  assert (forall j, slot_of s' j = slot_of s j) as Eslot.
  { intros j. apply slot_of_same. assumption. }
  split.
  - congruence.
  - rewrite Ew, length_insert. assumption.
  - congruence.
  - intros j. rewrite !Epc'.
    destruct (decide (j = i)) as [->|Hji].
    + rewrite decide_False by lia.
      intros H. destruct (Hnext H) as [H'|[H' _]].
      * apply Hexcl. rewrite Epc. assumption.
      * unfold mutex_free in H'. apply andb_true_iff in H' as [H' _].
        apply negb_true_iff in H'. assumption.
    + destruct (decide (S j = i)) as [<-|Hsji]; [|apply Hexcl].
      intros H. destruct (holds_own pc') eqn:E; [|reflexivity].
      destruct (Hown eq_refl) as [H'|H'].
      * specialize (Hexcl j H). rewrite Epc in Hexcl. congruence.
      * unfold mutex_free in H'. apply andb_true_iff in H' as [_ H'].
        apply negb_true_iff in H'. congruence.
  - intros j. rewrite Epc', Eslot.
    destruct (decide (S j = i)) as [<-|Hsji]; [|apply Harg].
    intros H. destruct (Hhas H) as [H'|[H'|H']].
    + apply Harg. rewrite Epc. assumption.
    + lia.
    + assumption.
  - intros j. rewrite Epc', Eslot.
    destruct (decide (j = i)) as [->|Hji]; [congruence|apply Hwrote].
  - rewrite Eslot. assumption.
  - intros j. rewrite Epc'.
    destruct (decide (j = i)) as [->|Hji]; [|apply Hmid].
    intros H. destruct (Hnext H) as [H'|[_ H']]; [|assumption].
    apply Hmid. rewrite Epc. assumption.
  - intros j. rewrite Epc'.
    destruct (decide (j = i)) as [->|Hji]; [|apply Hlast].
    intros H. destruct (Hdec H) as [H'|H']; [|assumption].
    apply Hlast. rewrite Epc. assumption.
  - split; [|assumption]. unfold visible in *. rewrite Ec, Hc in *.
    assert (sum_upto (live s') n + live s i = sum_upto (live s) n + live s' i)%nat
      as Hsum.
    { apply sum_upto_change1; [|assumption].
      intros j Hne. apply live_same; [|apply Eslot].
      rewrite Epc'. rewrite decide_False by assumption. reflexivity. }
    assert (live s i = live_at i pc (slot_of s i)) as E1
      by (unfold live; rewrite Epc; reflexivity).
    assert (live s' i = live_at i pc' (slot_of s i)) as E2.
    { unfold live. rewrite Epc', decide_True, Eslot by reflexivity.
      reflexivity. }
    rewrite E1, E2 in Hsum. lia.
  - assumption.
Qed.

Lemma live_at_le j pc (slot : option val) : (live_at j pc slot <= 1)%nat.
Proof. destruct j, pc, slot; simpl; lia. Qed.

(** The write of the slot of the next stage preserves the invariant. *)
Lemma write_next_inv n (s : state) i r k fed :
  inv n s k fed ->
  workers s !! i = Some (LockedNext r) ->
  inv n (set_pc (set_slot s (i + 1) (Some r)) i Wrote) k fed.
Proof.
  intros [Hc Hw Hs Hexcl Harg Hwrote Hfirst Hmid Hlast Hvis Hjobs] Hpc.
  pose proof (lookup_worker_lt s i _ n Hw Hpc) as Hi.
  pose proof (pc_of_lookup s i _ Hpc) as Epc.
  assert (S i < n)%nat as Hsi by (apply Hmid; rewrite Epc; reflexivity).
  set (s' := set_pc (set_slot s (i + 1) (Some r)) i Wrote).
  assert (forall j, pc_of s' j = if decide (j = i) then Wrote else pc_of s j)
    as Epc'.
  { intros j. apply pc_of_insert; [reflexivity|lia]. }
  assert (forall j, slot_of s' j
                    = if decide (j = S i) then Some r else slot_of s j)
    as Eslot.
  { intros j. replace (S i) with (i + 1)%nat by lia.
    apply slot_of_insert; [reflexivity|lia]. }
  assert (holds_own (pc_of s (S i)) = false) as Hfree
    by (apply Hexcl; rewrite Epc; reflexivity).
  split.
  - assumption.
  - simpl. rewrite length_insert. assumption.
  - simpl. rewrite length_insert. assumption.
  - intros j. rewrite !Epc'.
    destruct (decide (j = i)) as [->|Hji].
    + rewrite decide_False by lia. intros _. assumption.
    + destruct (decide (S j = i)) as [<-|Hsji]; [|apply Hexcl].
      intros H. specialize (Hexcl j H). rewrite Epc in Hexcl. discriminate.
  - intros j. rewrite Epc', Eslot.
    destruct (decide (S j = i)) as [<-|Hsji]; [discriminate|].
    destruct (decide (S j = S i)); [reflexivity|apply Harg].
  - intros j. rewrite Epc', Eslot.
    destruct (decide (j = i)) as [->|Hji].
    + rewrite decide_True by reflexivity. reflexivity.
    + rewrite decide_False by lia. apply Hwrote.
  - rewrite Eslot. rewrite decide_False by lia. assumption.
  - intros j. rewrite Epc'.
    destruct (decide (j = i)) as [->|Hji]; [intros _; assumption|apply Hmid].
  - intros j. rewrite Epc'.
    destruct (decide (j = i)) as [->|Hji]; [discriminate|apply Hlast].
  - split; [|apply Hvis]. unfold visible in *. change (feeds s') with (feeds s).
    change (m_waiting_list s') with (m_waiting_list s).
    change (m_process_count s') with (m_process_count s). rewrite Hc in *.
    assert (sum_upto (live s') n + live s i + live s (S i)
            = sum_upto (live s) n + live s' i + live s' (S i))%nat as Hsum.
    { apply sum_upto_change2; [|assumption].
      intros j H1 H2. apply live_same.
      - rewrite Epc', decide_False by assumption. reflexivity.
      - rewrite Eslot, decide_False by assumption. reflexivity. }
    assert (live s' i = 0)%nat as E1.
    { unfold live. rewrite Epc', decide_True by reflexivity.
      destruct i; simpl; [reflexivity|]. destruct (slot_of s' (S i)); reflexivity. }
    assert (live s i = 1)%nat as E2.
    { unfold live. rewrite Epc. destruct i; simpl; [reflexivity|].
      specialize (Harg i). rewrite Epc in Harg. specialize (Harg eq_refl).
      destruct (slot_of s (S i)); [reflexivity|discriminate]. }
    assert (live s' (S i) = 1)%nat as E3.
    { unfold live. rewrite Epc', decide_False, Eslot, decide_True by lia.
      simpl. destruct (pc_of s (S i)); try reflexivity; discriminate. }
    pose proof (live_at_le (S i) (pc_of s (S i)) (slot_of s (S i))) as E4.
    fold (live s (S i)) in E4. lia.
  - assumption.
Qed.

(** The clearing of the own slot preserves the invariant. *)
Lemma clear_own_inv n (s : state) i pc pc' k fed :
  inv n s k fed ->
  workers s !! i = Some pc ->
  (pc = Wrote /\ pc' = Cleared) \/ (pc = Decremented /\ pc' = ClearedLast) ->
  inv n (set_pc (set_slot s i None) i pc') k fed.
Proof.
  intros [Hc Hw Hs Hexcl Harg Hwrote Hfirst Hmid Hlast Hvis Hjobs] Hpc Hcase.
  pose proof (lookup_worker_lt s i _ n Hw Hpc) as Hi.
  pose proof (pc_of_lookup s i _ Hpc) as Epc.
  set (s' := set_pc (set_slot s i None) i pc').
  assert (forall j, pc_of s' j = if decide (j = i) then pc' else pc_of s j)
    as Epc'.
  { intros j. apply pc_of_insert; [reflexivity|lia]. }
  assert (forall j, slot_of s' j = if decide (j = i) then None else slot_of s j)
    as Eslot.
  { intros j. apply slot_of_insert; [reflexivity|lia]. }
  assert (holds_own pc = true) as Hown by (destruct Hcase as [[-> _]|[-> _]];
                                           reflexivity).
  assert (has_arg pc' = false /\ pc' <> Wrote) as [Hna Hnw]
    by (destruct Hcase as [[_ ->]|[_ ->]]; split; (reflexivity || discriminate)).
  split.
  - assumption.
  - simpl. rewrite length_insert. assumption.
  - simpl. rewrite length_insert. assumption.
  - intros j. rewrite !Epc'.
    destruct (decide (j = i)) as [->|Hji].
    + rewrite decide_False by lia. intros H. apply Hexcl. rewrite Epc.
      destruct Hcase as [[-> _]|[_ ->]]; [reflexivity|discriminate].
    + destruct (decide (S j = i)) as [<-|Hsji]; [|apply Hexcl].
      intros H. specialize (Hexcl j H). rewrite Epc in Hexcl. congruence.
  - intros j. rewrite Epc', Eslot.
    destruct (decide (S j = i)) as [<-|Hsji]; [congruence|apply Harg].
  - intros j. rewrite Epc', Eslot.
    destruct (decide (j = i)) as [->|Hji]; [congruence|].
    destruct (decide (S j = i)) as [<-|Hsji]; [|apply Hwrote].
    intros H. specialize (Hexcl j). rewrite H, Epc in Hexcl.
    specialize (Hexcl eq_refl). congruence.
  - rewrite Eslot. destruct (decide (0%nat = i)); [reflexivity|assumption].
  - intros j. rewrite Epc'.
    destruct (decide (j = i)) as [->|Hji]; [|apply Hmid].
    intros H. apply Hmid. rewrite Epc.
    destruct Hcase as [[-> _]|[_ ->]]; [reflexivity|discriminate].
  - intros j. rewrite Epc'.
    destruct (decide (j = i)) as [->|Hji]; [|apply Hlast].
    intros H. apply Hlast. rewrite Epc.
    destruct Hcase as [[_ ->]|[-> _]]; [discriminate|reflexivity].
  - split; [|apply Hvis]. unfold visible in *. change (feeds s') with (feeds s).
    change (m_waiting_list s') with (m_waiting_list s).
    change (m_process_count s') with (m_process_count s). rewrite Hc in *.
    assert (sum_upto (live s') n + live s i
            = sum_upto (live s) n + live s' i)%nat as Hsum.
    { apply sum_upto_change1; [|assumption].
      intros j H1. apply live_same.
      - rewrite Epc', decide_False by assumption. reflexivity.
      - rewrite Eslot, decide_False by assumption. reflexivity. }
    assert (live s' i = 0)%nat as E1.
    { unfold live. rewrite Epc', Eslot, !decide_True by reflexivity.
      destruct i; simpl; [|reflexivity].
      destruct Hcase as [[_ ->]|[_ ->]]; reflexivity. }
    assert (live s i = 0)%nat as E2.
    { unfold live. rewrite Epc.
      destruct Hcase as [[-> _]|[-> _]]; destruct i; simpl; try reflexivity;
        destruct (slot_of s (S i)); reflexivity. }
    lia.
  - assumption.
Qed.

Lemma sum_upto_ge f n i : (i < n)%nat -> (f i <= sum_upto f n)%nat.
Proof.
  induction n as [|n IH]; intros Hi; [lia|]. simpl.
  destruct (decide (i = n)) as [->|]; [lia|]. specialize (IH ltac:(lia)). lia.
Qed.

Lemma size_t_wrap_pred k :
  (1 <= k)%nat ->
  size_t_wrap (size_t_wrap (Z.of_nat k) - 1) = size_t_wrap (Z.of_nat (k - 1)).
Proof.
  intros H. unfold size_t_wrap. rewrite Zminus_mod_idemp_l.
  f_equal. lia.
Qed.

Lemma size_t_wrap_succ k :
  size_t_wrap (size_t_wrap (Z.of_nat k) + 1) = size_t_wrap (Z.of_nat (S k)).
Proof.
  unfold size_t_wrap. rewrite Zplus_mod_idemp_l. f_equal. lia.
Qed.

(** Side conditions of [step_pc_inv] that hold by computation. *)
Local Ltac side :=
  simpl; try discriminate; try (intros _; left; reflexivity);
  try (intros; left; assumption); try reflexivity; try lia.

(** Every step of the thread of a stage preserves the invariant. *)
Lemma worker_step_inv n (s s' : state) i k fed :
  inv n s k fed ->
  worker_step process s i = Some s' ->
  exists k', inv n s' k' fed.
Proof.
  intros Hinv Hstep. unfold worker_step in Hstep.
  destruct (workers s !! i) as [pc|] eqn:Hpc; [|discriminate].
  pose proof (lookup_worker_lt s i pc n (inv_workers _ _ _ _ Hinv) Hpc) as Hi.
  pose proof (inv_jobs _ _ _ _ Hinv) as Hjobs.
  pose proof (inv_visible _ _ _ _ Hinv) as [Hvis Hfed].
  destruct pc.
  - (* Top *)
    exists k. destruct (m_continue s); injection Hstep as <-;
      (eapply step_pc_inv with (k := k); [eassumption|eassumption|side..]).
  - (* Locking *)
    exists k. destruct (mutex_free s i) eqn:Hfree; [|discriminate].
    injection Hstep as <-.
    eapply step_pc_inv with (k := k); [eassumption|eassumption|side..].
    intros _. right. assumption.
  - (* Pred *)
    exists k. destruct i as [|i].
    + destruct (wl_free s); [|discriminate].
      destruct (m_waiting_list s); injection Hstep as <-;
        (eapply step_pc_inv with (k := k); [eassumption|eassumption|side..]).
    + destruct (is_some (slot_of s (S i)) || negb (m_continue s));
        injection Hstep as <-;
        (eapply step_pc_inv with (k := k); [eassumption|eassumption|side..]).
  - (* PredContinue *)
    exists k. destruct (negb (m_continue s)); injection Hstep as <-;
      (eapply step_pc_inv with (k := k); [eassumption|eassumption|side..]).
  - (* Blocked *)
    exists k. destruct (mutex_free s i) eqn:Hfree; [|discriminate].
    injection Hstep as <-.
    eapply step_pc_inv with (k := k); [eassumption|eassumption|side..].
    intros _. right. assumption.
  - (* Woken *)
    exists k. destruct (negb (m_continue s)).
    { injection Hstep as <-.
      eapply step_pc_inv with (k := k); [eassumption|eassumption|side..]. }
    destruct i as [|i].
    + destruct wl, (m_waiting_list s) as [|v rest] eqn:Hwl;
        injection Hstep as <-;
        (eapply step_pc_inv with (k := k); [eassumption|eassumption|side..]);
        try (intros _; right; left; reflexivity).
      rewrite Hwl. simpl. lia.
    + destruct (slot_of s (S i)) as [a|] eqn:Hslot; injection Hstep as <-;
        (eapply step_pc_inv with (k := k); [eassumption|eassumption|side..]).
      intros _. right. right. rewrite Hslot. reflexivity.
  - (* Run *)
    exists k. injection Hstep as <-.
    eapply step_pc_inv with (k := k); [eassumption|eassumption|side..].
  - (* Have *)
    destruct (i + 1 <? m_process_count s)%nat eqn:Hlast.
    + exists k. replace (i + 1)%nat with (S i) in * by lia.
      destruct (mutex_free s (S i)) eqn:Hfree; [|discriminate].
      injection Hstep as <-.
      eapply step_pc_inv with (k := k); [eassumption|eassumption|side..].
      intros _. right. split; [assumption|].
      apply Nat.ltb_lt in Hlast. rewrite (inv_count _ _ _ _ Hinv) in Hlast.
      assumption.
    + exists (k - 1)%nat. injection Hstep as <-.
      apply Nat.ltb_ge in Hlast. rewrite (inv_count _ _ _ _ Hinv) in Hlast.
      assert (live s i = 1)%nat as Hlive.
      { unfold live. rewrite (pc_of_lookup s i _ Hpc).
        destruct i as [|i]; simpl; [reflexivity|].
        pose proof (inv_arg _ _ _ _ Hinv i) as Harg.
        rewrite (pc_of_lookup s (S i) _ Hpc) in Harg.
        specialize (Harg eq_refl).
        destruct (slot_of s (S i)); [reflexivity|discriminate]. }
      assert (1 <= k)%nat as Hk.
      { pose proof (sum_upto_ge (live s) n i Hi) as Hge.
        unfold visible in Hvis. rewrite (inv_count _ _ _ _ Hinv) in Hvis.
        lia. }
      eapply step_pc_inv with (k := k); [eassumption|eassumption|side..].
      * unfold live in Hlive. rewrite (pc_of_lookup s i _ Hpc) in Hlive.
        rewrite Hlive.
        assert (live_at i (@Decremented val) (slot_of s i) = 0)%nat as ->
          by (destruct i; simpl; [|destruct (slot_of s (S i))]; reflexivity).
        lia.
      * rewrite Hjobs. apply size_t_wrap_pred. assumption.
  - (* LockedNext *)
    exists k. injection Hstep as <-. apply write_next_inv; assumption.
  - (* Wrote *)
    exists k. injection Hstep as <-. eapply clear_own_inv; [eassumption..|].
    left. split; reflexivity.
  - (* Cleared *)
    exists k. injection Hstep as <-.
    eapply step_pc_inv with (k := k); [eassumption|eassumption|side..].
  - (* Unlocked *)
    exists k. injection Hstep as <-.
    eapply step_pc_inv with (k := k); [eassumption|eassumption|side..].
  - (* Decremented *)
    exists k. injection Hstep as <-. eapply clear_own_inv; [eassumption..|].
    right. split; reflexivity.
  - (* ClearedLast *)
    exists k. injection Hstep as <-.
    eapply step_pc_inv with (k := k); [eassumption|eassumption|side..].
  - (* NotifyEnd *)
    exists k. injection Hstep as <-.
    eapply step_pc_inv with (k := k); [eassumption|eassumption|side..].
  - discriminate.
  - discriminate.
Qed.

(** A step that leaves the threads of the stages and the slots alone
    preserves the invariant. *)
Lemma client_step_inv n (s s' : state) k k' fed fed' :
  inv n s k fed ->
  workers s' = workers s ->
  m_passing_arguments s' = m_passing_arguments s ->
  m_process_count s' = m_process_count s ->
  (pending (feeds s') + length (m_waiting_list s') + k
   <= pending (feeds s) + length (m_waiting_list s) + k')%nat ->
  (k' <= fed')%nat ->
  m_jobs_in_pipeline s' = size_t_wrap (Z.of_nat k') ->
  inv n s' k' fed'.
Proof.
  intros [Hc Hw Hs Hexcl Harg Hwrote Hfirst Hmid Hlast Hvis Hjobs]
         Ew Es Ec Hle Hfed Hj.
  assert (forall j, pc_of s' j = pc_of s j) as Epc
    by (intros; apply pc_of_same; assumption).
  assert (forall j, slot_of s' j = slot_of s j) as Eslot
    by (intros; apply slot_of_same; assumption).
  split; try congruence.
  - intros j. rewrite !Epc. apply Hexcl.
  - intros j. rewrite Epc, Eslot. apply Harg.
  - intros j. rewrite Epc, Eslot. apply Hwrote.
  - intros j. rewrite Epc. apply Hmid.
  - intros j. rewrite Epc. apply Hlast.
  - split; [|assumption]. unfold visible in *. rewrite Ec.
    rewrite (sum_upto_ext (live s') (live s)).
    + lia.
    + intros j _. apply live_same; [apply Epc|apply Eslot].
Qed.

Lemma feed_step_inv n (s s' : state) j k fed :
  inv n s k fed -> feed_step s j = Some s' -> inv n s' k fed.
Proof.
  intros Hinv Hstep. unfold feed_step in Hstep.
  pose proof (inv_visible _ _ _ _ Hinv) as [_ Hfed].
  pose proof (inv_jobs _ _ _ _ Hinv) as Hjobs.
  destruct (feeds s !! j) as [[v|v|]|] eqn:Hf; [| | |discriminate].
  - destruct (wl_free s); [|discriminate]. injection Hstep as <-.
    eapply client_step_inv; [eassumption|reflexivity..| |assumption|assumption].
    simpl. pose proof (pending_insert _ _ _ (FeedLocked v) Hf). simpl in *. lia.
  - injection Hstep as <-.
    eapply client_step_inv; [eassumption|reflexivity..| |assumption|assumption].
    simpl. rewrite length_app. simpl.
    pose proof (pending_insert _ _ _ Pushed Hf). simpl in *. lia.
  - injection Hstep as <-.
    eapply client_step_inv; [eassumption|reflexivity..| |assumption|assumption].
    simpl. pose proof (pending_delete _ _ _ Hf). simpl in *. lia.
Qed.

Lemma wait_end_step_inv n (s s' : state) k fed :
  inv n s k fed -> wait_end_step s = Some s' -> inv n s' k fed.
Proof.
  intros Hinv Hstep. unfold wait_end_step in Hstep.
  pose proof (inv_visible _ _ _ _ Hinv) as [_ Hfed].
  pose proof (inv_jobs _ _ _ _ Hinv) as Hjobs.
  destruct (waiter s).
  - injection Hstep as <-.
    eapply client_step_inv; [eassumption|reflexivity..|simpl; lia|
                              assumption|assumption].
  - destruct (m_jobs_in_pipeline s =? 0); injection Hstep as <-;
      [|assumption].
    eapply client_step_inv; [eassumption|reflexivity..|simpl; lia|
                              assumption|assumption].
  - injection Hstep as <-.
    eapply client_step_inv; [eassumption|reflexivity..|simpl; lia|
                              assumption|assumption].
  - destruct (forallb ended (workers s)); [|discriminate].
    injection Hstep as <-.
    eapply client_step_inv; [eassumption|reflexivity..|simpl; lia|
                              assumption|assumption].
  - discriminate.
Qed.

Lemma step_inv n (s s' : state) a k fed :
  inv n s k fed ->
  step process s a = Some s' ->
  exists k', inv n s' k' (feed_calls [a] + fed).
Proof.
  intros Hinv Hstep.
  pose proof (inv_visible _ _ _ _ Hinv) as [_ Hfed].
  pose proof (inv_jobs _ _ _ _ Hinv) as Hjobs.
  destruct a as [v|j|i| |]; simpl in *.
  - exists (S k). injection Hstep as <-.
    eapply client_step_inv; [eassumption|reflexivity..| |lia|].
    + simpl. rewrite pending_app. simpl. lia.
    + simpl. rewrite Hjobs. apply size_t_wrap_succ.
  - exists k. eapply feed_step_inv; eassumption.
  - eapply worker_step_inv; eassumption.
  - exists k. eapply wait_end_step_inv; eassumption.
  - exists k. injection Hstep as <-.
    eapply client_step_inv; [eassumption|reflexivity..|simpl; lia|
                              assumption|assumption].
Qed.

Lemma run_inv n acts :
  forall (s s' : state) k fed,
    inv n s k fed ->
    run process s acts = Some s' ->
    exists k', inv n s' k' (feed_calls acts + fed).
Proof.
  induction acts as [|a acts IH]; intros s s' k fed Hinv Hrun; simpl in Hrun.
  - injection Hrun as <-. exists k. assumption.
  - destruct (step process s a) as [s1|] eqn:Hstep; [|discriminate].
    destruct (step_inv n s s1 a k fed Hinv Hstep) as [k1 Hinv1].
    destruct (IH s1 s' k1 _ Hinv1 Hrun) as [k' Hinv'].
    exists k'.
    replace (feed_calls (a :: acts) + fed)%nat
      with (feed_calls acts + (feed_calls [a] + fed))%nat; [assumption|].
    destruct a; simpl; lia.
Qed.

Lemma pc_of_init n j :
  pc_of (init n) j = (@Top val) \/ pc_of (init n) j = (@Terminated val).
Proof.
  unfold pc_of, init; simpl.
  destruct (replicate n Top !! j) as [pc|] eqn:E; [|right; reflexivity].
  apply lookup_replicate in E as [-> _]. left. reflexivity.
Qed.

Lemma slot_of_init n j : slot_of (@init val n) j = None.
Proof.
  unfold slot_of, init; simpl.
  destruct (replicate n None !! j) as [a|] eqn:E; [|reflexivity].
  apply lookup_replicate in E as [-> _]. reflexivity.
Qed.

Lemma init_inv n : inv n (init n) 0 0.
Proof.
  split; simpl; try reflexivity; try apply length_replicate.
  - intros j H. destruct (pc_of_init n j) as [E|E]; rewrite E in H;
      discriminate.
  - intros j H. destruct (pc_of_init n (S j)) as [E|E]; rewrite E in H;
      discriminate.
  - intros j H. destruct (pc_of_init n j) as [E|E]; rewrite E in H;
      discriminate.
  - apply slot_of_init.
  - intros j H. destruct (pc_of_init n j) as [E|E]; rewrite E in H;
      discriminate.
  - intros j H. destruct (pc_of_init n j) as [E|E]; rewrite E in H;
      discriminate.
  - split; [|lia]. unfold visible; simpl.
    rewrite (sum_upto_ext _ (fun _ => 0%nat)).
    + induction n; simpl; lia.
    + intros j _. unfold live. rewrite slot_of_init.
      destruct (pc_of_init n j) as [E|E]; rewrite E; destruct j; reflexivity.
Qed.

Lemma slot_of_beyond (s : state) j :
  (length (m_passing_arguments s) <= j)%nat -> slot_of s j = None.
Proof.
  intros H. unfold slot_of. rewrite lookup_ge_None_2 by assumption.
  reflexivity.
Qed.

(** A state with the counter at zero: the waiting list is empty, no call
    of [feed] is about to push, and the only slot that can be non-empty is
    the slot of the last stage, between its decrement of the counter and
    its clearing of the slot. *)
Lemma counter_zero n (s : state) k fed :
  inv n s k fed ->
  Z.of_nat fed < 2 ^ 64 ->
  m_jobs_in_pipeline s = 0 ->
  m_waiting_list s = [] /\
  (forall f, In f (feeds s) -> f = Pushed) /\
  (forall j, slot_of s j <> None -> pc_of s j = Decremented /\ S j = n).
Proof.
  intros Hinv Hfed Hzero.
  destruct Hinv as [Hc Hw Hs Hexcl Harg Hwrote Hfirst Hmid Hlast [Hvis Hk] Hjobs].
  assert (k = 0%nat) as ->.
  { rewrite Hjobs in Hzero. rewrite size_t_wrap_small in Hzero by lia. lia. }
  unfold visible in Hvis. rewrite Hc in Hvis.
  assert (pending (feeds s) = 0%nat) as Hp by lia.
  assert (length (m_waiting_list s) = 0%nat) as Hl by lia.
  assert (sum_upto (live s) n = 0%nat) as Hsum by lia.
  assert (forall j, slot_of s j <> None ->
                    pc_of s j = Wrote \/ pc_of s j = Decremented) as Hstale.
  { intros j Hslot.
    destruct (decide (j < n)%nat) as [Hj|Hj];
      [|rewrite slot_of_beyond in Hslot by lia; congruence].
    pose proof (sum_upto_zero _ _ j Hsum Hj) as Hlive.
    unfold live in Hlive. destruct j as [|j]; [congruence|].
    simpl in Hlive. destruct (slot_of s (S j)); [|congruence].
    destruct (pc_of s (S j)); try discriminate; auto. }
  split; [destruct (m_waiting_list s); [reflexivity|discriminate]|].
  split; [intros f; apply pending_zero; assumption|].
  intros j Hslot. destruct (Hstale j Hslot) as [E|E].
  - exfalso.
    pose proof (Hwrote j E) as Hnext.
    assert (slot_of s (S j) <> None) as Hslot'
      by (destruct (slot_of s (S j)); [congruence|discriminate]).
    pose proof (Hexcl j) as Hfree. rewrite E in Hfree.
    specialize (Hfree eq_refl).
    destruct (Hstale (S j) Hslot') as [E'|E']; rewrite E' in Hfree;
      discriminate.
  - split; [assumption|]. apply Hlast. rewrite E. reflexivity.
Qed.

Lemma worker_step_jobs (s s' : state) i :
  worker_step process s i = Some s' ->
  m_jobs_in_pipeline s'
  = match pc_of s i with
    | Have _ =>
        if (i + 1 <? m_process_count s)%nat then m_jobs_in_pipeline s
        else size_t_wrap (m_jobs_in_pipeline s - 1)
    | _ => m_jobs_in_pipeline s
    end.
Proof.
  unfold worker_step, pc_of.
  destruct (workers s !! i) as [pc|]; [|discriminate].
  destruct pc; intros H;
    repeat match type of H with
           | (if ?c then _ else _) = Some _ => destruct c
           | match ?c with _ => _ end = Some _ => destruct c
           end;
    try discriminate; injection H as <-; reflexivity.
Qed.

Lemma feed_step_jobs (s s' : state) j :
  feed_step s j = Some s' -> m_jobs_in_pipeline s' = m_jobs_in_pipeline s.
Proof.
  unfold feed_step. destruct (feeds s !! j) as [[v|v|]|]; intros H;
    try discriminate; [destruct (wl_free s); [|discriminate]| |];
    injection H as <-; reflexivity.
Qed.

(** C4, amended.  For a pipeline of [n] stages, every state [s] reached
    from the initial state by steps of the threads, after fewer than 2^64
    calls of [feed]:
    - entering [feed] increments the counter, once, and the later steps
      of the call leave it unchanged;
    - a step of the thread of a stage changes the counter only when the
      last stage has processed an element, and then decrements it;
    - when [wait_end] leaves its loop the counter is zero, the waiting
      list is empty and every slot is empty except possibly the slot of
      the last stage, which that stage clears right after the decrement;
    - having left the loop, [wait_end] clears the continue flag and joins
      the threads: it returns only when all of them have ended. *)
Theorem wait_end_leaves_loop_at_zero (n : nat) (acts : list (action val))
  (s : state) :
  run process (init n) acts = Some s ->
  Z.of_nat (feed_calls acts) < 2 ^ 64 ->
  (forall v s', step process s (call_feed v) = Some s' ->
     m_jobs_in_pipeline s' = size_t_wrap (m_jobs_in_pipeline s + 1)) /\
  (forall j s', step process s (step_feed j) = Some s' ->
     m_jobs_in_pipeline s' = m_jobs_in_pipeline s) /\
  (forall i s', step process s (step_worker i) = Some s' ->
     m_jobs_in_pipeline s'
     = match pc_of s i with
       | Have _ =>
           if (i + 1 <? n)%nat then m_jobs_in_pipeline s
           else size_t_wrap (m_jobs_in_pipeline s - 1)
       | _ => m_jobs_in_pipeline s
       end) /\
  (forall s', step process s step_wait_end = Some s' ->
     waiter s = InLoop -> waiter s' = LeftLoop ->
     m_jobs_in_pipeline s = 0 /\
     m_waiting_list s = [] /\
     (forall j, (S j < n)%nat -> slot_of s j = None) /\
     (forall j, slot_of s j <> None -> pc_of s j = Decremented /\ S j = n)) /\
  (forall s', step process s step_wait_end = Some s' ->
     waiter s = LeftLoop -> m_continue s' = false /\ waiter s' = Joining) /\
  (forall s', step process s step_wait_end = Some s' ->
     waiter s' = Returned -> forallb ended (workers s) = true).
Proof.
  intros Hrun Hfed.
  destruct (run_inv n acts _ _ _ _ (init_inv n) Hrun) as [k Hinv].
  rewrite Nat.add_0_r in Hinv.
  split; [|split; [|split; [|split; [|split]]]].
  - intros v s' H. simpl in H. injection H as <-. reflexivity.
  - intros j s' H. apply feed_step_jobs with j. assumption.
  - intros i s' H. rewrite <- (inv_count _ _ _ _ Hinv).
    apply worker_step_jobs. assumption.
  - intros s' H Hloop Hleft. simpl in H. unfold wait_end_step in H.
    rewrite Hloop in H.
    destruct (m_jobs_in_pipeline s =? 0) eqn:Hz; injection H as <-;
      [|congruence].
    apply Z.eqb_eq in Hz.
    destruct (counter_zero n s k _ Hinv Hfed Hz) as (Hw & _ & Hslots).
    split; [assumption|]. split; [assumption|]. split; [|assumption].
    intros j Hj. destruct (slot_of s j) eqn:E; [|reflexivity].
    destruct (Hslots j) as [_ Hn]; [congruence|lia].
  - intros s' H Hleft. simpl in H. unfold wait_end_step in H.
    rewrite Hleft in H. injection H as <-. split; reflexivity.
  - intros s' H Hret. simpl in H. unfold wait_end_step in H.
    destruct (waiter s) eqn:Ew; try (injection H as <-; discriminate).
    + destruct (m_jobs_in_pipeline s =? 0); injection H as <-; try discriminate.
      congruence.
    + destruct (forallb ended (workers s)); [reflexivity|discriminate].
    + discriminate.
Qed.

End PipelineFacts.

(** A run of a pipeline of two identity stages: 7 is fed, stage 0 takes it
    from the waiting list, processes it and hands it over, stage 1
    processes it and decrements the counter; then [wait_end] is called. *)
Definition identity_process (_ : nat) (v : Z) : Z := v.

Definition handover_run : list (pipeline.action Z) :=
  let w0 := pipeline.step_worker 0 in
  let w1 := pipeline.step_worker 1 in
  [pipeline.call_feed 7; pipeline.step_feed 0; pipeline.step_feed 0;
   pipeline.step_feed 0;
   w0; w0; w0; w0; w0; w0; w0; w0; w0; w0;
   w1; w1; w1; w1; w1; w1;
   pipeline.step_wait_end].

Definition handover_state : pipeline.state Z :=
  {| pipeline.m_waiting_list := [];
     pipeline.m_passing_arguments := [None; Some 7];
     pipeline.m_continue := true;
     pipeline.m_jobs_in_pipeline := 0;
     pipeline.m_process_count := 2;
     pipeline.workers := [pipeline.Top; pipeline.Decremented];
     pipeline.feeds := [];
     pipeline.waiter := pipeline.InLoop |}.

Lemma handover_run_state :
  pipeline.run identity_process (pipeline.init 2) handover_run
  = Some handover_state.
Proof. vm_compute. reflexivity. Qed.

(** C4, the claim as stated fails: in the state [handover_run] reaches,
    the counter is zero and the first test of [wait_end] leaves the loop,
    while the slot of stage 1 still holds the element 7. *)
Lemma wait_end_leaves_loop_with_full_slot :
  match pipeline.run identity_process (pipeline.init 2)
          (handover_run ++ [pipeline.step_wait_end]) with
  | Some s =>
      Some (pipeline.waiter s, pipeline.m_jobs_in_pipeline s,
            pipeline.m_waiting_list s, pipeline.m_passing_arguments s)
  | None => None
  end
  = Some (pipeline.LeftLoop, 0, [], [None; Some 7]).
Proof. vm_compute. reflexivity. Qed.

(** The theorem at the state [handover_run] reaches. *)
Lemma wait_end_leaves_loop_at_zero_witness :
  pipeline.run identity_process (pipeline.init 2) handover_run
  = Some handover_state /\
  Z.of_nat (pipeline.feed_calls handover_run) < 2 ^ 64 /\
  (forall v s',
     pipeline.step identity_process handover_state (pipeline.call_feed v)
     = Some s' ->
     pipeline.m_jobs_in_pipeline s'
     = size_t_wrap (pipeline.m_jobs_in_pipeline handover_state + 1)) /\
  (forall j s',
     pipeline.step identity_process handover_state (pipeline.step_feed j)
     = Some s' ->
     pipeline.m_jobs_in_pipeline s'
     = pipeline.m_jobs_in_pipeline handover_state) /\
  (forall i s',
     pipeline.step identity_process handover_state (pipeline.step_worker i)
     = Some s' ->
     pipeline.m_jobs_in_pipeline s'
     = match pipeline.pc_of handover_state i with
       | pipeline.Have _ =>
           if (i + 1 <? 2)%nat
           then pipeline.m_jobs_in_pipeline handover_state
           else size_t_wrap (pipeline.m_jobs_in_pipeline handover_state - 1)
       | _ => pipeline.m_jobs_in_pipeline handover_state
       end) /\
  (forall s',
     pipeline.step identity_process handover_state pipeline.step_wait_end
     = Some s' ->
     pipeline.waiter handover_state = pipeline.InLoop ->
     pipeline.waiter s' = pipeline.LeftLoop ->
     pipeline.m_jobs_in_pipeline handover_state = 0 /\
     pipeline.m_waiting_list handover_state = [] /\
     (forall j, (S j < 2)%nat -> pipeline.slot_of handover_state j = None) /\
     (forall j, pipeline.slot_of handover_state j <> None ->
                pipeline.pc_of handover_state j = pipeline.Decremented /\
                S j = 2%nat)) /\
  (forall s',
     pipeline.step identity_process handover_state pipeline.step_wait_end
     = Some s' ->
     pipeline.waiter handover_state = pipeline.LeftLoop ->
     pipeline.m_continue s' = false /\
     pipeline.waiter s' = pipeline.Joining) /\
  (forall s',
     pipeline.step identity_process handover_state pipeline.step_wait_end
     = Some s' ->
     pipeline.waiter s' = pipeline.Returned ->
     forallb pipeline.ended (pipeline.workers handover_state) = true).
Proof.
  split; [exact handover_run_state|].
  split; [vm_compute; reflexivity|].
  apply (wait_end_leaves_loop_at_zero identity_process 2 handover_run
           handover_state).
  - exact handover_run_state.
  - vm_compute. reflexivity.
Defined.

(** ** Pipeline: elements that are lost *)

Section PipelineLoss.

Import pipeline.

Context {val : Type}.
Variable process : nat -> val -> val.

Local Abbreviation state := (pipeline.state val).

(** The elements the state shows, after a step of the thread of stage [i]
    from [pc] to [pc'] that writes no slot. *)
Lemma visible_step_pc n (s s' : state) i pc pc' :
  m_process_count s = n -> length (workers s) = n ->
  workers s !! i = Some pc ->
  workers s' = <[i := pc']> (workers s) ->
  m_passing_arguments s' = m_passing_arguments s ->
  m_process_count s' = m_process_count s ->
  (visible s' + live_at i pc (slot_of s i)
   + pending (feeds s) + length (m_waiting_list s)
   = visible s + live_at i pc' (slot_of s i)
     + pending (feeds s') + length (m_waiting_list s'))%nat.
Proof.
  intros Hc Hw Hpc Ew Es Ec.
  pose proof (lookup_worker_lt s i pc n Hw Hpc) as Hi.
  pose proof (pc_of_lookup s i pc Hpc) as Epc.
  assert (forall j, pc_of s' j = if decide (j = i) then pc' else pc_of s j)
    as Epc'.
  { intros j. apply pc_of_insert; [assumption|lia]. }
  assert (forall j, slot_of s' j = slot_of s j) as Eslot.
  { intros j. apply slot_of_same. assumption. }
  unfold visible. rewrite Ec, Hc.
  assert (sum_upto (live s') n + live s i = sum_upto (live s) n + live s' i)%nat
    as Hsum.
  { apply sum_upto_change1; [|assumption].
    intros j Hne. apply live_same; [|apply Eslot].
    rewrite Epc'. rewrite decide_False by assumption. reflexivity. }
  assert (live s i = live_at i pc (slot_of s i)) as E1
    by (unfold live; rewrite Epc; reflexivity).
  assert (live s' i = live_at i pc' (slot_of s i)) as E2.
  { unfold live. rewrite Epc', decide_True, Eslot by reflexivity.
    reflexivity. }
  rewrite E1, E2 in Hsum. lia.
Qed.

(** The write of the slot of the next stage shows no more elements than
    before: one less when the slot was full. *)
Lemma visible_write_next n (s : state) i r k fed :
  inv n s k fed ->
  workers s !! i = Some (LockedNext r) ->
  (visible (set_pc (set_slot s (i + 1) (Some r)) i Wrote) + live s (S i)
   = visible s)%nat.
Proof.
  intros [Hc Hw Hs Hexcl Harg Hwrote Hfirst Hmid Hlast Hvis Hjobs] Hpc.
  pose proof (lookup_worker_lt s i _ n Hw Hpc) as Hi.
  pose proof (pc_of_lookup s i _ Hpc) as Epc.
  assert (S i < n)%nat as Hsi by (apply Hmid; rewrite Epc; reflexivity).
  set (s' := set_pc (set_slot s (i + 1) (Some r)) i Wrote).
  assert (forall j, pc_of s' j = if decide (j = i) then Wrote else pc_of s j)
    as Epc'.
  { intros j. apply pc_of_insert; [reflexivity|lia]. }
  assert (forall j, slot_of s' j
                    = if decide (j = S i) then Some r else slot_of s j)
    as Eslot.
  { intros j. replace (S i) with (i + 1)%nat by lia.
    apply slot_of_insert; [reflexivity|lia]. }
  assert (holds_own (pc_of s (S i)) = false) as Hfree
    by (apply Hexcl; rewrite Epc; reflexivity).
  unfold visible. change (feeds s') with (feeds s).
  change (m_waiting_list s') with (m_waiting_list s).
  change (m_process_count s') with (m_process_count s). rewrite Hc.
  assert (sum_upto (live s') n + live s i + live s (S i)
          = sum_upto (live s) n + live s' i + live s' (S i))%nat as Hsum.
  { apply sum_upto_change2; [|assumption].
    intros j H1 H2. apply live_same.
    - rewrite Epc', decide_False by assumption. reflexivity.
    - rewrite Eslot, decide_False by assumption. reflexivity. }
  assert (live s' i = 0)%nat as E1.
  { unfold live. rewrite Epc', decide_True by reflexivity.
    destruct i; simpl; [reflexivity|]. destruct (slot_of s' (S i)); reflexivity. }
  assert (live s i = 1)%nat as E2.
  { unfold live. rewrite Epc. destruct i; simpl; [reflexivity|].
    specialize (Harg i). rewrite Epc in Harg. specialize (Harg eq_refl).
    destruct (slot_of s (S i)); [reflexivity|discriminate]. }
  assert (live s' (S i) = 1)%nat as E3.
  { unfold live. rewrite Epc', decide_False, Eslot, decide_True by lia.
    simpl. destruct (pc_of s (S i)); try reflexivity; discriminate. }
  lia.
Qed.

(** The clearing of the own slot shows the same elements. *)
Lemma visible_clear_own n (s : state) i pc pc' k fed :
  inv n s k fed ->
  workers s !! i = Some pc ->
  (pc = Wrote /\ pc' = Cleared) \/ (pc = Decremented /\ pc' = ClearedLast) ->
  visible (set_pc (set_slot s i None) i pc') = visible s.
Proof.
  intros [Hc Hw Hs Hexcl Harg Hwrote Hfirst Hmid Hlast Hvis Hjobs] Hpc Hcase.
  pose proof (lookup_worker_lt s i _ n Hw Hpc) as Hi.
  pose proof (pc_of_lookup s i _ Hpc) as Epc.
  set (s' := set_pc (set_slot s i None) i pc').
  assert (forall j, pc_of s' j = if decide (j = i) then pc' else pc_of s j)
    as Epc'.
  { intros j. apply pc_of_insert; [reflexivity|lia]. }
  assert (forall j, slot_of s' j = if decide (j = i) then None else slot_of s j)
    as Eslot.
  { intros j. apply slot_of_insert; [reflexivity|lia]. }
  unfold visible. change (feeds s') with (feeds s).
  change (m_waiting_list s') with (m_waiting_list s).
  change (m_process_count s') with (m_process_count s). rewrite Hc.
  assert (sum_upto (live s') n + live s i
          = sum_upto (live s) n + live s' i)%nat as Hsum.
  { apply sum_upto_change1; [|assumption].
    intros j H1. apply live_same.
    - rewrite Epc', decide_False by assumption. reflexivity.
    - rewrite Eslot, decide_False by assumption. reflexivity. }
  assert (live s' i = 0)%nat as E1.
  { unfold live. rewrite Epc', Eslot, !decide_True by reflexivity.
    destruct i; simpl; [|reflexivity].
    destruct Hcase as [[_ ->]|[_ ->]]; reflexivity. }
  assert (live s i = 0)%nat as E2.
  { unfold live. rewrite Epc.
    destruct Hcase as [[-> _]|[-> _]]; destruct i; simpl; try reflexivity;
      destruct (slot_of s (S i)); reflexivity. }
  lia.
Qed.

(** The elements the counter counts and the state does not show. *)
Definition lost (s : state) : Z :=
  m_jobs_in_pipeline s - Z.of_nat (visible s).

Lemma visible_client (s s' : state) :
  workers s' = workers s ->
  m_passing_arguments s' = m_passing_arguments s ->
  m_process_count s' = m_process_count s ->
  visible s'
  = (pending (feeds s') + length (m_waiting_list s')
     + sum_upto (live s) (m_process_count s))%nat.
Proof.
  intros Ew Es Ec. unfold visible. rewrite Ec. f_equal.
  apply sum_upto_ext. intros j _.
  apply live_same; [apply pc_of_same|apply slot_of_same]; assumption.
Qed.

Lemma jobs_exact n (s : state) k fed :
  inv n s k fed -> Z.of_nat fed < 2 ^ 64 ->
  m_jobs_in_pipeline s = Z.of_nat k /\ (visible s <= k <= fed)%nat.
Proof.
  intros Hinv Hfed. pose proof (inv_visible _ _ _ _ Hinv) as Hvis.
  split; [|assumption].
  rewrite (inv_jobs _ _ _ _ Hinv). apply size_t_wrap_small. lia.
Qed.

Lemma feed_calls_app (acts1 acts2 : list (action val)) :
  feed_calls (acts1 ++ acts2) = (feed_calls acts1 + feed_calls acts2)%nat.
Proof.
  induction acts1 as [|a acts1 IH]; [reflexivity|].
  destruct a; simpl; rewrite IH; reflexivity.
Qed.

(** *** A pipeline without stages *)

Lemma step_without_stage (s s' : state) a :
  workers s = [] ->
  step process s a = Some s' ->
  workers s' = [] /\
  m_jobs_in_pipeline s'
  = match a with
    | call_feed _ => size_t_wrap (m_jobs_in_pipeline s + 1)
    | _ => m_jobs_in_pipeline s
    end.
Proof.
  intros Hw Hstep. destruct a as [v|j|i| |]; simpl in Hstep.
  - injection Hstep as <-. split; [assumption|reflexivity].
  - rewrite (feed_step_jobs s s' j Hstep). split; [|reflexivity].
    unfold feed_step in Hstep.
    destruct (feeds s !! j) as [[v|v|]|]; try discriminate;
      [destruct (wl_free s); [|discriminate]| |];
      injection Hstep as <-; assumption.
  - unfold worker_step in Hstep. rewrite Hw in Hstep. discriminate.
  - unfold wait_end_step in Hstep.
    destruct (waiter s);
      repeat match type of Hstep with
             | (if ?c then _ else _) = Some _ => destruct c
             end;
      try discriminate; injection Hstep as <-; split; (assumption || reflexivity).
  - injection Hstep as <-. split; [assumption|reflexivity].
Qed.

Lemma run_without_stage acts :
  forall (s s' : state),
    workers s = [] ->
    run process s acts = Some s' ->
    0 <= m_jobs_in_pipeline s ->
    m_jobs_in_pipeline s + Z.of_nat (feed_calls acts) < 2 ^ 64 ->
    m_jobs_in_pipeline s' = m_jobs_in_pipeline s + Z.of_nat (feed_calls acts).
Proof.
  induction acts as [|a acts IH]; intros s s' Hw Hrun H0 Hlt; simpl in Hrun.
  - injection Hrun as <-. simpl. lia.
  - destruct (step process s a) as [s1|] eqn:Hstep; [|discriminate].
    destruct (step_without_stage s s1 a Hw Hstep) as [Hw1 Hj1].
    assert (feed_calls (a :: acts) = feed_calls [a] + feed_calls acts)%nat
      as Ecalls by (destruct a; simpl; lia).
    rewrite (IH s1 s' Hw1 Hrun).
    + rewrite Hj1, Ecalls. destruct a; simpl; try lia.
      rewrite size_t_wrap_small; simpl in Hlt; lia.
    + rewrite Hj1. destruct a; try assumption.
      apply size_t_wrap_range.
    + rewrite Hj1, Ecalls in *. destruct a; simpl in *; try lia.
      rewrite size_t_wrap_small; lia.
Qed.

(** X8.  On a pipeline to which no process was added, after fewer than
    2^64 calls of [feed]: the in-flight counter is the number of calls of
    [feed]; once an element was fed, a thread in the loop of [wait_end]
    stays in it. *)
Theorem feed_without_stage (acts : list (action val)) (s : state) :
  run process (init 0) acts = Some s ->
  Z.of_nat (feed_calls acts) < 2 ^ 64 ->
  m_jobs_in_pipeline s = Z.of_nat (feed_calls acts) /\
  ((0 < feed_calls acts)%nat -> waiter s = InLoop ->
   step process s step_wait_end = Some s).
Proof.
  intros Hrun Hfed.
  assert (m_jobs_in_pipeline s = Z.of_nat (feed_calls acts)) as Hjobs.
  { pose proof (run_without_stage acts (init 0) s eq_refl Hrun) as Hjobs.
    simpl in Hjobs. rewrite Hjobs; lia. }
  split; [assumption|].
  intros Hpos Hloop. simpl. unfold wait_end_step. rewrite Hloop, Hjobs.
  destruct (Z.eqb_spec (Z.of_nat (feed_calls acts)) 0); [lia|reflexivity].
Qed.

(** *** A stage that ends with the waiting list locked *)

Lemma step_exited (s s' : state) a wl :
  pc_of s 0 = Exited wl ->
  step process s a = Some s' ->
  pc_of s' 0 = Exited wl.
Proof.
  intros Hpc Hstep. destruct a as [v|j|i| |]; simpl in Hstep.
  - injection Hstep as <-. assumption.
  - unfold feed_step in Hstep.
    destruct (feeds s !! j) as [[v|v|]|]; try discriminate;
      [destruct (wl_free s); [|discriminate]| |];
      injection Hstep as <-; assumption.
  - unfold worker_step in Hstep.
    destruct (workers s !! i) as [pc|] eqn:Hi; [|discriminate].
    assert (i <> 0%nat) as Hne.
    { intros ->. unfold pc_of in Hpc. rewrite Hi in Hpc. subst pc.
      discriminate. }
    assert (forall (s1 : state) pc',
              workers s1 = <[i := pc']> (workers s) -> pc_of s1 0 = Exited wl)
      as Hkeep.
    { intros s1 pc' E. unfold pc_of in *. rewrite E.
      rewrite list_lookup_insert_ne by assumption. assumption. }
    destruct pc;
      repeat match type of Hstep with
             | (if ?c then _ else _) = Some _ => destruct c
             | match ?c with _ => _ end = Some _ => destruct c
             end;
      try discriminate; injection Hstep as <-; eapply Hkeep; reflexivity.
  - unfold wait_end_step in Hstep.
    destruct (waiter s);
      repeat match type of Hstep with
             | (if ?c then _ else _) = Some _ => destruct c
             end;
      try discriminate; injection Hstep as <-; assumption.
  - injection Hstep as <-. assumption.
Qed.

Lemma run_exited acts :
  forall (s s' : state) wl,
    pc_of s 0 = Exited wl ->
    run process s acts = Some s' ->
    pc_of s' 0 = Exited wl.
Proof.
  induction acts as [|a acts IH]; intros s s' wl Hpc Hrun; simpl in Hrun.
  - injection Hrun as <-. assumption.
  - destruct (step process s a) as [s1|] eqn:Hstep; [|discriminate].
    eapply IH; [|eassumption]. eapply step_exited; eassumption.
Qed.

(** *** The exact count of the lost elements *)

(** A step of the thread of a stage shows the same elements as before,
    except that the last stage counts one off and that the write of the
    slot of the next stage hides the element the slot held. *)
Lemma worker_step_visible_exact n (s s' : state) i pc k fed :
  inv n s k fed ->
  workers s !! i = Some pc ->
  worker_step process s i = Some s' ->
  (visible s'
   + match pc with
     | LockedNext _ => live s (S i)
     | Have _ => if (i + 1 <? m_process_count s)%nat then 0 else 1
     | _ => 0
     end
   = visible s)%nat.
Proof.
  intros Hinv Hpc Hstep. unfold worker_step in Hstep. rewrite Hpc in Hstep.
  assert (forall pc' (s1 : state),
            workers s1 = <[i := pc']> (workers s) ->
            m_passing_arguments s1 = m_passing_arguments s ->
            m_process_count s1 = m_process_count s ->
            (visible s1 + live_at i pc (slot_of s i)
             + pending (feeds s) + length (m_waiting_list s)
             = visible s + live_at i pc' (slot_of s i)
               + pending (feeds s1) + length (m_waiting_list s1))%nat) as Hgen.
  { intros pc' s1 Ew Es Ec.
    apply (visible_step_pc n);
      [exact (inv_count _ _ _ _ Hinv) | exact (inv_workers _ _ _ _ Hinv)
      | assumption..]. }
  assert (forall r, pc = Have r -> i <> 0%nat ->
                    is_some (slot_of s i) = true) as Harg.
  { intros r -> Hi. destruct i as [|i]; [congruence|].
    apply (inv_arg _ _ _ _ Hinv i).
    rewrite (pc_of_lookup s (S i) _ Hpc). reflexivity. }
  assert (forall r, pc = Run r -> i <> 0%nat ->
                    is_some (slot_of s i) = true) as Harg'.
  { intros r -> Hi. destruct i as [|i]; [congruence|].
    apply (inv_arg _ _ _ _ Hinv i).
    rewrite (pc_of_lookup s (S i) _ Hpc). reflexivity. }
  destruct pc;
    repeat match type of Hstep with
           | (if ?c then _ else _) = Some _ => destruct c eqn:?
           | match ?c with _ => _ end = Some _ => destruct c eqn:?
           end;
    try discriminate; injection Hstep as <-.
  all: try match goal with
           | |- (visible ?s1 + _ = _)%nat =>
               pose proof (Hgen _ s1 eq_refl eq_refl eq_refl) as E; simpl in E
           end.
  (* steps that write no slot *)
  all: try (clear Hgen;
            try match goal with
                | H : m_waiting_list _ = _ |- _ => rewrite H in *
                end;
            first [destruct i as [|i']|idtac];
            try match goal with
                | H : context [slot_of ?s0 ?j] |- _ =>
                    destruct (slot_of s0 j) eqn:?
                end;
            simpl in *; rewrite ?length_app in *; simpl in *;
            try (specialize (Harg _ eq_refl ltac:(discriminate));
                 discriminate);
            try (specialize (Harg' _ eq_refl ltac:(discriminate));
                 discriminate);
            lia).
  (* the write of the next slot and the clearing of the own slot *)
  - match type of Hpc with
    | _ = Some (LockedNext ?r) =>
        pose proof (visible_write_next n s i r k fed Hinv Hpc) as E
    end.
    exact E.
  - rewrite (visible_clear_own n s i Wrote Cleared k fed Hinv Hpc);
      [lia|left; split; reflexivity].
  - rewrite (visible_clear_own n s i Decremented ClearedLast k fed Hinv Hpc);
      [lia|right; split; reflexivity].
Qed.

(** The step is a write of the slot of the next stage while the slot holds
    an element. *)
Definition overwrites_slot (s : state) (a : action val) : bool :=
  match a with
  | step_worker i =>
      match workers s !! i with
      | Some (LockedNext _) => is_some (slot_of s (i + 1))
      | _ => false
      end
  | _ => false
  end.

(** The number of such writes in a run. *)
Fixpoint overwrites (s : state) (acts : list (action val)) : nat :=
  match acts with
  | [] => 0
  | a :: acts =>
      (if overwrites_slot s a then 1 else 0)
      + match step process s a with
        | Some s' => overwrites s' acts
        | None => 0
        end
  end.

Lemma live_next_slot n (s : state) i r k fed :
  inv n s k fed ->
  workers s !! i = Some (LockedNext r) ->
  live s (S i) = if is_some (slot_of s (i + 1)) then 1%nat else 0%nat.
Proof.
  intros Hinv Hpc. replace (i + 1)%nat with (S i) by lia.
  pose proof (inv_excl _ _ _ _ Hinv i) as Hexcl.
  rewrite (pc_of_lookup s i _ Hpc) in Hexcl. specialize (Hexcl eq_refl).
  unfold live, live_at. destruct (slot_of s (S i)); [|reflexivity].
  destruct (pc_of s (S i)); try reflexivity; discriminate.
Qed.

Local Ltac rewrite_visible_eq s0 :=
  match goal with
  | |- _ - Z.of_nat (visible ?s1) = _ =>
      rewrite (visible_client s0 s1) by reflexivity
  end.

(** A step loses an element exactly when it writes a slot that is not
    empty. *)
Lemma step_lost_exact n (s s' : state) a k fed :
  inv n s k fed ->
  step process s a = Some s' ->
  Z.of_nat (feed_calls [a] + fed) < 2 ^ 64 ->
  lost s' = lost s + (if overwrites_slot s a then 1 else 0).
Proof.
  intros Hinv Hstep Hfed.
  destruct (jobs_exact n s k fed Hinv ltac:(lia)) as [Hjobs [Hvis Hk]].
  unfold lost. destruct a as [v|j|i| |]; simpl in Hstep, Hfed;
    cbn [overwrites_slot].
  - injection Hstep as <-.
    rewrite_visible_eq s.
    cbn [feeds set_feeds set_jobs m_waiting_list m_jobs_in_pipeline].
    rewrite pending_app. simpl. unfold visible.
    rewrite Hjobs, size_t_wrap_small by lia. lia.
  - rewrite (feed_step_jobs s s' j Hstep).
    unfold feed_step in Hstep.
    destruct (feeds s !! j) as [[v|v|]|] eqn:Hf; [| | |discriminate].
    + destruct (wl_free s); [|discriminate]. injection Hstep as <-.
      rewrite_visible_eq s. simpl.
      pose proof (pending_insert _ _ _ (FeedLocked v) Hf) as E. simpl in E.
      unfold visible. lia.
    + injection Hstep as <-.
      rewrite_visible_eq s. simpl.
      rewrite length_app. simpl.
      pose proof (pending_insert _ _ _ Pushed Hf) as E. simpl in E.
      unfold visible. lia.
    + injection Hstep as <-.
      rewrite_visible_eq s. simpl.
      pose proof (pending_delete _ _ _ Hf) as E. simpl in E.
      unfold visible. lia.
  - destruct (workers s !! i) as [pc|] eqn:Hpc;
      [|unfold worker_step in Hstep; rewrite Hpc in Hstep; discriminate].
    pose proof (worker_step_visible_exact n s s' i pc k fed Hinv Hpc Hstep)
      as Hexact.
    pose proof (worker_step_jobs process s s' i Hstep) as Hj.
    rewrite (pc_of_lookup s i pc Hpc) in Hj.
    destruct pc; try (rewrite Hj; lia).
    + (* Have *)
      destruct (i + 1 <? m_process_count s)%nat; [rewrite Hj; lia|].
      rewrite Hj, Hjobs, size_t_wrap_small by lia. lia.
    + (* LockedNext *)
      match type of Hpc with
      | _ = Some (LockedNext ?r) =>
          rewrite (live_next_slot n s i r k fed Hinv Hpc) in Hexact
      end.
      rewrite Hj. destruct (is_some (slot_of s (i + 1))); lia.
  - unfold wait_end_step in Hstep.
    destruct (waiter s);
      repeat match type of Hstep with
             | (if ?c then _ else _) = Some _ => destruct c
             end;
      try discriminate; injection Hstep as <-; simpl;
      try rewrite_visible_eq s; unfold visible; simpl; lia.
  - injection Hstep as <-. rewrite_visible_eq s.
    unfold visible. simpl. lia.
Qed.

Lemma run_lost_exact n acts :
  forall (s s' : state) k fed,
    inv n s k fed ->
    run process s acts = Some s' ->
    Z.of_nat (feed_calls acts + fed) < 2 ^ 64 ->
    lost s' = lost s + Z.of_nat (overwrites s acts).
Proof.
  induction acts as [|a acts IH]; intros s s' k fed Hinv Hrun Hfed;
    simpl in Hrun.
  - injection Hrun as <-. simpl. lia.
  - destruct (step process s a) as [s1|] eqn:Hstep; [|discriminate].
    assert (feed_calls (a :: acts) = feed_calls [a] + feed_calls acts)%nat
      as Ecalls by (destruct a; simpl; lia).
    destruct (step_inv process n s s1 a k fed Hinv Hstep) as [k1 Hinv1].
    pose proof (step_lost_exact n s s1 a k fed Hinv Hstep ltac:(lia)) as H1.
    pose proof (IH s1 s' k1 _ Hinv1 Hrun ltac:(lia)) as H2.
    cbn [overwrites]. rewrite Hstep.
    destruct (overwrites_slot s a); lia.
Qed.


End PipelineLoss.

(** ** Pipeline: what the counter counts *)

Section PipelineAccounting.

Import pipeline.

Context {val : Type}.
Variable process : nat -> val -> val.

Local Abbreviation state := (pipeline.state val).













(** X7.  In a run of a pipeline of [n] stages with fewer than 2^64 calls
    of [feed]: once a stage has written the slot of the next stage while
    that slot held an element, the in-flight counter stays, in every later
    state, at least the number of these writes; it never returns to zero,
    and a thread in the loop of [wait_end] stays in it. *)
Theorem lost_element_blocks_wait_end (n : nat) (acts1 acts2 : list (action val))
  (s s' : state) :
  run process (init n) acts1 = Some s ->
  run process s acts2 = Some s' ->
  Z.of_nat (feed_calls acts1 + feed_calls acts2) < 2 ^ 64 ->
  (0 < overwrites process (init n) acts1)%nat ->
  Z.of_nat (overwrites process (init n) acts1) <= m_jobs_in_pipeline s' /\
  m_jobs_in_pipeline s' <> 0 /\
  (waiter s' = InLoop -> step process s' step_wait_end = Some s').
Proof.
  intros Hrun1 Hrun2 Hfed Hpos.
  destruct (run_inv process n acts1 _ _ _ _ (init_inv n) Hrun1) as [k Hinv].
  rewrite Nat.add_0_r in Hinv.
  pose proof (run_lost_exact process n acts1 (init n) s 0 0 (init_inv n) Hrun1
                ltac:(lia)) as Hlost1.
  pose proof (run_lost_exact process n acts2 s s' k _ Hinv Hrun2 ltac:(lia))
    as Hlost2.
  assert (lost (init n : state) = 0) as H0.
  { destruct (jobs_exact n (init n : state) 0 0 (init_inv n) ltac:(lia))
      as [Hj [Hv _]]. unfold lost. lia. }
  unfold lost in *.
  assert (Z.of_nat (overwrites process (init n) acts1)
          <= m_jobs_in_pipeline s') as Hle by lia.
  assert (m_jobs_in_pipeline s' <> 0) as Hne by lia.
  split; [exact Hle|]. split; [exact Hne|].
  intros Hloop. simpl. unfold wait_end_step. rewrite Hloop.
  apply Z.eqb_neq in Hne. rewrite Hne. reflexivity.
Qed.

(** *** The first stage ends with the waiting list locked *)

(** [m_waiting_list_access] is held by one thread at a time: while the
    thread of the first stage holds it, no call of [feed] does. *)
Definition wl_excl (s : state) : Prop :=
  holds_wl (pc_of s 0) = true ->
  Forall (fun f => feed_holds_wl f = false) (feeds s).

(** The thread of the first stage holds [m_waiting_list_access] after its
    predicate found an element in the waiting list: the list is not
    empty. *)
Definition wl_found (s : state) : Prop :=
  holds_wl (pc_of s 0) = true -> m_waiting_list s <> [].

Lemma wl_free_true (s : state) :
  wl_free s = true ->
  holds_wl (pc_of s 0) = false /\
  Forall (fun f => feed_holds_wl f = false) (feeds s).
Proof.
  unfold wl_free. intros H. apply andb_true_iff in H as [H1 H2].
  apply negb_true_iff in H1. split; [assumption|].
  apply List.Forall_forall. intros f Hf.
  rewrite forallb_forall in H2. apply negb_true_iff. apply H2. assumption.
Qed.

Lemma feed_holds_excluded (s : state) k f :
  wl_excl s -> feeds s !! k = Some f -> feed_holds_wl f = true ->
  holds_wl (pc_of s 0) = false.
Proof.
  intros Hexcl Hk Hf. destruct (holds_wl (pc_of s 0)) eqn:E; [|reflexivity].
  pose proof (proj1 (Forall_lookup _ _) (Hexcl E) k f Hk) as H.
  simpl in H. congruence.
Qed.

(** What a step of the thread of stage [i] changes besides its program
    point and the slots: the first stage takes the head of the waiting
    list when it leaves [Woken true] for [Run]. *)
Lemma worker_step_shape (s s' : state) i pc :
  workers s !! i = Some pc ->
  worker_step process s i = Some s' ->
  feeds s' = feeds s /\
  (exists pc', workers s' = <[i := pc']> (workers s) /\
     (holds_wl pc' = true ->
      holds_wl pc = true \/
      (i = 0%nat /\ wl_free s = true /\ m_waiting_list s <> []))) /\
  (m_waiting_list s' = m_waiting_list s \/
   (i = 0%nat /\ holds_wl (pc_of s' 0) = false)).
Proof.
  intros Hpc Hstep. unfold worker_step in Hstep. rewrite Hpc in Hstep.
  pose proof (lookup_lt_Some _ _ _ Hpc) as Hi.
  destruct pc;
    repeat match type of Hstep with
           | (if ?c then _ else _) = Some _ => destruct c eqn:?
           | match ?c with _ => _ end = Some _ => destruct c eqn:?
           end;
    try discriminate; injection Hstep as <-;
    (split; [reflexivity|]); split.
  all: try (eexists; split; [reflexivity|]; intros H;
            first [discriminate H
                  |left; exact H
                  |right; split; [reflexivity|]; split; [reflexivity|];
                   discriminate]).
  all: first [left; reflexivity
             |left; cbn [m_waiting_list set_pc]; assumption
             |right; split; [reflexivity|]; unfold pc_of;
              cbn [workers set_pc set_waiting_list];
              rewrite list_lookup_insert_eq by assumption; reflexivity].
Qed.

Lemma step_wl (s s' : state) a :
  wl_excl s -> wl_found s ->
  step process s a = Some s' ->
  wl_excl s' /\ wl_found s'.
Proof.
  intros Hexcl Hfound Hstep. destruct a as [v|k|i| |]; simpl in Hstep.
  - injection Hstep as <-. split.
    + intros H. cbn [feeds set_feeds set_jobs]. apply Forall_app.
      split; [exact (Hexcl H)|]. constructor; [reflexivity|constructor].
    + exact Hfound.
  - unfold feed_step in Hstep.
    destruct (feeds s !! k) as [[v|v|]|] eqn:Hk; [| | |discriminate].
    + destruct (wl_free s) eqn:Hfree; [|discriminate]. injection Hstep as <-.
      destruct (wl_free_true s Hfree) as [Hno _].
      split; intros H; change (holds_wl (pc_of s 0) = true) in H; congruence.
    + injection Hstep as <-.
      pose proof (feed_holds_excluded s k _ Hexcl Hk eq_refl) as Hno.
      split; intros H; change (holds_wl (pc_of s 0) = true) in H; congruence.
    + injection Hstep as <-.
      pose proof (feed_holds_excluded s k _ Hexcl Hk eq_refl) as Hno.
      split; intros H; change (holds_wl (pc_of s 0) = true) in H; congruence.
  - destruct (workers s !! i) as [pc|] eqn:Hpc;
      [|unfold worker_step in Hstep; rewrite Hpc in Hstep; discriminate].
    destruct (worker_step_shape s s' i pc Hpc Hstep)
      as (Hfeeds & (pc' & Hw & Hholds) & Hlist).
    pose proof (lookup_lt_Some _ _ _ Hpc) as Hi.
    pose proof (pc_of_insert s s' i pc' 0 Hw Hi) as Hpc0.
    assert (holds_wl (pc_of s' 0) = true ->
            (holds_wl (pc_of s 0) = true \/
             (wl_free s = true /\ m_waiting_list s <> []))) as Hcase.
    { rewrite Hpc0. destruct (decide (0%nat = i)) as [<-|Hne].
      - intros H. destruct (Hholds H) as [H'|(_ & H1 & H2)].
        + left. rewrite (pc_of_lookup s 0 pc Hpc). assumption.
        + right. split; assumption.
      - intros H. left. assumption. }
    split.
    + intros H. rewrite Hfeeds. destruct (Hcase H) as [H'|[H' _]].
      * exact (Hexcl H').
      * exact (proj2 (wl_free_true s H')).
    + intros H. destruct Hlist as [->|[_ Hno]]; [|congruence].
      destruct (Hcase H) as [H'|[_ H']]; [exact (Hfound H')|exact H'].
  - unfold wait_end_step in Hstep.
    destruct (waiter s);
      repeat match type of Hstep with
             | (if ?c then _ else _) = Some _ => destruct c
             end;
      try discriminate; injection Hstep as <-; split; assumption.
  - injection Hstep as <-. split; assumption.
Qed.

Lemma run_wl acts :
  forall (s s' : state),
    wl_excl s -> wl_found s ->
    run process s acts = Some s' ->
    wl_excl s' /\ wl_found s'.
Proof.
  induction acts as [|a acts IH]; intros s s' Hexcl Hfound Hrun; simpl in Hrun.
  - injection Hrun as <-. split; assumption.
  - destruct (step process s a) as [s1|] eqn:Hstep; [|discriminate].
    destruct (step_wl s s1 a Hexcl Hfound Hstep) as [H1 H2].
    exact (IH s1 s' H1 H2 Hrun).
Qed.

Lemma init_wl n : wl_excl (@init val n) /\ wl_found (@init val n).
Proof.
  assert (holds_wl (pc_of (@init val n) 0) = false) as H.
  { destruct (pc_of_init (val := val) n 0) as [E|E]; rewrite E; reflexivity. }
  split; intros H'; congruence.
Qed.

(** Once the thread of the first stage has returned with the mutex held,
    no step changes the waiting list. *)
Lemma step_frozen (s s' : state) a :
  pc_of s 0 = Exited true -> wl_excl s ->
  step process s a = Some s' ->
  m_waiting_list s' = m_waiting_list s.
Proof.
  intros Hpc Hexcl Hstep.
  assert (holds_wl (pc_of s 0) = true) as Hheld by (rewrite Hpc; reflexivity).
  destruct a as [v|k|i| |]; simpl in Hstep.
  - injection Hstep as <-. reflexivity.
  - unfold feed_step in Hstep.
    destruct (feeds s !! k) as [[v|v|]|] eqn:Hk; [| | |discriminate].
    + destruct (wl_free s) eqn:Hfree; [|discriminate].
      destruct (wl_free_true s Hfree) as [Hno _]. congruence.
    + pose proof (feed_holds_excluded s k _ Hexcl Hk eq_refl). congruence.
    + injection Hstep as <-. reflexivity.
  - destruct (workers s !! i) as [pc|] eqn:Hi;
      [|unfold worker_step in Hstep; rewrite Hi in Hstep; discriminate].
    destruct (worker_step_shape s s' i pc Hi Hstep)
      as (_ & _ & [Hlist|[-> _]]); [assumption|].
    unfold pc_of in Hpc. rewrite Hi in Hpc. subst pc.
    unfold worker_step in Hstep. rewrite Hi in Hstep. discriminate.
  - unfold wait_end_step in Hstep.
    destruct (waiter s);
      repeat match type of Hstep with
             | (if ?c then _ else _) = Some _ => destruct c
             end;
      try discriminate; injection Hstep as <-; reflexivity.
  - injection Hstep as <-. reflexivity.
Qed.

Lemma run_frozen acts :
  forall (s s' : state),
    pc_of s 0 = Exited true -> wl_excl s -> wl_found s ->
    run process s acts = Some s' ->
    m_waiting_list s' = m_waiting_list s.
Proof.
  induction acts as [|a acts IH]; intros s s' Hpc Hexcl Hfound Hrun;
    simpl in Hrun.
  - injection Hrun as <-. reflexivity.
  - destruct (step process s a) as [s1|] eqn:Hstep; [|discriminate].
    destruct (step_wl s s1 a Hexcl Hfound Hstep) as [H1 H2].
    rewrite (IH s1 s' (step_exited process s s1 a true Hpc Hstep) H1 H2 Hrun).
    exact (step_frozen s s1 a Hpc Hexcl Hstep).
Qed.

(** X9.  In a run of a pipeline with fewer than 2^64 calls of [feed], when
    the thread of the first stage has returned from [execute_process]
    through the test of [m_continue] that follows a wait whose predicate
    found an element and kept [m_waiting_list_access] locked: the waiting
    list is not empty and no later step changes it, so its elements are
    never processed; every call of [feed] in progress has incremented the
    counter and is blocked before it can push its element; the counter is
    never zero, and a thread in the loop of [wait_end] stays in it. *)
Theorem exit_with_waiting_list_locked (n : nat) (acts1 acts2 : list (action val))
  (s s' : state) :
  run process (init n) acts1 = Some s ->
  pc_of s 0 = Exited true ->
  run process s acts2 = Some s' ->
  Z.of_nat (feed_calls acts1 + feed_calls acts2) < 2 ^ 64 ->
  m_waiting_list s <> [] /\
  m_waiting_list s' = m_waiting_list s /\
  (forall j f, feeds s' !! j = Some f ->
     (exists v, f = Incremented v) /\
     step process s' (step_feed j) = None) /\
  m_jobs_in_pipeline s' <> 0 /\
  (waiter s' = InLoop -> step process s' step_wait_end = Some s').
Proof.
  intros Hrun1 Hpc Hrun2 Hfed.
  destruct (init_wl n) as [He0 Hf0].
  destruct (run_wl acts1 (init n) s He0 Hf0 Hrun1) as [Hexcl Hfound].
  destruct (run_wl acts2 s s' Hexcl Hfound Hrun2) as [Hexcl' Hfound'].
  pose proof (run_exited process acts2 s s' true Hpc Hrun2) as Hpc'.
  pose proof (run_frozen acts2 s s' Hpc Hexcl Hfound Hrun2) as Hlist.
  assert (holds_wl (pc_of s 0) = true) as Hheld by (rewrite Hpc; reflexivity).
  assert (holds_wl (pc_of s' 0) = true) as Hheld' by (rewrite Hpc'; reflexivity).
  assert (wl_free s' = false) as Hwl
    by (unfold wl_free; rewrite Hpc'; reflexivity).
  destruct (run_inv process n acts1 _ _ _ _ (init_inv n) Hrun1) as [k Hinv].
  rewrite Nat.add_0_r in Hinv.
  destruct (run_inv process n acts2 _ _ _ _ Hinv Hrun2) as [k' Hinv'].
  destruct (jobs_exact n s' k' _ Hinv' ltac:(lia)) as [Hjobs' [Hvis' Hk']].
  assert (m_jobs_in_pipeline s' <> 0) as Hne.
  { pose proof (Hfound' Hheld') as Hl. unfold visible in Hvis'.
    destruct (m_waiting_list s'); [congruence|]. simpl in Hvis'. lia. }
  split; [exact (Hfound Hheld)|]. split; [exact Hlist|].
  split; [|split; [exact Hne|]].
  - intros j f Hj.
    pose proof (proj1 (Forall_lookup _ _) (Hexcl' Hheld') j f Hj) as Hf.
    simpl in Hf. destruct f as [v|v|]; try discriminate Hf.
    split; [exists v; reflexivity|].
    simpl. unfold feed_step. rewrite Hj, Hwl. reflexivity.
  - intros Hloop. simpl. unfold wait_end_step. rewrite Hloop.
    apply Z.eqb_neq in Hne. rewrite Hne. reflexivity.
Qed.

End PipelineAccounting.

(** Two elements are fed to a pipeline of two stages and the first stage
    handles both before the thread of the second stage runs: the second
    result replaces the first in the slot of the second stage. *)
Definition overwrite_run : list (pipeline.action Z) :=
  [pipeline.call_feed 1; pipeline.step_feed 0; pipeline.step_feed 0;
   pipeline.step_feed 0;
   pipeline.call_feed 2; pipeline.step_feed 0; pipeline.step_feed 0;
   pipeline.step_feed 0]
  ++ repeat (pipeline.step_worker 0) 17.

Definition overwrite_state : pipeline.state Z :=
  {| pipeline.m_waiting_list := [];
     pipeline.m_passing_arguments := [None; Some 2];
     pipeline.m_continue := true;
     pipeline.m_jobs_in_pipeline := 2;
     pipeline.m_process_count := 2;
     pipeline.workers := [pipeline.Wrote; pipeline.Top];
     pipeline.feeds := [];
     pipeline.waiter := pipeline.NotCalled |}.

(** The first stage finishes its turn, the second stage processes the
    element that is left and counts it off, and [wait_end] is entered. *)
Definition drain_run : list (pipeline.action Z) :=
  repeat (pipeline.step_worker 0) 3 ++ repeat (pipeline.step_worker 1) 9
  ++ [pipeline.step_wait_end; pipeline.step_wait_end].

Definition drained_state : pipeline.state Z :=
  {| pipeline.m_waiting_list := [];
     pipeline.m_passing_arguments := [None; None];
     pipeline.m_continue := true;
     pipeline.m_jobs_in_pipeline := 1;
     pipeline.m_process_count := 2;
     pipeline.workers := [pipeline.Top; pipeline.Top];
     pipeline.feeds := [];
     pipeline.waiter := pipeline.InLoop |}.

(** X7 at that run: the pipeline is empty, the counter is 1 and [wait_end]
    stays in its loop. *)
Lemma lost_element_blocks_wait_end_witness :
  pipeline.run identity_process (pipeline.init 2) overwrite_run
  = Some overwrite_state /\
  pipeline.run identity_process overwrite_state drain_run
  = Some drained_state /\
  Z.of_nat (pipeline.feed_calls overwrite_run + pipeline.feed_calls drain_run)
  < 2 ^ 64 /\
  overwrites identity_process (pipeline.init 2) overwrite_run = 1%nat /\
  Z.of_nat (overwrites identity_process (pipeline.init 2) overwrite_run)
  <= pipeline.m_jobs_in_pipeline drained_state /\
  pipeline.m_jobs_in_pipeline drained_state <> 0 /\
  (pipeline.waiter drained_state = pipeline.InLoop ->
   pipeline.step identity_process drained_state pipeline.step_wait_end
   = Some drained_state).
Proof.
  split; [vm_compute; reflexivity|].
  split; [vm_compute; reflexivity|].
  split; [vm_compute; reflexivity|].
  split; [vm_compute; reflexivity|].
  apply (lost_element_blocks_wait_end identity_process 2 overwrite_run
           drain_run overwrite_state drained_state).
  - vm_compute. reflexivity.
  - vm_compute. reflexivity.
  - vm_compute. reflexivity.
  - vm_compute. lia.
Defined.

(** A pipeline without stages: [wait_end] is entered, then one element is
    fed. *)
Definition no_stage_run : list (pipeline.action Z) :=
  [pipeline.step_wait_end; pipeline.call_feed 8; pipeline.step_feed 0;
   pipeline.step_feed 0; pipeline.step_feed 0].

Definition no_stage_state : pipeline.state Z :=
  {| pipeline.m_waiting_list := [8];
     pipeline.m_passing_arguments := [];
     pipeline.m_continue := true;
     pipeline.m_jobs_in_pipeline := 1;
     pipeline.m_process_count := 0;
     pipeline.workers := [];
     pipeline.feeds := [];
     pipeline.waiter := pipeline.InLoop |}.

Lemma feed_without_stage_witness :
  pipeline.run identity_process (pipeline.init 0) no_stage_run
  = Some no_stage_state /\
  Z.of_nat (pipeline.feed_calls no_stage_run) < 2 ^ 64 /\
  pipeline.m_jobs_in_pipeline no_stage_state
  = Z.of_nat (pipeline.feed_calls no_stage_run) /\
  ((0 < pipeline.feed_calls no_stage_run)%nat ->
   pipeline.waiter no_stage_state = pipeline.InLoop ->
   pipeline.step identity_process no_stage_state pipeline.step_wait_end
   = Some no_stage_state).
Proof.
  split; [vm_compute; reflexivity|].
  split; [vm_compute; reflexivity|].
  apply (feed_without_stage identity_process no_stage_run no_stage_state).
  - vm_compute. reflexivity.
  - vm_compute. reflexivity.
Defined.

(** One stage: an element is fed, the predicate of the stage finds it and
    keeps the waiting list locked, [stop] clears [m_continue], the stage
    returns.  Then [feed] is called again and [wait_end] is entered. *)
Definition stop_run : list (pipeline.action Z) :=
  [pipeline.call_feed 7; pipeline.step_feed 0; pipeline.step_feed 0;
   pipeline.step_feed 0;
   pipeline.step_worker 0; pipeline.step_worker 0; pipeline.step_worker 0;
   pipeline.call_stop; pipeline.step_worker 0].

Definition stopped_state : pipeline.state Z :=
  {| pipeline.m_waiting_list := [7];
     pipeline.m_passing_arguments := [None];
     pipeline.m_continue := false;
     pipeline.m_jobs_in_pipeline := 1;
     pipeline.m_process_count := 1;
     pipeline.workers := [pipeline.Exited true];
     pipeline.feeds := [];
     pipeline.waiter := pipeline.NotCalled |}.

Definition stopped_fed_state : pipeline.state Z :=
  {| pipeline.m_waiting_list := [7];
     pipeline.m_passing_arguments := [None];
     pipeline.m_continue := false;
     pipeline.m_jobs_in_pipeline := 2;
     pipeline.m_process_count := 1;
     pipeline.workers := [pipeline.Exited true];
     pipeline.feeds := [pipeline.Incremented 8];
     pipeline.waiter := pipeline.InLoop |}.

Lemma exit_with_waiting_list_locked_witness :
  pipeline.run identity_process (pipeline.init 1) stop_run
  = Some stopped_state /\
  pipeline.pc_of stopped_state 0 = pipeline.Exited true /\
  pipeline.run identity_process stopped_state
    [pipeline.call_feed 8; pipeline.step_wait_end]
  = Some stopped_fed_state /\
  pipeline.m_waiting_list stopped_state <> [] /\
  pipeline.m_waiting_list stopped_fed_state
  = pipeline.m_waiting_list stopped_state /\
  (forall j f,
     pipeline.feeds stopped_fed_state !! j = Some f ->
     (exists v, f = pipeline.Incremented v) /\
     pipeline.step identity_process stopped_fed_state (pipeline.step_feed j)
     = None) /\
  pipeline.m_jobs_in_pipeline stopped_fed_state <> 0 /\
  (pipeline.waiter stopped_fed_state = pipeline.InLoop ->
   pipeline.step identity_process stopped_fed_state pipeline.step_wait_end
   = Some stopped_fed_state).
Proof.
  split; [vm_compute; reflexivity|].
  split; [vm_compute; reflexivity|].
  split; [vm_compute; reflexivity|].
  apply (exit_with_waiting_list_locked identity_process 1 stop_run
           [pipeline.call_feed 8; pipeline.step_wait_end]
           stopped_state stopped_fed_state).
  - vm_compute. reflexivity.
  - vm_compute. reflexivity.
  - vm_compute. reflexivity.
  - vm_compute. reflexivity.
Defined.




(** ** The ordered map: insertion and lookup *)

Section MapInsert.

Import map.
Local Open Scope st_scope.

(** *** Single steps on the store *)

Definition upd (s : map_t) (a : nat) (n : node_t) : map_t :=
  {| store := <[a := n]> (store s); next_addr := next_addr s;
     m_less_operator := m_less_operator s;
     m_size := m_size s; m_root := m_root s |}.

Definition with_left (n : node_t) (q : ptr) : node_t :=
  {| left_node := q; right_node := right_node n;
     parent := parent n; content := content n |}.
Definition with_right (n : node_t) (q : ptr) : node_t :=
  {| left_node := left_node n; right_node := q;
     parent := parent n; content := content n |}.
Definition with_parent (n : node_t) (q : ptr) : node_t :=
  {| left_node := left_node n; right_node := right_node n;
     parent := q; content := content n |}.

Lemma bind_ok {A B} (m : M A) (k : A -> M B) (s s' : map_t) (a : A) :
  m s = Ok a s' -> bind m k s = k a s'.
Proof. intros H. unfold bind. rewrite H. reflexivity. Qed.

Lemma bind_assoc {A B C} (m : M A) (k1 : A -> M B) (k2 : B -> M C) (s : map_t) :
  bind (bind m k1) k2 s = bind m (fun x => bind (k1 x) k2) s.
Proof. unfold bind. destruct (m s); reflexivity. Qed.

Lemma load_ok (s : map_t) (a : nat) (n : node_t) :
  store s !! a = Some n -> load (Some a) s = Ok n s.
Proof. intros H. unfold load. rewrite H. reflexivity. Qed.

Lemma get_left_ok (s : map_t) (a : nat) (n : node_t) :
  store s !! a = Some n -> get_left (Some a) s = Ok (left_node n) s.
Proof. intros H. unfold get_left. rewrite (bind_ok _ _ _ _ _ (load_ok s a n H)). reflexivity. Qed.

Lemma get_right_ok (s : map_t) (a : nat) (n : node_t) :
  store s !! a = Some n -> get_right (Some a) s = Ok (right_node n) s.
Proof. intros H. unfold get_right. rewrite (bind_ok _ _ _ _ _ (load_ok s a n H)). reflexivity. Qed.

Lemma get_parent_ok (s : map_t) (a : nat) (n : node_t) :
  store s !! a = Some n -> get_parent (Some a) s = Ok (parent n) s.
Proof. intros H. unfold get_parent. rewrite (bind_ok _ _ _ _ _ (load_ok s a n H)). reflexivity. Qed.

Lemma get_key_ok (s : map_t) (a : nat) (n : node_t) :
  store s !! a = Some n -> get_key (Some a) s = Ok (fst (content n)) s.
Proof. intros H. unfold get_key. rewrite (bind_ok _ _ _ _ _ (load_ok s a n H)). reflexivity. Qed.

Lemma set_left_ok (s : map_t) (a : nat) (n : node_t) (q : ptr) :
  store s !! a = Some n -> set_left (Some a) q s = Ok tt (upd s a (with_left n q)).
Proof.
  intros H. unfold set_left. rewrite (bind_ok _ _ _ _ _ (load_ok s a n H)).
  unfold write. rewrite H. reflexivity.
Qed.

Lemma set_right_ok (s : map_t) (a : nat) (n : node_t) (q : ptr) :
  store s !! a = Some n -> set_right (Some a) q s = Ok tt (upd s a (with_right n q)).
Proof.
  intros H. unfold set_right. rewrite (bind_ok _ _ _ _ _ (load_ok s a n H)).
  unfold write. rewrite H. reflexivity.
Qed.

Lemma set_parent_ok (s : map_t) (a : nat) (n : node_t) (q : ptr) :
  store s !! a = Some n -> set_parent (Some a) q s = Ok tt (upd s a (with_parent n q)).
Proof.
  intros H. unfold set_parent. rewrite (bind_ok _ _ _ _ _ (load_ok s a n H)).
  unfold write. rewrite H. reflexivity.
Qed.

Lemma store_upd_eq (s : map_t) (a : nat) (n : node_t) :
  store (upd s a n) !! a = Some n.
Proof. apply lookup_insert_eq. Qed.

Lemma store_upd_ne (s : map_t) (a b : nat) (n : node_t) :
  a <> b -> store (upd s a n) !! b = store s !! b.
Proof. apply lookup_insert_ne. Qed.

Definition set_root_to (s : map_t) (p : ptr) : map_t :=
  {| store := store s; next_addr := next_addr s;
     m_less_operator := m_less_operator s;
     m_size := m_size s; m_root := p |}.

Lemma set_root_ok (s : map_t) (p : ptr) :
  set_root p s = Ok tt (set_root_to s p).
Proof. reflexivity. Qed.

Lemma store_set_root (s : map_t) (p : ptr) :
  store (set_root_to s p) = store s.
Proof. reflexivity. Qed.

Definition alloc (s : map_t) (key item : Z) (par : ptr) : map_t :=
  {| store := <[next_addr s := {| left_node := None; right_node := None;
                                  parent := par; content := (key, item) |}]>
                (store s);
     next_addr := S (next_addr s);
     m_less_operator := m_less_operator s;
     m_size := m_size s; m_root := m_root s |}.

Definition with_size (s : map_t) (z : Z) : map_t :=
  {| store := store s; next_addr := next_addr s;
     m_less_operator := m_less_operator s;
     m_size := z; m_root := m_root s |}.

Lemma new_node_ok (s : map_t) (key item : Z) (par : ptr) :
  new_node key item par s = Ok (Some (next_addr s)) (alloc s key item par).
Proof. reflexivity. Qed.

Lemma incr_size_ok (s : map_t) :
  incr_size s = Ok tt (with_size s (size_t_wrap (m_size s + 1))).
Proof. reflexivity. Qed.

Lemma store_alloc_eq (s : map_t) (key item : Z) (par : ptr) :
  store (alloc s key item par) !! next_addr s
  = Some {| left_node := None; right_node := None;
            parent := par; content := (key, item) |}.
Proof. apply lookup_insert_eq. Qed.

Lemma store_alloc_ne (s : map_t) (key item : Z) (par : ptr) (x : nat) :
  x <> next_addr s -> store (alloc s key item par) !! x = store s !! x.
Proof. intros H. apply lookup_insert_ne. congruence. Qed.

(** Solves [store s' !! x = Some _] goals over stacks of updates. *)
Ltac lookup_store :=
  repeat first
    [ eassumption
    | apply store_upd_eq
    | rewrite store_upd_ne by congruence
    | rewrite store_set_root
    | rewrite store_alloc_ne by lia
    | apply store_alloc_eq ].

Ltac run_step lem :=
  erewrite bind_ok; [|apply lem; lookup_store]; cbv beta.

(** What a rotation at [a] leaves in the node of the parent of [a]. *)
Definition redirect (np : node_t) (a : nat) (q : ptr) : node_t :=
  if ptr_eqb (left_node np) (Some a) then with_left np q else with_right np q.

Ltac store_eq :=
  repeat first [rewrite store_upd_eq | rewrite store_upd_ne by congruence
               | rewrite store_set_root];
  unfold with_parent, with_left, with_right;
  cbn [left_node right_node parent content];
  try congruence.

Ltac finish_rotate :=
  erewrite set_parent_ok by lookup_store;
  eexists; split; [reflexivity|];
  cbn [next_addr m_less_operator m_size m_root upd set_root_to];
  repeat split;
  intros;
  repeat match goal with
         | H : Some _ = Some _ |- _ => injection H as <-
         | H : None = Some _ |- _ => discriminate H
         | H1 : ?o = Some ?x, H2 : ?o = Some ?y |- _ =>
             rewrite H1 in H2; injection H2 as <-
         end;
  unfold redirect;
  repeat match goal with
         | H : ptr_eqb _ _ = _ |- _ => rewrite H
         end;
  store_eq.

(** *** Rotations on the store *)

Lemma left_rotate_store (s : map_t) (a b : nat) (na nb : node_t) :
  store s !! a = Some na ->
  right_node na = Some b ->
  store s !! b = Some nb ->
  a <> b ->
  (forall c, left_node nb = Some c ->
             c <> a /\ c <> b /\ is_Some (store s !! c)) ->
  (forall p, parent na = Some p ->
             p <> a /\ p <> b /\ left_node nb <> Some p /\
             is_Some (store s !! p)) ->
  exists s',
    left_rotate (Some a) s = Ok tt s' /\
    next_addr s' = next_addr s /\
    m_less_operator s' = m_less_operator s /\
    m_size s' = m_size s /\
    m_root s' = (if is_null (parent na) then Some b else m_root s) /\
    store s' !! a = Some {| left_node := left_node na;
                            right_node := left_node nb;
                            parent := Some b; content := content na |} /\
    store s' !! b = Some {| left_node := Some a;
                            right_node := right_node nb;
                            parent := parent na; content := content nb |} /\
    (forall c nc, left_node nb = Some c -> store s !! c = Some nc ->
                  store s' !! c = Some (with_parent nc (Some a))) /\
    (forall p np, parent na = Some p -> store s !! p = Some np ->
                  store s' !! p = Some (redirect np a (Some b))) /\
    (forall x, x <> a -> x <> b -> left_node nb <> Some x ->
               parent na <> Some x -> store s' !! x = store s !! x).
Proof.
  intros Ha Hr Hb Hab Hc Hp.
  unfold left_rotate. cbn [is_null].
  run_step get_right_ok. rewrite Hr. cbn [is_null].
  run_step get_left_ok.
  run_step set_right_ok.
  run_step get_right_ok. cbn [with_right right_node].
  destruct (left_node nb) as [c|] eqn:Hbl.
  - destruct (Hc c eq_refl) as (Hca & Hcb & [nc Hnc]).
    cbn [is_null negb when].
    run_step set_parent_ok.
    run_step set_left_ok.
    run_step get_parent_ok. cbn [with_right parent].
    destruct (parent na) as [p|] eqn:Hpar.
    + destruct (Hp p eq_refl) as (Hpa & Hpb & Hpc & [np Hnp]).
      assert (p <> c) as Hpc' by congruence.
      cbn [is_null negb]. rewrite bind_assoc.
      run_step get_left_ok.
      destruct (ptr_eqb (left_node np) (Some a)) eqn:Heq.
      * run_step set_left_ok. run_step set_parent_ok. finish_rotate.
      * run_step set_right_ok. run_step set_parent_ok. finish_rotate.
    + cbn [is_null negb].
      erewrite bind_ok; [|apply set_root_ok]. cbv beta.
      run_step set_parent_ok. finish_rotate.
  - cbn [is_null negb when]. unfold ret at 1.
    erewrite bind_ok; [|reflexivity]. cbv beta.
    run_step set_left_ok.
    run_step get_parent_ok. cbn [with_right parent].
    destruct (parent na) as [p|] eqn:Hpar.
    + destruct (Hp p eq_refl) as (Hpa & Hpb & Hpc & [np Hnp]).
      cbn [is_null negb]. rewrite bind_assoc.
      run_step get_left_ok.
      destruct (ptr_eqb (left_node np) (Some a)) eqn:Heq.
      * run_step set_left_ok. run_step set_parent_ok. finish_rotate.
      * run_step set_right_ok. run_step set_parent_ok. finish_rotate.
    + cbn [is_null negb].
      erewrite bind_ok; [|apply set_root_ok]. cbv beta.
      run_step set_parent_ok. finish_rotate.
Qed.

Lemma right_rotate_store (s : map_t) (a b : nat) (na nb : node_t) :
  store s !! a = Some na ->
  left_node na = Some b ->
  store s !! b = Some nb ->
  a <> b ->
  (forall c, right_node nb = Some c ->
             c <> a /\ c <> b /\ is_Some (store s !! c)) ->
  (forall p, parent na = Some p ->
             p <> a /\ p <> b /\ right_node nb <> Some p /\
             is_Some (store s !! p)) ->
  exists s',
    right_rotate (Some a) s = Ok tt s' /\
    next_addr s' = next_addr s /\
    m_less_operator s' = m_less_operator s /\
    m_size s' = m_size s /\
    m_root s' = (if is_null (parent na) then Some b else m_root s) /\
    store s' !! a = Some {| left_node := right_node nb;
                            right_node := right_node na;
                            parent := Some b; content := content na |} /\
    store s' !! b = Some {| left_node := left_node nb;
                            right_node := Some a;
                            parent := parent na; content := content nb |} /\
    (forall c nc, right_node nb = Some c -> store s !! c = Some nc ->
                  store s' !! c = Some (with_parent nc (Some a))) /\
    (forall p np, parent na = Some p -> store s !! p = Some np ->
                  store s' !! p = Some (redirect np a (Some b))) /\
    (forall x, x <> a -> x <> b -> right_node nb <> Some x ->
               parent na <> Some x -> store s' !! x = store s !! x).
Proof.
  intros Ha Hl Hb Hab Hc Hp.
  unfold right_rotate. cbn [is_null].
  run_step get_left_ok. rewrite Hl. cbn [is_null].
  run_step get_right_ok.
  run_step set_left_ok.
  run_step get_left_ok. cbn [with_left left_node].
  destruct (right_node nb) as [c|] eqn:Hbr.
  - destruct (Hc c eq_refl) as (Hca & Hcb & [nc Hnc]).
    cbn [is_null negb when].
    run_step set_parent_ok.
    run_step set_right_ok.
    run_step get_parent_ok. cbn [with_left parent].
    destruct (parent na) as [p|] eqn:Hpar.
    + destruct (Hp p eq_refl) as (Hpa & Hpb & Hpc & [np Hnp]).
      assert (p <> c) as Hpc' by congruence.
      cbn [is_null negb]. rewrite bind_assoc.
      run_step get_left_ok.
      destruct (ptr_eqb (left_node np) (Some a)) eqn:Heq.
      * run_step set_left_ok. run_step set_parent_ok. finish_rotate.
      * run_step set_right_ok. run_step set_parent_ok. finish_rotate.
    + cbn [is_null negb].
      erewrite bind_ok; [|apply set_root_ok]. cbv beta.
      run_step set_parent_ok. finish_rotate.
  - cbn [is_null negb when]. unfold ret at 1.
    erewrite bind_ok; [|reflexivity]. cbv beta.
    run_step set_right_ok.
    run_step get_parent_ok. cbn [with_left parent].
    destruct (parent na) as [p|] eqn:Hpar.
    + destruct (Hp p eq_refl) as (Hpa & Hpb & Hpc & [np Hnp]).
      cbn [is_null negb]. rewrite bind_assoc.
      run_step get_left_ok.
      destruct (ptr_eqb (left_node np) (Some a)) eqn:Heq.
      * run_step set_left_ok. run_step set_parent_ok. finish_rotate.
      * run_step set_right_ok. run_step set_parent_ok. finish_rotate.
    + cbn [is_null negb].
      erewrite bind_ok; [|apply set_root_ok]. cbv beta.
      run_step set_parent_ok. finish_rotate.
Qed.

(** *** The tree a store represents *)

(** A binary tree whose nodes carry their address in the store. *)
Inductive tree : Type :=
| E
| T (a : nat) (l : tree) (k v : Z) (r : tree).

Definition root_ptr (t : tree) : ptr :=
  match t with E => None | T a _ _ _ _ => Some a end.

Fixpoint addrs (t : tree) : list nat :=
  match t with
  | E => []
  | T a l _ _ r => a :: addrs l ++ addrs r
  end.

Fixpoint elems (t : tree) : list (Z * Z) :=
  match t with
  | E => []
  | T _ l k v r => elems l ++ (k, v) :: elems r
  end.

Definition keys (t : tree) : list Z := List.map fst (elems t).

Definition tsize (t : tree) : nat := length (addrs t).

(** [repr h par t]: the nodes of [t] are in the store [h] with the links
    of [t], the root of [t] having parent [par]. *)
Fixpoint repr (h : gmap nat node_t) (par : ptr) (t : tree) : Prop :=
  match t with
  | E => True
  | T a l k v r =>
      h !! a = Some {| left_node := root_ptr l; right_node := root_ptr r;
                       parent := par; content := (k, v) |} /\
      repr h (Some a) l /\ repr h (Some a) r
  end.

(** The order of a search tree, for [m_less_operator = less]. *)
Fixpoint bst (t : tree) : Prop :=
  match t with
  | E => True
  | T _ l k _ r =>
      bst l /\ bst r /\
      (forall x, In x (keys l) -> x < k) /\
      (forall x, In x (keys r) -> k < x)
  end.

(** The descent of [search] on the tree. *)
Fixpoint tfind (t : tree) (key : Z) : ptr :=
  match t with
  | E => None
  | T a l k _ r =>
      if k =? key then Some a
      else if key <? k then tfind l key else tfind r key
  end.

Fixpoint tlookup (t : tree) (key : Z) : option Z :=
  match t with
  | E => None
  | T _ l k v r =>
      if k =? key then Some v
      else if key <? k then tlookup l key else tlookup r key
  end.

Definition rotl (t : tree) : tree :=
  match t with
  | T a l k v (T b rl rk rv rr) => T b (T a l k v rl) rk rv rr
  | _ => t
  end.

Definition rotr (t : tree) : tree :=
  match t with
  | T a (T b ll lk lv lr) k v r => T b ll lk lv (T a lr k v r)
  | _ => t
  end.

Lemma tsize_node a l k v r : tsize (T a l k v r) = S (tsize l + tsize r).
Proof. unfold tsize. simpl. rewrite length_app. reflexivity. Qed.

Lemma keys_node a l k v r : keys (T a l k v r) = keys l ++ k :: keys r.
Proof. unfold keys. simpl. rewrite List.map_app. reflexivity. Qed.

Lemma keys_length t : length (keys t) = tsize t.
Proof.
  induction t as [|a l IHl k v r IHr]; [reflexivity|].
  rewrite keys_node, tsize_node, length_app. simpl. lia.
Qed.

Lemma In_keys t x : In x (keys t) <-> exists v, In (x, v) (elems t).
Proof.
  unfold keys. rewrite in_map_iff. split.
  - intros ([k v] & <- & H). exists v. exact H.
  - intros [v H]. exists (x, v). split; [reflexivity|exact H].
Qed.

Lemma repr_frame (h h' : gmap nat node_t) (t : tree) :
  forall par,
    repr h par t ->
    (forall x, In x (addrs t) -> h' !! x = h !! x) ->
    repr h' par t.
Proof.
  induction t as [|a l IHl k v r IHr]; intros par Hrep Hsame; [exact I|].
  destruct Hrep as (Ha & Hl & Hr). simpl. split; [|split].
  - rewrite Hsame by (simpl; tauto). exact Ha.
  - apply IHl; [exact Hl|]. intros x Hx. apply Hsame. simpl.
    right. apply in_or_app. tauto.
  - apply IHr; [exact Hr|]. intros x Hx. apply Hsame. simpl.
    right. apply in_or_app. tauto.
Qed.

Lemma repr_reparent (h h' : gmap nat node_t) (par q : ptr) (t : tree) :
  repr h par t ->
  List.NoDup (addrs t) ->
  (forall a n, root_ptr t = Some a -> h !! a = Some n ->
               h' !! a = Some (with_parent n q)) ->
  (forall x, In x (addrs t) -> root_ptr t <> Some x -> h' !! x = h !! x) ->
  repr h' q t.
Proof.
  destruct t as [|a l k v r]; intros Hrep Hnd Hroot Hsame; [exact I|].
  destruct Hrep as (Ha & Hl & Hr). simpl in *.
  inversion Hnd as [|? ? Hnotin Hnd']; subst.
  split; [|split].
  - rewrite (Hroot a _ eq_refl Ha). reflexivity.
  - apply (repr_frame h); [exact Hl|]. intros x Hx. apply Hsame.
    + right. apply in_or_app. tauto.
    + intros E'. injection E' as ->. apply Hnotin, in_or_app. tauto.
  - apply (repr_frame h); [exact Hr|]. intros x Hx. apply Hsame.
    + right. apply in_or_app. tauto.
    + intros E'. injection E' as ->. apply Hnotin, in_or_app. tauto.
Qed.

Lemma repr_root_lookup (h : gmap nat node_t) (par : ptr) (t : tree) (a : nat) :
  repr h par t -> root_ptr t = Some a ->
  exists n, h !! a = Some n /\ parent n = par.
Proof.
  destruct t as [|a' l k v r]; [discriminate|].
  intros (Ha & _) E'. injection E' as ->. eexists. split; [exact Ha|reflexivity].
Qed.

Lemma root_in_addrs (t : tree) (a : nat) :
  root_ptr t = Some a -> In a (addrs t).
Proof. destruct t; [discriminate|]. intros E'. injection E' as ->. left. reflexivity. Qed.

(** Rotations keep the elements, their order and the addresses. *)
Lemma rotl_elems t : elems (rotl t) = elems t.
Proof.
  destruct t as [|a l k v [|b rl rk rv rr]]; try reflexivity.
  simpl. rewrite <- app_assoc. reflexivity.
Qed.

Lemma rotr_elems t : elems (rotr t) = elems t.
Proof.
  destruct t as [|a [|b ll lk lv lr] k v r]; try reflexivity.
  simpl. rewrite <- app_assoc. reflexivity.
Qed.

Lemma rotl_addrs t x : In x (addrs (rotl t)) <-> In x (addrs t).
Proof.
  destruct t as [|a l k v [|b rl rk rv rr]]; try reflexivity.
  simpl. rewrite !in_app_iff. simpl. rewrite !in_app_iff. tauto.
Qed.

Lemma rotr_addrs t x : In x (addrs (rotr t)) <-> In x (addrs t).
Proof.
  destruct t as [|a [|b ll lk lv lr] k v r]; try reflexivity.
  simpl. rewrite !in_app_iff. simpl. rewrite !in_app_iff. tauto.
Qed.

Lemma rotl_tsize t : tsize (rotl t) = tsize t.
Proof.
  destruct t as [|a l k v [|b rl rk rv rr]]; try reflexivity.
  cbn [rotl]. rewrite !tsize_node. lia.
Qed.

Lemma rotr_tsize t : tsize (rotr t) = tsize t.
Proof.
  destruct t as [|a [|b ll lk lv lr] k v r]; try reflexivity.
  cbn [rotr]. rewrite !tsize_node. lia.
Qed.

Lemma NoDup_same_length {A} (l1 l2 : list A) :
  List.NoDup l1 -> length l2 = length l1 ->
  (forall x, In x l2 <-> In x l1) -> List.NoDup l2.
Proof.
  intros Hnd Hlen Hin.
  apply (NoDup_incl_NoDup Hnd); [rewrite Hlen; apply Nat.le_refl|].
  intros x Hx. apply Hin, Hx.
Qed.

Lemma rotl_NoDup t : List.NoDup (addrs t) -> List.NoDup (addrs (rotl t)).
Proof.
  intros H. apply (NoDup_same_length (addrs t)); [exact H| |].
  - apply rotl_tsize.
  - apply rotl_addrs.
Qed.

Lemma rotr_NoDup t : List.NoDup (addrs t) -> List.NoDup (addrs (rotr t)).
Proof.
  intros H. apply (NoDup_same_length (addrs t)); [exact H| |].
  - apply rotr_tsize.
  - apply rotr_addrs.
Qed.

Lemma rotl_bst t : bst t -> bst (rotl t).
Proof.
  destruct t as [|a l k v [|b rl rk rv rr]]; try (intros H; exact H).
  intros (Hl & (Hrl & Hrr & Hrl_lt & Hrr_gt) & Hl_lt & Hr_gt).
  assert (k < rk) as Hk.
  { apply Hr_gt. rewrite keys_node. apply in_or_app. right. left. reflexivity. }
  cbn [rotl bst]. repeat split; try assumption.
  - intros x Hx. apply Hr_gt. rewrite keys_node. apply in_or_app. tauto.
  - intros x Hx. rewrite keys_node in Hx. apply in_app_or in Hx.
    destruct Hx as [Hx|[<-|Hx]].
    + apply Hl_lt in Hx. lia.
    + exact Hk.
    + apply Hrl_lt, Hx.
Qed.

Lemma rotr_bst t : bst t -> bst (rotr t).
Proof.
  destruct t as [|a [|b ll lk lv lr] k v r]; try (intros H; exact H).
  intros ((Hll & Hlr & Hll_lt & Hlr_gt) & Hr & Hl_lt & Hr_gt).
  assert (lk < k) as Hk.
  { apply Hl_lt. rewrite keys_node. apply in_or_app. right. left. reflexivity. }
  cbn [rotr bst]. repeat split; try assumption.
  - intros x Hx. apply Hl_lt. rewrite keys_node. apply in_or_app.
    right. right. exact Hx.
  - intros x Hx. rewrite keys_node in Hx. apply in_app_or in Hx.
    destruct Hx as [Hx|[<-|Hx]].
    + apply Hlr_gt, Hx.
    + exact Hk.
    + apply Hr_gt in Hx. lia.
Qed.

(** *** Rotations on the tree *)

Definition scalars_kept (s s' : map_t) : Prop :=
  next_addr s' = next_addr s /\
  m_less_operator s' = m_less_operator s /\
  m_size s' = m_size s.

(** The store of [s'] holds [t'] where the store of [s] held [t], below the
    same parent [par]; the link of the parent, or [m_root], follows the new
    root of the subtree; nothing else changed. *)
Definition rotated (s s' : map_t) (par : ptr) (t t' : tree) : Prop :=
  scalars_kept s s' /\
  repr (store s') par t' /\
  (par = None -> m_root s = root_ptr t -> m_root s' = root_ptr t') /\
  (par <> None -> m_root s' = m_root s) /\
  (forall p np a,
     par = Some p -> store s !! p = Some np -> root_ptr t = Some a ->
     left_node np = Some a \/ right_node np = Some a ->
     store s' !! p = Some (redirect np a (root_ptr t'))) /\
  (forall x, ~ In x (addrs t) -> par <> Some x ->
             store s' !! x = store s !! x).

Lemma ptr_eqb_eq (p q : ptr) : ptr_eqb p q = true <-> p = q.
Proof.
  destruct p as [a|], q as [b|]; simpl; split; intros H;
    try discriminate; try reflexivity.
  - apply Nat.eqb_eq in H. congruence.
  - injection H as ->. apply Nat.eqb_refl.
Qed.

Lemma redirect_same (np : node_t) (a : nat) :
  left_node np = Some a \/ right_node np = Some a ->
  redirect np a (Some a) = np.
Proof.
  intros H. unfold redirect.
  destruct (ptr_eqb (left_node np) (Some a)) eqn:Heq; destruct np as [l r p c];
    simpl in *.
  - apply ptr_eqb_eq in Heq. subst l. reflexivity.
  - destruct H as [->| ->].
    + rewrite (proj2 (ptr_eqb_eq _ _) eq_refl) in Heq. discriminate.
    + reflexivity.
Qed.

Lemma redirect_left (np : node_t) (a : nat) (q : ptr) :
  left_node np = Some a -> redirect np a q = with_left np q.
Proof.
  intros H. unfold redirect. rewrite H.
  rewrite (proj2 (ptr_eqb_eq _ _) eq_refl). reflexivity.
Qed.

Lemma redirect_right (np : node_t) (a : nat) (q : ptr) :
  left_node np <> Some a -> redirect np a q = with_right np q.
Proof.
  intros H. unfold redirect.
  destruct (ptr_eqb (left_node np) (Some a)) eqn:Heq; [|reflexivity].
  apply ptr_eqb_eq in Heq. contradiction.
Qed.

Lemma rotated_refl (s : map_t) (par : ptr) (t : tree) :
  repr (store s) par t -> rotated s s par t t.
Proof.
  intros Hrep. repeat split; try assumption; try reflexivity.
  - intros _ H. exact H.
  - intros p np a _ Hnp Hroot Hchild. rewrite Hroot, redirect_same; assumption.
Qed.

Lemma NoDup_app_iff' {A} (l1 l2 : list A) :
  List.NoDup (l1 ++ l2) <->
  List.NoDup l1 /\ List.NoDup l2 /\ (forall x, In x l1 -> In x l2 -> False).
Proof.
  induction l1 as [|a l1 IH]; simpl.
  - split; [intros H; repeat split; [constructor|exact H|tauto]|tauto].
  - rewrite !NoDup_cons_iff, IH, in_app_iff. split.
    + intros (Ha & H1 & H2 & H3). repeat split; try tauto.
      intros x [->|Hx] Hx2; [tauto|eauto].
    + intros ((Ha & H1) & H2 & H3). repeat split; try tauto.
      * intros [H|H]; [tauto|]. apply (H3 a); tauto.
      * intros x Hx Hx2. apply (H3 x); tauto.
Qed.

Lemma In_addrs_node a l k v r x :
  In x (addrs (T a l k v r)) <-> x = a \/ In x (addrs l) \/ In x (addrs r).
Proof. cbn [addrs In]. rewrite in_app_iff. intuition congruence. Qed.

Lemma NoDup_node a l k v r :
  List.NoDup (addrs (T a l k v r)) <->
  ~ In a (addrs l) /\ ~ In a (addrs r) /\
  List.NoDup (addrs l) /\ List.NoDup (addrs r) /\
  (forall x, In x (addrs l) -> In x (addrs r) -> False).
Proof.
  cbn [addrs]. rewrite NoDup_cons_iff, NoDup_app_iff', in_app_iff. tauto.
Qed.

(** Unfolds the hypotheses on the addresses of a tree into facts on its
    root and its subtrees. *)
Ltac addr_facts :=
  repeat match goal with
         | H : List.NoDup (addrs (T _ _ _ _ _)) |- _ =>
             apply NoDup_node in H;
             destruct H as (? & ? & ? & ? & ?)
         | H : context [In _ (addrs (T _ _ _ _ _))] |- _ =>
             setoid_rewrite In_addrs_node in H
         | |- context [In _ (addrs (T _ _ _ _ _))] =>
             setoid_rewrite In_addrs_node
         | H : root_ptr ?t = Some ?x |- _ =>
             lazymatch t with
             | T _ _ _ _ _ => fail
             | _ =>
                 lazymatch goal with
                 | _ : In x (addrs t) |- _ => fail
                 | _ => pose proof (root_in_addrs t x H)
                 end
             end
         end.

(** Closes goals on addresses: disequalities and memberships that follow
    from the disjointness of subtrees. *)
Ltac addr_solve :=
  intros; addr_facts;
  repeat match goal with
         | H : _ /\ _ |- _ => destruct H
         | H : _ \/ _ |- _ => destruct H
         | H : Some _ = Some _ |- _ => injection H as ?
         | |- _ <> _ => intros ?
         | |- ~ _ => intros ?
         end;
  subst; addr_facts;
  repeat match goal with
         | H : forall x : nat, _ -> _ -> False, H1 : In ?y _ |- _ =>
             let P := type of (H y) in
             lazymatch goal with
             | _ : P |- _ => fail
             | _ => pose proof (H y)
             end
         end;
  solve [tauto | congruence | exfalso; tauto].

Lemma left_rotate_tree (s : map_t) (par : ptr) (t : tree) :
  repr (store s) par t ->
  List.NoDup (addrs t) ->
  (forall p, par = Some p -> ~ In p (addrs t) /\ is_Some (store s !! p)) ->
  exists s', left_rotate (root_ptr t) s = Ok tt s' /\
             rotated s s' par t (rotl t).
Proof.
  intros Hrep Hnd Hpar.
  destruct t as [|a l k v [|b rl rk rv rr]].
  - exists s. split; [reflexivity|]. apply rotated_refl. exact Hrep.
  - exists s. split; [|apply rotated_refl; exact Hrep].
    destruct Hrep as (Ha & _). unfold left_rotate. cbn [root_ptr is_null].
    run_step get_right_ok. reflexivity.
  - destruct Hrep as (Ha & Hl & Hb & Hrl & Hrr).
    cbn [root_ptr] in *.
    assert (forall p, par = Some p -> is_Some (store s !! p)) as Hpar_some
        by (intros p Hp; apply Hpar, Hp).
    assert (forall p, par = Some p ->
                      ~ In p (addrs (T a l k v (T b rl rk rv rr)))) as Hpar_out
        by (intros p Hp; apply Hpar, Hp).
    clear Hpar. addr_facts.
    assert (a <> b) as Hab by addr_solve.
    destruct (left_rotate_store s a b _ _ Ha eq_refl Hb Hab)
      as (s' & Hrun & Hna & Hless & Hsize & Hroot & Ha' & Hb' & Hc' & Hp' & Hframe).
    + cbn [left_node]. intros c Hc.
      destruct (repr_root_lookup _ _ _ _ Hrl Hc) as (nc & Hnc & _).
      split; [addr_solve|]. split; [addr_solve|]. eexists; exact Hnc.
    + cbn [parent left_node]. intros p Hp.
      specialize (Hpar_some p Hp). specialize (Hpar_out p Hp).
      repeat split; [| | |exact Hpar_some].
      * addr_solve.
      * addr_solve.
      * intros Hc. addr_facts. addr_solve.
    + exists s'. split; [exact Hrun|].
      cbn [left_node right_node parent content] in *.
      assert (forall x, In x (addrs l) \/ In x (addrs rr) \/
                        (In x (addrs rl) /\ root_ptr rl <> Some x) ->
                        store s' !! x = store s !! x) as Hkeep.
      { intros x Hx. apply Hframe.
        - addr_solve.
        - addr_solve.
        - intros Hc. addr_facts. addr_solve.
        - intros Hp. specialize (Hpar_out x Hp). addr_solve. }
      split; [repeat split; assumption|].
      split; [|split; [|split; [|split]]].
      * (* the new root *)
        cbn [rotl repr root_ptr]. split; [exact Hb'|]. split.
        -- split; [exact Ha'|]. split.
           ++ apply (repr_frame (store s)); [exact Hl|].
              intros x Hx. apply Hkeep. tauto.
           ++ apply (repr_reparent (store s) _ (Some b)); [exact Hrl| | |].
              ** assumption.
              ** intros c nc Hc Hnc. apply Hc'; assumption.
              ** intros x Hx Hne. apply Hkeep. tauto.
        -- apply (repr_frame (store s)); [exact Hrr|].
           intros x Hx. apply Hkeep. tauto.
      * intros -> _. exact Hroot.
      * intros Hne. destruct par; [exact Hroot|congruence].
      * intros p np a' -> Hnp E' _. injection E' as <-.
        apply Hp'; [reflexivity|exact Hnp].
      * intros x Hnotin Hne. apply Hframe; [addr_solve|addr_solve| |exact Hne].
        intros Hc. addr_facts. addr_solve.
Qed.

Lemma right_rotate_tree (s : map_t) (par : ptr) (t : tree) :
  repr (store s) par t ->
  List.NoDup (addrs t) ->
  (forall p, par = Some p -> ~ In p (addrs t) /\ is_Some (store s !! p)) ->
  exists s', right_rotate (root_ptr t) s = Ok tt s' /\
             rotated s s' par t (rotr t).
Proof.
  intros Hrep Hnd Hpar.
  destruct t as [|a [|b ll lk lv lr] k v r].
  - exists s. split; [reflexivity|]. apply rotated_refl. exact Hrep.
  - exists s. split; [|apply rotated_refl; exact Hrep].
    destruct Hrep as (Ha & _). unfold right_rotate. cbn [root_ptr is_null].
    run_step get_left_ok. reflexivity.
  - destruct Hrep as (Ha & (Hb & Hll & Hlr) & Hr).
    cbn [root_ptr] in *.
    assert (forall p, par = Some p -> is_Some (store s !! p)) as Hpar_some
        by (intros p Hp; apply Hpar, Hp).
    assert (forall p, par = Some p ->
                      ~ In p (addrs (T a (T b ll lk lv lr) k v r))) as Hpar_out
        by (intros p Hp; apply Hpar, Hp).
    clear Hpar. addr_facts.
    assert (a <> b) as Hab by addr_solve.
    destruct (right_rotate_store s a b _ _ Ha eq_refl Hb Hab)
      as (s' & Hrun & Hna & Hless & Hsize & Hroot & Ha' & Hb' & Hc' & Hp' & Hframe).
    + cbn [right_node]. intros c Hc.
      destruct (repr_root_lookup _ _ _ _ Hlr Hc) as (nc & Hnc & _).
      split; [addr_solve|]. split; [addr_solve|]. eexists; exact Hnc.
    + cbn [parent right_node]. intros p Hp.
      specialize (Hpar_some p Hp). specialize (Hpar_out p Hp).
      repeat split; [| | |exact Hpar_some].
      * addr_solve.
      * addr_solve.
      * intros Hc. addr_facts. addr_solve.
    + exists s'. split; [exact Hrun|].
      cbn [left_node right_node parent content] in *.
      assert (forall x, In x (addrs ll) \/ In x (addrs r) \/
                        (In x (addrs lr) /\ root_ptr lr <> Some x) ->
                        store s' !! x = store s !! x) as Hkeep.
      { intros x Hx. apply Hframe.
        - addr_solve.
        - addr_solve.
        - intros Hc. addr_facts. addr_solve.
        - intros Hp. specialize (Hpar_out x Hp). addr_solve. }
      split; [repeat split; assumption|].
      split; [|split; [|split; [|split]]].
      * (* the new root *)
        cbn [rotr repr root_ptr]. split; [exact Hb'|]. split.
        -- apply (repr_frame (store s)); [exact Hll|].
           intros x Hx. apply Hkeep. tauto.
        -- split; [exact Ha'|]. split.
           ++ apply (repr_reparent (store s) _ (Some b)); [exact Hlr| | |].
              ** assumption.
              ** intros c nc Hc Hnc. apply Hc'; assumption.
              ** intros x Hx Hne. apply Hkeep. tauto.
           ++ apply (repr_frame (store s)); [exact Hr|].
              intros x Hx. apply Hkeep. tauto.
      * intros -> _. exact Hroot.
      * intros Hne. destruct par; [exact Hroot|congruence].
      * intros p np a' -> Hnp E' _. injection E' as <-.
        apply Hp'; [reflexivity|exact Hnp].
      * intros x Hnotin Hne. apply Hframe; [addr_solve|addr_solve| |exact Hne].
        intros Hc. addr_facts. addr_solve.
Qed.

(** *** [height] and [balance_node] *)

Lemma height_tree (fuel : nat) (s : map_t) :
  forall (t : tree) (par : ptr),
    repr (store s) par t ->
    (tsize t < fuel)%nat ->
    exists z, height fuel (root_ptr t) s = Ok z s.
Proof.
  induction fuel as [|fuel IH]; intros t par Hrep Hfuel; [lia|].
  destruct t as [|a l k v r].
  - exists 0. reflexivity.
  - destruct Hrep as (Ha & Hl & Hr). rewrite tsize_node in Hfuel.
    destruct (IH l (Some a) Hl ltac:(lia)) as [hl Hhl].
    destruct (IH r (Some a) Hr ltac:(lia)) as [hr Hhr].
    exists (size_t_wrap (max hl hr + 1)).
    cbn [height root_ptr is_null].
    run_step get_left_ok. cbn [left_node].
    erewrite bind_ok by exact Hhl. cbv beta.
    run_step get_right_ok. cbn [right_node].
    erewrite bind_ok by exact Hhr. reflexivity.
Qed.

Fixpoint depth (t : tree) : nat :=
  match t with
  | E => 0
  | T _ l _ _ r => S (Nat.max (depth l) (depth r))
  end.

Lemma depth_le_tsize (t : tree) : (depth t <= tsize t)%nat.
Proof.
  induction t as [|a l IHl k v r IHr]; [reflexivity|].
  rewrite tsize_node. cbn [depth]. lia.
Qed.

(** The conversion of a difference of heights to [short] is exact below
    2^15. *)
Lemma short_of_small (d : Z) :
  - 2 ^ 15 <= d < 2 ^ 15 -> short_of_size_t (size_t_wrap d) = d.
Proof.
  intros Hd. unfold short_of_size_t, size_t_wrap.
  destruct (Z_lt_dec d 0) as [Hneg|Hpos].
  - replace (d mod 2 ^ 64) with (d + 2 ^ 64).
    + replace (d + 2 ^ 64) with (d + 2 ^ 16 + (2 ^ 48 - 1) * 2 ^ 16) by lia.
      rewrite Z_mod_plus_full, Z.mod_small by lia.
      destruct (Z.ltb_spec (d + 2 ^ 16) (2 ^ 15)); lia.
    + replace d with (d + 2 ^ 64 + (-1) * 2 ^ 64) at 2 by lia.
      rewrite Z_mod_plus_full, Z.mod_small by lia. reflexivity.
  - rewrite (Z.mod_small d (2 ^ 64)) by lia. rewrite Z.mod_small by lia.
    destruct (Z.ltb_spec d (2 ^ 15)); lia.
Qed.

Lemma height_exact (fuel : nat) (s : map_t) :
  forall (t : tree) (par : ptr),
    repr (store s) par t ->
    (tsize t < fuel)%nat ->
    Z.of_nat (tsize t) < 2 ^ 15 ->
    height fuel (root_ptr t) s = Ok (Z.of_nat (depth t)) s.
Proof.
  induction fuel as [|fuel IH]; intros t par Hrep Hfuel Hsmall; [lia|].
  destruct t as [|a l k v r]; [reflexivity|].
  destruct Hrep as (Ha & Hl & Hr). rewrite tsize_node in Hfuel, Hsmall.
  cbn [height root_ptr is_null].
  run_step get_left_ok. cbn [left_node].
  erewrite bind_ok by (apply (IH l (Some a)); [exact Hl|lia|lia]). cbv beta.
  run_step get_right_ok. cbn [right_node].
  erewrite bind_ok by (apply (IH r (Some a)); [exact Hr|lia|lia]). cbv beta.
  unfold ret. f_equal.
  pose proof (depth_le_tsize l). pose proof (depth_le_tsize r).
  unfold size_t_wrap, max. cbn [depth].
  destruct (Z.gtb_spec (Z.of_nat (depth l)) (Z.of_nat (depth r)));
    rewrite Z.mod_small by lia; lia.
Qed.

Lemma height_diff_tree (fuel : nat) (s : map_t) a l k v r (par : ptr) :
  repr (store s) par (T a l k v r) ->
  (tsize (T a l k v r) <= fuel)%nat ->
  exists d,
    height_diff fuel (Some a) s = Ok d s /\
    (Z.of_nat (tsize (T a l k v r)) < 2 ^ 15 ->
     d = Z.of_nat (depth l) - Z.of_nat (depth r)).
Proof.
  intros (Ha & Hl & Hr) Hfuel. rewrite tsize_node in Hfuel.
  destruct (Z_lt_dec (Z.of_nat (tsize (T a l k v r))) (2 ^ 15)) as [Hsmall|Hbig].
  - exists (Z.of_nat (depth l) - Z.of_nat (depth r)).
    split; [|reflexivity]. rewrite tsize_node in Hsmall.
    pose proof (depth_le_tsize l). pose proof (depth_le_tsize r).
    unfold height_diff.
    run_step get_left_ok. cbn [left_node].
    erewrite bind_ok by (apply (height_exact fuel s l (Some a)); [exact Hl|lia|lia]).
    cbv beta.
    run_step get_right_ok. cbn [right_node].
    erewrite bind_ok by (apply (height_exact fuel s r (Some a)); [exact Hr|lia|lia]).
    cbv beta. unfold ret. f_equal. apply short_of_small. lia.
  - destruct (height_tree fuel s l (Some a) Hl ltac:(lia)) as [hl Hhl].
    destruct (height_tree fuel s r (Some a) Hr ltac:(lia)) as [hr Hhr].
    eexists. split; [|intros H; contradiction]. unfold height_diff.
    run_step get_left_ok. cbn [left_node].
    erewrite bind_ok by exact Hhl. cbv beta.
    run_step get_right_ok. cbn [right_node].
    erewrite bind_ok by exact Hhr. reflexivity.
Qed.

(** What [balance_node] may leave of a tree: the tree, or one of its two
    rotations; on a tree of fewer than 2^15 nodes, where the difference of
    the heights is computed exactly, a rotation is made towards the side
    that is lower by two or more. *)
Definition lower_by_two (t1 t2 : tree) : Prop := (depth t1 + 2 <= depth t2)%nat.

Definition balanced_from (t t' : tree) : Prop :=
  t' = t \/
  (t' = rotl t /\
   (Z.of_nat (tsize t) < 2 ^ 15 ->
    match t with T _ l _ _ r => lower_by_two l r | E => True end)) \/
  (t' = rotr t /\
   (Z.of_nat (tsize t) < 2 ^ 15 ->
    match t with T _ l _ _ r => lower_by_two r l | E => True end)).

Lemma balance_node_tree (fuel : nat) (s : map_t) (par : ptr) (t : tree) :
  repr (store s) par t ->
  List.NoDup (addrs t) ->
  (forall p, par = Some p -> ~ In p (addrs t) /\ is_Some (store s !! p)) ->
  (tsize t <= fuel)%nat ->
  exists s' t',
    balance_node fuel (root_ptr t) s = Ok tt s' /\
    balanced_from t t' /\
    rotated s s' par t t'.
Proof.
  intros Hrep Hnd Hpar Hfuel.
  destruct t as [|a l k v r].
  - exists s, E. split; [reflexivity|]. split; [left; reflexivity|].
    apply rotated_refl. exact Hrep.
  - destruct (height_diff_tree fuel s a l k v r par Hrep Hfuel)
      as (d & Hd & Hexact).
    unfold balance_node. cbn [root_ptr is_null].
    destruct (Z.ltb_spec d (-1)) as [Hlo|Hlo];
      [|destruct (Z.gtb_spec d 1) as [Hhi|Hhi]].
    + destruct (left_rotate_tree s par _ Hrep Hnd Hpar) as (s' & Hrun & Hrot).
      exists s', (rotl (T a l k v r)).
      split; [|split; [right; left; split; [reflexivity|]|exact Hrot]].
      * erewrite bind_ok by exact Hd. cbv beta.
        destruct (Z.ltb_spec d (-1)); [exact Hrun|lia].
      * intros Hsmall. specialize (Hexact Hsmall). unfold lower_by_two. lia.
    + destruct (right_rotate_tree s par _ Hrep Hnd Hpar) as (s' & Hrun & Hrot).
      exists s', (rotr (T a l k v r)).
      split; [|split; [right; right; split; [reflexivity|]|exact Hrot]].
      * erewrite bind_ok by exact Hd. cbv beta.
        destruct (Z.ltb_spec d (-1)); [lia|].
        destruct (Z.gtb_spec d 1); [exact Hrun|lia].
      * intros Hsmall. specialize (Hexact Hsmall). unfold lower_by_two. lia.
    + exists s, (T a l k v r).
      split; [|split; [left; reflexivity|apply rotated_refl; exact Hrep]].
      erewrite bind_ok by exact Hd. cbv beta.
      destruct (Z.ltb_spec d (-1)); [lia|].
      destruct (Z.gtb_spec d 1); [lia|reflexivity].
Qed.

Lemma balanced_from_elems t t' : balanced_from t t' -> elems t' = elems t.
Proof.
  intros [->|[[-> _]|[-> _]]]; [reflexivity|apply rotl_elems|apply rotr_elems].
Qed.

Lemma balanced_from_addrs t t' x :
  balanced_from t t' -> In x (addrs t') <-> In x (addrs t).
Proof.
  intros [->|[[-> _]|[-> _]]]; [reflexivity|apply rotl_addrs|apply rotr_addrs].
Qed.

Lemma balanced_from_tsize t t' : balanced_from t t' -> tsize t' = tsize t.
Proof.
  intros [->|[[-> _]|[-> _]]]; [reflexivity|apply rotl_tsize|apply rotr_tsize].
Qed.

Lemma balanced_from_NoDup t t' :
  balanced_from t t' -> List.NoDup (addrs t) -> List.NoDup (addrs t').
Proof.
  intros [->|[[-> _]|[-> _]]] H; [exact H|apply rotl_NoDup, H|apply rotr_NoDup, H].
Qed.

Lemma balanced_from_bst t t' : balanced_from t t' -> bst t -> bst t'.
Proof.
  intros [->|[[-> _]|[-> _]]] H; [exact H|apply rotl_bst, H|apply rotr_bst, H].
Qed.

Lemma balanced_from_root t t' :
  balanced_from t t' -> root_ptr t <> None -> root_ptr t' <> None.
Proof.
  intros [->|[[-> _]|[-> _]]] H; [exact H| |].
  - destruct t as [|a l k v [|b rl rk rv rr]]; simpl in *; congruence.
  - destruct t as [|a [|b ll lk lv lr] k v r]; simpl in *; congruence.
Qed.

(** The node holding [key] is a leaf of the tree. *)
Fixpoint key_leaf (t : tree) (key : Z) : Prop :=
  match t with
  | E => False
  | T _ l k _ r =>
      if k =? key then l = E /\ r = E
      else key_leaf l key \/ key_leaf r key
  end.

Lemma key_leaf_In (t : tree) (key : Z) : key_leaf t key -> In key (keys t).
Proof.
  induction t as [|a l IHl k v r IHr]; intros H; [destruct H|].
  cbn [key_leaf] in H. rewrite keys_node. apply in_or_app.
  destruct (Z.eqb_spec k key) as [->|Hne].
  - right. left. reflexivity.
  - destruct H as [H|H]; [left; apply IHl, H|right; right; apply IHr, H].
Qed.

Lemma balanced_from_key_leaf (t t' : tree) (key : Z) :
  balanced_from t t' ->
  Z.of_nat (tsize t) < 2 ^ 15 ->
  bst t ->
  key_leaf t key ->
  key_leaf t' key.
Proof.
  intros [->|[[-> Hg]|[-> Hg]]] Hsmall Hbst Hleaf; [exact Hleaf| |].
  - destruct t as [|a l k v [|b rl rk rv rr]]; try exact Hleaf.
    specialize (Hg Hsmall). unfold lower_by_two in Hg.
    destruct Hbst as (Hbl & (Hbrl & Hbrr & Hrl_lt & Hrr_gt) & Hl_lt & Hr_gt).
    assert (k < rk) as Hk.
    { apply Hr_gt. rewrite keys_node. apply in_or_app. right. left.
      reflexivity. }
    cbn [rotl key_leaf] in *.
    destruct (Z.eqb_spec k key) as [->|Hk1];
      destruct (Z.eqb_spec rk key) as [->|Hk2].
    + lia.
    + destruct Hleaf as [_ Hr]. discriminate Hr.
    + destruct Hleaf as [Hleaf|[-> ->]].
      * apply key_leaf_In, Hl_lt in Hleaf. lia.
      * cbn [depth] in Hg. lia.
    + tauto.
  - destruct t as [|a [|b ll lk lv lr] k v r]; try exact Hleaf.
    specialize (Hg Hsmall). unfold lower_by_two in Hg.
    destruct Hbst as ((Hbll & Hblr & Hll_lt & Hlr_gt) & Hbr & Hl_lt & Hr_gt).
    assert (lk < k) as Hk.
    { apply Hl_lt. rewrite keys_node. apply in_or_app. right. left.
      reflexivity. }
    cbn [rotr key_leaf] in *.
    destruct (Z.eqb_spec k key) as [->|Hk1];
      destruct (Z.eqb_spec lk key) as [->|Hk2].
    + lia.
    + destruct Hleaf as [Hl _]. discriminate Hl.
    + destruct Hleaf as [[-> ->]|Hleaf].
      * cbn [depth] in Hg. lia.
      * apply key_leaf_In, Hr_gt in Hleaf. lia.
    + tauto.
Qed.

(** *** [insert_recursive] *)

Lemma In_keys_node a l k v r x :
  In x (keys (T a l k v r)) <-> In x (keys l) \/ x = k \/ In x (keys r).
Proof. rewrite keys_node, in_app_iff. simpl. intuition congruence. Qed.

Lemma In_elems_node a l k v r x :
  In x (elems (T a l k v r)) <-> In x (elems l) \/ x = (k, v) \/ In x (elems r).
Proof. simpl. rewrite in_app_iff. simpl. intuition congruence. Qed.

(** The subtree [t] of the store of [s] has become [t'] in the store of
    [s'] by the insertion of a new node for [key] at the address
    [next_addr s]. *)
Definition inserted_in (s s' : map_t) (par : ptr) (key item : Z)
    (t t' : tree) : Prop :=
  root_ptr t' = root_ptr t /\
  m_root s' = m_root s /\
  repr (store s') par t' /\
  List.NoDup (addrs t') /\
  bst t' /\
  (forall x, In x (addrs t') <-> In x (addrs t) \/ x = next_addr s) /\
  (forall kv, In kv (elems t') <-> kv = (key, item) \/ In kv (elems t)) /\
  tsize t' = S (tsize t) /\
  next_addr s' = S (next_addr s) /\
  m_less_operator s' = m_less_operator s /\
  m_size s' = size_t_wrap (m_size s + 1) /\
  (forall x, ~ In x (addrs t) -> x <> next_addr s ->
             store s' !! x = store s !! x).

Lemma inserted_keys s s' par key item t t' x :
  inserted_in s s' par key item t t' ->
  In x (keys t') <-> x = key \/ In x (keys t).
Proof.
  intros (_ & _ & _ & _ & _ & _ & He & _). rewrite !In_keys. split.
  - intros [v Hv]. apply He in Hv. destruct Hv as [E'|Hv].
    + injection E' as -> _. left. reflexivity.
    + right. exists v. exact Hv.
  - intros [->|[v Hv]].
    + exists item. apply He. left. reflexivity.
    + exists v. apply He. right. exact Hv.
Qed.

Lemma store_with_size (s : map_t) (z : Z) : store (with_size s z) = store s.
Proof. reflexivity. Qed.

Lemma insert_recursive_tree (key item : Z) (fuel : nat) :
  forall (t : tree) (par : ptr) (s : map_t) (a : nat),
    root_ptr t = Some a ->
    repr (store s) par t ->
    List.NoDup (addrs t) ->
    (forall x, In x (addrs t) -> (x < next_addr s)%nat) ->
    bst t ->
    m_less_operator s = Z.ltb ->
    (tsize t <= fuel)%nat ->
    (In key (keys t) ->
     insert_recursive fuel (Some a) key item s = Ok false s) /\
    (~ In key (keys t) ->
     exists s' t',
       insert_recursive fuel (Some a) key item s = Ok true s' /\
       inserted_in s s' par key item t t' /\
       (Z.of_nat (tsize t) < 2 ^ 15 -> key_leaf t' key)).
Proof.
  induction fuel as [|fuel IH]; intros t par s a Hroot Hrep Hnd Hlt Hbst Hless Hfuel.
  { destruct t; [discriminate|]. rewrite tsize_node in Hfuel. lia. }
  destruct t as [|a' l k v r]; [discriminate|]. injection Hroot as ->.
  pose proof Hrep as (Ha & Hl & Hr). destruct Hbst as (Hbl & Hbr & Hlk & Hrk).
  rewrite tsize_node in Hfuel.
  pose proof Hnd as Hnd'. apply NoDup_node in Hnd'.
  destruct Hnd' as (Hal & Har & Hndl & Hndr & Hdisj).
  assert (forall x, In x (addrs l) -> (x < next_addr s)%nat) as Hltl
      by (intros x Hx; apply Hlt, In_addrs_node; tauto).
  assert (forall x, In x (addrs r) -> (x < next_addr s)%nat) as Hltr
      by (intros x Hx; apply Hlt, In_addrs_node; tauto).
  assert (a < next_addr s)%nat as Hlta
      by (apply Hlt, In_addrs_node; tauto).
  cbn [insert_recursive].
  run_step get_key_ok. cbn [content fst].
  destruct (k =? key) eqn:Hkey.
  { apply Z.eqb_eq in Hkey. subst k. split; [reflexivity|].
    intros Hnot. exfalso. apply Hnot, In_keys_node. tauto. }
  apply Z.eqb_neq in Hkey.
  erewrite bind_ok by reflexivity. cbv beta. rewrite Hless.
  destruct (key <? k) eqn:Hside.
  - (* to the left *)
    apply Z.ltb_lt in Hside.
    assert (~ In key (keys r)) as Hnr by (intros H; apply Hrk in H; lia).
    run_step get_left_ok. cbn [left_node].
    destruct l as [|c ll lk lv lr].
    + (* a new left child *)
      cbn [root_ptr is_null negb] in *.
      split; [intros H; apply In_keys_node in H; simpl in H; exfalso;
              intuition congruence|].
      intros _.
      erewrite bind_ok by apply new_node_ok. cbv beta iota.
      run_step set_left_ok.
      erewrite bind_ok by apply incr_size_ok. cbv beta.
      eexists. exists (T a (T (next_addr s) E key item E) k v r).
      split; [reflexivity|].
      split;
        [|intros _; cbn [key_leaf];
          rewrite (proj2 (Z.eqb_neq k key) Hkey), Z.eqb_refl;
          left; split; reflexivity].
      unfold inserted_in.
      cbn [m_root next_addr m_less_operator m_size with_size upd alloc].
      rewrite store_with_size.
      assert (forall x, x <> a -> x <> next_addr s ->
                        store (upd (alloc s key item (Some a)) a
                                 (with_left
                                    {| left_node := None;
                                       right_node := root_ptr r;
                                       parent := par; content := (k, v) |}
                                    (Some (next_addr s)))) !! x
                        = store s !! x) as Hkeep.
      { intros x Hxa Hxn. rewrite store_upd_ne by congruence.
        apply store_alloc_ne. exact Hxn. }
      split; [reflexivity|]. split; [reflexivity|].
      split; [|split; [|split; [|split; [|split; [|split]]]]].
      * cbn [repr root_ptr]. split; [apply store_upd_eq|]. split.
        -- split; [|split; exact I].
           rewrite store_upd_ne by lia. apply store_alloc_eq.
        -- apply (repr_frame (store s)); [exact Hr|].
           intros x Hx. apply Hkeep; [congruence|].
           specialize (Hltr x Hx). lia.
      * apply NoDup_node. repeat split.
        -- cbn [addrs In app]. lia.
        -- exact Har.
        -- cbn [addrs app]. constructor; [intros []|constructor].
        -- exact Hndr.
        -- cbn [addrs app In]. intros x [<-|[]] Hx.
           specialize (Hltr _ Hx). lia.
      * cbn [bst]. repeat split; try assumption.
        -- intros x [].
        -- intros x [].
        -- intros x Hx. rewrite In_keys_node in Hx. simpl in Hx.
           destruct Hx as [[]|[->|[]]]. exact Hside.
      * intros x. rewrite !In_addrs_node. cbn [addrs In]. intuition congruence.
      * intros kv. rewrite !In_elems_node. cbn [elems In]. intuition congruence.
      * rewrite !tsize_node. reflexivity.
      * split; [reflexivity|]. split; [reflexivity|]. split; [reflexivity|].
        intros x Hx Hxn. apply Hkeep; [|exact Hxn].
        intros ->. apply Hx. left. reflexivity.
    + (* into the left subtree *)
      cbn [root_ptr is_null negb] in *.
      rewrite tsize_node in Hfuel.
      destruct (IH (T c ll lk lv lr) (Some a) s c eq_refl Hl Hndl Hltl Hbl Hless
                  ltac:(rewrite tsize_node; lia)) as [Hfound Hnew].
      destruct (in_dec Z.eq_dec key (keys (T c ll lk lv lr))) as [Hin|Hnin].
      * erewrite bind_ok by (apply Hfound; exact Hin). cbn [negb].
        split; [reflexivity|].
        intros Hnot. exfalso. apply Hnot, In_keys_node. tauto.
      * split; [intros H; apply In_keys_node in H; exfalso;
                intuition congruence|].
        intros _.
        destruct (Hnew Hnin) as (s1 & l1 & Hrun1 & Hins1 & Hleaf1).
        erewrite bind_ok by exact Hrun1. cbn [negb].
        pose proof (fun x => inserted_keys _ _ _ _ _ _ _ x Hins1) as Hkeys1.
        destruct Hins1 as (Hroot1 & Hmroot1 & Hrep1 & Hnd1 & Hbst1 & Haddr1 &
                           Helem1 & Hsize1 & Hnext1 & Hless1 & Hmsize1 & Hframe1).
        cbn [root_ptr] in Hroot1.
        assert (store s1 !! a = Some {| left_node := Some c;
                                        right_node := root_ptr r;
                                        parent := par; content := (k, v) |})
          as Ha1.
        { rewrite Hframe1; [exact Ha|exact Hal|lia]. }
        destruct (balance_node_tree (S fuel) s1 (Some a) l1 Hrep1 Hnd1)
          as (s2 & l2 & Hrun2 & Hbal & Hrot).
        { intros p Hp. injection Hp as <-. split; [|eexists; exact Ha1].
          intros Hx. apply Haddr1 in Hx. destruct Hx as [Hx|Hx]; [tauto|lia]. }
        { rewrite Hsize1, tsize_node. lia. }
        rewrite Hroot1 in Hrun2.
        erewrite bind_ok by exact Hrun2. cbv beta.
        destruct Hrot as ((Hnext2 & Hless2 & Hmsize2) & Hrep2 & _ & Hmroot2 &
                          Hpar2 & Hframe2).
        exists s2, (T a l2 k v r). split; [reflexivity|].
        split;
          [|intros Hsmall; rewrite !tsize_node in Hsmall; cbn [key_leaf];
            rewrite (proj2 (Z.eqb_neq k key) Hkey); left;
            apply (balanced_from_key_leaf _ _ key Hbal);
            [rewrite Hsize1, tsize_node; lia|exact Hbst1|
             apply Hleaf1; rewrite tsize_node; lia]].
        assert (forall x, In x (addrs l2) <->
                          In x (addrs (T c ll lk lv lr)) \/ x = next_addr s)
          as Haddr2.
        { intros x. rewrite (balanced_from_addrs _ _ x Hbal). apply Haddr1. }
        split; [reflexivity|].
        split; [rewrite Hmroot2 by discriminate; exact Hmroot1|].
        split; [|split; [|split; [|split; [|split; [|split]]]]].
        -- cbn [repr]. split; [|split].
           ++ rewrite (Hpar2 a _ c eq_refl Ha1 Hroot1 ltac:(left; reflexivity)).
              rewrite redirect_left by reflexivity. reflexivity.
           ++ exact Hrep2.
           ++ apply (repr_frame (store s)); [exact Hr|].
              intros x Hx.
              assert (~ In x (addrs (T c ll lk lv lr))) as Hxl
                  by (intros H; exact (Hdisj x H Hx)).
              specialize (Hltr x Hx).
              rewrite Hframe2.
              ** apply Hframe1; [exact Hxl|lia].
              ** intros H. apply Haddr1 in H. destruct H; [tauto|lia].
              ** intros E'. injection E' as ->. tauto.
        -- apply NoDup_node. repeat split.
           ++ intros H. apply Haddr2 in H. destruct H; [tauto|lia].
           ++ exact Har.
           ++ apply (balanced_from_NoDup _ _ Hbal Hnd1).
           ++ exact Hndr.
           ++ intros x Hx Hxr. apply Haddr2 in Hx. destruct Hx as [Hx| ->].
              ** exact (Hdisj x Hx Hxr).
              ** specialize (Hltr _ Hxr). lia.
        -- cbn [bst]. repeat split; try assumption.
           ++ apply (balanced_from_bst _ _ Hbal Hbst1).
           ++ intros x Hx. unfold keys in Hx.
              rewrite (balanced_from_elems _ _ Hbal) in Hx.
              apply Hkeys1 in Hx.
              destruct Hx as [->|Hx]; [exact Hside|apply Hlk, Hx].
        -- intros x. rewrite !In_addrs_node, Haddr2, In_addrs_node. tauto.
        -- intros kv. rewrite !In_elems_node.
           rewrite (balanced_from_elems _ _ Hbal), Helem1, In_elems_node. tauto.
        -- rewrite !tsize_node, (balanced_from_tsize _ _ Hbal), Hsize1,
             tsize_node. lia.
        -- split; [congruence|]. split; [congruence|]. split; [congruence|].
           intros x Hx Hxn. rewrite In_addrs_node in Hx.
           rewrite Hframe2.
           ++ apply Hframe1; [tauto|exact Hxn].
           ++ intros H. apply Haddr1 in H. tauto.
           ++ intros E'. injection E' as ->. tauto.
  - (* to the right *)
    apply Z.ltb_ge in Hside.
    assert (k < key) as Hside' by lia.
    assert (~ In key (keys l)) as Hnl by (intros H; apply Hlk in H; lia).
    run_step get_right_ok. cbn [right_node].
    destruct r as [|c rl rk rv rr].
    + (* a new right child *)
      cbn [root_ptr is_null negb] in *.
      split; [intros H; apply In_keys_node in H; simpl in H; exfalso;
              intuition congruence|].
      intros _.
      erewrite bind_ok by apply new_node_ok. cbv beta iota.
      run_step set_right_ok.
      erewrite bind_ok by apply incr_size_ok. cbv beta.
      eexists. exists (T a l k v (T (next_addr s) E key item E)).
      split; [reflexivity|].
      split;
        [|intros _; cbn [key_leaf];
          rewrite (proj2 (Z.eqb_neq k key) Hkey), Z.eqb_refl;
          right; split; reflexivity].
      unfold inserted_in.
      cbn [m_root next_addr m_less_operator m_size with_size upd alloc].
      rewrite store_with_size.
      assert (forall x, x <> a -> x <> next_addr s ->
                        store (upd (alloc s key item (Some a)) a
                                 (with_right
                                    {| left_node := root_ptr l;
                                       right_node := None;
                                       parent := par; content := (k, v) |}
                                    (Some (next_addr s)))) !! x
                        = store s !! x) as Hkeep.
      { intros x Hxa Hxn. rewrite store_upd_ne by congruence.
        apply store_alloc_ne. exact Hxn. }
      split; [reflexivity|]. split; [reflexivity|].
      split; [|split; [|split; [|split; [|split; [|split]]]]].
      * cbn [repr root_ptr]. split; [apply store_upd_eq|]. split.
        -- apply (repr_frame (store s)); [exact Hl|].
           intros x Hx. apply Hkeep; [congruence|].
           specialize (Hltl x Hx). lia.
        -- split; [|split; exact I].
           rewrite store_upd_ne by lia. apply store_alloc_eq.
      * apply NoDup_node. repeat split.
        -- exact Hal.
        -- cbn [addrs In app]. lia.
        -- exact Hndl.
        -- cbn [addrs app]. constructor; [intros []|constructor].
        -- cbn [addrs app In]. intros x Hx [<-|[]].
           specialize (Hltl _ Hx). lia.
      * cbn [bst]. repeat split; try assumption.
        -- intros x [].
        -- intros x [].
        -- intros x Hx. rewrite In_keys_node in Hx. simpl in Hx.
           destruct Hx as [[]|[->|[]]]. exact Hside'.
      * intros x. rewrite !In_addrs_node. cbn [addrs In]. intuition congruence.
      * intros kv. rewrite !In_elems_node. cbn [elems In]. intuition congruence.
      * rewrite !tsize_node. cbn [tsize addrs length]. lia.
      * split; [reflexivity|]. split; [reflexivity|]. split; [reflexivity|].
        intros x Hx Hxn. apply Hkeep; [|exact Hxn].
        intros ->. apply Hx. left. reflexivity.
    + (* into the right subtree *)
      cbn [root_ptr is_null negb] in *.
      rewrite tsize_node in Hfuel.
      destruct (IH (T c rl rk rv rr) (Some a) s c eq_refl Hr Hndr Hltr Hbr Hless
                  ltac:(rewrite tsize_node; lia)) as [Hfound Hnew].
      destruct (in_dec Z.eq_dec key (keys (T c rl rk rv rr))) as [Hin|Hnin].
      * erewrite bind_ok by (apply Hfound; exact Hin). cbn [negb].
        split; [reflexivity|].
        intros Hnot. exfalso. apply Hnot, In_keys_node. tauto.
      * split; [intros H; apply In_keys_node in H; exfalso;
                intuition congruence|].
        intros _.
        destruct (Hnew Hnin) as (s1 & r1 & Hrun1 & Hins1 & Hleaf1).
        erewrite bind_ok by exact Hrun1. cbn [negb].
        pose proof (fun x => inserted_keys _ _ _ _ _ _ _ x Hins1) as Hkeys1.
        destruct Hins1 as (Hroot1 & Hmroot1 & Hrep1 & Hnd1 & Hbst1 & Haddr1 &
                           Helem1 & Hsize1 & Hnext1 & Hless1 & Hmsize1 & Hframe1).
        cbn [root_ptr] in Hroot1.
        assert (store s1 !! a = Some {| left_node := root_ptr l;
                                        right_node := Some c;
                                        parent := par; content := (k, v) |})
          as Ha1.
        { rewrite Hframe1; [exact Ha|exact Har|lia]. }
        destruct (balance_node_tree (S fuel) s1 (Some a) r1 Hrep1 Hnd1)
          as (s2 & r2 & Hrun2 & Hbal & Hrot).
        { intros p Hp. injection Hp as <-. split; [|eexists; exact Ha1].
          intros Hx. apply Haddr1 in Hx. destruct Hx as [Hx|Hx]; [tauto|lia]. }
        { rewrite Hsize1, tsize_node. lia. }
        rewrite Hroot1 in Hrun2.
        erewrite bind_ok by exact Hrun2. cbv beta.
        destruct Hrot as ((Hnext2 & Hless2 & Hmsize2) & Hrep2 & _ & Hmroot2 &
                          Hpar2 & Hframe2).
        exists s2, (T a l k v r2). split; [reflexivity|].
        split;
          [|intros Hsmall; rewrite !tsize_node in Hsmall; cbn [key_leaf];
            rewrite (proj2 (Z.eqb_neq k key) Hkey); right;
            apply (balanced_from_key_leaf _ _ key Hbal);
            [rewrite Hsize1, tsize_node; lia|exact Hbst1|
             apply Hleaf1; rewrite tsize_node; lia]].
        assert (forall x, In x (addrs r2) <->
                          In x (addrs (T c rl rk rv rr)) \/ x = next_addr s)
          as Haddr2.
        { intros x. rewrite (balanced_from_addrs _ _ x Hbal). apply Haddr1. }
        assert (root_ptr l <> Some c) as Hlc.
        { intros H. apply root_in_addrs in H. apply (Hdisj c H).
          left. reflexivity. }
        split; [reflexivity|].
        split; [rewrite Hmroot2 by discriminate; exact Hmroot1|].
        split; [|split; [|split; [|split; [|split; [|split]]]]].
        -- cbn [repr]. split; [|split].
           ++ rewrite (Hpar2 a _ c eq_refl Ha1 Hroot1 ltac:(right; reflexivity)).
              rewrite redirect_right by exact Hlc. reflexivity.
           ++ apply (repr_frame (store s)); [exact Hl|].
              intros x Hx.
              assert (~ In x (addrs (T c rl rk rv rr))) as Hxr
                  by (intros H; exact (Hdisj x Hx H)).
              specialize (Hltl x Hx).
              rewrite Hframe2.
              ** apply Hframe1; [exact Hxr|lia].
              ** intros H. apply Haddr1 in H. destruct H; [tauto|lia].
              ** intros E'. injection E' as ->. tauto.
           ++ exact Hrep2.
        -- apply NoDup_node. repeat split.
           ++ exact Hal.
           ++ intros H. apply Haddr2 in H. destruct H; [tauto|lia].
           ++ exact Hndl.
           ++ apply (balanced_from_NoDup _ _ Hbal Hnd1).
           ++ intros x Hxl Hx. apply Haddr2 in Hx. destruct Hx as [Hx| ->].
              ** exact (Hdisj x Hxl Hx).
              ** specialize (Hltl _ Hxl). lia.
        -- cbn [bst]. repeat split; try assumption.
           ++ apply (balanced_from_bst _ _ Hbal Hbst1).
           ++ intros x Hx. unfold keys in Hx.
              rewrite (balanced_from_elems _ _ Hbal) in Hx.
              apply Hkeys1 in Hx.
              destruct Hx as [->|Hx]; [exact Hside'|apply Hrk, Hx].
        -- intros x. rewrite !In_addrs_node, Haddr2, In_addrs_node. tauto.
        -- intros kv. rewrite !In_elems_node.
           rewrite (balanced_from_elems _ _ Hbal), Helem1, In_elems_node. tauto.
        -- rewrite !tsize_node, (balanced_from_tsize _ _ Hbal), Hsize1,
             tsize_node. lia.
        -- split; [congruence|]. split; [congruence|]. split; [congruence|].
           intros x Hx Hxn. rewrite In_addrs_node in Hx.
           rewrite Hframe2.
           ++ apply Hframe1; [tauto|exact Hxn].
           ++ intros H. apply Haddr1 in H. tauto.
           ++ intros E'. injection E' as ->. tauto.
Qed.

(** *** [insert] *)

(** The store of [s] holds the search tree [t] below [m_root], and
    [m_size] counts its nodes. *)
Definition map_ok (s : map_t) (t : tree) : Prop :=
  repr (store s) None t /\
  m_root s = root_ptr t /\
  List.NoDup (addrs t) /\
  (forall x, In x (addrs t) -> (x < next_addr s)%nat) /\
  bst t /\
  m_less_operator s = Z.ltb /\
  m_size s = size_t_wrap (Z.of_nat (tsize t)).

Lemma map_ok_empty : map_ok empty E.
Proof.
  repeat split; try reflexivity; try exact I; try constructor.
  intros x [].
Qed.

Lemma wrap_of_nat_succ (z : Z) (k : nat) :
  z = size_t_wrap (Z.of_nat k) ->
  size_t_wrap (z + 1) = size_t_wrap (Z.of_nat (S k)).
Proof.
  intros ->. unfold size_t_wrap. rewrite Zplus_mod_idemp_l. f_equal. lia.
Qed.

Lemma rotated_map_ok (s s' : map_t) (t t' : tree) :
  map_ok s t ->
  balanced_from t t' ->
  rotated s s' None t t' ->
  map_ok s' t'.
Proof.
  intros (Hrep & Hroot & Hnd & Hlt & Hbst & Hless & Hsize) Hbal
         ((Hnext' & Hless' & Hsize') & Hrep' & Hroot' & _).
  repeat split.
  - exact Hrep'.
  - apply Hroot'; [reflexivity|exact Hroot].
  - apply (balanced_from_NoDup _ _ Hbal Hnd).
  - intros x Hx. rewrite Hnext'. apply Hlt.
    apply (balanced_from_addrs _ _ x Hbal), Hx.
  - apply (balanced_from_bst _ _ Hbal Hbst).
  - congruence.
  - rewrite (balanced_from_tsize _ _ Hbal). congruence.
Qed.

Lemma insert_tree (fuel : nat) (s : map_t) (t : tree) (key item : Z) :
  map_ok s t ->
  (tsize t < fuel)%nat ->
  (In key (keys t) -> insert fuel key item s = Ok false s) /\
  (~ In key (keys t) ->
   exists s' t',
     insert fuel key item s = Ok true s' /\
     map_ok s' t' /\
     (forall kv, In kv (elems t') <-> kv = (key, item) \/ In kv (elems t)) /\
     tsize t' = S (tsize t) /\
     (Z.of_nat (tsize t) + 1 < 2 ^ 15 -> key_leaf t' key)).
Proof.
  intros (Hrep & Hroot & Hnd & Hlt & Hbst & Hless & Hsize) Hfuel.
  unfold insert. erewrite bind_ok by reflexivity. cbv beta. rewrite Hroot.
  destruct t as [|a l k v r].
  - (* the first node *)
    cbn [root_ptr is_null]. split; [intros []|]. intros _.
    erewrite bind_ok by apply new_node_ok. cbv beta.
    erewrite bind_ok by apply set_root_ok. cbv beta.
    erewrite bind_ok by apply incr_size_ok. cbv beta.
    eexists. exists (T (next_addr s) E key item E).
    split; [reflexivity|]. split; [|split].
    + unfold map_ok.
      cbn [m_root next_addr m_less_operator m_size with_size set_root_to alloc
           root_ptr].
      rewrite store_with_size, store_set_root.
      repeat split; try exact I; try assumption.
      * apply store_alloc_eq.
      * constructor; [intros []|constructor].
      * intros x [<-|[]]. lia.
      * intros x [].
      * intros x [].
      * apply (wrap_of_nat_succ _ 0). exact Hsize.
    + intros kv. cbn [elems app In]. intuition congruence.
    + split; [reflexivity|]. intros _. cbn [key_leaf].
      rewrite Z.eqb_refl. split; reflexivity.
  - cbn [root_ptr is_null].
    destruct (insert_recursive_tree key item fuel (T a l k v r) None s a
                eq_refl Hrep Hnd Hlt Hbst Hless ltac:(lia)) as [Hfound Hnew].
    split.
    + intros Hin. erewrite bind_ok by (apply Hfound; exact Hin).
      reflexivity.
    + intros Hnin. destruct (Hnew Hnin) as (s1 & t1 & Hrun1 & Hins1 & Hleaf1).
      erewrite bind_ok by exact Hrun1. cbn [negb].
      destruct Hins1 as (Hroot1 & Hmroot1 & Hrep1 & Hnd1 & Hbst1 & Haddr1 &
                         Helem1 & Hsize1 & Hnext1 & Hless1 & Hmsize1 & Hframe1).
      cbn [root_ptr] in Hroot1.
      assert (map_ok s1 t1) as Hok1.
      { repeat split; try assumption.
        - rewrite Hmroot1, Hroot1. exact Hroot.
        - intros x Hx. apply Haddr1 in Hx. rewrite Hnext1.
          destruct Hx as [Hx| ->]; [specialize (Hlt x Hx)|]; lia.
        - congruence.
        - rewrite Hmsize1, Hsize1. apply wrap_of_nat_succ. exact Hsize. }
      assert (m_root s1 = Some a) as Hr1 by (rewrite Hmroot1; exact Hroot).
      destruct (balance_node_tree fuel s1 None t1 Hrep1 Hnd1)
        as (s2 & t2 & Hrun2 & Hbal & Hrot).
      { intros p Hp. discriminate. }
      { rewrite Hsize1. lia. }
      exists s2, t2.
      split; [|split; [exact (rotated_map_ok _ _ _ _ Hok1 Hbal Hrot)|split]].
      * erewrite bind_ok by reflexivity. cbv beta. rewrite Hr1.
        destruct t1 as [|a1 l1 k1 v1 r1]; [discriminate Hroot1|].
        injection Hroot1 as ->.
        destruct (height_diff_tree fuel s1 a l1 k1 v1 r1 None Hrep1
                    ltac:(rewrite Hsize1; lia)) as (d & Hd & _).
        unfold balance_node in Hrun2. cbn [root_ptr is_null] in Hrun2.
        erewrite bind_ok in Hrun2 by exact Hd. cbv beta in Hrun2.
        erewrite bind_ok by exact Hd. cbv beta.
        destruct (d <? -1); [|destruct (d >? 1)].
        -- rewrite bind_assoc. erewrite bind_ok by reflexivity. cbv beta.
           rewrite Hr1. erewrite bind_ok by exact Hrun2. reflexivity.
        -- rewrite bind_assoc. erewrite bind_ok by reflexivity. cbv beta.
           rewrite Hr1. erewrite bind_ok by exact Hrun2. reflexivity.
        -- erewrite bind_ok by exact Hrun2. reflexivity.
      * intros kv. rewrite (balanced_from_elems _ _ Hbal). apply Helem1.
      * split; [rewrite (balanced_from_tsize _ _ Hbal); exact Hsize1|].
        intros Hsmall. apply (balanced_from_key_leaf _ _ key Hbal).
        -- rewrite Hsize1. lia.
        -- exact Hbst1.
        -- apply Hleaf1. lia.
Qed.

(** *** [search], [at] and [erase] of a key that is absent *)

Lemma search_from_tree (key : Z) (fuel : nat) (s : map_t) :
  forall (t : tree) (par : ptr),
    repr (store s) par t ->
    m_less_operator s = Z.ltb ->
    (tsize t < fuel)%nat ->
    search_from fuel (root_ptr t) key s = Ok (tfind t key) s.
Proof.
  induction fuel as [|fuel IH]; intros t par Hrep Hless Hfuel; [lia|].
  destruct t as [|a l k v r]; [reflexivity|].
  destruct Hrep as (Ha & Hl & Hr). rewrite tsize_node in Hfuel.
  cbn [search_from root_ptr is_null tfind].
  run_step get_key_ok. cbn [content fst].
  destruct (k =? key); [reflexivity|].
  erewrite bind_ok by reflexivity. cbv beta. rewrite Hless.
  destruct (key <? k).
  - run_step get_left_ok. cbn [left_node].
    apply (IH l (Some a)); [exact Hl|exact Hless|lia].
  - run_step get_right_ok. cbn [right_node].
    apply (IH r (Some a)); [exact Hr|exact Hless|lia].
Qed.

Lemma tfind_tlookup (h : gmap nat node_t) (key : Z) (t : tree) :
  forall par,
    repr h par t ->
    match tfind t key with
    | Some a => exists n, h !! a = Some n /\
                          tlookup t key = Some (snd (content n))
    | None => tlookup t key = None
    end.
Proof.
  induction t as [|a l IHl k v r IHr]; intros par Hrep; [reflexivity|].
  destruct Hrep as (Ha & Hl & Hr). cbn [tfind tlookup].
  destruct (k =? key).
  - eexists. split; [exact Ha|reflexivity].
  - destruct (key <? k); [apply (IHl _ Hl)|apply (IHr _ Hr)].
Qed.

Lemma at_tree (fuel : nat) (s : map_t) (t : tree) (key : Z) :
  map_ok s t ->
  (tsize t < fuel)%nat ->
  at_ fuel key s = Ok (tlookup t key) s.
Proof.
  intros (Hrep & Hroot & _ & _ & _ & Hless & _) Hfuel.
  unfold at_, search. rewrite bind_assoc.
  erewrite bind_ok by reflexivity. cbv beta. rewrite Hroot.
  erewrite bind_ok by (apply (search_from_tree key fuel s t None); assumption).
  cbv beta.
  pose proof (tfind_tlookup (store s) key t None Hrep) as Hfind.
  destruct (tfind t key) as [a|].
  - destruct Hfind as (n & Hn & ->). cbn [is_null negb].
    run_step load_ok. reflexivity.
  - rewrite Hfind. reflexivity.
Qed.

Lemma tlookup_elems (t : tree) (key v : Z) :
  bst t -> tlookup t key = Some v <-> In (key, v) (elems t).
Proof.
  induction t as [|a l IHl k v0 r IHr]; intros Hbst.
  - simpl. split; [discriminate|tauto].
  - destruct Hbst as (Hbl & Hbr & Hlk & Hrk).
    cbn [tlookup]. rewrite In_elems_node.
    assert (In (key, v) (elems l) -> key < k) as Hl.
    { intros H. apply Hlk, In_keys. exists v. exact H. }
    assert (In (key, v) (elems r) -> k < key) as Hr.
    { intros H. apply Hrk, In_keys. exists v. exact H. }
    destruct (Z.eqb_spec k key) as [->|Hne].
    + split.
      * intros E'. injection E' as ->. tauto.
      * intros [H|[H|H]]; [apply Hl in H; lia|congruence|apply Hr in H; lia].
    + destruct (Z.ltb_spec key k) as [Hlt|Hge].
      * rewrite (IHl Hbl). split; [tauto|].
        intros [H|[H|H]]; [exact H|congruence|apply Hr in H; lia].
      * rewrite (IHr Hbr). split; [tauto|].
        intros [H|[H|H]]; [apply Hl in H; lia|congruence|exact H].
Qed.

Lemma tlookup_keys (t : tree) (key : Z) :
  bst t -> tlookup t key = None <-> ~ In key (keys t).
Proof.
  intros Hbst. rewrite In_keys. split.
  - intros Hnone [v Hv]. apply (tlookup_elems t key v Hbst) in Hv. congruence.
  - intros Hnot. destruct (tlookup t key) as [v|] eqn:E'; [|reflexivity].
    exfalso. apply Hnot. exists v. apply (tlookup_elems t key v Hbst). exact E'.
Qed.

Lemma erase_recursive_absent (key : Z) (fuel : nat) (s : map_t) :
  forall (t : tree) (par : ptr),
    repr (store s) par t ->
    ~ In key (keys t) ->
    (tsize t < fuel)%nat ->
    erase_recursive fuel (root_ptr t) key s = Ok false s.
Proof.
  induction fuel as [|fuel IH]; intros t par Hrep Hnot Hfuel; [lia|].
  destruct t as [|a l k v r]; [reflexivity|].
  destruct Hrep as (Ha & Hl & Hr). rewrite tsize_node in Hfuel.
  rewrite In_keys_node in Hnot.
  cbn [erase_recursive root_ptr is_null].
  run_step get_key_ok. cbn [content fst].
  destruct (Z.eqb_spec k key) as [->|Hne]; [tauto|].
  run_step get_left_ok. cbn [left_node].
  erewrite bind_ok by (apply (IH l (Some a)); [exact Hl|tauto|lia]).
  cbv beta iota. rewrite bind_assoc.
  run_step get_right_ok. cbn [right_node].
  erewrite bind_ok by (apply (IH r (Some a)); [exact Hr|tauto|lia]).
  reflexivity.
Qed.

Lemma erase_absent (fuel : nat) (s : map_t) (t : tree) (key : Z) :
  map_ok s t ->
  ~ In key (keys t) ->
  (tsize t < fuel)%nat ->
  erase fuel key s = Ok (m_size s) s.
Proof.
  intros (Hrep & Hroot & _) Hnot Hfuel.
  unfold erase. erewrite bind_ok by reflexivity. cbv beta. rewrite Hroot.
  erewrite bind_ok
    by (apply (erase_recursive_absent key fuel s t None); assumption).
  reflexivity.
Qed.

(** *** [erase] of a key held by a leaf *)

Definition del (s : map_t) (x : nat) : map_t :=
  {| store := delete x (store s); next_addr := next_addr s;
     m_less_operator := m_less_operator s;
     m_size := m_size s; m_root := m_root s |}.

Lemma delete_node_ok (s : map_t) (x : nat) (n : node_t) :
  store s !! x = Some n -> delete_node (Some x) s = Ok tt (del s x).
Proof. intros H. unfold delete_node. rewrite H. reflexivity. Qed.

Lemma decr_size_ok (s : map_t) :
  decr_size s = Ok tt (with_size s (size_t_wrap (m_size s - 1))).
Proof. reflexivity. Qed.

Lemma store_del_ne (s : map_t) (x y : nat) :
  x <> y -> store (del s x) !! y = store s !! y.
Proof. intros H. apply lookup_delete_ne. exact H. Qed.

Lemma wrap_of_nat_pred (z : Z) (k : nat) :
  z = size_t_wrap (Z.of_nat (S k)) ->
  size_t_wrap (z - 1) = size_t_wrap (Z.of_nat k).
Proof.
  intros ->. unfold size_t_wrap. rewrite Zminus_mod_idemp_l. f_equal. lia.
Qed.

(** The subtree [t] of the store of [s] has become [t'] in the store of
    [s'] by the removal of the node of [key]; the link of the parent, or
    [m_root], follows the root of the subtree. *)
Definition erased_in (s s' : map_t) (par : ptr) (key : Z) (t t' : tree)
  : Prop :=
  repr (store s') par t' /\
  List.NoDup (addrs t') /\
  bst t' /\
  (forall x, In x (addrs t') -> In x (addrs t)) /\
  (forall kv, In kv (elems t') <-> In kv (elems t) /\ fst kv <> key) /\
  tsize t = S (tsize t') /\
  next_addr s' = next_addr s /\
  m_less_operator s' = m_less_operator s /\
  m_size s' = size_t_wrap (m_size s - 1) /\
  (par = None -> m_root s = root_ptr t -> m_root s' = root_ptr t') /\
  (par <> None -> m_root s' = m_root s) /\
  (forall p np a,
     par = Some p -> store s !! p = Some np -> root_ptr t = Some a ->
     left_node np = Some a \/ right_node np = Some a ->
     store s' !! p = Some (redirect np a (root_ptr t'))) /\
  (forall x, ~ In x (addrs t) -> par <> Some x ->
             store s' !! x = store s !! x).

(** The key of the root of the tree. *)
Definition root_key_is (t : tree) (key : Z) : Prop :=
  match t with
  | E => False
  | T _ _ k _ _ => k = key
  end.

Lemma In_elems_keys (t : tree) (kv : Z * Z) :
  In kv (elems t) -> In (fst kv) (keys t).
Proof. intros H. apply in_map, H. Qed.

(** After the removal in a child, [balance_node] at the node. *)
Lemma erased_below (fuel : nat) (s s1 : map_t) (par : ptr) (key : Z)
  (a : nat) (l r l1 r1 : tree) (k v : Z) :
  repr (store s) par (T a l k v r) ->
  List.NoDup (addrs (T a l k v r)) ->
  bst (T a l k v r) ->
  k <> key ->
  (forall p, par = Some p ->
             ~ In p (addrs (T a l k v r)) /\ is_Some (store s !! p)) ->
  (tsize (T a l k v r) <= fuel)%nat ->
  (erased_in s s1 (Some a) key l l1 /\ r1 = r /\ In key (keys l) \/
   erased_in s s1 (Some a) key r r1 /\ l1 = l /\ In key (keys r)) ->
  exists s2 t2,
    balance_node fuel (Some a) s1 = Ok tt s2 /\
    erased_in s s2 par key (T a l k v r) t2.
Proof.
  intros Hrep Hnd Hbst Hkey Hpar Hfuel Hcase.
  pose proof Hrep as (Ha & Hl & Hr).
  pose proof Hbst as (Hbl & Hbr & Hlk & Hrk).
  pose proof Hnd as Hnd'. apply NoDup_node in Hnd'.
  destruct Hnd' as (Hal & Har & Hndl & Hndr & Hdisj).
  assert (repr (store s1) par (T a l1 k v r1) /\
          List.NoDup (addrs l1) /\ List.NoDup (addrs r1) /\
          bst l1 /\ bst r1 /\
          (forall x, In x (addrs l1) -> In x (addrs l)) /\
          (forall x, In x (addrs r1) -> In x (addrs r)) /\
          (forall x, In x (keys l1) -> In x (keys l)) /\
          (forall x, In x (keys r1) -> In x (keys r)) /\
          (forall kv, In kv (elems (T a l1 k v r1)) <->
                      In kv (elems (T a l k v r)) /\ fst kv <> key) /\
          tsize (T a l k v r) = S (tsize (T a l1 k v r1)) /\
          next_addr s1 = next_addr s /\
          m_less_operator s1 = m_less_operator s /\
          m_size s1 = size_t_wrap (m_size s - 1) /\
          m_root s1 = m_root s /\
          (forall x, ~ In x (addrs (T a l k v r)) ->
                     store s1 !! x = store s !! x))
    as (Hrep1 & Hndl1 & Hndr1 & Hbl1 & Hbr1 & Hsubl & Hsubr & Hkl & Hkr &
        Helem1 & Hsize1 & Hnext1 & Hless1 & Hmsize1 & Hmroot1 & Hframe1).
  { destruct Hcase as [(Her & -> & Hin)|(Her & -> & Hin)];
      destruct Her as (Hrep1 & Hnd1 & Hbst1 & Hsub1 & Hel1 & Hsz1 & Hn1 & Hle1 &
                       Hms1 & _ & Hmr1 & Hp1 & Hfr1).
    - assert (exists c, root_ptr l = Some c) as [c Hc].
      { destruct l; [destruct Hin|eexists; reflexivity]. }
      assert (forall x, In x (keys l1) -> In x (keys l)) as Hkl.
      { intros x Hx. apply In_keys in Hx. destruct Hx as [w Hw].
        apply Hel1 in Hw. apply In_keys. exists w. tauto. }
      split.
      { cbn [repr]. split; [|split; [exact Hrep1|]].
        - rewrite (Hp1 a _ c eq_refl Ha Hc ltac:(left; exact Hc)).
          rewrite redirect_left by exact Hc. reflexivity.
        - apply (repr_frame (store s)); [exact Hr|].
          intros x Hx. apply Hfr1.
          + intros H. exact (Hdisj x H Hx).
          + intros E'. injection E' as ->. contradiction. }
      split; [exact Hnd1|]. split; [exact Hndr|].
      split; [exact Hbst1|]. split; [exact Hbr|].
      split; [exact Hsub1|]. split; [tauto|].
      split; [exact Hkl|]. split; [tauto|].
      split.
      { intros kv. rewrite !In_elems_node, Hel1. split.
        - intros [[H1 H2]|[->|H]].
          + tauto.
          + split; [tauto|exact Hkey].
          + split; [tauto|].
            apply In_elems_keys, Hrk in H. apply Hlk in Hin. lia.
        - tauto. }
      split; [rewrite !tsize_node, Hsz1; lia|].
      split; [exact Hn1|]. split; [exact Hle1|]. split; [exact Hms1|].
      split; [apply Hmr1; discriminate|].
      intros x Hx. rewrite In_addrs_node in Hx. apply Hfr1; [tauto|].
      intros E'. injection E' as ->. tauto.
    - assert (exists c, root_ptr r = Some c) as [c Hc].
      { destruct r; [destruct Hin|eexists; reflexivity]. }
      assert (forall x, In x (keys r1) -> In x (keys r)) as Hkr.
      { intros x Hx. apply In_keys in Hx. destruct Hx as [w Hw].
        apply Hel1 in Hw. apply In_keys. exists w. tauto. }
      assert (left_node {| left_node := root_ptr l; right_node := root_ptr r;
                           parent := par; content := (k, v) |} <> Some c)
        as Hlc.
      { cbn [left_node]. intros H. apply root_in_addrs in H.
        apply root_in_addrs in Hc. exact (Hdisj c H Hc). }
      split.
      { cbn [repr]. split; [|split; [|exact Hrep1]].
        - rewrite (Hp1 a _ c eq_refl Ha Hc ltac:(right; exact Hc)).
          rewrite redirect_right by exact Hlc. reflexivity.
        - apply (repr_frame (store s)); [exact Hl|].
          intros x Hx. apply Hfr1.
          + intros H. exact (Hdisj x Hx H).
          + intros E'. injection E' as ->. contradiction. }
      split; [exact Hndl|]. split; [exact Hnd1|].
      split; [exact Hbl|]. split; [exact Hbst1|].
      split; [tauto|]. split; [exact Hsub1|].
      split; [tauto|]. split; [exact Hkr|].
      split.
      { intros kv. rewrite !In_elems_node, Hel1. split.
        - intros [H|[->|[H1 H2]]].
          + split; [tauto|].
            apply In_elems_keys, Hlk in H. apply Hrk in Hin. lia.
          + split; [tauto|exact Hkey].
          + tauto.
        - tauto. }
      split; [rewrite !tsize_node, Hsz1; lia|].
      split; [exact Hn1|]. split; [exact Hle1|]. split; [exact Hms1|].
      split; [apply Hmr1; discriminate|].
      intros x Hx. rewrite In_addrs_node in Hx. apply Hfr1; [tauto|].
      intros E'. injection E' as ->. tauto. }
  assert (List.NoDup (addrs (T a l1 k v r1))) as Hnd1.
  { apply NoDup_node. repeat split; try assumption.
    - intros H. apply Hal, Hsubl, H.
    - intros H. apply Har, Hsubr, H.
    - intros x Hx Hx'. exact (Hdisj x (Hsubl x Hx) (Hsubr x Hx')). }
  assert (bst (T a l1 k v r1)) as Hbst1.
  { cbn [bst]. repeat split; try assumption.
    - intros x Hx. apply Hlk, Hkl, Hx.
    - intros x Hx. apply Hrk, Hkr, Hx. }
  assert (forall x, In x (addrs (T a l1 k v r1)) -> In x (addrs (T a l k v r)))
    as Hsub1.
  { intros x. rewrite !In_addrs_node. intros [H|[H|H]]; [tauto| |].
    - right. left. apply Hsubl, H.
    - right. right. apply Hsubr, H. }
  destruct (balance_node_tree fuel s1 par (T a l1 k v r1) Hrep1 Hnd1)
    as (s2 & t2 & Hrun2 & Hbal & Hrot).
  { intros p Hp. destruct (Hpar p Hp) as [Hout Hsome]. split.
    - intros H. apply Hout, Hsub1, H.
    - rewrite Hframe1 by exact Hout. exact Hsome. }
  { lia. }
  exists s2, t2. split; [exact Hrun2|].
  destruct Hrot as ((Hnext2 & Hless2 & Hmsize2) & Hrep2 & Hroot2 & Hmroot2 &
                    Hpar2 & Hframe2).
  split; [exact Hrep2|].
  split; [apply (balanced_from_NoDup _ _ Hbal Hnd1)|].
  split; [apply (balanced_from_bst _ _ Hbal Hbst1)|].
  split; [intros x Hx; apply Hsub1, (balanced_from_addrs _ _ x Hbal), Hx|].
  split; [intros kv; rewrite (balanced_from_elems _ _ Hbal); apply Helem1|].
  split; [rewrite (balanced_from_tsize _ _ Hbal); exact Hsize1|].
  split; [congruence|]. split; [congruence|]. split; [congruence|].
  split; [|split; [|split]].
  - intros Hnone Hroot. apply Hroot2; [exact Hnone|].
    rewrite Hmroot1. exact Hroot.
  - intros Hsome. rewrite Hmroot2 by exact Hsome. exact Hmroot1.
  - intros p np a' Hp Hnp Ha' Hchild. cbn [root_ptr] in Ha'.
    injection Ha' as <-.
    apply (Hpar2 p np a Hp); [|reflexivity|exact Hchild].
    destruct (Hpar p Hp) as [Hout _]. rewrite Hframe1 by exact Hout.
    exact Hnp.
  - intros x Hx Hne. rewrite Hframe2; [apply Hframe1, Hx| |exact Hne].
    intros H. apply Hx, Hsub1, H.
Qed.

Lemma erase_recursive_leaf (key : Z) (fuel : nat) :
  forall (t : tree) (par : ptr) (s : map_t),
    repr (store s) par t ->
    List.NoDup (addrs t) ->
    bst t ->
    key_leaf t key ->
    (forall p, par = Some p ->
               ~ In p (addrs t) /\
               exists np, store s !! p = Some np /\
                          (left_node np = root_ptr t \/
                           right_node np = root_ptr t)) ->
    (par = None -> ~ root_key_is t key) ->
    (tsize t <= fuel)%nat ->
    exists s' t',
      erase_recursive fuel (root_ptr t) key s = Ok true s' /\
      erased_in s s' par key t t'.
Proof.
  induction fuel as [|fuel IH];
    intros t par s Hrep Hnd Hbst Hleaf Hpar Hnotroot Hfuel.
  { destruct t; [destruct Hleaf|]. rewrite tsize_node in Hfuel. lia. }
  destruct t as [|a l k v r]; [destruct Hleaf|].
  pose proof Hrep as (Ha & Hl & Hr).
  pose proof Hbst as (Hbl & Hbr & Hlk & Hrk).
  pose proof Hnd as Hnd'. apply NoDup_node in Hnd'.
  destruct Hnd' as (Hal & Har & Hndl & Hndr & Hdisj).
  cbn [key_leaf] in Hleaf.
  cbn [erase_recursive root_ptr is_null].
  run_step get_key_ok. cbn [content fst].
  destruct (Z.eqb_spec k key) as [->|Hkey].
  - (* the leaf itself *)
    destruct Hleaf as [-> ->].
    destruct par as [p|]; [|exfalso; apply Hnotroot; reflexivity].
    destruct (Hpar p eq_refl) as (Hpout & np & Hnp & Hchild).
    cbn [root_ptr] in *.
    assert (p <> a) as Hpa by (intros ->; apply Hpout; left; reflexivity).
    run_step get_left_ok. cbn [left_node].
    run_step get_right_ok. cbn [right_node is_null negb orb].
    rewrite bind_assoc.
    run_step get_parent_ok. cbn [parent is_null negb].
    rewrite !bind_assoc.
    run_step get_left_ok.
    assert (exists s1,
               (if ptr_eqb (left_node np) (Some a) then set_left (Some p) None
                else do pr <- get_right (Some p);
                     if ptr_eqb pr (Some a) then set_right (Some p) None
                     else ret tt) s = Ok tt s1 /\
               s1 = upd s p (redirect np a None)) as (s1 & Hrun1 & ->).
    { unfold redirect.
      destruct (ptr_eqb (left_node np) (Some a)) eqn:Heq.
      - eexists. split; [exact (set_left_ok s p np None Hnp)|reflexivity].
      - eexists. split; [|reflexivity].
        run_step get_right_ok.
        destruct Hchild as [H|H].
        + rewrite H, (proj2 (ptr_eqb_eq _ _) eq_refl) in Heq. discriminate.
        + rewrite H, (proj2 (ptr_eqb_eq _ _) eq_refl).
          exact (set_right_ok s p np None Hnp). }
    erewrite bind_ok by exact Hrun1. cbv beta.
    erewrite bind_ok
      by (eapply (delete_node_ok _ a); rewrite store_upd_ne by exact Hpa;
          exact Ha).
    cbv beta.
    erewrite bind_ok by apply decr_size_ok. cbv beta.
    eexists. exists E. split; [reflexivity|].
    unfold erased_in.
    cbn [m_root next_addr m_less_operator m_size with_size upd del root_ptr].
    rewrite store_with_size.
    split; [exact I|]. split; [constructor|]. split; [exact I|].
    split; [intros x []|].
    split.
    { intros kv. cbn [elems app In fst]. split; [intros []|].
      intros [[<-|[]] Hne]. apply Hne. reflexivity. }
    split; [reflexivity|].
    split; [reflexivity|]. split; [reflexivity|]. split; [reflexivity|].
    split; [discriminate|]. split; [reflexivity|]. split.
    + intros p' np' a' E1 Hnp' E2 _. injection E1 as <-. injection E2 as <-.
      rewrite Hnp in Hnp'. injection Hnp' as <-.
      rewrite store_del_ne by congruence. apply store_upd_eq.
    + intros x Hx Hne. cbn [addrs app In] in Hx.
      rewrite store_del_ne by tauto. apply store_upd_ne. congruence.
  - (* below *)
    rewrite tsize_node in Hfuel.
    run_step get_left_ok. cbn [left_node].
    assert (forall p, par = Some p ->
                      ~ In p (addrs (T a l k v r)) /\ is_Some (store s !! p))
      as Hpar'.
    { intros p Hp. destruct (Hpar p Hp) as (Hout & np & Hnp & _).
      split; [exact Hout|eexists; exact Hnp]. }
    destruct (in_dec Z.eq_dec key (keys l)) as [Hinl|Hnotl].
    + (* in the left subtree *)
      assert (key_leaf l key) as Hleafl.
      { destruct Hleaf as [H|H]; [exact H|].
        apply key_leaf_In, Hrk in H. apply Hlk in Hinl. lia. }
      destruct (IH l (Some a) s Hl Hndl Hbl Hleafl) as (s1 & l1 & Hrun1 & Her1).
      { intros p Hp. injection Hp as <-. split; [exact Hal|].
        eexists. split; [exact Ha|]. left. reflexivity. }
      { discriminate. }
      { lia. }
      erewrite bind_ok by exact Hrun1. cbv beta iota.
      unfold ret at 1. erewrite bind_ok by reflexivity. cbv beta iota.
      destruct (erased_below (S fuel) s s1 par key a l r l1 r k v Hrep Hnd Hbst
                  Hkey Hpar' ltac:(rewrite tsize_node; lia))
        as (s2 & t2 & Hrun2 & Her2).
      { left. split; [exact Her1|]. split; [reflexivity|exact Hinl]. }
      exists s2, t2. split; [|exact Her2].
      erewrite bind_ok by exact Hrun2. reflexivity.
    + (* in the right subtree *)
      assert (key_leaf r key) as Hleafr.
      { destruct Hleaf as [H|H]; [|exact H].
        apply key_leaf_In in H. contradiction. }
      assert (In key (keys r)) as Hinr by apply key_leaf_In, Hleafr.
      assert (0 < tsize r)%nat as Hrpos.
      { destruct r; [destruct Hleafr|]. rewrite tsize_node. lia. }
      erewrite bind_ok
        by (apply (erase_recursive_absent key fuel s l (Some a));
            [exact Hl|exact Hnotl|lia]).
      cbv beta iota. rewrite bind_assoc.
      run_step get_right_ok. cbn [right_node].
      destruct (IH r (Some a) s Hr Hndr Hbr Hleafr) as (s1 & r1 & Hrun1 & Her1).
      { intros p Hp. injection Hp as <-. split; [exact Har|].
        eexists. split; [exact Ha|]. right. reflexivity. }
      { discriminate. }
      { lia. }
      erewrite bind_ok by exact Hrun1. cbv beta iota.
      destruct (erased_below (S fuel) s s1 par key a l r l r1 k v Hrep Hnd Hbst
                  Hkey Hpar' ltac:(rewrite tsize_node; lia))
        as (s2 & t2 & Hrun2 & Her2).
      { right. split; [exact Her1|]. split; [reflexivity|exact Hinr]. }
      exists s2, t2. split; [|exact Her2].
      erewrite bind_ok by exact Hrun2. reflexivity.
Qed.

Lemma erase_leaf (fuel : nat) (s : map_t) (t : tree) (key : Z) :
  map_ok s t ->
  key_leaf t key ->
  ~ root_key_is t key ->
  (tsize t <= fuel)%nat ->
  exists s' t',
    erase fuel key s = Ok (m_size s') s' /\
    map_ok s' t' /\
    (forall kv, In kv (elems t') <-> In kv (elems t) /\ fst kv <> key) /\
    tsize t = S (tsize t').
Proof.
  intros (Hrep & Hroot & Hnd & Hlt & Hbst & Hless & Hsize) Hleaf Hnotroot Hfuel.
  destruct (erase_recursive_leaf key fuel t None s Hrep Hnd Hbst Hleaf)
    as (s1 & t1 & Hrun1 & Her1).
  { intros p Hp. discriminate. }
  { intros _. exact Hnotroot. }
  { exact Hfuel. }
  destruct Her1 as (Hrep1 & Hnd1 & Hbst1 & Hsub1 & Hel1 & Hsz1 & Hn1 & Hle1 &
                    Hms1 & Hmr1 & _ & _ & Hfr1).
  assert (map_ok s1 t1) as Hok1.
  { repeat split; try assumption.
    - apply Hmr1; [reflexivity|exact Hroot].
    - intros x Hx. rewrite Hn1. apply Hlt, Hsub1, Hx.
    - congruence.
    - rewrite Hms1. apply wrap_of_nat_pred. rewrite Hsize, Hsz1. reflexivity. }
  destruct (balance_node_tree fuel s1 None t1 Hrep1 Hnd1)
    as (s2 & t2 & Hrun2 & Hbal & Hrot).
  { intros p Hp. discriminate. }
  { lia. }
  exists s2, t2. split; [|split; [|split]].
  - unfold erase. erewrite bind_ok by reflexivity. cbv beta. rewrite Hroot.
    erewrite bind_ok by exact Hrun1. cbv beta iota.
    rewrite bind_assoc. erewrite bind_ok by reflexivity. cbv beta.
    destruct Hok1 as (_ & Hroot1 & _). rewrite Hroot1.
    erewrite bind_ok by exact Hrun2. reflexivity.
  - exact (rotated_map_ok _ _ _ _ Hok1 Hbal Hrot).
  - intros kv. rewrite (balanced_from_elems _ _ Hbal). apply Hel1.
  - rewrite (balanced_from_tsize _ _ Hbal). exact Hsz1.
Qed.

(** *** Sequences of insertions *)

(** A client inserting the pairs of a list in order. *)
Fixpoint insert_pairs (fuel : nat) (kvs : list (Z * Z)) : M unit :=
  match kvs with
  | [] => ret tt
  | (k, v) :: rest => insert fuel k v;; insert_pairs fuel rest
  end.

(** The value of the first pair of the list with the given key. *)
Fixpoint first_item (kvs : list (Z * Z)) (key : Z) : option Z :=
  match kvs with
  | [] => None
  | (k, v) :: rest => if k =? key then Some v else first_item rest key
  end.

Lemma insert_pairs_tree (fuel : nat) (kvs : list (Z * Z)) :
  forall (s : map_t) (t : tree),
    map_ok s t ->
    (tsize t + length kvs <= fuel)%nat ->
    exists s' t',
      insert_pairs fuel kvs s = Ok tt s' /\
      map_ok s' t' /\
      (tsize t' <= tsize t + length kvs)%nat /\
      (forall key, tlookup t' key
                   = match tlookup t key with
                     | Some v => Some v
                     | None => first_item kvs key
                     end) /\
      (forall x, In x (keys t') <-> In x (keys t) \/ In x (List.map fst kvs)).
Proof.
  induction kvs as [|[k v] kvs IH]; intros s t Hok Hfuel.
  - exists s, t. split; [reflexivity|]. split; [exact Hok|].
    split; [simpl; lia|]. split.
    + intros key. destruct (tlookup t key); reflexivity.
    + intros x. simpl. tauto.
  - cbn [length] in Hfuel. cbn [insert_pairs].
    destruct (insert_tree fuel s t k v Hok ltac:(lia)) as [Hfound Hnew].
    assert (bst t) as Hbst by apply Hok.
    destruct (in_dec Z.eq_dec k (keys t)) as [Hin|Hnin].
    + (* the key is there: nothing changes *)
      erewrite bind_ok by (apply Hfound; exact Hin). cbv beta.
      destruct (IH s t Hok ltac:(lia)) as (s' & t' & Hrun & Hok' & Hsz & Hlk & Hks).
      exists s', t'. split; [exact Hrun|]. split; [exact Hok'|].
      split; [cbn [length]; lia|]. split.
      * intros key. rewrite Hlk. cbn [first_item].
        destruct (tlookup t key) as [w|] eqn:E'; [reflexivity|].
        destruct (Z.eqb_spec k key) as [->|Hne]; [|reflexivity].
        apply (tlookup_keys t key Hbst) in E'. contradiction.
      * intros x. rewrite Hks. cbn [List.map fst In].
        split; [tauto|]. intros [H|[<-|H]]; tauto.
    + destruct (Hnew Hnin) as (s1 & t1 & Hrun1 & Hok1 & Helem1 & Hsize1 & _).
      erewrite bind_ok by exact Hrun1. cbv beta.
      destruct (IH s1 t1 Hok1 ltac:(lia))
        as (s' & t' & Hrun & Hok' & Hsz & Hlk & Hks).
      assert (bst t1) as Hbst1 by apply Hok1.
      exists s', t'. split; [exact Hrun|]. split; [exact Hok'|].
      split; [cbn [length]; lia|]. split.
      * intros key. rewrite Hlk. cbn [first_item].
        destruct (tlookup t key) as [w|] eqn:E'.
        -- assert (tlookup t1 key = Some w) as ->; [|reflexivity].
           apply (tlookup_elems t1 key w Hbst1), Helem1. right.
           apply (tlookup_elems t key w Hbst). exact E'.
        -- destruct (Z.eqb_spec k key) as [->|Hne].
           ++ assert (tlookup t1 key = Some v) as ->; [|reflexivity].
              apply (tlookup_elems t1 key v Hbst1), Helem1. left. reflexivity.
           ++ assert (tlookup t1 key = None) as ->; [|reflexivity].
              apply (tlookup_keys t1 key Hbst1). rewrite In_keys.
              intros [w Hw]. apply Helem1 in Hw. destruct Hw as [E''|Hw].
              ** congruence.
              ** apply (tlookup_keys t key Hbst) in E'. apply E'.
                 apply In_keys. exists w. exact Hw.
      * intros x. rewrite Hks. cbn [List.map fst In]. rewrite !In_keys.
        split.
        -- intros [[w Hw]|H]; [|tauto]. apply Helem1 in Hw.
           destruct Hw as [E'|Hw]; [injection E' as -> _; tauto|].
           left. exists w. exact Hw.
        -- intros [[w Hw]|[<-|H]]; [| |tauto].
           ++ left. exists w. apply Helem1. tauto.
           ++ left. exists v. apply Helem1. tauto.
Qed.

Lemma bst_keys_NoDup (t : tree) : bst t -> List.NoDup (keys t).
Proof.
  induction t as [|a l IHl k v r IHr]; intros Hbst; [constructor|].
  destruct Hbst as (Hbl & Hbr & Hlk & Hrk).
  rewrite keys_node. apply NoDup_app_iff'. split; [apply IHl, Hbl|]. split.
  - constructor; [|apply IHr, Hbr]. intros H. apply Hrk in H. lia.
  - intros x Hx [<-|Hx']; [apply Hlk in Hx; lia|].
    apply Hlk in Hx. apply Hrk in Hx'. lia.
Qed.

Lemma same_members_length {A} (l1 l2 : list A) :
  List.NoDup l1 -> List.NoDup l2 ->
  (forall x, In x l1 <-> In x l2) ->
  length l1 = length l2.
Proof.
  intros H1 H2 Hin. apply Nat.le_antisymm.
  - apply NoDup_incl_length; [exact H1|]. intros x Hx. apply Hin, Hx.
  - apply NoDup_incl_length; [exact H2|]. intros x Hx. apply Hin, Hx.
Qed.

Lemma inserts_from_empty (fuel : nat) (kvs : list (Z * Z)) :
  (length kvs < fuel)%nat ->
  exists s t,
    insert_pairs fuel kvs empty = Ok tt s /\
    map_ok s t /\
    (tsize t < fuel)%nat /\
    (forall key, tlookup t key = first_item kvs key) /\
    (forall x, In x (keys t) <-> In x (List.map fst kvs)) /\
    (tsize t <= length kvs)%nat.
Proof.
  intros Hfuel.
  destruct (insert_pairs_tree fuel kvs empty E map_ok_empty)
    as (s & t & Hrun & Hok & Hsz & Hlk & Hks).
  { cbn [tsize addrs length]. lia. }
  exists s, t. split; [exact Hrun|]. split; [exact Hok|].
  split; [cbn [tsize addrs length] in Hsz; lia|]. split; [|split].
  - intros key. apply Hlk.
  - intros x. rewrite Hks. cbn [keys elems List.map In]. tauto.
  - cbn [tsize addrs length] in Hsz. exact Hsz.
Qed.

(** X10.  From the empty map, the insertions of a list of fewer than 2^32
    pairs all return, and then: [at(key)] is the value of the first pair
    of the list with that key, and the null pointer for a key that is not
    in the list; [size()] is the number of distinct keys of the list. *)
Theorem inserts_then_at (fuel : nat) (kvs : list (Z * Z)) :
  (length kvs < fuel)%nat ->
  Z.of_nat (length kvs) < 2 ^ 32 ->
  exists s,
    insert_pairs fuel kvs empty = Ok tt s /\
    (forall key, at_ fuel key s = Ok (first_item kvs key) s) /\
    m_size s = Z.of_nat (length (nodup Z.eq_dec (List.map fst kvs))).
Proof.
  intros Hfuel Hsmall.
  destruct (inserts_from_empty fuel kvs Hfuel)
    as (s & t & Hrun & Hok & Hsz & Hlk & Hks & _).
  exists s. split; [exact Hrun|]. split.
  - intros key. rewrite (at_tree fuel s t key Hok Hsz). rewrite Hlk.
    reflexivity.
  - destruct Hok as (_ & _ & _ & _ & Hbst & _ & Hsize).
    assert (tsize t = length (nodup Z.eq_dec (List.map fst kvs))) as <-.
    { rewrite <- keys_length. apply same_members_length.
      - apply bst_keys_NoDup, Hbst.
      - apply NoDup_nodup.
      - intros x. rewrite Hks, nodup_In. reflexivity. }
    rewrite Hsize. unfold size_t_wrap. apply Z.mod_small.
    assert (length (nodup Z.eq_dec (List.map fst kvs)) <= length kvs)%nat.
    { rewrite <- (length_map fst kvs). apply NoDup_incl_length.
      - apply NoDup_nodup.
      - intros x Hx. apply nodup_In in Hx. exact Hx. }
    assert (tsize t <= length kvs)%nat.
    { rewrite <- keys_length.
      rewrite (same_members_length (keys t)
                 (nodup Z.eq_dec (List.map fst kvs))).
      - assumption.
      - apply bst_keys_NoDup, Hbst.
      - apply NoDup_nodup.
      - intros x. rewrite Hks, nodup_In. reflexivity. }
    lia.
Qed.

(** X11.  On a map built by insertions, [insert] of a key that is already
    there returns false and changes nothing, whatever the item; [insert]
    of a new key returns true. *)
Theorem insert_of_present_key (fuel : nat) (kvs : list (Z * Z)) (key item : Z) :
  (length kvs < fuel)%nat ->
  exists s,
    insert_pairs fuel kvs empty = Ok tt s /\
    (In key (List.map fst kvs) -> insert fuel key item s = Ok false s) /\
    (~ In key (List.map fst kvs) ->
     exists s', insert fuel key item s = Ok true s').
Proof.
  intros Hfuel.
  destruct (inserts_from_empty fuel kvs Hfuel)
    as (s & t & Hrun & Hok & Hsz & Hlk & Hks & _).
  exists s. split; [exact Hrun|].
  destruct (insert_tree fuel s t key item Hok Hsz) as [Hfound Hnew].
  split.
  - intros Hin. apply Hfound, Hks, Hin.
  - intros Hnin. destruct Hnew as (s' & t' & Hrun' & _).
    + intros H. apply Hnin, Hks, H.
    + exists s'. exact Hrun'.
Qed.

(** X12.  On a map built by insertions, [erase] of a key that was never
    inserted returns the size and changes nothing. *)
Theorem erase_of_absent_key (fuel : nat) (kvs : list (Z * Z)) (key : Z) :
  (length kvs < fuel)%nat ->
  ~ In key (List.map fst kvs) ->
  exists s,
    insert_pairs fuel kvs empty = Ok tt s /\
    erase fuel key s = Ok (m_size s) s.
Proof.
  intros Hfuel Hnin.
  destruct (inserts_from_empty fuel kvs Hfuel)
    as (s & t & Hrun & Hok & Hsz & Hlk & Hks & _).
  exists s. split; [exact Hrun|].
  apply (erase_absent fuel s t key Hok); [|exact Hsz].
  intros H. apply Hnin, Hks, H.
Qed.

(** *** Iteration *)

(** The nodes of a tree in key order, each with its key. *)
Fixpoint nodes (t : tree) : list (nat * Z) :=
  match t with
  | E => []
  | T a l k _ r => nodes l ++ (a, k) :: nodes r
  end.

(** Strictly ascending lists of keys. *)
Fixpoint ascending (l : list Z) : Prop :=
  match l with
  | [] => True
  | x :: rest => (forall y, In y rest -> x < y) /\ ascending rest
  end.

Lemma nodes_keys (t : tree) : List.map snd (nodes t) = keys t.
Proof.
  induction t as [|a l IHl k v r IHr]; [reflexivity|].
  cbn [nodes]. rewrite keys_node, List.map_app. cbn [List.map snd].
  rewrite IHl, IHr. reflexivity.
Qed.

Lemma nodes_addrs (t : tree) (x : nat) :
  In x (List.map fst (nodes t)) <-> In x (addrs t).
Proof.
  induction t as [|a l IHl k v r IHr]; [reflexivity|].
  cbn [nodes]. rewrite List.map_app, in_app_iff. cbn [List.map fst In].
  rewrite In_addrs_node, IHl, IHr. intuition congruence.
Qed.

Lemma nodes_lookup (h : gmap nat node_t) (t : tree) :
  forall par x kx,
    repr h par t -> In (x, kx) (nodes t) ->
    exists n, h !! x = Some n /\ fst (content n) = kx.
Proof.
  induction t as [|a l IHl k v r IHr]; intros par x kx Hrep Hin; [destruct Hin|].
  destruct Hrep as (Ha & Hl & Hr). cbn [nodes] in Hin.
  apply in_app_or in Hin. destruct Hin as [Hin|[E'|Hin]].
  - apply (IHl _ _ _ Hl Hin).
  - injection E' as <- <-. eexists. split; [exact Ha|reflexivity].
  - apply (IHr _ _ _ Hr Hin).
Qed.

Lemma ascending_app (l1 l2 : list Z) :
  ascending l1 -> ascending l2 ->
  (forall x y, In x l1 -> In y l2 -> x < y) ->
  ascending (l1 ++ l2).
Proof.
  induction l1 as [|a l1 IH]; intros H1 H2 Hlt; [exact H2|].
  destruct H1 as [Ha H1]. cbn [app ascending]. split.
  - intros y Hy. apply in_app_or in Hy. destruct Hy as [Hy|Hy].
    + apply Ha, Hy.
    + apply Hlt; [left; reflexivity|exact Hy].
  - apply IH; [exact H1|exact H2|].
    intros x y Hx Hy. apply Hlt; [right; exact Hx|exact Hy].
Qed.

Lemma bst_keys_ascending (t : tree) : bst t -> ascending (keys t).
Proof.
  induction t as [|a l IHl k v r IHr]; intros Hbst; [exact I|].
  destruct Hbst as (Hbl & Hbr & Hlk & Hrk).
  rewrite keys_node. apply ascending_app.
  - apply IHl, Hbl.
  - split; [exact Hrk|apply IHr, Hbr].
  - intros x y Hx [<-|Hy]; [apply Hlk, Hx|].
    apply Hlk in Hx. apply Hrk in Hy. lia.
Qed.

(** [min_node] stops at the first node in key order. *)
Lemma min_node_tree (fuel : nat) (s : map_t) :
  forall (t : tree) (par : ptr) (a : nat),
    root_ptr t = Some a ->
    repr (store s) par t ->
    (tsize t <= fuel)%nat ->
    exists m km rest,
      nodes t = (m, km) :: rest /\
      min_node fuel (Some a) s = Ok (Some m) s.
Proof.
  induction fuel as [|fuel IH]; intros t par a Hroot Hrep Hfuel.
  { destruct t; [discriminate|]. rewrite tsize_node in Hfuel. lia. }
  destruct t as [|a' l k v r]; [discriminate|]. injection Hroot as ->.
  destruct Hrep as (Ha & Hl & Hr). rewrite tsize_node in Hfuel.
  cbn [min_node]. run_step get_left_ok. cbn [left_node].
  destruct l as [|c ll lk lv lr].
  - exists a, k, (nodes r). split; reflexivity.
  - cbn [root_ptr is_null negb].
    destruct (IH (T c ll lk lv lr) (Some a) c eq_refl Hl ltac:(lia))
      as (m & km & rest & Hnodes & Hrun).
    exists m, km, (rest ++ (a, k) :: nodes r). split; [|exact Hrun].
    cbn [nodes] in *. rewrite Hnodes. reflexivity.
Qed.

(** Where [operator++] goes from the last node of a subtree that is the
    root of the subtree: to the parent when the node is its left child. *)
Definition climb_to (s : map_t) (par : ptr) (x : nat) : ptr :=
  match par with
  | Some p =>
      match store s !! p with
      | Some np => if ptr_eqb (Some x) (left_node np) then Some p else None
      | None => None
      end
  | None => None
  end.

(** [operator++] in key order: from a node of the tree it goes to the next
    node in key order, or to the end. *)
Lemma next_key_order_tree (fuel : nat) (s : map_t) (t : tree) :
  forall (par : ptr),
    repr (store s) par t ->
    List.NoDup (addrs t) ->
    (forall p, par = Some p -> is_Some (store s !! p)) ->
    (tsize t <= fuel)%nat ->
    forall pre x kx post,
      nodes t = pre ++ (x, kx) :: post ->
      match post with
      | (y, _) :: _ =>
          next_key_order fuel (Some x) s = Ok None s \/
          next_key_order fuel (Some x) s = Ok (Some y) s
      | [] =>
          (root_ptr t = Some x ->
           next_key_order fuel (Some x) s = Ok (climb_to s par x) s) /\
          (root_ptr t <> Some x ->
           next_key_order fuel (Some x) s = Ok None s)
      end.
Proof.
  induction t as [|a l IHl k v r IHr];
    intros par Hrep Hnd Hpar Hfuel pre x kx post Hnodes.
  { destruct pre; discriminate Hnodes. }
  pose proof Hrep as (Ha & Hl & Hr). rewrite tsize_node in Hfuel.
  pose proof Hnd as Hnd'. apply NoDup_node in Hnd'.
  destruct Hnd' as (Hal & Har & Hndl & Hndr & Hdisj).
  assert (forall p, Some a = Some p -> is_Some (store s !! p)) as Hpa.
  { intros p E'. injection E' as <-. eexists. exact Ha. }
  cbn [nodes] in Hnodes. apply app_eq_app in Hnodes.
  destruct Hnodes as [l0 [[Hl0 Hpost]|[Hpre Hr0]]].
  - destruct l0 as [|[x' kx'] l0].
    + (* the root of the subtree *)
      cbn [app] in Hpost. injection Hpost as <- <- ->.
      unfold next_key_order.
      run_step get_right_ok. cbn [right_node].
      run_step get_parent_ok. cbn [parent].
      destruct r as [|c rl rk rv rr].
      * cbn [nodes root_ptr is_null andb]. split; [|congruence]. intros _.
        unfold climb_to. destruct par as [p|].
        -- destruct (Hpar p eq_refl) as [np Hnp]. rewrite Hnp.
           cbn [is_null negb]. rewrite bind_assoc.
           run_step get_left_ok. unfold ret at 1.
           erewrite bind_ok by reflexivity. cbv beta.
           destruct (ptr_eqb (Some x) (left_node np)); reflexivity.
        -- reflexivity.
      * cbn [root_ptr is_null andb negb].
        erewrite bind_ok by reflexivity. cbv beta iota.
        destruct (min_node_tree fuel s (T c rl rk rv rr) (Some x) c eq_refl Hr
                    ltac:(lia)) as (m & km & rest & Hn & Hrun).
        rewrite Hn. right. exact Hrun.
    + (* a node of the left subtree *)
      cbn [app] in Hpost. injection Hpost as <- <- ->.
      specialize (IHl (Some a) Hl Hndl Hpa ltac:(lia) pre x kx l0 Hl0).
      destruct l0 as [|[y ky] l0].
      * cbn [app]. destruct IHl as [Hroot Hother].
        destruct (decide (root_ptr l = Some x)) as [E'|Hne].
        -- right. rewrite (Hroot E'). unfold climb_to. rewrite Ha.
           cbn [left_node]. rewrite E'.
           rewrite (proj2 (ptr_eqb_eq _ _) eq_refl). reflexivity.
        -- left. apply Hother, Hne.
      * cbn [app]. exact IHl.
  - destruct l0 as [|[a' k'] l0].
    + (* the root of the subtree, again *)
      cbn [app] in Hr0. injection Hr0 as -> -> Hr0.
      rewrite app_nil_r in Hpre. subst pre. rewrite <- Hr0. clear Hr0.
      unfold next_key_order.
      run_step get_right_ok. cbn [right_node].
      run_step get_parent_ok. cbn [parent].
      destruct r as [|c rl rk rv rr].
      * cbn [nodes root_ptr is_null andb]. split; [|congruence]. intros _.
        unfold climb_to. destruct par as [p|].
        -- destruct (Hpar p eq_refl) as [np Hnp]. rewrite Hnp.
           cbn [is_null negb]. rewrite bind_assoc.
           run_step get_left_ok. unfold ret at 1.
           erewrite bind_ok by reflexivity. cbv beta.
           destruct (ptr_eqb (Some x) (left_node np)); reflexivity.
        -- reflexivity.
      * cbn [root_ptr is_null andb negb].
        erewrite bind_ok by reflexivity. cbv beta iota.
        destruct (min_node_tree fuel s (T c rl rk rv rr) (Some x) c eq_refl Hr
                    ltac:(lia)) as (m & km & rest & Hn & Hrun).
        rewrite Hn. right. exact Hrun.
    + (* a node of the right subtree *)
      cbn [app] in Hr0. injection Hr0 as <- <- Hr0.
      specialize (IHr (Some a) Hr Hndr Hpa ltac:(lia) l0 x kx post Hr0).
      assert (In x (addrs r)) as Hxr.
      { apply nodes_addrs. rewrite Hr0, List.map_app. apply in_or_app.
        right. left. reflexivity. }
      destruct post as [|[y ky] post]; [|exact IHr].
      destruct IHr as [Hroot Hother].
      assert (next_key_order fuel (Some x) s = Ok None s) as Hnone.
      { destruct (decide (root_ptr r = Some x)) as [E'|Hne].
        - rewrite (Hroot E'). unfold climb_to. rewrite Ha. cbn [left_node].
          destruct (ptr_eqb (Some x) (root_ptr l)) eqn:Heq; [|reflexivity].
          apply ptr_eqb_eq in Heq. symmetry in Heq.
          apply root_in_addrs in Heq. exfalso. exact (Hdisj x Heq Hxr).
        - apply Hother, Hne. }
      split; [|intros _; exact Hnone].
      cbn [root_ptr]. intros E'. injection E' as ->. contradiction.
Qed.

(** The keys a loop [for (it = x; it != end(); ++it)] visits from a node
    of the map: an initial segment of the keys that follow in key order,
    starting with the key of the node. *)
Lemma keys_from_tree (fuel0 : nat) (s : map_t) (t : tree) :
  repr (store s) None t ->
  List.NoDup (addrs t) ->
  (tsize t <= fuel0)%nat ->
  forall (fuel : nat) pre x kx post,
    nodes t = pre ++ (x, kx) :: post ->
    (length post + 2 <= fuel)%nat ->
    exists ks rest,
      keys_from fuel (next_key_order fuel0) (Some x) s = Ok (kx :: ks) s /\
      List.map snd post = ks ++ rest.
Proof.
  intros Hrep Hnd Hfuel0.
  induction fuel as [|fuel IH]; intros pre x kx post Hnodes Hfuel; [lia|].
  destruct (nodes_lookup (store s) t None x kx Hrep) as (n & Hn & Hkey).
  { rewrite Hnodes. apply in_or_app. right. left. reflexivity. }
  cbn [keys_from is_null].
  run_step get_key_ok. rewrite Hkey.
  pose proof (next_key_order_tree fuel0 s t None Hrep Hnd
                ltac:(discriminate) Hfuel0 pre x kx post Hnodes) as Hnext.
  assert (keys_from fuel (next_key_order fuel0) None s = Ok [] s) as Hend.
  { destruct fuel; [lia|reflexivity]. }
  destruct post as [|[y ky] post].
  - exists [], []. split; [|reflexivity].
    assert (next_key_order fuel0 (Some x) s = Ok None s) as Hnone.
    { destruct Hnext as [Hroot Hother].
      destruct (decide (root_ptr t = Some x)) as [E'|Hne].
      - rewrite (Hroot E'). reflexivity.
      - apply Hother, Hne. }
    erewrite bind_ok by exact Hnone. cbv beta.
    erewrite bind_ok by exact Hend. reflexivity.
  - destruct Hnext as [Hnone|Hsucc].
    + exists [], (List.map snd ((y, ky) :: post)). split; [|reflexivity].
      erewrite bind_ok by exact Hnone. cbv beta.
      erewrite bind_ok by exact Hend. reflexivity.
    + cbn [length] in Hfuel.
      destruct (IH (pre ++ [(x, kx)]) y ky post) as (ks & rest & Hrun & Hsplit).
      { rewrite Hnodes, <- app_assoc. reflexivity. }
      { lia. }
      exists (ky :: ks), rest. split.
      * erewrite bind_ok by exact Hsucc. cbv beta.
        erewrite bind_ok by exact Hrun. reflexivity.
      * cbn [List.map snd app]. rewrite Hsplit. reflexivity.
Qed.

Lemma forward_keys_tree (fuel : nat) (s : map_t) (t : tree) :
  map_ok s t ->
  root_ptr t <> None ->
  (tsize t < fuel)%nat ->
  exists k ks rest,
    forward_keys fuel s = Ok (k :: ks) s /\
    keys t = (k :: ks) ++ rest.
Proof.
  intros (Hrep & Hroot & Hnd & _) Hne Hfuel.
  destruct (root_ptr t) as [a|] eqn:Ha; [clear Hne|congruence].
  destruct (min_node_tree fuel s t None a Ha Hrep ltac:(lia))
    as (m & km & post & Hnodes & Hmin).
  destruct (keys_from_tree fuel s t Hrep Hnd ltac:(lia) fuel [] m km post
              Hnodes) as (ks & rest & Hrun & Hsplit).
  { assert (length (nodes t) = tsize t) as Hlen.
    { rewrite <- keys_length, <- nodes_keys, length_map. reflexivity. }
    rewrite Hnodes in Hlen. cbn [length] in Hlen. lia. }
  exists km, ks, rest. split.
  - unfold forward_keys, begin. rewrite bind_assoc.
    erewrite bind_ok by reflexivity. cbv beta. rewrite Hroot.
    erewrite bind_ok by exact Hmin. exact Hrun.
  - rewrite <- nodes_keys, Hnodes. cbn [List.map snd app].
    rewrite Hsplit. reflexivity.
Qed.

(** [max_node] stops at the last node in key order. *)
Lemma max_node_tree (fuel : nat) (s : map_t) :
  forall (t : tree) (par : ptr) (a : nat),
    root_ptr t = Some a ->
    repr (store s) par t ->
    (tsize t <= fuel)%nat ->
    exists m km front,
      nodes t = front ++ [(m, km)] /\
      max_node fuel (Some a) s = Ok (Some m) s.
Proof.
  induction fuel as [|fuel IH]; intros t par a Hroot Hrep Hfuel.
  { destruct t; [discriminate|]. rewrite tsize_node in Hfuel. lia. }
  destruct t as [|a' l k v r]; [discriminate|]. injection Hroot as ->.
  destruct Hrep as (Ha & Hl & Hr). rewrite tsize_node in Hfuel.
  cbn [max_node]. run_step get_right_ok. cbn [right_node].
  destruct r as [|c rl rk rv rr].
  - exists a, k, (nodes l). split; reflexivity.
  - cbn [root_ptr is_null negb].
    destruct (IH (T c rl rk rv rr) (Some a) c eq_refl Hr ltac:(lia))
      as (m & km & front & Hnodes & Hrun).
    exists m, km, (nodes l ++ (a, k) :: front). split; [|exact Hrun].
    cbn [nodes] in *. rewrite Hnodes, <- app_assoc. reflexivity.
Qed.

Definition climb_to_right (s : map_t) (par : ptr) (x : nat) : ptr :=
  match par with
  | Some p =>
      match store s !! p with
      | Some np => if ptr_eqb (Some x) (right_node np) then Some p else None
      | None => None
      end
  | None => None
  end.

(** [operator++] in reverse key order: from a node of the tree it goes to
    the previous node in key order, or to the end. *)
Lemma next_key_reverse_order_tree (fuel : nat) (s : map_t) (t : tree) :
  forall (par : ptr),
    repr (store s) par t ->
    List.NoDup (addrs t) ->
    (forall p, par = Some p -> is_Some (store s !! p)) ->
    (tsize t <= fuel)%nat ->
    forall pre x kx post,
      nodes t = pre ++ (x, kx) :: post ->
      match rev pre with
      | (y, _) :: _ =>
          next_key_reverse_order fuel (Some x) s = Ok None s \/
          next_key_reverse_order fuel (Some x) s = Ok (Some y) s
      | [] =>
          (root_ptr t = Some x ->
           next_key_reverse_order fuel (Some x) s
           = Ok (climb_to_right s par x) s) /\
          (root_ptr t <> Some x ->
           next_key_reverse_order fuel (Some x) s = Ok None s)
      end.
Proof.
  induction t as [|a l IHl k v r IHr];
    intros par Hrep Hnd Hpar Hfuel pre x kx post Hnodes.
  { destruct pre; discriminate Hnodes. }
  pose proof Hrep as (Ha & Hl & Hr). rewrite tsize_node in Hfuel.
  pose proof Hnd as Hnd'. apply NoDup_node in Hnd'.
  destruct Hnd' as (Hal & Har & Hndl & Hndr & Hdisj).
  assert (forall p, Some a = Some p -> is_Some (store s !! p)) as Hpa.
  { intros p E'. injection E' as <-. eexists. exact Ha. }
  assert (nodes l = pre -> (x, kx) = (a, k) ->
          match rev pre with
          | (y, _) :: _ =>
              next_key_reverse_order fuel (Some x) s = Ok None s \/
              next_key_reverse_order fuel (Some x) s = Ok (Some y) s
          | [] =>
              (root_ptr (T a l k v r) = Some x ->
               next_key_reverse_order fuel (Some x) s
               = Ok (climb_to_right s par x) s) /\
              (root_ptr (T a l k v r) <> Some x ->
               next_key_reverse_order fuel (Some x) s = Ok None s)
          end) as Hat_root.
  { intros <- E'. injection E' as -> ->.
    unfold next_key_reverse_order.
    run_step get_left_ok. cbn [left_node].
    run_step get_parent_ok. cbn [parent].
    destruct l as [|c ll lk lv lr].
    - cbn [nodes rev root_ptr is_null andb]. split; [|congruence]. intros _.
      unfold climb_to_right. destruct par as [p|].
      + destruct (Hpar p eq_refl) as [np Hnp]. rewrite Hnp.
        cbn [is_null negb]. rewrite bind_assoc.
        run_step get_right_ok. unfold ret at 1.
        erewrite bind_ok by reflexivity. cbv beta.
        destruct (ptr_eqb (Some a) (right_node np)); reflexivity.
      + reflexivity.
    - cbn [root_ptr is_null andb negb].
      erewrite bind_ok by reflexivity. cbv beta iota.
      destruct (max_node_tree fuel s (T c ll lk lv lr) (Some a) c eq_refl Hl
                  ltac:(lia)) as (m & km & front & Hn & Hrun).
      rewrite Hn, rev_app_distr. cbn [rev app]. right. exact Hrun. }
  cbn [nodes] in Hnodes. apply app_eq_app in Hnodes.
  destruct Hnodes as [l0 [[Hl0 Hpost]|[Hpre Hr0]]].
  - destruct l0 as [|[x' kx'] l0].
    + cbn [app] in Hpost. injection Hpost as Ex Ek _.
      rewrite app_nil_r in Hl0. apply Hat_root; [exact Hl0|congruence].
    + (* a node of the left subtree *)
      cbn [app] in Hpost. injection Hpost as <- <- ->.
      specialize (IHl (Some a) Hl Hndl Hpa ltac:(lia) pre x kx l0 Hl0).
      assert (In x (addrs l)) as Hxl.
      { apply nodes_addrs. rewrite Hl0, List.map_app. apply in_or_app.
        right. left. reflexivity. }
      destruct (rev pre) as [|[y ky] rp]; [|exact IHl].
      destruct IHl as [Hroot Hother].
      assert (next_key_reverse_order fuel (Some x) s = Ok None s) as Hnone.
      { destruct (decide (root_ptr l = Some x)) as [E'|Hne].
        - rewrite (Hroot E'). unfold climb_to_right. rewrite Ha.
          cbn [right_node].
          destruct (ptr_eqb (Some x) (root_ptr r)) eqn:Heq; [|reflexivity].
          apply ptr_eqb_eq in Heq. symmetry in Heq.
          apply root_in_addrs in Heq. exfalso. exact (Hdisj x Hxl Heq).
        - apply Hother, Hne. }
      split; [|intros _; exact Hnone].
      cbn [root_ptr]. intros E'. injection E' as ->. contradiction.
  - destruct l0 as [|[a' k'] l0].
    + cbn [app] in Hr0. injection Hr0 as Ex Ek _.
      rewrite app_nil_r in Hpre. apply Hat_root; [congruence|congruence].
    + (* a node of the right subtree *)
      cbn [app] in Hr0. injection Hr0 as <- <- Hr0.
      specialize (IHr (Some a) Hr Hndr Hpa ltac:(lia) l0 x kx post Hr0).
      subst pre. rewrite rev_app_distr. cbn [rev]. rewrite <- app_assoc.
      cbn [app]. destruct (rev l0) as [|[y ky] rp].
      * cbn [app]. destruct IHr as [Hroot Hother].
        destruct (decide (root_ptr r = Some x)) as [E'|Hne].
        -- right. rewrite (Hroot E'). unfold climb_to_right. rewrite Ha.
           cbn [right_node]. rewrite E'.
           rewrite (proj2 (ptr_eqb_eq _ _) eq_refl). reflexivity.
        -- left. apply Hother, Hne.
      * cbn [app]. exact IHr.
Qed.

Lemma keys_from_tree_reverse (fuel0 : nat) (s : map_t) (t : tree) :
  repr (store s) None t ->
  List.NoDup (addrs t) ->
  (tsize t <= fuel0)%nat ->
  forall (fuel : nat) pre x kx post,
    nodes t = pre ++ (x, kx) :: post ->
    (length pre + 2 <= fuel)%nat ->
    exists ks rest,
      keys_from fuel (next_key_reverse_order fuel0) (Some x) s
      = Ok (kx :: ks) s /\
      List.map snd (rev pre) = ks ++ rest.
Proof.
  intros Hrep Hnd Hfuel0.
  induction fuel as [|fuel IH]; intros pre x kx post Hnodes Hfuel; [lia|].
  destruct (nodes_lookup (store s) t None x kx Hrep) as (n & Hn & Hkey).
  { rewrite Hnodes. apply in_or_app. right. left. reflexivity. }
  cbn [keys_from is_null].
  run_step get_key_ok. rewrite Hkey.
  pose proof (next_key_reverse_order_tree fuel0 s t None Hrep Hnd
                ltac:(discriminate) Hfuel0 pre x kx post Hnodes) as Hnext.
  assert (keys_from fuel (next_key_reverse_order fuel0) None s = Ok [] s)
    as Hend.
  { destruct fuel; [lia|reflexivity]. }
  destruct (rev pre) as [|[y ky] rp] eqn:Hrev.
  - exists [], []. split; [|reflexivity].
    assert (next_key_reverse_order fuel0 (Some x) s = Ok None s) as Hnone.
    { destruct Hnext as [Hroot Hother].
      destruct (decide (root_ptr t = Some x)) as [E'|Hne].
      - rewrite (Hroot E'). reflexivity.
      - apply Hother, Hne. }
    erewrite bind_ok by exact Hnone. cbv beta.
    erewrite bind_ok by exact Hend. reflexivity.
  - destruct Hnext as [Hnone|Hsucc].
    + exists [], (List.map snd ((y, ky) :: rp)). split; [|reflexivity].
      erewrite bind_ok by exact Hnone. cbv beta.
      erewrite bind_ok by exact Hend. reflexivity.
    + assert (pre = rev rp ++ [(y, ky)]) as Hpre.
      { rewrite <- (rev_involutive pre), Hrev. reflexivity. }
      destruct (IH (rev rp) y ky ((x, kx) :: post)) as (ks & rest & Hrun & Hsplit).
      { rewrite Hnodes, Hpre, <- app_assoc. reflexivity. }
      { rewrite Hpre, length_app in Hfuel. cbn [length] in Hfuel. lia. }
      exists (ky :: ks), rest. split.
      * erewrite bind_ok by exact Hsucc. cbv beta.
        erewrite bind_ok by exact Hrun. reflexivity.
      * cbn [List.map snd app]. rewrite rev_involutive in Hsplit.
        rewrite Hsplit. reflexivity.
Qed.

Lemma reverse_keys_tree (fuel : nat) (s : map_t) (t : tree) :
  map_ok s t ->
  root_ptr t <> None ->
  (tsize t < fuel)%nat ->
  exists k ks rest,
    reverse_keys fuel s = Ok (k :: ks) s /\
    rev (keys t) = (k :: ks) ++ rest.
Proof.
  intros (Hrep & Hroot & Hnd & _) Hne Hfuel.
  destruct (root_ptr t) as [a|] eqn:Ha; [clear Hne|congruence].
  destruct (max_node_tree fuel s t None a Ha Hrep ltac:(lia))
    as (m & km & front & Hnodes & Hmax).
  destruct (keys_from_tree_reverse fuel s t Hrep Hnd ltac:(lia) fuel front m km
              [] Hnodes) as (ks & rest & Hrun & Hsplit).
  { assert (length (nodes t) = tsize t) as Hlen.
    { rewrite <- keys_length, <- nodes_keys, length_map. reflexivity. }
    rewrite Hnodes, length_app in Hlen. cbn [length] in Hlen. lia. }
  exists km, ks, rest. split.
  - unfold reverse_keys, rbegin. rewrite bind_assoc.
    erewrite bind_ok by reflexivity. cbv beta. rewrite Hroot.
    erewrite bind_ok by exact Hmax. exact Hrun.
  - rewrite <- nodes_keys, Hnodes, List.map_app, rev_app_distr.
    cbn [List.map snd rev app]. rewrite <- map_rev, Hsplit. reflexivity.
Qed.

(** [begin()] and [rbegin()] on a map without a root read the links of a
    null node. *)
Lemma iteration_of_empty_map (fuel : nat) (s : map_t) :
  m_root s = None ->
  forward_keys (S fuel) s = Fault /\ reverse_keys (S fuel) s = Fault.
Proof.
  intros Hroot. unfold forward_keys, reverse_keys, begin, rbegin.
  rewrite !bind_assoc. unfold bind, gets. rewrite Hroot. split; reflexivity.
Qed.

(** X13.  On a map built by insertions, a loop from [begin()] to [end()]
    visits a non-empty initial segment of the stored keys in ascending
    order, starting with the smallest, and a loop from [rbegin()] to
    [rend()] a non-empty initial segment in descending order, starting
    with the largest: no key is visited twice or out of order, but the
    loops may stop before the last key.  On the empty map both loops read
    through a null pointer. *)
Theorem iteration_visits_initial_segment (fuel : nat) (kvs : list (Z * Z)) :
  (length kvs < fuel)%nat ->
  exists s,
    insert_pairs fuel kvs empty = Ok tt s /\
    match kvs with
    | [] => forward_keys fuel s = Fault /\ reverse_keys fuel s = Fault
    | _ :: _ =>
        exists sorted,
          ascending sorted /\
          (forall x, In x sorted <-> In x (List.map fst kvs)) /\
          (exists k ks rest,
             forward_keys fuel s = Ok (k :: ks) s /\
             sorted = (k :: ks) ++ rest) /\
          (exists k ks rest,
             reverse_keys fuel s = Ok (k :: ks) s /\
             rev sorted = (k :: ks) ++ rest)
    end.
Proof.
  intros Hfuel.
  destruct (inserts_from_empty fuel kvs Hfuel)
    as (s & t & Hrun & Hok & Hsz & Hlk & Hks & _).
  exists s. split; [exact Hrun|].
  destruct kvs as [|kv kvs].
  - injection Hrun as <-. destruct fuel as [|fuel]; [lia|].
    apply iteration_of_empty_map. reflexivity.
  - assert (root_ptr t <> None) as Hne.
    { destruct t; [|discriminate]. exfalso.
      apply (proj2 (Hks (fst kv))). left. reflexivity. }
    exists (keys t). split; [apply bst_keys_ascending, Hok|].
    split; [exact Hks|]. split.
    + apply (forward_keys_tree fuel s t Hok Hne Hsz).
    + apply (reverse_keys_tree fuel s t Hok Hne Hsz).
Qed.

Lemma tlookup_ext (t t' : tree) (key : Z) :
  bst t -> bst t' ->
  (forall kv, In kv (elems t') <-> In kv (elems t)) ->
  tlookup t' key = tlookup t key.
Proof.
  intros Hbst Hbst' Hsame.
  destruct (tlookup t key) as [w|] eqn:E'.
  - apply (tlookup_elems t' key w Hbst'), Hsame,
      (tlookup_elems t key w Hbst), E'.
  - apply (tlookup_keys t' key Hbst'). rewrite In_keys. intros [w Hw].
    apply Hsame in Hw. apply (tlookup_keys t key Hbst) in E'. apply E'.
    apply In_keys. exists w. exact Hw.
Qed.

(** X17.  On a map built by insertions of at least one and fewer than
    2^15 - 1 pairs, the insertion of a new key followed by [erase] of that
    key gives the map back: [insert] returns true and [at] finds the item,
    [erase] returns the size the map had before, and afterwards [at] is,
    for every key, what it was before the insertion. *)
Theorem insert_then_erase (fuel : nat) (kvs : list (Z * Z)) (key item : Z) :
  kvs <> [] ->
  ~ In key (List.map fst kvs) ->
  (S (length kvs) < fuel)%nat ->
  Z.of_nat (length kvs) + 1 < 2 ^ 15 ->
  exists s s1 s2,
    insert_pairs fuel kvs empty = Ok tt s /\
    insert fuel key item s = Ok true s1 /\
    at_ fuel key s1 = Ok (Some item) s1 /\
    erase fuel key s1 = Ok (m_size s) s2 /\
    m_size s2 = m_size s /\
    (forall key', at_ fuel key' s = Ok (first_item kvs key') s) /\
    (forall key', at_ fuel key' s2 = Ok (first_item kvs key') s2).
Proof.
  intros Hne Hnin Hfuel Hsmall.
  destruct (inserts_from_empty fuel kvs ltac:(lia))
    as (s & t & Hrun & Hok & Hsz & Hlk & Hks & Hlen).
  assert (~ In key (keys t)) as Hnk by (intros H; apply Hnin, Hks, H).
  destruct (insert_tree fuel s t key item Hok Hsz) as [_ Hnew].
  destruct (Hnew Hnk) as (s1 & t1 & Hrun1 & Hok1 & Helem1 & Hsize1 & Hleaf1).
  specialize (Hleaf1 ltac:(lia)).
  assert (0 < tsize t)%nat as Hpos.
  { destruct kvs as [|kv kvs]; [congruence|].
    destruct t; [|rewrite tsize_node; lia]. exfalso.
    apply (proj2 (Hks (fst kv))). left. reflexivity. }
  assert (~ root_key_is t1 key) as Hnotroot.
  { destruct t1 as [|a l k v r]; [destruct Hleaf1|]. intros E'.
    cbn [root_key_is] in E'. subst k. cbn [key_leaf] in Hleaf1.
    rewrite Z.eqb_refl in Hleaf1. destruct Hleaf1 as [-> ->].
    rewrite tsize_node in Hsize1. cbn [tsize addrs length] in Hsize1. lia. }
  destruct (erase_leaf fuel s1 t1 key Hok1 Hleaf1 Hnotroot ltac:(lia))
    as (s2 & t2 & Hrun2 & Hok2 & Helem2 & Hsize2).
  assert (bst t) as Hbst by apply Hok.
  assert (bst t1) as Hbst1 by apply Hok1.
  assert (bst t2) as Hbst2 by apply Hok2.
  assert (m_size s2 = m_size s) as Hms.
  { destruct Hok as (_ & _ & _ & _ & _ & _ & ->).
    destruct Hok2 as (_ & _ & _ & _ & _ & _ & ->).
    f_equal. lia. }
  exists s, s1, s2. split; [exact Hrun|]. split; [exact Hrun1|].
  split; [|split; [|split; [exact Hms|split]]].
  - rewrite (at_tree fuel s1 t1 key Hok1 ltac:(lia)). f_equal.
    apply (tlookup_elems t1 key item Hbst1), Helem1. left. reflexivity.
  - rewrite <- Hms. exact Hrun2.
  - intros key'. rewrite (at_tree fuel s t key' Hok Hsz), Hlk. reflexivity.
  - intros key'. rewrite (at_tree fuel s2 t2 key' Hok2 ltac:(lia)).
    rewrite <- Hlk. f_equal. apply (tlookup_ext t t2 key' Hbst Hbst2).
    intros kv. rewrite Helem2, Helem1. split.
    + intros [[->|H] Hne']; [exfalso; apply Hne'; reflexivity|exact H].
    + intros H. split; [right; exact H|].
      intros E'. apply Hnk. rewrite <- E'. apply In_elems_keys, H.
Qed.

End MapInsert.

Lemma inserts_then_at_witness :
  (length [(3, 30); (1, 10); (2, 20); (3, 99); (0, 5)] < 6)%nat /\
  Z.of_nat (length [(3, 30); (1, 10); (2, 20); (3, 99); (0, 5)]) < 2 ^ 32 /\
  exists s,
    insert_pairs 6 [(3, 30); (1, 10); (2, 20); (3, 99); (0, 5)] map.empty
    = Ok tt s /\
    (forall key,
       map.at_ 6 key s
       = Ok (first_item [(3, 30); (1, 10); (2, 20); (3, 99); (0, 5)] key) s) /\
    map.m_size s
    = Z.of_nat (length (nodup Z.eq_dec
                          (List.map fst
                             [(3, 30); (1, 10); (2, 20); (3, 99); (0, 5)]))).
Proof.
  split; [simpl; lia|]. split; [vm_compute; reflexivity|].
  apply (inserts_then_at 6 [(3, 30); (1, 10); (2, 20); (3, 99); (0, 5)]).
  - simpl. lia.
  - vm_compute. reflexivity.
Defined.

Lemma insert_of_present_key_witness :
  (length [(3, 30); (1, 10); (2, 20)] < 4)%nat /\
  In 1 (List.map fst [(3, 30); (1, 10); (2, 20)]) /\
  exists s,
    insert_pairs 4 [(3, 30); (1, 10); (2, 20)] map.empty = Ok tt s /\
    (In 1 (List.map fst [(3, 30); (1, 10); (2, 20)]) ->
     map.insert 4 1 77 s = Ok false s) /\
    (~ In 1 (List.map fst [(3, 30); (1, 10); (2, 20)]) ->
     exists s', map.insert 4 1 77 s = Ok true s').
Proof.
  split; [simpl; lia|]. split; [simpl; tauto|].
  apply (insert_of_present_key 4 [(3, 30); (1, 10); (2, 20)] 1 77).
  simpl. lia.
Defined.

Lemma erase_of_absent_key_witness :
  (length [(3, 30); (1, 10); (2, 20)] < 4)%nat /\
  ~ In 7 (List.map fst [(3, 30); (1, 10); (2, 20)]) /\
  exists s,
    insert_pairs 4 [(3, 30); (1, 10); (2, 20)] map.empty = Ok tt s /\
    map.erase 4 7 s = Ok (map.m_size s) s.
Proof.
  assert (~ In 7 (List.map fst [(3, 30); (1, 10); (2, 20)])) as Hnot.
  { simpl. intros [H|[H|[H|[]]]]; discriminate H. }
  split; [simpl; lia|]. split; [exact Hnot|].
  apply (erase_of_absent_key 4 [(3, 30); (1, 10); (2, 20)] 7).
  - simpl. lia.
  - exact Hnot.
Defined.

Lemma iteration_visits_initial_segment_witness :
  (length [(10, 100); (5, 50); (15, 150); (3, 30); (7, 70)] < 6)%nat /\
  exists s,
    insert_pairs 6 [(10, 100); (5, 50); (15, 150); (3, 30); (7, 70)] map.empty
    = Ok tt s /\
    exists sorted,
      ascending sorted /\
      (forall x, In x sorted <->
                 In x (List.map fst
                         [(10, 100); (5, 50); (15, 150); (3, 30); (7, 70)])) /\
      (exists k ks rest,
         map.forward_keys 6 s = Ok (k :: ks) s /\
         sorted = (k :: ks) ++ rest) /\
      (exists k ks rest,
         map.reverse_keys 6 s = Ok (k :: ks) s /\
         rev sorted = (k :: ks) ++ rest).
Proof.
  split; [simpl; lia|].
  apply (iteration_visits_initial_segment 6
           [(10, 100); (5, 50); (15, 150); (3, 30); (7, 70)]).
  simpl. lia.
Defined.

(** ** [abs], [modulo] and [modulo2] of math.hpp, for [T = int] *)

Module math.

Definition int_min : Z := - 2 ^ 31.
Definition int_max : Z := 2 ^ 31 - 1.

(** What a call does: it returns a value, throws [value_exception],
    evaluates an [int] expression whose value is not an [int], or is still
    in a loop when the fuel is used up. *)
Inductive result : Type :=
| Return (z : Z)
| Throw
| Overflow
| Timeout.

(** [-nb] *)
Definition neg (nb : Z) : result :=
  if nb =? int_min then Overflow else Return (- nb).

(** [abs]: [return nb > 0 ? nb : -nb;] *)
Definition abs (nb : Z) : result :=
  if nb >? 0 then Return nb else neg nb.

(** [while (nb > mod) nb -= mod;], the modulus written [md] *)
Fixpoint modulo_loop (fuel : nat) (nb md : Z) : result :=
  match fuel with
  | O => Timeout
  | S fuel =>
      if nb >? md then
        if nb - md <? int_min then Overflow
        else modulo_loop fuel (nb - md) md
      else Return nb
  end.

(** [modulo] *)
Definition modulo (fuel : nat) (nb md : Z) : result :=
  match abs md with
  | Return md =>
      if nb <? 0 then
        match neg nb with
        | Return nb =>
            match modulo_loop fuel nb md with
            | Return nb => neg nb
            | r => r
            end
        | r => r
        end
      else modulo_loop fuel nb md
  | r => r
  end.

(** [modHigh - modLow] *)
Definition width (modLow modHigh : Z) : result :=
  if (modHigh - modLow >? int_max) || (modHigh - modLow <? int_min)
  then Overflow else Return (modHigh - modLow).

(** [while (nb < modLow) nb += modHigh - modLow;] *)
Fixpoint modulo2_up (fuel : nat) (nb modLow modHigh : Z) : result :=
  match fuel with
  | O => Timeout
  | S fuel =>
      if nb <? modLow then
        match width modLow modHigh with
        | Return w =>
            if nb + w >? int_max then Overflow
            else modulo2_up fuel (nb + w) modLow modHigh
        | r => r
        end
      else Return nb
  end.

(** [while (nb >= modHigh) nb -= modHigh - modLow;] *)
Fixpoint modulo2_down (fuel : nat) (nb modLow modHigh : Z) : result :=
  match fuel with
  | O => Timeout
  | S fuel =>
      if nb >=? modHigh then
        match width modLow modHigh with
        | Return w =>
            if nb - w <? int_min then Overflow
            else modulo2_down fuel (nb - w) modLow modHigh
        | r => r
        end
      else Return nb
  end.

(** [modulo2] *)
Definition modulo2 (fuel : nat) (nb modLow modHigh : Z) : result :=
  if modLow >=? modHigh then Throw
  else if nb <? modLow then modulo2_up fuel nb modLow modHigh
  else modulo2_down fuel nb modLow modHigh.

Definition is_int (z : Z) : Prop := int_min <= z <= int_max.

End math.

Section MathFacts.

Import math.

Lemma modulo_loop_spec (fuel : nat) :
  forall nb m,
    0 < m -> 0 < nb -> (Z.to_nat nb < fuel)%nat ->
    modulo_loop fuel nb m = Return ((nb - 1) mod m + 1).
Proof.
  induction fuel as [|fuel IH]; intros nb m Hm Hnb Hfuel; [lia|].
  cbn [modulo_loop].
  destruct (Z.gtb_spec nb m) as [Hgt|Hle].
  - unfold int_min. destruct (Z.ltb_spec (nb - m) (- 2 ^ 31)) as [Hov|_]; [lia|].
    rewrite IH by lia. f_equal. f_equal.
    replace (nb - m - 1) with (nb - 1 + (-1) * m) by lia.
    apply Z_mod_plus_full.
  - rewrite Z.mod_small by lia. f_equal. lia.
Qed.

Lemma modulo_loop_zero (fuel : nat) (nb : Z) :
  0 < nb -> is_int nb -> modulo_loop fuel nb 0 = Timeout.
Proof.
  intros Hnb [Hlo _]. induction fuel as [|fuel IH]; [reflexivity|].
  cbn [modulo_loop].
  destruct (Z.gtb_spec nb 0) as [_|Hle]; [|lia].
  rewrite Z.sub_0_r.
  destruct (Z.ltb_spec nb int_min) as [Hov|_]; [lia|]. exact IH.
Qed.

(** X14.  [modulo] on [int]s other than [INT_MIN]: with a modulus that is
    not zero the call returns; the result is zero for zero, and otherwise
    it has the sign of [nb] and its absolute value is the number congruent
    to [|nb|] in the range from 1 to [|mod|], so a non-zero multiple of
    [mod] gives [|mod|] and not zero.  With the modulus zero and [nb] not
    zero the loop never ends. *)
Theorem modulo_value (fuel : nat) (nb md : Z) :
  is_int nb -> is_int md -> nb <> int_min -> md <> int_min ->
  (Z.to_nat (Z.abs nb) < fuel)%nat ->
  (md <> 0 ->
   modulo fuel nb md
   = Return (if nb =? 0 then 0
             else Z.sgn nb * ((Z.abs nb - 1) mod Z.abs md + 1))) /\
  (md = 0 -> nb <> 0 -> forall fuel', modulo fuel' nb md = Timeout).
Proof.
  unfold is_int, int_min, int_max.
  intros Hnb Hmod Hnb_min Hmod_min Hfuel.
  assert (math.abs md = Return (Z.abs md)) as Habs.
  { unfold math.abs, neg, int_min.
    destruct (Z.gtb_spec md 0) as [Hpos|Hneg].
    - rewrite Z.abs_eq by lia. reflexivity.
    - destruct (Z.eqb_spec md (- 2 ^ 31)) as [E|_]; [contradiction|].
      rewrite Z.abs_neq by lia. reflexivity. }
  split.
  - intros Hne. unfold modulo. rewrite Habs.
    destruct (Z.ltb_spec nb 0) as [Hneg|Hpos].
    + unfold neg at 1, int_min.
      destruct (Z.eqb_spec nb (- 2 ^ 31)) as [E|_]; [contradiction|].
      rewrite modulo_loop_spec by lia.
      unfold neg, int_min.
      assert (0 <= (- nb - 1) mod Z.abs md < Z.abs md) as Hrange
          by (apply Z.mod_pos_bound; lia).
      destruct (Z.eqb_spec ((- nb - 1) mod Z.abs md + 1) (- 2 ^ 31)) as [E|_];
        [lia|].
      destruct (Z.eqb_spec nb 0) as [E|_]; [lia|].
      rewrite Z.sgn_neg by lia. rewrite (Z.abs_neq nb) by lia.
      f_equal; lia.
    + destruct (Z.eqb_spec nb 0) as [->|Hnz].
      * destruct fuel; [simpl in Hfuel; lia|]. cbn [modulo_loop].
        destruct (Z.gtb_spec 0 (Z.abs md)) as [H|_]; [lia|reflexivity].
      * rewrite modulo_loop_spec by lia.
        rewrite Z.sgn_pos by lia. rewrite (Z.abs_eq nb) by lia.
        f_equal; lia.
  - intros -> Hnz fuel'. unfold modulo.
    change (math.abs 0) with (Return 0). cbv iota.
    destruct (Z.ltb_spec nb 0) as [Hneg|Hpos].
    + unfold neg at 1, int_min.
      destruct (Z.eqb_spec nb (- 2 ^ 31)) as [E|_]; [contradiction|].
      rewrite modulo_loop_zero; [reflexivity|lia|unfold is_int, int_min, int_max; lia].
    + apply modulo_loop_zero; [lia|unfold is_int, int_min, int_max; lia].
Qed.

Lemma modulo2_up_spec (fuel : nat) :
  forall nb lo hi,
    lo < hi -> hi - lo <= int_max -> is_int lo -> is_int hi ->
    nb < lo -> (Z.to_nat (lo - nb) < fuel)%nat ->
    modulo2_up fuel nb lo hi = Return (lo + (nb - lo) mod (hi - lo)).
Proof.
  unfold is_int, int_min, int_max.
  induction fuel as [|fuel IH]; intros nb lo hi Hlt Hw Hlo Hhi Hnb Hfuel; [lia|].
  cbn [modulo2_up].
  destruct (Z.ltb_spec nb lo) as [_|Hge]; [|lia].
  unfold width, int_max, int_min.
  destruct (Z.gtb_spec (hi - lo) (2 ^ 31 - 1)) as [H|_]; [lia|].
  destruct (Z.ltb_spec (hi - lo) (- 2 ^ 31)) as [H|_]; [lia|].
  cbn [orb].
  destruct (Z.gtb_spec (nb + (hi - lo)) (2 ^ 31 - 1)) as [H|_]; [lia|].
  destruct (Z.ltb_spec (nb + (hi - lo)) lo) as [Hstill|Hdone].
  - rewrite IH by (unfold int_min, int_max; lia). f_equal. f_equal.
    replace (nb + (hi - lo) - lo) with (nb - lo + 1 * (hi - lo)) by lia.
    apply Z_mod_plus_full.
  - destruct fuel as [|fuel]; [lia|]. cbn [modulo2_up].
    destruct (Z.ltb_spec (nb + (hi - lo)) lo) as [H|_]; [lia|].
    f_equal.
    replace (nb - lo) with (nb + (hi - lo) - lo + (-1) * (hi - lo)) by lia.
    rewrite Z_mod_plus_full, Z.mod_small by lia. lia.
Qed.

Lemma modulo2_down_spec (fuel : nat) :
  forall nb lo hi,
    lo < hi -> hi - lo <= int_max -> is_int lo -> is_int hi -> is_int nb ->
    lo <= nb -> (Z.to_nat (nb - lo) < fuel)%nat ->
    modulo2_down fuel nb lo hi = Return (lo + (nb - lo) mod (hi - lo)).
Proof.
  unfold is_int, int_min, int_max.
  induction fuel as [|fuel IH]; intros nb lo hi Hlt Hw Hlo Hhi Hnbi Hnb Hfuel;
    [lia|].
  cbn [modulo2_down].
  destruct (Z.geb_spec nb hi) as [Hge|Hin].
  - unfold width, int_max, int_min.
    destruct (Z.gtb_spec (hi - lo) (2 ^ 31 - 1)) as [H|_]; [lia|].
    destruct (Z.ltb_spec (hi - lo) (- 2 ^ 31)) as [H|_]; [lia|].
    cbn [orb].
    destruct (Z.ltb_spec (nb - (hi - lo)) (- 2 ^ 31)) as [H|_]; [lia|].
    rewrite IH by (unfold int_min, int_max; lia). f_equal. f_equal.
    replace (nb - (hi - lo) - lo) with (nb - lo + (-1) * (hi - lo)) by lia.
    apply Z_mod_plus_full.
  - rewrite Z.mod_small by lia. f_equal. lia.
Qed.

(** X15.  [modulo2] on [int]s: with [modLow >= modHigh] it throws; with
    [modLow < modHigh] and [modHigh - modLow] an [int], it returns the
    number of the half-open range from [modLow] to [modHigh] that is
    congruent to [nb] modulo [modHigh - modLow]. *)
Theorem modulo2_value (fuel : nat) (nb lo hi : Z) :
  is_int nb -> is_int lo -> is_int hi ->
  (Z.to_nat (Z.abs (nb - lo)) < fuel)%nat ->
  (hi <= lo -> modulo2 fuel nb lo hi = Throw) /\
  (lo < hi -> hi - lo <= int_max ->
   modulo2 fuel nb lo hi = Return (lo + (nb - lo) mod (hi - lo)) /\
   lo <= lo + (nb - lo) mod (hi - lo) < hi).
Proof.
  intros Hnb Hlo Hhi Hfuel. unfold modulo2. split.
  - intros Hle. destruct (Z.geb_spec lo hi) as [_|H]; [reflexivity|lia].
  - intros Hlt Hw. destruct (Z.geb_spec lo hi) as [H|_]; [lia|].
    split.
    + destruct (Z.ltb_spec nb lo) as [Hbelow|Habove].
      * apply modulo2_up_spec; try assumption. lia.
      * apply modulo2_down_spec; try assumption. lia.
    + pose proof (Z.mod_pos_bound (nb - lo) (hi - lo) ltac:(lia)). lia.
Qed.

End MathFacts.

Lemma modulo_value_witness :
  math.is_int 6 /\ math.is_int (-3) /\ 6 <> math.int_min /\
  -3 <> math.int_min /\ (Z.to_nat (Z.abs 6) < 7)%nat /\
  (-3 <> 0 ->
   math.modulo 7 6 (-3)
   = math.Return (if 6 =? 0 then 0
                  else Z.sgn 6 * ((Z.abs 6 - 1) mod Z.abs (-3) + 1))) /\
  (-3 = 0 -> 6 <> 0 -> forall fuel', math.modulo fuel' 6 (-3) = math.Timeout).
Proof.
  assert (math.is_int 6) as H6 by (unfold math.is_int, math.int_min, math.int_max; lia).
  assert (math.is_int (-3)) as H3 by (unfold math.is_int, math.int_min, math.int_max; lia).
  assert (6 <> math.int_min) as N6 by (unfold math.int_min; lia).
  assert (-3 <> math.int_min) as N3 by (unfold math.int_min; lia).
  assert (Z.to_nat (Z.abs 6) < 7)%nat as Hf by (simpl; lia).
  split; [exact H6|]. split; [exact H3|]. split; [exact N6|].
  split; [exact N3|]. split; [exact Hf|].
  exact (modulo_value 7 6 (-3) H6 H3 N6 N3 Hf).
Defined.

Lemma modulo2_value_witness :
  math.is_int 7 /\ math.is_int (-1) /\ math.is_int 2 /\
  (Z.to_nat (Z.abs (7 - -1)) < 9)%nat /\
  (2 <= -1 -> math.modulo2 9 7 (-1) 2 = math.Throw) /\
  (-1 < 2 -> 2 - -1 <= math.int_max ->
   math.modulo2 9 7 (-1) 2 = math.Return (-1 + (7 - -1) mod (2 - -1)) /\
   -1 <= -1 + (7 - -1) mod (2 - -1) < 2).
Proof.
  assert (math.is_int 7) as H7 by (unfold math.is_int, math.int_min, math.int_max; lia).
  assert (math.is_int (-1)) as H1 by (unfold math.is_int, math.int_min, math.int_max; lia).
  assert (math.is_int 2) as H2 by (unfold math.is_int, math.int_min, math.int_max; lia).
  assert (Z.to_nat (Z.abs (7 - -1)) < 9)%nat as Hf by (simpl; lia).
  split; [exact H7|]. split; [exact H1|]. split; [exact H2|].
  split; [exact Hf|].
  exact (modulo2_value 9 7 (-1) 2 H7 H1 H2 Hf).
Defined.

(** ** [insert_region] of the region quadtree *)

Section RegionPolygon.

Import quadtree quadtree_region.

(** [quadtree_region::insert_region]: the root quadrant is created when it
    is missing; the points of the polygon and the item are not read.  The
    returned size and the tree after the call. *)
Definition insert_region (t : region_t) (polygon_points : list Z) (item : bool)
  : Z * region_t :=
  let root :=
    match m_root t with
    | nullptr => leaf (m_default_value t) (root_bound t)
    | r => r
    end in
  (m_size t, with_root_size t root (m_size t) (m_depth t)).

(** [set_region], [unset_region] *)
Definition set_region (t : region_t) (polygon_points : list Z) : region_t :=
  snd (insert_region t polygon_points true).
Definition unset_region (t : region_t) (polygon_points : list Z) : region_t :=
  snd (insert_region t polygon_points false).

(** X16.  [set_region] and [unset_region] set nothing: whatever the
    polygon, a region that has its root quadrant is left as it was, and a
    region without root quadrant gets a root leaf holding the default
    value, so that [at] is the default value at every coordinate; the size
    is unchanged and is the value returned. *)
Theorem insert_region_sets_nothing (t : region_t) (polygon_points : list Z)
  (item : bool) :
  fst (insert_region t polygon_points item) = m_size t /\
  m_size (snd (insert_region t polygon_points item)) = m_size t /\
  (is_null (m_root t) = false ->
   snd (insert_region t polygon_points item) = t) /\
  (is_null (m_root t) = true ->
   forall u v,
     quadtree_region.at_ (snd (insert_region t polygon_points item)) u v
     = Some (m_default_value t)) /\
  set_region t polygon_points = unset_region t polygon_points.
Proof.
  split; [reflexivity|]. split; [reflexivity|]. split; [|split].
  - intros Hroot. destruct t as [root sz dp dv edv h w c fl].
    unfold insert_region, with_root_size. cbn in *.
    destruct root; [discriminate|reflexivity].
  - intros Hroot u v. unfold insert_region, quadtree_region.at_.
    cbn [snd with_root_size m_root m_default_value].
    destruct (m_root t); [|discriminate].
    unfold leaf. cbn [quadtree_region.get_value is_null negb].
    destruct (isInside (root_bound t) u v); reflexivity.
  - reflexivity.
Qed.

End RegionPolygon.

Lemma insert_then_erase_witness :
  [(10, 100); (5, 50); (15, 150); (3, 30)] <> [] /\
  ~ In 7 (List.map fst [(10, 100); (5, 50); (15, 150); (3, 30)]) /\
  (S (length [(10, 100); (5, 50); (15, 150); (3, 30)]) < 6)%nat /\
  Z.of_nat (length [(10, 100); (5, 50); (15, 150); (3, 30)]) + 1 < 2 ^ 15 /\
  exists s s1 s2,
    insert_pairs 6 [(10, 100); (5, 50); (15, 150); (3, 30)] map.empty
    = Ok tt s /\
    map.insert 6 7 70 s = Ok true s1 /\
    map.at_ 6 7 s1 = Ok (Some 70) s1 /\
    map.erase 6 7 s1 = Ok (map.m_size s) s2 /\
    map.m_size s2 = map.m_size s /\
    (forall key',
       map.at_ 6 key' s
       = Ok (first_item [(10, 100); (5, 50); (15, 150); (3, 30)] key') s) /\
    (forall key',
       map.at_ 6 key' s2
       = Ok (first_item [(10, 100); (5, 50); (15, 150); (3, 30)] key') s2).
Proof.
  assert ([(10, 100); (5, 50); (15, 150); (3, 30)] <> []) as Hne
      by discriminate.
  assert (~ In 7 (List.map fst [(10, 100); (5, 50); (15, 150); (3, 30)]))
    as Hnot.
  { simpl. intros [H|[H|[H|[H|[]]]]]; discriminate H. }
  assert (S (length [(10, 100); (5, 50); (15, 150); (3, 30)]) < 6)%nat
    as Hfuel by (simpl; lia).
  assert (Z.of_nat (length [(10, 100); (5, 50); (15, 150); (3, 30)]) + 1
          < 2 ^ 15) as Hsmall by (vm_compute; reflexivity).
  split; [exact Hne|]. split; [exact Hnot|]. split; [exact Hfuel|].
  split; [exact Hsmall|].
  exact (insert_then_erase 6 [(10, 100); (5, 50); (15, 150); (3, 30)] 7 70
           Hne Hnot Hfuel Hsmall).
Defined.

(** ** Pipeline: what a stage is called on *)

Section PipelineFlow.

Import pipeline.

Context {val : Type}.
Variable process : nat -> val -> val.

Local Abbreviation state := (pipeline.state val).

(** What the stages before stage [i] make of an element, one after the
    other. *)
Fixpoint through (i : nat) (v : val) : val :=
  match i with
  | O => v
  | S j => process j (through j v)
  end.

(** The elements given to [feed] in a run. *)
Fixpoint fed_values (acts : list (action val)) : list val :=
  match acts with
  | [] => []
  | call_feed v :: acts => v :: fed_values acts
  | _ :: acts => fed_values acts
  end.

Definition slot_ok (F : list val) (j : nat) (o : option val) : Prop :=
  forall r, o = Some r -> exists v, In v F /\ r = through j v.

Definition pc_ok (F : list val) (i : nat) (pc : wpc val) : Prop :=
  match pc with
  | Run a => exists v, In v F /\ a = through i v
  | Have r | LockedNext r => exists v, In v F /\ r = through (S i) v
  | _ => True
  end.

Definition feed_ok (F : list val) (f : feed_pc val) : Prop :=
  match f with
  | Incremented v | FeedLocked v => In v F
  | Pushed => True
  end.

(** Every value in the state comes from an element of [F] through the
    stages before the place where it is. *)
Definition flows (F : list val) (s : state) : Prop :=
  Forall (fun v => In v F) (m_waiting_list s) /\
  (forall j o, m_passing_arguments s !! j = Some o -> slot_ok F j o) /\
  (forall i pc, workers s !! i = Some pc -> pc_ok F i pc) /\
  Forall (feed_ok F) (feeds s).

Lemma insert_indexed {A} (P : nat -> A -> Prop) (l : list A) (j : nat) (y : A) :
  (forall i x, l !! i = Some x -> P i x) ->
  P j y ->
  forall i x, <[j := y]> l !! i = Some x -> P i x.
Proof.
  intros Hall Hy i x Hi. apply list_lookup_insert_Some in Hi.
  destruct Hi as [(-> & -> & _)|(_ & Hi)]; [exact Hy|apply Hall, Hi].
Qed.

Lemma flows_mono (F F' : list val) (s : state) :
  (forall v, In v F -> In v F') -> flows F s -> flows F' s.
Proof.
  intros Hsub (Hwl & Hslots & Hpcs & Hfeeds). split; [|split; [|split]].
  - eapply List.Forall_impl; [|exact Hwl]. intros v. apply Hsub.
  - intros j o Hj r Hr. destruct (Hslots j o Hj r Hr) as (v & Hv & E).
    exists v. split; [apply Hsub, Hv|exact E].
  - intros i pc Hi. specialize (Hpcs i pc Hi).
    destruct pc; try exact I; destruct Hpcs as (v & Hv & E);
      exists v; (split; [apply Hsub, Hv|exact E]).
  - eapply List.Forall_impl; [|exact Hfeeds].
    intros f Hf. destruct f; try exact I; apply Hsub, Hf.
Qed.

Lemma flows_set_pc (F : list val) (s : state) i pc :
  flows F s -> pc_ok F i pc -> flows F (set_pc s i pc).
Proof.
  intros (Hwl & Hslots & Hpcs & Hfeeds) Hpc.
  split; [exact Hwl|]. split; [exact Hslots|]. split; [|exact Hfeeds].
  cbn [workers set_pc]. apply insert_indexed; assumption.
Qed.

Lemma flows_set_slot (F : list val) (s : state) j o :
  flows F s -> slot_ok F j o -> flows F (set_slot s j o).
Proof.
  intros (Hwl & Hslots & Hpcs & Hfeeds) Ho.
  split; [exact Hwl|]. split; [|split; [exact Hpcs|exact Hfeeds]].
  cbn [m_passing_arguments set_slot]. apply insert_indexed; assumption.
Qed.

Lemma worker_step_flows (F : list val) (s s' : state) i :
  flows F s -> worker_step process s i = Some s' -> flows F s'.
Proof.
  intros Hfl Hstep. unfold worker_step in Hstep.
  destruct (workers s !! i) as [pc|] eqn:Hpc; [|discriminate].
  pose proof Hfl as (Hwl & Hslots & Hpcs & Hfeeds).
  pose proof (Hpcs i pc Hpc) as Hok.
  destruct pc;
    repeat match type of Hstep with
           | (if ?c then _ else _) = Some _ => destruct c eqn:?
           | match ?c with _ => _ end = Some _ => destruct c eqn:?
           end;
    try discriminate; injection Hstep as <-;
    try (apply flows_set_pc; [exact Hfl|exact I]).
  - (* stage 0 pops the waiting list *)
    apply List.Forall_cons_iff in Hwl. destruct Hwl as [Hv Hrest].
    apply flows_set_pc.
    + split; [exact Hrest|]. split; [exact Hslots|].
      split; [exact Hpcs|exact Hfeeds].
    + cbn [pc_ok through]. eexists. split; [exact Hv|reflexivity].
  - (* stage i > 0 reads its slot *)
    apply flows_set_pc; [exact Hfl|]. cbn [pc_ok].
    match goal with
    | H : slot_of s ?j = Some ?a |- _ =>
        unfold slot_of in H;
        destruct (m_passing_arguments s !! j) as [o|] eqn:Hj; [|discriminate];
        subst o; exact (Hslots j _ Hj a eq_refl)
    end.
  - (* the process of the stage *)
    apply flows_set_pc; [exact Hfl|]. cbn [pc_ok] in *.
    destruct Hok as (v & Hv & ->). exists v. split; [exact Hv|reflexivity].
  - (* lockNext *)
    apply flows_set_pc; [exact Hfl|]. exact Hok.
  - (* the write of the next slot *)
    apply flows_set_pc; [|exact I]. apply flows_set_slot; [exact Hfl|].
    intros r E. injection E as <-. rewrite Nat.add_1_r. exact Hok.
  - apply flows_set_pc; [|exact I]. apply flows_set_slot; [exact Hfl|].
    intros r E. discriminate E.
  - apply flows_set_pc; [|exact I]. apply flows_set_slot; [exact Hfl|].
    intros r E. discriminate E.
Qed.

Lemma step_flows (F : list val) (s s' : state) (a : action val) :
  flows F s ->
  step process s a = Some s' ->
  flows (F ++ fed_values [a]) s'.
Proof.
  intros Hfl Hstep.
  assert (flows (F ++ fed_values [a]) s) as Hfl'.
  { apply (flows_mono F); [|exact Hfl]. intros v Hv. apply in_or_app. tauto. }
  destruct a as [v|k|i| |]; simpl in Hstep.
  - injection Hstep as <-. destruct Hfl' as (Hwl & Hslots & Hpcs & Hfeeds).
    split; [exact Hwl|]. split; [exact Hslots|]. split; [exact Hpcs|].
    cbn [feeds set_feeds set_jobs]. apply Forall_app. split; [exact Hfeeds|].
    constructor; [|constructor]. cbn [feed_ok fed_values].
    apply in_or_app. right. left. reflexivity.
  - cbn [fed_values] in *. rewrite app_nil_r in *. clear Hfl'.
    destruct Hfl as (Hwl & Hslots & Hpcs & Hfeeds).
    unfold feed_step in Hstep.
    destruct (feeds s !! k) as [[v|v|]|] eqn:Hk; [| | |discriminate].
    + destruct (wl_free s); [|discriminate]. injection Hstep as <-.
      split; [exact Hwl|]. split; [exact Hslots|]. split; [exact Hpcs|].
      cbn [feeds set_feeds]. apply Forall_insert; [exact Hfeeds|].
      exact (proj1 (Forall_lookup _ _) Hfeeds k _ Hk).
    + injection Hstep as <-.
      split; [|split; [exact Hslots|split; [exact Hpcs|]]].
      * cbn [m_waiting_list set_feeds set_waiting_list].
        apply Forall_app. split; [exact Hwl|]. constructor; [|constructor].
        exact (proj1 (Forall_lookup _ _) Hfeeds k _ Hk).
      * cbn [feeds set_feeds]. apply Forall_insert; [exact Hfeeds|exact I].
    + injection Hstep as <-.
      split; [exact Hwl|]. split; [exact Hslots|]. split; [exact Hpcs|].
      cbn [feeds set_feeds]. apply Forall_delete. exact Hfeeds.
  - cbn [fed_values] in *. rewrite app_nil_r in *.
    exact (worker_step_flows F s s' i Hfl Hstep).
  - cbn [fed_values] in *. rewrite app_nil_r in *.
    unfold wait_end_step in Hstep.
    destruct (waiter s);
      repeat match type of Hstep with
             | (if ?c then _ else _) = Some _ => destruct c
             end;
      try discriminate; injection Hstep as <-; exact Hfl.
  - cbn [fed_values] in *. rewrite app_nil_r in *.
    injection Hstep as <-. exact Hfl.
Qed.

Lemma fed_values_cons (a : action val) (acts : list (action val)) :
  fed_values (a :: acts) = fed_values [a] ++ fed_values acts.
Proof. destruct a; reflexivity. Qed.

Lemma run_flows (acts : list (action val)) :
  forall (F : list val) (s s' : state),
    flows F s ->
    run process s acts = Some s' ->
    flows (F ++ fed_values acts) s'.
Proof.
  induction acts as [|a acts IH]; intros F s s' Hfl Hrun; simpl in Hrun.
  - injection Hrun as <-. cbn [fed_values]. rewrite app_nil_r. exact Hfl.
  - destruct (step process s a) as [s1|] eqn:Hstep; [|discriminate].
    rewrite fed_values_cons, app_assoc.
    apply (IH _ s1 s'); [|exact Hrun].
    apply (step_flows F s s1 a Hfl Hstep).
Qed.

Lemma init_flows (n : nat) : flows [] (init n).
Proof.
  split; [constructor|]. split; [|split; [|constructor]].
  - intros j o Hj r ->. cbn [m_passing_arguments init] in Hj.
    apply lookup_replicate in Hj. destruct Hj as [Hj _]. discriminate Hj.
  - intros i pc Hi. cbn [workers init] in Hi.
    apply lookup_replicate in Hi. destruct Hi as [-> _]. exact I.
Qed.

(** X19.  In every run of a pipeline, the process of stage [i] is called
    only on what the processes of the stages before it, applied one after
    the other, made of an element that was given to [feed]; the same holds
    of the value a stage finds in its slot and of every element of the
    waiting list. *)
Theorem stage_is_called_on_fed_elements (n : nat) (acts : list (action val))
  (s : state) :
  run process (init n) acts = Some s ->
  (forall i a, pc_of s i = Run a ->
               exists v, In v (fed_values acts) /\ a = through i v) /\
  (forall j r, slot_of s j = Some r ->
               exists v, In v (fed_values acts) /\ r = through j v) /\
  (forall v, In v (m_waiting_list s) -> In v (fed_values acts)).
Proof.
  intros Hrun.
  pose proof (run_flows acts [] (init n) s (init_flows n) Hrun)
    as (Hwl & Hslots & Hpcs & _).
  cbn [app] in *. split; [|split].
  - intros i a Hi. unfold pc_of in Hi.
    destruct (workers s !! i) as [pc|] eqn:Hpc; [|discriminate].
    subst pc. exact (Hpcs i _ Hpc).
  - intros j r Hj. unfold slot_of in Hj.
    destruct (m_passing_arguments s !! j) as [o|] eqn:Ho; [|discriminate].
    subst o. exact (Hslots j _ Ho r eq_refl).
  - intros v Hv. exact (proj1 (List.Forall_forall _ _) Hwl v Hv).
Qed.

End PipelineFlow.

(** A process that records the stage it is: stage [i] appends the digit
    [i + 1]. *)
Definition tagging_process (i : nat) (v : Z) : Z := 10 * v + Z.of_nat i + 1.

(** One element is fed to a pipeline of two stages; the first stage hands
    its result over and the second stage is about to call its process. *)
Definition two_stage_run : list (pipeline.action Z) :=
  [pipeline.call_feed 7; pipeline.step_feed 0; pipeline.step_feed 0;
   pipeline.step_feed 0]
  ++ repeat (pipeline.step_worker 0) 10 ++ repeat (pipeline.step_worker 1) 4.

Definition two_stage_state : pipeline.state Z :=
  {| pipeline.m_waiting_list := [];
     pipeline.m_passing_arguments := [None; Some 71];
     pipeline.m_continue := true;
     pipeline.m_jobs_in_pipeline := 1;
     pipeline.m_process_count := 2;
     pipeline.workers := [pipeline.Top; pipeline.Run 71];
     pipeline.feeds := [];
     pipeline.waiter := pipeline.NotCalled |}.

Lemma stage_is_called_on_fed_elements_witness :
  pipeline.run tagging_process (pipeline.init 2) two_stage_run
  = Some two_stage_state /\
  pipeline.pc_of two_stage_state 1 = pipeline.Run 71 /\
  (forall i a, pipeline.pc_of two_stage_state i = pipeline.Run a ->
               exists v, In v (fed_values two_stage_run) /\
                         a = through tagging_process i v) /\
  (forall j r, pipeline.slot_of two_stage_state j = Some r ->
               exists v, In v (fed_values two_stage_run) /\
                         r = through tagging_process j v) /\
  (forall v, In v (pipeline.m_waiting_list two_stage_state) ->
             In v (fed_values two_stage_run)).
Proof.
  split; [vm_compute; reflexivity|].
  split; [vm_compute; reflexivity|].
  apply (stage_is_called_on_fed_elements tagging_process 2 two_stage_run
           two_stage_state).
  vm_compute. reflexivity.
Defined.
